(** * The flair lemmatizer: character vocabulary, index matrices and beam search

    A shallow embedding of [flair/models/lemmatizer_model.py].  The class
    [Lemmatizer] is a record of its configuration attributes; the learned
    layers (embeddings, GRU cells, linear maps, softmax, logarithm and
    cross entropy) are the fields of a record [Network] over an abstract type
    of tensors, and every torch operation that acts row by row on a batch is a
    [map] over the rows.  Index tensors are lists of naturals, probabilities
    and log-probabilities are rationals, and Python exceptions are [None] in
    the option monad. *)

From Stdlib Require Import QArith Lia Ascii.
From stdpp Require Import base option list strings gmap sorting.

Close Scope Q_scope.
Open Scope nat_scope.

(** ** Scores

    Log-probabilities are rationals; the batched decoder also writes
    [-inf] into them (line 461), hence the extra point. *)

Inductive score : Type :=
  | NegInf
  | Fin (q : Q).

Definition score_add (a b : score) : score :=
  match a, b with
  | Fin x, Fin y => Fin (x + y)%Q
  | _, _ => NegInf
  end.

Definition Qdiv_nat (x : Q) (n : nat) : Q := (x / inject_Z (Z.of_nat n))%Q.

Definition score_div (a : score) (n : nat) : score :=
  match a with
  | Fin x => Fin (Qdiv_nat x n)
  | NegInf => NegInf
  end.

(** [Qltb x y] is [x < y]. *)
Definition Qltb (x y : Q) : bool := negb (Qle_bool y x).

(** [score_ltb a b] is [a < b]. *)
Definition score_ltb (a b : score) : bool :=
  match a, b with
  | NegInf, Fin _ => true
  | Fin x, Fin y => Qltb x y
  | _, NegInf => false
  end.

(** ** Sorting and top-k

    Python's [sorted(l, key=..., reverse=True)] is stable: elements with equal
    keys keep their order.  [torch.topk] returns the [k] largest entries in
    descending order together with their positions and raises when [k]
    exceeds the length; among equal entries the lower position comes first
    here. *)

Section Sorting.
Context {A : Type} (ltb : A → A → bool).

  (** [x] goes before the first element that is not greater than it. *)
Fixpoint insert_desc (x : A) (l : list A) : list A :=
    match l with
    | [] => [x]
    | y :: l' => if ltb x y then y :: insert_desc x l' else x :: l
    end.

Definition sorted_desc (l : list A) : list A := foldr insert_desc [] l.
End Sorting.

Definition sorted_by {A K : Type} (ltb : K → K → bool) (key : A → K)
    (l : list A) : list A :=
  sorted_desc (λ a b, ltb (key a) (key b)) l.

Definition topk {K : Type} (ltb : K → K → bool) (k : nat) (l : list K)
    : option (list (K * nat)) :=
  if decide (k ≤ length l)
  then Some (take k (sorted_by ltb fst (imap (λ i x, (x, i)) l)))
  else None.

(** Python's [max] of a sequence raises on the empty one. *)
Definition py_max (l : list nat) : option nat :=
  match l with
  | [] => None
  | x :: l' => Some (foldl Nat.max x l')
  end.

(** ** The character dictionary *)

(** Modelled from the spec: the class [flair.data.Dictionary] is not part of
    the sources.  It is a bidirectional symbol/index mapping; [index_of]
    returns the unknown index for an absent item, and the unknown entry is the
    first one (the comments of [create_char_dict_from_corpus] give the three
    special symbols the indices 1, 2 and 3 behind it). *)
Record Dictionary : Type := mkDictionary {
  idx2item : list string;
  add_unk : bool
}.

Definition find_item (d : Dictionary) (item : string) : option nat :=
  fst <$> list_find (λ s, s = item) (idx2item d).

Definition get_idx_for_item (d : Dictionary) (item : string) : nat :=
  default 0 (find_item d item).

Definition get_item_for_index (d : Dictionary) (i : nat) : option string :=
  idx2item d !! i.

Definition add_item (d : Dictionary) (item : string) : Dictionary * nat :=
  match find_item d item with
  | Some i => (d, i)
  | None => (mkDictionary (idx2item d ++ [item]) (add_unk d), length (idx2item d))
  end.

Definition dict_len (d : Dictionary) : nat := length (idx2item d).

(** ** The model object *)

Record Lemmatizer : Type := mkLemmatizer {
  label_type : string;
  beam_size : nat;
  max_sequence_length : nat;
  dependent_on_input : bool;
  padding_in_front_for_encoder : bool;
  start_symbol : bool;
  end_symbol : bool;
  batching_in_rnn : bool;
  bi_encoding : bool;
  rnn_hidden_size : nat;
  rnn_input_size : nat;
  rnn_layers : nat;
  encode_characters : bool;
  use_attention : bool;
  char_dictionary : Dictionary;
  dummy_index : nat;
  start_index : nat;
  end_index : nat;
  (** whether [encoder_embeddings] is set *)
  encoder_embeddings : bool
}.

(** [Lemmatizer.__init__], with the dictionary already loaded; [None] is the
    [KeyError] for a dictionary without the unknown entry. *)
Definition Lemmatizer_init (embeddings : bool) (label_type : string)
    (beam_size rnn_input_size rnn_hidden_size rnn_layers : nat)
    (encode_characters use_attention : bool) (char_dict : Dictionary)
    (max_sequence_length_dependent_on_input : bool) (max_sequence_length : nat)
    (padding_in_front_for_encoder start_symbol_for_encoding
     end_symbol_for_encoding batching_in_rnn bidirectional_encoding : bool)
    : option Lemmatizer :=
  let use_attention := if encode_characters then use_attention else false in
  if add_unk char_dict then
    let '(d1, dummy) := add_item char_dict "<>" in
    let '(d2, start) := add_item d1 "<S>" in
    let '(d3, fin) := add_item d2 "<E>" in
    Some {| label_type := label_type;
            beam_size := beam_size;
            max_sequence_length := max_sequence_length;
            dependent_on_input := max_sequence_length_dependent_on_input;
            padding_in_front_for_encoder := padding_in_front_for_encoder;
            start_symbol := start_symbol_for_encoding;
            end_symbol := end_symbol_for_encoding;
            batching_in_rnn := batching_in_rnn;
            bi_encoding := bidirectional_encoding;
            rnn_hidden_size := rnn_hidden_size;
            rnn_input_size := rnn_input_size;
            rnn_layers := rnn_layers;
            encode_characters := encode_characters;
            use_attention := use_attention;
            char_dictionary := d3;
            dummy_index := dummy;
            start_index := start;
            end_index := fin;
            encoder_embeddings := embeddings |}
  else None.

(** ** Index matrices: [words_to_char_indices] *)

(** The loop [for index, letter in enumerate(tokens[i])]; [offset] is
    [int(start_symbol) + shift]. *)
Fixpoint write_letters (d : Dictionary) (offset : nat) (letters : list ascii)
    (index : nat) (row : list nat) : list nat :=
  match letters with
  | [] => row
  | letter :: rest =>
      write_letters d offset rest (S index)
        (<[index + offset := get_idx_for_item d (String letter EmptyString)]> row)
  end.

Definition fill_row (self : Lemmatizer) (token : string)
    (end_symbol start_symbol padding_in_front : bool)
    (sequence_length c : nat) : list nat :=
  let row := replicate sequence_length (dummy_index self) in
  let dif := sequence_length - (String.length token + c) in
  let shift := if padding_in_front then dif else 0 in
  let row := if start_symbol then <[0 + shift := start_index self]> row else row in
  let row :=
    if end_symbol
    then <[String.length token + Nat.b2n start_symbol + shift := end_index self]> row
    else row in
  write_letters (char_dictionary self) (Nat.b2n start_symbol + shift)
    (String.list_ascii_of_string token) 0 row.

Definition words_to_char_indices (self : Lemmatizer) (tokens : list string)
    (end_symbol start_symbol padding_in_front : bool) (seq_length : option nat)
    : option (list (list nat)) :=
  let c := Nat.b2n end_symbol + Nat.b2n start_symbol in
  longest ← py_max (String.length <$> tokens);
  let max_length := longest + c in
  let sequence_length :=
    match seq_length with
    | None | Some 0 => max_length
    | Some n => n `max` max_length
    end in
  Some ((λ token, fill_row self token end_symbol start_symbol padding_in_front
                    sequence_length c) <$> tokens).

(** ** Words and sentences *)

(** Modelled from the spec: [flair.data.Token] and [flair.data.Sentence] are
    not part of the sources.  A word is a text span with labels attached
    under label names; [get_tag] reads the first label of a name (the empty
    string when there is none), [add_tag] attaches one more and
    [remove_labels] drops all labels of a name. *)
Record Token : Type := mkToken {
  text : string;
  annotation_layers : gmap string (list string)
}.

Definition Sentence : Type := list Token.

Definition get_tag (t : Token) (label_type : string) : string :=
  match annotation_layers t !! label_type with
  | Some (v :: _) => v
  | _ => EmptyString
  end.

Definition remove_labels (t : Token) (label_name : string) : Token :=
  mkToken (text t) (delete label_name (annotation_layers t)).

Definition add_tag (t : Token) (tag_type tag_value : string) : Token :=
  mkToken (text t)
    (<[tag_type := default [] (annotation_layers t !! tag_type) ++ [tag_value]]>
       (annotation_layers t)).

(** ** The learned layers

    One value of [tensor] is what the source keeps for one word (or one
    hypothesis): a recurrent state, the encoder outputs of a word, an
    embedding.  Distributions over the alphabet are lists of rationals.
    Shape errors inside the layers are not modelled. *)
Record Network (tensor : Type) : Type := mkNetwork {
  (** [encoder_character_embedding] followed by [encoder_rnn] on one row of
      character indices: all outputs and the final state *)
  encoder_rnn : list nat → tensor * tensor;
  (** [pad_packed_sequence]: the outputs of a word filled up to the width of
      the batch *)
  pad_packed_sequence : nat → tensor → tensor;
  bi_hidden_states_to_hidden_size : tensor → tensor;
  (** lines 269-271: the final states of the two directions side by side *)
  bi_states : tensor → tensor;
  (** [torch.where(mask, 0., all_encoder_outputs)] on one word *)
  mask_out : list bool → tensor → tensor;
  (** the embedding collaborator: one vector per word of a sentence *)
  embed : list string → list tensor;
  (** [torch.stack(self.rnn_layers * [...])] *)
  stack_layers : nat → tensor → tensor;
  (** [torch.cat(..., dim=2)] followed by [emb_to_hidden] *)
  emb_to_hidden : list tensor → tensor;
  (** [decoder_character_embedding] followed by one step of [decoder_rnn]:
      output and new state *)
  decoder_rnn : nat → tensor → tensor * tensor;
  (** lines 212-218: the output with the attention vector attached *)
  attention : tensor → tensor → tensor;
  character_decoder : tensor → list Q;
  softmax : list Q → list Q;
  (** [torch.log] *)
  ln : Q → Q;
  (** [self.loss] and [self.unreduced_loss] on one row *)
  cross_entropy : list Q → nat → Q
}.

Arguments encoder_rnn {tensor}.
Arguments pad_packed_sequence {tensor}.
Arguments bi_hidden_states_to_hidden_size {tensor}.
Arguments bi_states {tensor}.
Arguments mask_out {tensor}.
Arguments embed {tensor}.
Arguments stack_layers {tensor}.
Arguments emb_to_hidden {tensor}.
Arguments decoder_rnn {tensor}.
Arguments attention {tensor}.
Arguments character_decoder {tensor}.
Arguments softmax {tensor}.
Arguments ln {tensor}.
Arguments cross_entropy {tensor}.

Section Decoder.
Context {tensor : Type} (net : Network tensor) (self : Lemmatizer).

  (** *** [decode], for the one-character inputs of prediction *)
Definition decode (input_index : nat) (hidden : tensor)
      (all_encoder_outputs : option tensor) : option (list Q * tensor) :=
    let '(output, hidden) := decoder_rnn net input_index hidden in
    output ←
      (if use_attention self
       then enc ← all_encoder_outputs; Some (attention net enc output)
       else Some output);
    Some (character_decoder net output, hidden).

  (** the embeddings of the words of a batch, sentence by sentence *)
Definition get_embeddings (batch : list Sentence) : list tensor :=
    batch ≫= λ sentence, embed net (text <$> sentence).

  (** *** [encode]: initial decoder state and encoder outputs of every word *)
Definition encode_chars (tokens : list Token)
      : option (list (tensor * tensor)) :=
    encoder_input_indices ←
      words_to_char_indices self (text <$> tokens) (end_symbol self)
        (start_symbol self) (padding_in_front_for_encoder self) None;
    let extra := Nat.b2n (start_symbol self) + Nat.b2n (end_symbol self) in
    let lengths := (λ token, String.length (text token) + extra) <$> tokens in
    width ← py_max lengths;
    Some (zip_with (λ row len,
            let '(outputs, hidden) := encoder_rnn net (take len row) in
            let outputs := pad_packed_sequence net width outputs in
            let '(outputs, hidden) :=
              if bi_encoding self
              then (bi_hidden_states_to_hidden_size net outputs, bi_states net hidden)
              else (outputs, hidden) in
            (mask_out net ((λ i, bool_decide (i = dummy_index self)) <$> row) outputs,
             hidden))
          encoder_input_indices lengths).

Definition encode (batch : list Sentence)
      : option (list (tensor * option tensor)) :=
    let tokens := concat batch in
    chars ←
      (if encode_characters self then Some <$> encode_chars tokens else Some None);
    let embs :=
      if encoder_embeddings self
      then Some (stack_layers net (rnn_layers self) <$> get_embeddings batch)
      else None in
    mapM (λ i,
        c ← match chars with
            | Some l => Some <$> l !! i
            | None => Some None
            end;
        e ← match embs with
            | Some l => Some <$> l !! i
            | None => Some None
            end;
        match c, e with
        | None, None => None
        | _, _ =>
            Some (emb_to_hidden net (option_list (snd <$> c) ++ option_list e),
                  fst <$> c)
        end) (seq 0 (length tokens)).

  (** *** one decoding step on one hypothesis

      Softmax, the two masked entries, the [beam_size] best characters with
      their probabilities. *)
Definition mask_probs (out_probs : list Q) : list Q :=
    <[start_index self := (-1)%Q]> (<[dummy_index self := (-1)%Q]> out_probs).

Definition top_characters (output_vectors : list Q) : option (list (Q * nat)) :=
    topk Qltb (beam_size self) (mask_probs (softmax net output_vectors)).

  (** the gold string of a word when the loss is wanted *)
Definition gold_label (token : Token) : string :=
    if decide (get_tag token (label_type self) = EmptyString)
    then text token
    else get_tag token (label_type self).
End Decoder.

(** ** Beam search, one word at a time (the branch [else] of line 540) *)

(** A live hypothesis: predictions so far, last hidden state, score, loss. *)
Definition Candidate (tensor : Type) : Type := (list nat * tensor * Q * Q)%type.

(** A hypothesis set aside: predictions, normalised score, normalised loss. *)
Definition Final (S : Type) : Type := (list nat * S * Q)%type.

Section TokenSearch.
Context {tensor : Type} (net : Network tensor) (self : Lemmatizer).
Context (return_loss : bool) (max_length : nat).

  (** lines 560-573: initial state and encoder outputs of one word;
      [all_encoder_outputs] stays unbound when embeddings are used *)
Definition token_encoding (embedding : option tensor) (token : Token)
      : option (tensor * option tensor) :=
    if encoder_embeddings self then
      e ← embedding;
      Some (emb_to_hidden net [stack_layers net (rnn_layers self) e], None)
    else
      input_indices ←
        words_to_char_indices self [text token] (end_symbol self)
          (start_symbol self) false None;
      row ← input_indices !! 0;
      let '(all_encoder_outputs, hidden_state) := encoder_rnn net row in
      Some (hidden_state, Some all_encoder_outputs).

  (** lines 606-613 *)
Definition token_target (token : Token) : option (list nat) :=
    target ← words_to_char_indices self [gold_label self token] true false false
                (Some max_length);
    target !! 0.

  (** lines 575-624: the first pass *)
Definition first_pass (hidden_state : tensor)
      (all_encoder_outputs : option tensor) (target : list nat)
      : option (list (Candidate tensor)) :=
    '(output_vectors, hidden_state) ←
      decode net self (start_index self) hidden_state all_encoder_outputs;
    top ← top_characters net self output_vectors;
    loss ← (if return_loss
            then t ← target !! 0; Some (cross_entropy net output_vectors t)
            else Some 0%Q);
    Some ((λ '(probability, prediction_index),
             ([prediction_index], hidden_state, ln net probability, loss))
            <$> (top : list (Q * nat))).

  (** lines 670-686: the loop over the [beam_size] best predictions of one
      hypothesis *)
Fixpoint spread (seq : list nat) (hidden_state : tensor) (score new_loss : Q)
      (top : list (Q * nat))
      (new_sequences : list (Candidate tensor)) (final_candidates : list (Final Q))
      : list (Candidate tensor) * list (Final Q) :=
    match top with
    | [] => (new_sequences, final_candidates)
    | (probability, prediction_index) :: top =>
        let s := (score + ln net probability)%Q in
        if decide (prediction_index = end_index self)
        then spread seq hidden_state score new_loss top new_sequences
               (final_candidates ++
                  [(seq, Qdiv_nat s (length seq + 1),
                    Qdiv_nat new_loss (length seq + 1))])
        else spread seq hidden_state score new_loss top
               (new_sequences ++ [(seq ++ [prediction_index], hidden_state, s, new_loss)])
               final_candidates
    end.

  (** lines 635-686: the loop over the live hypotheses *)
Fixpoint expand (i : nat) (all_encoder_outputs : option tensor)
      (target : list nat) (sequences : list (Candidate tensor))
      (new_sequences : list (Candidate tensor)) (final_candidates : list (Final Q))
      : option (list (Candidate tensor) * list (Final Q)) :=
    match sequences with
    | [] => Some (new_sequences, final_candidates)
    | (seq, hid, score, seq_loss) :: sequences =>
        input_index ← last seq;
        '(output_vectors, hidden_state) ←
          decode net self input_index hid all_encoder_outputs;
        new_loss ← (if return_loss
                    then t ← target !! i;
                         Some (seq_loss + cross_entropy net output_vectors t)%Q
                    else Some 0%Q);
        top ← top_characters net self output_vectors;
        let '(new_sequences, final_candidates) :=
          spread seq hidden_state score new_loss top new_sequences final_candidates in
        expand i all_encoder_outputs target sequences new_sequences final_candidates
    end.

Definition candidate_score (c : Candidate tensor) : Q := c.1.2.

  (** lines 631-695: beam search after the first run, [steps] being
      [range(1, max_length)] *)
Fixpoint beam_loop (steps : list nat) (all_encoder_outputs : option tensor)
      (target : list nat) (sequences : list (Candidate tensor))
      (final_candidates : list (Final Q))
      : option (list (Candidate tensor) * list (Final Q)) :=
    match steps with
    | [] => Some (sequences, final_candidates)
    | i :: steps =>
        '(new_sequences, final_candidates) ←
          expand i all_encoder_outputs target sequences [] final_candidates;
        if decide (length new_sequences = 0)
        then Some (sequences, final_candidates)
        else beam_loop steps all_encoder_outputs target
               (take (beam_size self) (sorted_by Qltb candidate_score new_sequences))
               final_candidates
    end.

  (** lines 697-702; dividing the integer loss [0] by a [max_length] of zero
      raises *)
Definition without_end (sequences : list (Candidate tensor))
      (final_candidates : list (Final Q)) : option (list (Final Q)) :=
    if decide (length final_candidates = 0) then
      '(seq, _, score, loss) ← sequences !! 0;
      if decide (max_length = 0 ∧ return_loss = false) then None
      else Some (final_candidates ++
                   [(seq, Qdiv_nat score max_length, Qdiv_nat loss max_length)])
    else Some final_candidates.

Definition final_score {S : Type} (c : Final S) : S := c.1.2.

  (** lines 710-713 *)
Definition lemma_of (seq : list nat) : option string :=
    foldl (λ predicted_lemma idx,
             l ← predicted_lemma;
             item ← get_item_for_index (char_dictionary self) idx;
             Some (l +:+ item))
          (Some EmptyString) seq.

  (** the best hypothesis of one word: its index sequence and its loss *)
Definition search_token (embedding : option tensor) (token : Token)
      : option (list nat * Q) :=
    '(hidden_state, all_encoder_outputs) ← token_encoding embedding token;
    target ← (if return_loss then token_target token else Some []);
    sequences ← first_pass hidden_state all_encoder_outputs target;
    '(sequences, final_candidates) ←
      beam_loop (seq 1 (max_length - 1)) all_encoder_outputs target sequences [];
    final_candidates ← without_end sequences final_candidates;
    '(seq, _, loss) ← sorted_by Qltb final_score final_candidates !! 0;
    Some (seq, loss).
End TokenSearch.

(** ** Beam search on a whole batch (the branch of line 353)

    The tensors of the source keep one row per hypothesis, the [beam_size]
    rows of the first word first.  [n_completed] is only counted, never read,
    and is left out. *)

Record Beam (tensor : Type) : Type := mkBeam {
  sequences : list (list nat);
  scores : list score;
  leading_indices : list nat;
  hidden_states_beam : list tensor;
  losses : list Q;
  final_candidates : list (list (Final score))
}.

Arguments mkBeam {tensor}.
Arguments sequences {tensor}.
Arguments scores {tensor}.
Arguments leading_indices {tensor}.
Arguments hidden_states_beam {tensor}.
Arguments losses {tensor}.
Arguments final_candidates {tensor}.

(** [(index_candidates == end_index).nonzero()]: the positions holding the
    end symbol, row by row *)
Definition nonzero (end_index : nat) (index_candidates : list (list nat))
    : list (nat * nat) :=
  concat (imap (λ r row,
            (λ p, (r, p.1)) <$>
              filter (λ p, p.2 = end_index) (imap (λ c idx, (c, idx)) row))
          index_candidates).

(** [t[beam_numbers, seq_numbers]] *)
Definition gather2 {A : Type} (t : list (list A)) (beam_numbers seq_numbers : list nat)
    : option (list A) :=
  mapM (λ '(b, c), row ← t !! b; row !! c) (zip beam_numbers seq_numbers).

(** [t[beam_numbers]] *)
Definition gather {A : Type} (t : list A) (beam_numbers : list nat)
    : option (list A) :=
  mapM (λ b, t !! b) beam_numbers.

Section BatchSearch.
Context {tensor : Type} (net : Network tensor) (self : Lemmatizer).
Context (return_loss : bool) (max_length : nat).

  (** lines 392-397 *)
Definition batch_target (tokens_in_batch : list Token) : option (list (list nat)) :=
    words_to_char_indices self (gold_label self <$> tokens_in_batch) true false false
      (Some max_length).

  (** lines 377-421: the first pass for all words of the batch *)
Definition first_step (encoded : list (tensor * option tensor))
      (target : list (list nat)) : option (Beam tensor) :=
    rows ← mapM (λ '(hidden, all_encoder_outputs),
               '(output_vectors, hidden) ←
                 decode net self (start_index self) hidden all_encoder_outputs;
               top ← top_characters net self output_vectors;
               Some (output_vectors, hidden, top)) encoded;
    losses ←
      (if return_loss
       then (λ l, concat l) <$>
              mapM (λ '(i, (output_vectors, _, _)),
                      row ← target !! i;
                      t ← row !! 0;
                      Some (replicate (beam_size self)
                              (cross_entropy net output_vectors t)))
                   (imap (λ i r, (i, r)) rows)
       else Some []);
    let top_of (r : list Q * tensor * list (Q * nat)) := r.2 in
    Some {| sequences := rows ≫= λ r, (λ p, [p.2]) <$> top_of r;
            scores := rows ≫= λ r, (λ p, Fin (ln net p.1)) <$> top_of r;
            leading_indices := rows ≫= λ r, snd <$> top_of r;
            hidden_states_beam := rows ≫= λ r, replicate (beam_size self) r.1.2;
            losses := losses;
            final_candidates := replicate (length encoded) [] |}.

  (** lines 419-421 *)
Definition batched_encoding_output (encoded : list (tensor * option tensor))
      : list (option tensor) :=
    encoded ≫= λ e,
      replicate (beam_size self) (if use_attention self then e.2 else None).

  (** lines 443-461: one hypothesis with a predicted end symbol is set aside
      and its entry of [log_probabilities] becomes [-inf] *)
Definition set_aside (j : nat) (target : list (list nat)) (st : Beam tensor)
      (output_vectors : list (list Q))
      (acc : list (list (Final score)) * list (list score)) (position : nat * nat)
      : option (list (list (Final score)) * list (list score)) :=
    let '(final_candidates, log_probabilities) := acc in
    let '(r, c) := position in
    let token_number := r / beam_size self in
    seq ← sequences st !! r;
    parent ← scores st !! r;
    row ← log_probabilities !! r;
    log_probability ← row !! c;
    let score := score_div (score_add parent log_probability) (length seq + 1) in
    loss ←
      (if return_loss
       then o ← output_vectors !! r;
            trow ← target !! token_number;
            t ← trow !! j;
            l ← losses st !! r;
            Some (Qdiv_nat (l + cross_entropy net o t) (length seq + 1))
       else Some 0%Q);
    done ← final_candidates !! token_number;
    Some (<[token_number := done ++ [(seq, score, loss)]]> final_candidates,
          <[r := <[c := NegInf]> row]> log_probabilities).

Fixpoint set_aside_all (j : nat) (target : list (list nat)) (st : Beam tensor)
      (output_vectors : list (list Q)) (positions : list (nat * nat))
      (acc : list (list (Final score)) * list (list score))
      : option (list (list (Final score)) * list (list score)) :=
    match positions with
    | [] => Some acc
    | p :: positions =>
        acc ← set_aside j target st output_vectors acc p;
        set_aside_all j target st output_vectors positions acc
    end.

  (** lines 468-487: the [beam_size] best of the [beam_size ** 2] extensions of
      every word, as row and column numbers *)
Definition best_extensions (number_tokens : nat) (scores : list score)
      (log_probabilities : list (list score)) : option (list nat * list nat) :=
    let hypothesis_scores :=
      zip_with (λ s row, score_add s <$> row) scores log_probabilities in
    let hypothesis_scores_per_token :=
      reshape (replicate number_tokens (beam_size self * beam_size self))
        (concat hypothesis_scores) in
    indices_per_token ←
      mapM (λ row, (λ best : list (score * nat), best.*2)
                     <$> topk score_ltb (beam_size self) row)
        hypothesis_scores_per_token;
    let numbers :=
      concat (imap (λ i row,
                (λ index, (i * beam_size self + index / beam_size self,
                           index `mod` beam_size self)) <$> row)
              indices_per_token) in
    Some (numbers.*1, numbers.*2).

  (** lines 425-427 *)
Definition decode_rows (encoding : list (option tensor)) (st : Beam tensor)
      : option (list (list Q * tensor)) :=
    mapM (λ '(input_index, hidden, all_encoder_outputs),
            decode net self input_index hidden all_encoder_outputs)
         (zip (zip (leading_indices st) (hidden_states_beam st)) encoding).

  (** lines 503-508 *)
Definition update_losses (target : list (list nat)) (j : nat)
      (old_losses : list Q) (outputs : list (list Q)) : option (list Q) :=
    mapM (λ '(k, (l, o)),
            row ← (target !! (k / beam_size self) : option (list nat));
            t ← row !! j;
            Some (l + cross_entropy net o t)%Q)
         (imap (λ k x, (k, x)) (zip old_losses outputs)).

  (** lines 425-508: one expansion of all hypotheses *)
Definition expand_batch (number_tokens : nat) (encoding : list (option tensor))
      (target : list (list nat)) (j : nat) (st : Beam tensor)
      : option (Beam tensor) :=
    decoded ← decode_rows encoding st;
    let output_vectors : list (list Q) := decoded.*1 in
    let new_hidden_states : list tensor := decoded.*2 in
    top ← mapM (top_characters net self) output_vectors;
    let index_candidates : list (list nat) :=
      (λ row : list (Q * nat), row.*2) <$> top in
    let log_probabilities : list (list score) :=
      (λ row : list (Q * nat), (λ p, Fin (ln net p.1)) <$> row) <$> top in
    '(final_candidates, log_probabilities) ←
      set_aside_all j target st output_vectors
        (nonzero (end_index self) index_candidates)
        (final_candidates st, log_probabilities);
    '(beam_numbers, seq_numbers) ←
      best_extensions number_tokens (scores st) log_probabilities;
    old_sequences ← gather (sequences st) beam_numbers;
    characters ← gather2 index_candidates beam_numbers seq_numbers;
    old_scores ← gather (scores st) beam_numbers;
    steps ← gather2 log_probabilities beam_numbers seq_numbers;
    new_hidden_states ← gather new_hidden_states beam_numbers;
    new_losses ←
      (if return_loss
       then old_losses ← gather (losses st) beam_numbers;
            outputs ← gather output_vectors beam_numbers;
            update_losses target j old_losses outputs
       else Some []);
    Some (mkBeam (zip_with (λ seq c, seq ++ [c]) old_sequences characters)
                 (zip_with score_add old_scores steps)
                 characters new_hidden_states new_losses final_candidates).

  (** the loop of line 423 *)
Fixpoint expand_loop (number_tokens : nat) (encoding : list (option tensor))
      (target : list (list nat)) (steps : list nat) (st : Beam tensor)
      : option (Beam tensor) :=
    match steps with
    | [] => Some st
    | j :: steps =>
        st ← expand_batch number_tokens encoding target j st;
        expand_loop number_tokens encoding target steps st
    end.

  (** lines 512-520: a word without any finished hypothesis gets its best
      unfinished one *)
Definition fill_unfinished (number_tokens : nat) (st : Beam tensor)
      : option (list (list (Final score))) :=
    best ← mapM (topk score_ltb 1)
             (reshape (replicate number_tokens (beam_size self)) (scores st));
    mapM (λ '(j, row),
            '(score, index) ← row !! 0;
            done ← final_candidates st !! j;
            if decide (length done = 0) then
              let beam := j * beam_size self + index in
              loss ← (if return_loss
                      then l ← losses st !! beam; Some (Qdiv_nat l max_length)
                      else Some 0%Q);
              seq ← sequences st !! beam;
              Some (done ++ [(seq, score_div score max_length, loss)])
            else Some done)
         (imap (λ j row, (j, row)) best).

  (** lines 371-526: the best hypothesis of every word of a batch *)
Definition search_batch (batch : list Sentence) : option (list (list nat * Q)) :=
    let tokens_in_batch := concat batch in
    let number_tokens := length tokens_in_batch in
    encoded ← encode net self batch;
    target ← (if return_loss then batch_target tokens_in_batch else Some []);
    st ← first_step encoded target;
    st ← expand_loop number_tokens (batched_encoding_output encoded) target
           (seq 1 (max_length - 1)) st;
    final_candidates ← fill_unfinished number_tokens st;
    mapM (λ l, '(seq, _, loss) ← sorted_by score_ltb final_score l !! 0;
               Some (seq, loss))
         final_candidates.
End BatchSearch.

(** ** [predict] *)

(** What a call hands back: nothing, the filtered list of line 336, or the
    pair of line 724. *)
Inductive Returned : Type :=
  | RetNone
  | RetSentences (sentences : list Sentence)
  | RetLoss (overall_loss : Q) (number_tokens_in_total : nat).

Definition set_batching_in_rnn (b : bool) (self : Lemmatizer) : Lemmatizer :=
  {| label_type := label_type self;
     beam_size := beam_size self;
     max_sequence_length := max_sequence_length self;
     dependent_on_input := dependent_on_input self;
     padding_in_front_for_encoder := padding_in_front_for_encoder self;
     start_symbol := start_symbol self;
     end_symbol := end_symbol self;
     batching_in_rnn := b;
     bi_encoding := bi_encoding self;
     rnn_hidden_size := rnn_hidden_size self;
     rnn_input_size := rnn_input_size self;
     rnn_layers := rnn_layers self;
     encode_characters := encode_characters self;
     use_attention := use_attention self;
     char_dictionary := char_dictionary self;
     dummy_index := dummy_index self;
     start_index := start_index self;
     end_index := end_index self;
     encoder_embeddings := encoder_embeddings self |}.

(** [DataLoader(dataset, batch_size)]: consecutive batches of [batch_size]
    sentences; a batch size of zero is refused. *)
Fixpoint batches_of {A : Type} (fuel batch_size : nat) (l : list A) : list (list A) :=
  match fuel, l with
  | S fuel, _ :: _ => take batch_size l :: batches_of fuel batch_size (drop batch_size l)
  | _, _ => []
  end.

Definition data_loader {A : Type} (batch_size : nat) (l : list A)
    : option (list (list A)) :=
  if decide (batch_size = 0) then None
  else Some (batches_of (length l) batch_size l).

(** The sentences are changed in place: the caller's list holds the annotated
    sentences at the places of the non-empty ones. *)
Fixpoint scatter (sentences annotated : list Sentence) : list Sentence :=
  match sentences with
  | [] => []
  | s :: sentences =>
      if decide (0 < length s) then
        match annotated with
        | a :: annotated => a :: scatter sentences annotated
        | [] => s :: scatter sentences []
        end
      else s :: scatter sentences annotated
  end.

Definition Qsum (l : list Q) : Q := foldl Qplus 0%Q l.

Section Predict.
Context {tensor : Type} (net : Network tensor).

  (** lines 338-342 *)
Definition max_length_of (self : Lemmatizer) (sentences : list Sentence)
      : option nat :=
    if dependent_on_input self
    then py_max ((λ token, String.length (text token) + 1) <$> concat sentences)
    else Some (max_sequence_length self).

  (** lines 356-538: one batch, all words at once *)
Definition predict_batch (self : Lemmatizer) (label_name : string)
      (return_loss : bool) (max_length : nat) (batch : list Sentence)
      : option (list Sentence * Q * nat) :=
    let batch := (λ sentence, (λ token, remove_labels token label_name) <$> sentence)
                   <$> batch in
    let tokens_in_batch := concat batch in
    output_sequences ← search_batch net self return_loss max_length batch;
    lemmas ← mapM (λ best, lemma_of self best.1) output_sequences;
    let tagged :=
      imap (λ i token,
              match lemmas !! i with
              | Some predicted_lemma => add_tag token label_name predicted_lemma
              | None => token
              end) tokens_in_batch in
    Some (reshape (length <$> batch) tagged, Qsum output_sequences.*2,
          length tokens_in_batch).

  (** lines 553-716: one word *)
Definition predict_token (self : Lemmatizer) (label_name : string)
      (return_loss : bool) (max_length : nat) (embedding : option tensor)
      (token : Token) : option (Token * Q) :=
    let token := remove_labels token label_name in
    '(best_sequence, loss) ←
      search_token net self return_loss max_length embedding token;
    predicted_lemma ← lemma_of self best_sequence;
    Some (add_tag token label_name predicted_lemma, loss).

Definition predict_sentence (self : Lemmatizer) (label_name : string)
      (return_loss : bool) (max_length : nat) (sentence : Sentence)
      : option (list (Token * Q)) :=
    let embeddings := embed net (text <$> sentence) in
    mapM (λ '(i, token),
            predict_token self label_name return_loss max_length
              (embeddings !! i) token)
         (imap (λ i token, (i, token)) sentence).

  (** lines 544-718: one batch, word by word *)
Definition predict_batch_tokens (self : Lemmatizer) (label_name : string)
      (return_loss : bool) (max_length : nat) (batch : list Sentence)
      : option (list Sentence * Q * nat) :=
    results ← mapM (predict_sentence self label_name return_loss max_length) batch;
    Some ((λ r : list (Token * Q), r.*1) <$> results,
          Qsum (concat results).*2,
          length (concat results)).

  (** [predict]: the model after the call, and, unless an exception ends the
      call, the caller's sentences after it and the returned value *)
Definition predict (self : Lemmatizer) (sentences : Sentence + list Sentence)
      (label_name : string) (mini_batch_size : nat) (return_loss : bool)
      : Lemmatizer * option (list Sentence * Returned) :=
    let self :=
      if decide (beam_size self = 1) then set_batching_in_rnn false self else self in
    let given := match sentences with inl s => [s] | inr l => l end in
    let sentences := filter (λ sentence : Sentence, 0 < length sentence) given in
    (self,
     if decide (length sentences = 0) then Some (given, RetSentences sentences)
     else
       max_length ← max_length_of self sentences;
       dataloader ← data_loader mini_batch_size sentences;
       results ←
         mapM (if batching_in_rnn self
               then predict_batch self label_name return_loss max_length
               else predict_batch_tokens self label_name return_loss max_length)
              dataloader;
       let overall_loss := Qsum ((λ r : list Sentence * Q * nat, r.1.2) <$> results) in
       let number_tokens_in_total :=
         sum_list ((λ r : list Sentence * Q * nat, r.2) <$> results) in
       Some (scatter given (concat ((λ r : list Sentence * Q * nat, r.1.1) <$> results)),
             if return_loss
             then RetLoss overall_loss number_tokens_in_total
             else RetNone)).
End Predict.

(** ** [_get_state_dict] *)

Inductive StateValue : Type :=
  | VBool (b : bool)
  | VNat (n : nat)
  | VStr (s : string)
  | VDict (d : Dictionary)
  (** the learned parameters *)
  | VWeights.

Definition _get_state_dict (self : Lemmatizer) : gmap string StateValue :=
  list_to_map
    [("state_dict", VWeights);
     ("embeddings", VBool (encoder_embeddings self));
     ("rnn_input_size", VNat (rnn_input_size self));
     ("rnn_hidden_size", VNat (rnn_hidden_size self));
     ("rnn_layers", VNat (rnn_layers self));
     ("char_dict", VDict (char_dictionary self));
     ("label_type", VStr (label_type self));
     ("beam_size", VNat (beam_size self));
     ("max_sequence_length", VNat (max_sequence_length self));
     ("dependent_on_input", VBool (dependent_on_input self));
     ("use_attention", VBool (use_attention self));
     ("padding_in_front_for_encoder", VBool (padding_in_front_for_encoder self));
     ("encode_characters", VBool (encode_characters self));
     ("start_symbol", VBool (start_symbol self));
     ("end_symbol", VBool (end_symbol self));
     ("batching_in_rnn", VBool (batching_in_rnn self));
     ("bidirectional_encoding", VBool (bi_encoding self))].

(** * Notions used by the statements *)

(** ** Index matrices *)

Definition special (present : bool) (index : nat) : list nat :=
  if present then [index] else [].

Definition char_indices (d : Dictionary) (token : string) : list nat :=
  (λ letter, get_idx_for_item d (String letter EmptyString))
    <$> String.list_ascii_of_string token.

(** ** Orders that sort *)

Class DescOrder {A : Type} (ltb : A → A → bool) : Prop := {
  ltb_asym x y : ltb x y = true → ltb y x = false;
  geb_trans x y z : ltb x y = false → ltb y z = false → ltb x z = false
}.

(** [not_below ltb a b]: [a] is not smaller than [b]. *)
Definition not_below {A : Type} (ltb : A → A → bool) : relation A :=
  λ a b, ltb a b = false.

(** ** Calls of [predict] *)

Record Call : Type := mkCall {
  call_sentences : Sentence + list Sentence;
  call_label_name : string;
  call_mini_batch_size : nat;
  call_return_loss : bool
}.

(** the model after one call, and after several in a row *)
Definition after_call {tensor : Type} (net : Network tensor) (self : Lemmatizer)
    (c : Call) : Lemmatizer :=
  (predict net self (call_sentences c) (call_label_name c)
     (call_mini_batch_size c) (call_return_loss c)).1.

Definition after_calls {tensor : Type} (net : Network tensor) (self : Lemmatizer)
    (calls : list Call) : Lemmatizer :=
  foldl (after_call net) self calls.

(** ** Continuations of one hypothesis (word-by-word search) *)

Section Continuations.
Context {tensor : Type} (net : Network tensor) (self : Lemmatizer).
Context (return_loss : bool).

  (** the continuations of a hypothesis by a character other than the end
      symbol, and those by the end symbol, set aside with normalised score *)
Definition live_children (seq : list nat) (hidden_state : tensor)
      (score new_loss : Q) (top : list (Q * nat)) : list (Candidate tensor) :=
    (λ p, (seq ++ [p.2], hidden_state, (score + ln net p.1)%Q, new_loss))
      <$> filter (λ p, p.2 ≠ end_index self) top.

Definition finished_children (seq : list nat) (score new_loss : Q)
      (top : list (Q * nat)) : list (Final Q) :=
    (λ p, (seq, Qdiv_nat (score + ln net p.1) (length seq + 1),
           Qdiv_nat new_loss (length seq + 1)))
      <$> filter (λ p, p.2 = end_index self) top.

  (** one hypothesis at step [i]: the [beam_size] best next characters with
      their probabilities, the new hidden state and the new loss *)
Definition next_characters (i : nat) (all_encoder_outputs : option tensor)
      (target : list nat) (h : Candidate tensor)
      : option (list (Q * nat) * tensor * Q) :=
    let '(seq, hid, score, seq_loss) := h in
    input_index ← last seq;
    '(output_vectors, hidden_state) ←
      decode net self input_index hid all_encoder_outputs;
    new_loss ← (if return_loss
                then t ← target !! i;
                     Some (seq_loss + cross_entropy net output_vectors t)%Q
                else Some 0%Q);
    top ← top_characters net self output_vectors;
    Some (top, hidden_state, new_loss).

Definition candidate_seq (c : Candidate tensor) : list nat := c.1.1.1.

Definition children_of (h : Candidate tensor) (r : list (Q * nat) * tensor * Q)
      : list (Candidate tensor) * list (Final Q) :=
    (live_children (candidate_seq h) r.1.2 (candidate_score h) r.2 r.1.1,
     finished_children (candidate_seq h) (candidate_score h) r.2 r.1.1).
End Continuations.

(** ** Well-formed networks and sequences *)

(** every output of the decoder, after the softmax, is a distribution over an
    alphabet of [n] characters: [n] entries, none negative *)
Definition distributions {tensor : Type} (net : Network tensor) (n : nat) : Prop :=
  ∀ t : tensor,
    length (softmax net (character_decoder net t)) = n ∧
    ∀ p, p ∈ softmax net (character_decoder net t) → (0 <= p)%Q.

(** a sequence without the padding and the start symbol *)
Definition clean (self : Lemmatizer) (seq : list nat) : Prop :=
  (dummy_index self ∉ seq) ∧ (start_index self ∉ seq).

Definition final_seq {S : Type} (c : Final S) : list nat := c.1.1.

(** ** The batched search, row by row *)

Section Rows.
Context {tensor : Type} (net : Network tensor) (self : Lemmatizer).
Context (return_loss : bool).

  (** the entry at row [r], column [c] of a table *)
Definition entry {A : Type} (t : list (list A)) (r c : nat) : option A :=
    t !! r ≫= (.!! c).

  (** what is set aside for the end symbol at row [r], column [c] (lines
      446-454) *)
Definition finished_entry (j : nat) (target : list (list nat)) (st : Beam tensor)
      (output_vectors : list (list Q)) (log_probabilities : list (list score))
      (r c : nat) : option (Final score) :=
    seq ← sequences st !! r;
    parent ← scores st !! r;
    log_probability ← entry log_probabilities r c;
    loss ←
      (if return_loss
       then o ← output_vectors !! r;
            trow ← target !! (r / beam_size self);
            t ← trow !! j;
            l ← losses st !! r;
            Some (Qdiv_nat (l + cross_entropy net o t) (length seq + 1))
       else Some 0%Q);
    Some (seq, score_div (score_add parent log_probability) (length seq + 1), loss).

  (** [log_probabilities] with [-inf] at the positions of the end symbol *)
Definition without_end_symbol (index_candidates : list (list nat))
      (log_probabilities : list (list score)) : list (list score) :=
    zip_with (zip_with (λ idx lp, if decide (idx = end_index self) then NegInf else lp))
      index_candidates log_probabilities.

  (** all rows of a state have a finite score *)
Definition finite_scores (st : Beam tensor) : Prop :=
    ∀ s, s ∈ scores st → ∃ q, s = Fin q.

  (** the tensors of a state have one row per hypothesis of [n] words *)
Definition shaped (n : nat) (st : Beam tensor) : Prop :=
    length (sequences st) = n * beam_size self ∧
    length (scores st) = n * beam_size self ∧
    length (leading_indices st) = n * beam_size self ∧
    length (hidden_states_beam st) = n * beam_size self ∧
    length (final_candidates st) = n.
End Rows.

(** the tables of one expansion: the characters and the log-probabilities of
    the [beam_size] best continuations of every row *)
Definition index_table (top : list (list (Q * nat))) : list (list nat) :=
  (λ row : list (Q * nat), row.*2) <$> top.

Definition log_table {tensor : Type} (net : Network tensor)
    (top : list (list (Q * nat))) : list (list score) :=
  (λ row : list (Q * nat), (λ p, Fin (ln net p.1)) <$> row) <$> top.

(** the cumulative score of the continuation of row [r] by its [c]-th
    character (line 468) *)
Definition hypothesis_score (scores : list score) (log_probabilities : list (list score))
    (r c : nat) : option score :=
  s ← scores !! r;
  lp ← entry log_probabilities r c;
  Some (score_add s lp).

Definition is_finite (s : score) : bool :=
  match s with
  | Fin _ => true
  | NegInf => false
  end.

(** row [r] of a state, decoded once more: the [beam_size] best next
    characters with their probabilities, the new hidden state, the output *)
Definition row_continuations {tensor : Type} (net : Network tensor)
    (self : Lemmatizer) (encoding : list (option tensor)) (st : Beam tensor)
    (r : nat) : option (list (Q * nat) * tensor * list Q) :=
  input_index ← leading_indices st !! r;
  hidden ← hidden_states_beam st !! r;
  all_encoder_outputs ← encoding !! r;
  '(output_vectors, hidden) ← decode net self input_index hidden all_encoder_outputs;
  top ← top_characters net self output_vectors;
  Some (top, hidden, output_vectors).

Section RowContinuations.
Context {tensor : Type} (net : Network tensor) (self : Lemmatizer).
Context (return_loss : bool).

  (** the [c]-th best continuation of row [r]: probability and character *)
Definition continuation (encoding : list (option tensor)) (st : Beam tensor)
      (r c : nat) : option (Q * nat) :=
    x ← row_continuations net self encoding st r;
    x.1.1 !! c.

  (** the hypothesis set aside when the [c]-th best continuation of row [r]
      is the end symbol *)
Definition finished_hypothesis (j : nat) (target : list (list nat))
      (encoding : list (option tensor)) (st : Beam tensor) (r c : nat)
      : option (Final score) :=
    x ← row_continuations net self encoding st r;
    p ← x.1.1 !! c;
    seq ← sequences st !! r;
    parent ← scores st !! r;
    loss ←
      (if return_loss
       then trow ← target !! (r / beam_size self);
            t ← trow !! j;
            l ← losses st !! r;
            Some (Qdiv_nat (l + cross_entropy net x.2 t) (length seq + 1))
       else Some 0%Q);
    Some (seq, score_div (score_add parent (Fin (ln net p.1))) (length seq + 1), loss).
End RowContinuations.

(** no sequence of a state, live or finished, holds a masked symbol *)
Definition clean_state {tensor : Type} (self : Lemmatizer) (st : Beam tensor) : Prop :=
  (∀ sq, sq ∈ sequences st → clean self sq) ∧
  (∀ l f, l ∈ final_candidates st → f ∈ l → clean self (final_seq f)).

(** ** What [predict] does to a word *)

(** [tagged label_name lemma token]: the word after the call, its old labels
    of that name replaced by the predicted lemma *)
Definition tagged (label_name lemma : string) (token : Token) : Token :=
  add_tag (remove_labels token label_name) label_name lemma.

(** a sentence and its annotated version: the same words, every one tagged
    with some lemma *)
Definition annotated (label_name : string) (s s' : Sentence) : Prop :=
  Forall2 (λ token token', ∃ lemma, token' = tagged label_name lemma token) s s'.

(** the caller's sentences: one sentence is put into a list (line 330) *)
Definition given_sentences (sentences : Sentence + list Sentence) : list Sentence :=
  match sentences with inl s => [s] | inr l => l end.

(** * Concrete models

    A dictionary of three letters behind the four special entries, and small
    networks whose tensors are numbers: the hidden state counts the decoding
    steps, and the distribution of the next character is a table indexed by
    the last character and the hidden state. *)

Definition demo_dictionary : Dictionary :=
  mkDictionary ["<unk>"; "<>"; "<S>"; "<E>"; "a"; "b"; "c"] true.

Definition demo_model (beam : nat) (batching dependent : bool) (fixed_length : nat)
    : Lemmatizer :=
  {| label_type := "lemma";
     beam_size := beam;
     max_sequence_length := fixed_length;
     dependent_on_input := dependent;
     padding_in_front_for_encoder := false;
     start_symbol := true;
     end_symbol := false;
     batching_in_rnn := batching;
     bi_encoding := false;
     rnn_hidden_size := 128;
     rnn_input_size := 30;
     rnn_layers := 1;
     encode_characters := true;
     use_attention := true;
     char_dictionary := demo_dictionary;
     dummy_index := 1;
     start_index := 2;
     end_index := 3;
     encoder_embeddings := false |}.

Definition demo_network (dist : nat → nat → list Q) : Network nat :=
  {| encoder_rnn := λ row, (0, length row);
     pad_packed_sequence := λ width t, t + width;
     bi_hidden_states_to_hidden_size := λ t, t;
     bi_states := λ t, t;
     mask_out := λ mask t, t;
     embed := λ l, (λ _, 0) <$> l;
     stack_layers := λ layers t, t;
     emb_to_hidden := λ l, 0;
     decoder_rnn := λ idx hid, (idx * 100 + hid, S hid);
     attention := λ enc out, out;
     character_decoder := λ out, dist (out / 100) (out `mod` 100);
     softmax := λ l, l;
     ln := λ p, (p - 1)%Q;
     cross_entropy := λ l t, (1 - default 0 (l !! t))%Q |}.

(** the end symbol is never among the two best characters *)
Definition never_end : nat → nat → list Q :=
  λ _ _, [1 # 10; 0; 0; 0; 5 # 10; 3 # 10; 1 # 10]%Q.

(** the end symbol is always the best character *)
Definition end_first : nat → nat → list Q :=
  λ _ _, [1 # 10; 0; 0; 6 # 10; 5 # 10; 3 # 10; 1 # 10]%Q.

(** after an "a" the end symbol is the best character, otherwise "a" is *)
Definition end_after_a : nat → nat → list Q :=
  λ last _, if decide (last = 4)
            then [0; 0; 0; 6 # 10; 3 # 10; 1 # 10; 0]%Q
            else [0; 0; 0; 2 # 10; 5 # 10; 3 # 10; 0]%Q.

Definition word (s : string) : Token := mkToken s ∅.

(** the lemmas that the words of the caller's sentences carry under a label *)
Definition predicted_lemmas (label_name : string) (sentences : list Sentence)
    : list (list string) :=
  (λ s : Sentence, (λ token, get_tag token label_name) <$> s) <$> sentences.

(** the states of a search for the word "ab" with two hypotheses, in a
    network that ends a lemma after an "a" *)
Definition demo_beam2 : Lemmatizer := demo_model 2 true true 3.

Definition demo_live : list (Candidate nat) :=
  default [] (first_pass (demo_network end_after_a) demo_beam2 false 3 (Some 0) []).

Definition demo_encoded : list (nat * option nat) :=
  default [] (encode (demo_network end_after_a) demo_beam2 [[word "ab"]]).

Definition demo_state0 : Beam nat :=
  default (mkBeam [] [] [] [] [] [])
    (first_step (demo_network end_after_a) demo_beam2 false demo_encoded []).

Definition demo_state1 : Beam nat :=
  default (mkBeam [] [] [] [] [] [])
    (expand_batch (demo_network end_after_a) demo_beam2 false 1
       (batched_encoding_output demo_beam2 demo_encoded) [] 1 demo_state0).


(** a sentence and its version with predictions: the same words, every one
    tagged with a lemma that is not the empty string *)
Definition with_lemma (label_name : string) (s s' : Sentence) : Prop :=
  Forall2 (λ token token',
             ∃ lemma, lemma ≠ EmptyString ∧ token' = tagged label_name lemma token)
    s s'.

(** [torch.log] does not decrease *)
Definition monotone_ln {tensor : Type} (net : Network tensor) : Prop :=
  ∀ p q : Q, (p <= q)%Q → (ln net p <= ln net q)%Q.

(** ** Greedy decoding, after the words of the specification

    "Pure greedy decoding (always pick the single highest-probability next
    character)", along the steps of the algorithm of the specification: the
    first character is the best one of the first, masked distribution; every
    later step decodes from the last character, and ends the lemma when its
    best character is the end symbol; the lemma has at most [max_length]
    characters.  This definition is not taken from the code. *)

(** the position and the value of the highest entry, the first one among
    equals *)
Fixpoint highest (l : list Q) : option (nat * Q) :=
  match l with
  | [] => None
  | x :: l' =>
      match highest l' with
      | Some (i, v) => if Qltb x v then Some (S i, v) else Some (0, x)
      | None => Some (0, x)
      end
  end.

Section Greedy.
Context {tensor : Type} (net : Network tensor) (self : Lemmatizer).

Definition greedy_character (input_index : nat) (hidden : tensor)
    (all_encoder_outputs : option tensor) : option (nat * tensor) :=
  '(output_vectors, hidden) ← decode net self input_index hidden all_encoder_outputs;
  best ← highest (mask_probs self (softmax net output_vectors));
  Some (best.1, hidden).

Fixpoint greedy_from (steps : nat) (all_encoder_outputs : option tensor)
    (input_index : nat) (hidden : tensor) (lemma : list nat) : option (list nat) :=
  match steps with
  | 0 => Some lemma
  | S steps =>
      '(character, hidden) ←
        greedy_character input_index hidden all_encoder_outputs;
      if decide (character = end_index self) then Some lemma
      else greedy_from steps all_encoder_outputs character hidden (lemma ++ [character])
  end.

Definition greedy (max_length : nat) (hidden : tensor)
    (all_encoder_outputs : option tensor) : option (list nat) :=
  '(character, hidden) ←
    greedy_character (start_index self) hidden all_encoder_outputs;
  greedy_from (max_length - 1) all_encoder_outputs character hidden [character].
End Greedy.

(** ** The rows of one word in two batched searches *)

(** the [w] rows of word [t1] in [l1] are the rows of word [t2] in [l2] *)
Definition same_block {A : Type} (w t1 t2 : nat) (l1 l2 : list A) : Prop :=
  ∀ k, k < w → l1 !! (t1 * w + k) = l2 !! (t2 * w + k).

(** word [t1] of the state [st1] and word [t2] of the state [st2] have the
    same hypotheses, live and finished *)
Definition same_word {tensor : Type} (self : Lemmatizer) (return_loss : bool)
    (t1 t2 : nat) (st1 st2 : Beam tensor) : Prop :=
  same_block (beam_size self) t1 t2 (sequences st1) (sequences st2) ∧
  same_block (beam_size self) t1 t2 (scores st1) (scores st2) ∧
  same_block (beam_size self) t1 t2 (leading_indices st1) (leading_indices st2) ∧
  same_block (beam_size self) t1 t2 (hidden_states_beam st1) (hidden_states_beam st2) ∧
  (return_loss = true →
   same_block (beam_size self) t1 t2 (losses st1) (losses st2)) ∧
  final_candidates st1 !! t1 = final_candidates st2 !! t2.

(** the gold characters of word [t1] and of word [t2] agree at step [j] *)
Definition same_target (t1 t2 j : nat) (target1 target2 : list (list nat)) : Prop :=
  target1 !! t1 ≫= (.!! j) = target2 !! t2 ≫= (.!! j).

(** no word is longer than [token] *)
Definition longest (token : Token) (tokens : list Token) : Prop :=
  ∀ x, x ∈ tokens → String.length (text x) ≤ String.length (text token).


(** * Training, persistence and the character vocabulary of a corpus *)

(** ** [create_char_dict_from_corpus] *)

(** Modelled from the spec: [Dictionary(add_unk=True)], a dictionary that
    holds the unknown entry and nothing else. *)
Definition new_dictionary : Dictionary := mkDictionary ["<unk>"] true.

(** [for character in token.text]: the characters of a string, each one a
    string of length one *)
Definition characters (s : string) : list string :=
  (λ character, String character EmptyString) <$> String.list_ascii_of_string s.

(** a corpus is the list of its sentences ([corpus.get_all_sentences()]) *)
Definition create_char_dict_from_corpus (corpus : list Sentence) : Dictionary :=
  let char_dict := new_dictionary in
  let char_dict := (add_item char_dict "<>").1 in
  let char_dict := (add_item char_dict "<S>").1 in
  let char_dict := (add_item char_dict "<E>").1 in
  foldl (λ char_dict sen,
           foldl (λ char_dict token,
                    foldl (λ char_dict character, (add_item char_dict character).1)
                      char_dict (characters (text token)))
             char_dict sen)
    char_dict corpus.

(** ** [_init_model_with_state_dict] *)

(** [state[key]] for a parameter of each kind.  [None] is the [KeyError] of a
    missing entry; an entry of another kind than the parameter it is handed
    to has no counterpart in the record [Lemmatizer] and is refused as
    well. *)
Definition state_bool (state : gmap string StateValue) (key : string) : option bool :=
  state !! key ≫= λ v, match v with VBool b => Some b | _ => None end.

Definition state_nat (state : gmap string StateValue) (key : string) : option nat :=
  state !! key ≫= λ v, match v with VNat n => Some n | _ => None end.

Definition state_str (state : gmap string StateValue) (key : string) : option string :=
  state !! key ≫= λ v, match v with VStr s => Some s | _ => None end.

Definition state_dictionary (state : gmap string StateValue) (key : string)
    : option Dictionary :=
  state !! key ≫= λ v, match v with VDict d => Some d | _ => None end.

(** The entries are read in the order of the keyword arguments, the
    constructor runs, and the learned parameters are read last. *)
Definition _init_model_with_state_dict (state : gmap string StateValue)
    : option Lemmatizer :=
  embeddings ← state_bool state "embeddings";
  encode_characters ← state_bool state "encode_characters";
  rnn_input_size ← state_nat state "rnn_input_size";
  rnn_hidden_size ← state_nat state "rnn_hidden_size";
  rnn_layers ← state_nat state "rnn_layers";
  char_dict ← state_dictionary state "char_dict";
  label_type ← state_str state "label_type";
  beam_size ← state_nat state "beam_size";
  max_sequence_length_dependent_on_input ← state_bool state "dependent_on_input";
  max_sequence_length ← state_nat state "max_sequence_length";
  use_attention ← state_bool state "use_attention";
  padding_in_front_for_encoder ← state_bool state "padding_in_front_for_encoder";
  start_symbol_for_encoding ← state_bool state "start_symbol";
  end_symbol_for_encoding ← state_bool state "end_symbol";
  batching_in_rnn ← state_bool state "batching_in_rnn";
  bidirectional_encoding ← state_bool state "bidirectional_encoding";
  model ← Lemmatizer_init embeddings label_type beam_size rnn_input_size
             rnn_hidden_size rnn_layers encode_characters use_attention char_dict
             max_sequence_length_dependent_on_input max_sequence_length
             padding_in_front_for_encoder start_symbol_for_encoding
             end_symbol_for_encoding batching_in_rnn bidirectional_encoding;
  _ ← state !! "state_dict";
  Some model.

(** ** Training: [forward_pass], [_calculate_loss], [forward_loss] *)

Section Training.
Context {tensor : Type} (net : Network tensor) (self : Lemmatizer).

  (** [decode] on a whole row of characters: the recurrent layer reads the
      row from left to right, one step of [decoder_rnn] per character; the
      attention and [character_decoder] act on the output of every step. *)
Fixpoint decode_sequence (decoder_input_indices : list nat) (hidden : tensor)
      (all_encoder_outputs : option tensor) : option (list (list Q) * tensor) :=
    match decoder_input_indices with
    | [] => Some ([], hidden)
    | input_index :: rest =>
        '(output_vector, hidden) ←
          decode net self input_index hidden all_encoder_outputs;
        '(output_vectors, hidden) ← decode_sequence rest hidden all_encoder_outputs;
        Some (output_vector :: output_vectors, hidden)
    end.

  (** lines 181-202: the output vectors of every word, position by position,
      and the gold lemmas *)
Definition forward_pass (sentences : Sentence + list Sentence)
      : option (list (list (list Q)) * list string) :=
    let sentences := match sentences with inl s => [s] | inr l => l end in
    encoded ← encode net self sentences;
    let labels := (λ token, get_tag token (label_type self)) <$> concat sentences in
    decoder_input_indices ← words_to_char_indices self labels false true false None;
    output_vectors ←
      mapM (λ '(row, (initial_hidden_state, all_encoder_outputs)),
              fst <$> decode_sequence row initial_hidden_state all_encoder_outputs)
           (zip decoder_input_indices encoded);
    Some (output_vectors, labels).

  (** lines 294-303: [self.loss] is [CrossEntropyLoss] with its default
      reduction, the mean over all positions of all words; it raises when
      scores and target differ in shape. *)
Definition _calculate_loss (scores : list (list (list Q))) (labels : list string)
      : option Q :=
    target ← words_to_char_indices self labels true false false None;
    if decide (length <$> scores = length <$> target) then
      let position_losses :=
        concat (zip_with (zip_with (cross_entropy net)) scores target) in
      Some (Qdiv_nat (Qsum position_losses) (length position_losses))
    else None.

Definition forward_loss (sentences : Sentence + list Sentence) : option Q :=
    '(scores, labels) ← forward_pass sentences;
    _calculate_loss scores labels.
End Training.

(** ** [_print_predictions] *)

Definition newline : string := String (ascii_of_nat 10) EmptyString.

Definition _print_predictions (batch : list Sentence) (gold_label_type : string)
    : list string :=
  (λ sentence : Sentence,
     " - Text:       " +:+ String.concat " " (text <$> sentence) +:+ newline +:+
     " - Gold-Lemma: "
       +:+ String.concat " " ((λ token, get_tag token gold_label_type) <$> sentence)
       +:+ newline +:+
     " - Predicted:  "
       +:+ String.concat " " ((λ token, get_tag token "predicted") <$> sentence)
       +:+ newline +:+ newline)
    <$> batch.

(** * Further notions used by the statements *)

(** a model as the constructor leaves it: the dictionary has the unknown
    entry, the three special symbols sit at the recorded indices, and
    attention is used only where characters are encoded *)
Definition initialised (self : Lemmatizer) : Prop :=
  add_unk (char_dictionary self) = true ∧
  find_item (char_dictionary self) "<>" = Some (dummy_index self) ∧
  find_item (char_dictionary self) "<S>" = Some (start_index self) ∧
  find_item (char_dictionary self) "<E>" = Some (end_index self) ∧
  (use_attention self = true → encode_characters self = true).

(** the keys of a saved model *)
Definition state_keys : list string :=
  ["state_dict"; "embeddings"; "rnn_input_size"; "rnn_hidden_size"; "rnn_layers";
   "char_dict"; "label_type"; "beam_size"; "max_sequence_length";
   "dependent_on_input"; "use_attention"; "padding_in_front_for_encoder";
   "encode_characters"; "start_symbol"; "end_symbol"; "batching_in_rnn";
   "bidirectional_encoding"].

(** [add_item] for one item after the other *)
Definition add_items (d : Dictionary) (items : list string) : Dictionary :=
  foldl (λ d item, (add_item d item).1) d items.

(** the characters of all words of a corpus *)
Definition corpus_characters (corpus : list Sentence) : list string :=
  concat corpus ≫= λ token, characters (text token).

(** what the encoder is given for one word: its characters between the
    special symbols that are switched on *)
Definition encoder_word (self : Lemmatizer) (token : Token) : list nat :=
  special (start_symbol self) (start_index self)
    ++ char_indices (char_dictionary self) (text token)
    ++ special (end_symbol self) (end_index self).

(** a word with the labels of one name removed, and sentences of such words *)
Definition stripped (label_name : string) (sentences : list Sentence)
    : list Sentence :=
  (λ sentence : Sentence, (λ token, remove_labels token label_name) <$> sentence)
    <$> sentences.

(** a row of an index matrix of width [width]: the characters of a string
    between the special symbols that are switched on, filled up with the
    padding index in front or behind *)
Definition padded_row (self : Lemmatizer) (end_symbol start_symbol padding_in_front : bool)
    (width : nat) (token : string) : list nat :=
  let unused :=
    width - (String.length token + (Nat.b2n end_symbol + Nat.b2n start_symbol)) in
  replicate (if padding_in_front then unused else 0) (dummy_index self)
  ++ special start_symbol (start_index self)
  ++ char_indices (char_dictionary self) token
  ++ special end_symbol (end_index self)
  ++ replicate (if padding_in_front then 0 else unused) (dummy_index self).

(** lines 252-277 for one word: the encoder reads [read], its outputs are
    filled up to the width of the batch and masked at the padding positions
    of [row] *)
Definition encoded_word {tensor : Type} (net : Network tensor) (self : Lemmatizer)
    (width : nat) (read row : list nat) : tensor * tensor :=
  let '(outputs, hidden) := encoder_rnn net read in
  let outputs := pad_packed_sequence net width outputs in
  let '(outputs, hidden) :=
    if bi_encoding self
    then (bi_hidden_states_to_hidden_size net outputs, bi_states net hidden)
    else (outputs, hidden) in
  (mask_out net ((λ i, bool_decide (i = dummy_index self)) <$> row) outputs, hidden).

(** the hypotheses of one word after [k] expansions: live ones of at most
    [k] characters, finished ones of fewer, and the end symbol nowhere behind
    the first character *)
Definition counted {tensor : Type} (self : Lemmatizer) (k : nat)
    (seqs : list (Candidate tensor)) (fs : list (Final Q)) : Prop :=
  (∀ c, c ∈ seqs → 1 ≤ length (candidate_seq c) ≤ k ∧
                   end_index self ∉ drop 1 (candidate_seq c)) ∧
  (∀ f, f ∈ fs → 1 ≤ length (final_seq f) < k ∧
                 end_index self ∉ drop 1 (final_seq f)).

(** a sequence of character indices that is not empty and stays below [n] *)
Definition indices_below (n : nat) (seq : list nat) : Prop :=
  seq ≠ [] ∧ Forall (λ i, i < n) seq.

(** a state of the batched search of [m] words: one row per hypothesis, a
    loss per row when losses are computed, and every hypothesis, live or set
    aside, a sequence of indices below [n] *)
Definition beam_below {tensor : Type} (self : Lemmatizer) (return_loss : bool)
    (m n : nat) (st : Beam tensor) : Prop :=
  shaped self m st ∧
  (return_loss = true → length (losses st) = m * beam_size self) ∧
  (∀ sq, sq ∈ sequences st → indices_below n sq) ∧
  (∀ l f, l ∈ final_candidates st → f ∈ l → indices_below n (final_seq f)).

(** * Further concrete models *)

(** a dictionary of two letters, without the special symbols, and the model
    that the constructor builds on it *)
Definition letters_dictionary : Dictionary := mkDictionary ["<unk>"; "a"; "b"] true.

Definition letters_model : Lemmatizer :=
  {| label_type := "lemma";
     beam_size := 2;
     max_sequence_length := 3;
     dependent_on_input := true;
     padding_in_front_for_encoder := false;
     start_symbol := true;
     end_symbol := false;
     batching_in_rnn := true;
     bi_encoding := false;
     rnn_hidden_size := 128;
     rnn_input_size := 30;
     rnn_layers := 1;
     encode_characters := true;
     use_attention := true;
     char_dictionary := mkDictionary ["<unk>"; "a"; "b"; "<>"; "<S>"; "<E>"] true;
     dummy_index := 3;
     start_index := 4;
     end_index := 5;
     encoder_embeddings := false |}.

(** a model with one hypothesis that has embeddings and uses attention *)
Definition embedded_model : Lemmatizer :=
  {| label_type := "lemma";
     beam_size := 1;
     max_sequence_length := 3;
     dependent_on_input := true;
     padding_in_front_for_encoder := false;
     start_symbol := true;
     end_symbol := false;
     batching_in_rnn := true;
     bi_encoding := false;
     rnn_hidden_size := 128;
     rnn_input_size := 30;
     rnn_layers := 1;
     encode_characters := true;
     use_attention := true;
     char_dictionary := demo_dictionary;
     dummy_index := 1;
     start_index := 2;
     end_index := 3;
     encoder_embeddings := true |}.

(** a model that neither encodes characters nor has embeddings *)
Definition bare_model : Lemmatizer :=
  {| label_type := "lemma";
     beam_size := 2;
     max_sequence_length := 3;
     dependent_on_input := true;
     padding_in_front_for_encoder := false;
     start_symbol := true;
     end_symbol := false;
     batching_in_rnn := true;
     bi_encoding := false;
     rnn_hidden_size := 128;
     rnn_input_size := 30;
     rnn_layers := 1;
     encode_characters := false;
     use_attention := false;
     char_dictionary := demo_dictionary;
     dummy_index := 1;
     start_index := 2;
     end_index := 3;
     encoder_embeddings := false |}.

(** a model that pads in front of the words *)
Definition front_padded_model : Lemmatizer :=
  {| label_type := "lemma";
     beam_size := 2;
     max_sequence_length := 3;
     dependent_on_input := true;
     padding_in_front_for_encoder := true;
     start_symbol := true;
     end_symbol := false;
     batching_in_rnn := true;
     bi_encoding := false;
     rnn_hidden_size := 128;
     rnn_input_size := 30;
     rnn_layers := 1;
     encode_characters := true;
     use_attention := true;
     char_dictionary := demo_dictionary;
     dummy_index := 1;
     start_index := 2;
     end_index := 3;
     encoder_embeddings := false |}.

(** a word with its gold lemma under the label name "lemma" *)
Definition labelled (s lemma : string) : Token :=
  mkToken s {[ "lemma" := [lemma] ]}.
(** * Properties *)

(** ** Index matrices *)

Lemma py_max_spec (l : list nat) (m : nat) :
  py_max l = Some m → m ∈ l ∧ ∀ x, x ∈ l → x ≤ m.
Proof.
  destruct l as [|x l]; [done|]. simpl. intros [= <-].
  revert x. induction l as [|y l IH]; intros x; simpl.
  - split; [left|]. intros z ->%list_elem_of_singleton. done.
  - destruct (IH (x `max` y)) as [Hin Hle]. split.
    + apply elem_of_cons in Hin as [Heq|Hin].
      * rewrite Heq. destruct (Nat.max_spec x y) as [[_ ->]|[_ ->]].
        -- right; left.
        -- left.
      * right; right. done.
    + intros z Hz. apply elem_of_cons in Hz as [->|Hz].
      * etrans; [|apply Hle; left]. lia.
      * apply elem_of_cons in Hz as [->|Hz].
        -- etrans; [|apply Hle; left]. lia.
        -- apply Hle. right. done.
Qed.

Lemma py_max_is_Some (l : list nat) : l ≠ [] → is_Some (py_max l).
Proof. destruct l; [done|]. eauto. Qed.

Lemma length_list_ascii (s : string) :
  length (String.list_ascii_of_string s) = String.length s.
Proof. induction s as [|a s IH]; simpl; [done|]. by rewrite IH. Qed.

Lemma write_letters_spec d offset letters index row :
  index + offset + length letters ≤ length row →
  write_letters d offset letters index row =
    take (index + offset) row
    ++ ((λ letter, get_idx_for_item d (String letter EmptyString)) <$> letters)
    ++ drop (index + offset + length letters) row.
Proof.
  revert index row. induction letters as [|a letters IH]; intros index row Hlen; simpl in *.
  - rewrite Nat.add_0_r. by rewrite take_drop.
  - rewrite IH; [|rewrite length_insert; lia].
    replace (S index + offset) with (S (index + offset)) by lia.
    rewrite (take_S_r _ _ (get_idx_for_item d (String a EmptyString)));
      [|apply list_lookup_insert_eq; lia].
    rewrite take_insert_ge; [|lia].
    rewrite drop_insert_lt; [|lia].
    rewrite <- app_assoc. simpl.
    replace (index + offset + S (length letters)) with (S (index + offset + length letters)) by lia.
    done.
Qed.

Lemma insert_at_length {A} (l1 l2 : list A) x y i :
  i = length l1 → <[i := x]> (l1 ++ y :: l2) = l1 ++ x :: l2.
Proof.
  intros ->. rewrite <- (Nat.add_0_r (length l1)). by rewrite insert_app_r.
Qed.

Lemma fill_row_spec self token end_symbol start_symbol padding_in_front width :
  let c := Nat.b2n end_symbol + Nat.b2n start_symbol in
  String.length token + c ≤ width →
  fill_row self token end_symbol start_symbol padding_in_front width c =
    replicate (if padding_in_front then width - (String.length token + c) else 0)
      (dummy_index self)
    ++ special start_symbol (start_index self)
    ++ char_indices (char_dictionary self) token
    ++ special end_symbol (end_index self)
    ++ replicate (if padding_in_front then 0 else width - (String.length token + c))
         (dummy_index self).
Proof.
  intros c Hle. unfold fill_row. fold c.
  set (len := String.length token) in *.
  set (dif := width - (len + c)).
  set (shift := if padding_in_front then dif else 0).
  set (rest := if padding_in_front then 0 else dif).
  set (d := dummy_index self).
  assert (Hw : width = shift + (Nat.b2n start_symbol + (len + (Nat.b2n end_symbol + rest)))).
  { unfold shift, rest, dif, c. destruct padding_in_front; lia. }
  assert (Hrow :
    (if end_symbol
     then <[len + Nat.b2n start_symbol + shift := end_index self]>
            (if start_symbol then <[0 + shift := start_index self]> (replicate width d)
             else replicate width d)
     else if start_symbol then <[0 + shift := start_index self]> (replicate width d)
          else replicate width d)
    = (replicate shift d ++ special start_symbol (start_index self))
      ++ replicate len d
      ++ (special end_symbol (end_index self) ++ replicate rest d)).
  { rewrite Hw, !replicate_add.
    destruct start_symbol, end_symbol; simpl.
    - rewrite (insert_at_length (replicate shift d)) by (rewrite length_replicate; lia).
      rewrite insert_app_r_alt by (rewrite length_replicate; lia).
      rewrite length_replicate.
      replace (len + 1 + shift - shift) with (S len) by lia. simpl.
      rewrite (insert_at_length (replicate len d)) by (rewrite length_replicate; lia).
      by rewrite <- app_assoc.
    - rewrite (insert_at_length (replicate shift d)) by (rewrite length_replicate; lia).
      by rewrite <- app_assoc.
    - rewrite insert_app_r_alt by (rewrite length_replicate; lia).
      rewrite length_replicate.
      rewrite (insert_at_length (replicate len d)) by (rewrite length_replicate; lia).
      by rewrite app_nil_r.
    - by rewrite app_nil_r. }
  rewrite Hrow. clear Hrow.
  rewrite write_letters_spec.
  2:{ rewrite length_list_ascii, !length_app, !length_replicate.
      destruct start_symbol; simpl; lia. }
  rewrite length_list_ascii. fold len.
  rewrite take_app_length'.
  2:{ rewrite length_app, length_replicate. destruct start_symbol; simpl; lia. }
  rewrite (app_assoc _ (replicate len d) (special end_symbol _ ++ _)).
  rewrite drop_app_length'.
  2:{ rewrite !length_app, !length_replicate. destruct start_symbol; simpl; lia. }
  by rewrite <- !app_assoc.
Qed.

(** C7: for a non-empty list of strings, [words_to_char_indices] yields one
    row per string, every row of length
    [max(min_length, longest string + inserted symbols)]; a row is the padding
    (in front when asked for), the start symbol if any, the indices of the
    characters, the end symbol if any, and the padding at the back; encoding
    ["ab"; "c"] with both symbols and padding at the back gives the rows
    [<S> a b <E>] and [<S> c <E> <pad>]. *)
Theorem words_to_char_indices_matrix (self : Lemmatizer) (tokens : list string)
    (end_symbol start_symbol padding_in_front : bool) (seq_length : option nat) :
  tokens ≠ [] →
  ∃ longest : nat,
    (longest ∈ String.length <$> tokens) ∧
    (∀ token, token ∈ tokens → String.length token ≤ longest) ∧
    let inserted := Nat.b2n end_symbol + Nat.b2n start_symbol in
    let width := default 0 seq_length `max` (longest + inserted) in
    let row_of (token : string) :=
      let unused := width - (String.length token + inserted) in
      replicate (if padding_in_front then unused else 0) (dummy_index self)
      ++ special start_symbol (start_index self)
      ++ char_indices (char_dictionary self) token
      ++ special end_symbol (end_index self)
      ++ replicate (if padding_in_front then 0 else unused) (dummy_index self) in
    words_to_char_indices self tokens end_symbol start_symbol padding_in_front
      seq_length = Some (row_of <$> tokens) ∧
    (∀ token, token ∈ tokens → length (row_of token) = width) ∧
    words_to_char_indices self ["ab"; "c"] true true false None =
      Some [[start_index self; get_idx_for_item (char_dictionary self) "a";
             get_idx_for_item (char_dictionary self) "b"; end_index self];
            [start_index self; get_idx_for_item (char_dictionary self) "c";
             end_index self; dummy_index self]].
Proof.
  intros Hne.
  destruct (py_max_is_Some (String.length <$> tokens)) as [longest Hmax].
  { by destruct tokens. }
  exists longest. apply py_max_spec in Hmax as Hspec. destruct Hspec as [Hin Hle].
  split; [done|]. split.
  { intros token Ht. apply Hle, list_elem_of_fmap. eauto. }
  intros inserted width row_of.
  assert (Hrows : ∀ token, token ∈ tokens → String.length token + inserted ≤ width).
  { intros token Ht. unfold width.
    assert (String.length token ≤ longest) by (apply Hle, list_elem_of_fmap; eauto).
    lia. }
  split; [|split].
  - unfold words_to_char_indices. rewrite Hmax. simpl. f_equal.
    assert (Hwidth : match seq_length with
                     | Some 0 | None => longest + inserted
                     | Some (S n) => S n `max` (longest + inserted)
                     end = width).
    { unfold width. destruct seq_length as [[|n]|]; simpl; lia. }
    fold inserted. 
    apply list_fmap_ext. intros i token Ht.
    etrans; [|apply fill_row_spec].
    + f_equal. destruct seq_length as [[|n]|]; simpl in *; try done.
    + apply Hrows. by eapply list_elem_of_lookup_2.
  - intros token Ht. specialize (Hrows token Ht). unfold row_of, char_indices.
    rewrite !length_app, !length_replicate, length_fmap, length_list_ascii.
    unfold inserted in *.
    destruct padding_in_front, start_symbol, end_symbol; simpl in *; lia.
  - reflexivity.
Qed.
(** ** Sorting *)

Lemma Qltb_lt (x y : Q) : Qltb x y = true ↔ (x < y)%Q.
Proof.
  unfold Qltb. rewrite negb_true_iff, <- not_true_iff_false, Qle_bool_iff.
  split; [apply Qnot_le_lt | apply Qlt_not_le].
Qed.

Lemma Qltb_ge (x y : Q) : Qltb x y = false ↔ (y <= x)%Q.
Proof.
  unfold Qltb. rewrite negb_false_iff. apply Qle_bool_iff.
Qed.

Global Instance Qltb_order : DescOrder Qltb.
Proof.
  split.
  - intros x y Hlt%Qltb_lt. apply Qltb_ge. by apply Qlt_le_weak.
  - intros x y z Hxy%Qltb_ge Hyz%Qltb_ge. apply Qltb_ge. by apply (Qle_trans _ y).
Qed.

Global Instance score_ltb_order : DescOrder score_ltb.
Proof.
  split.
  - intros [|x] [|y]; simpl; try done. apply ltb_asym.
  - intros [|x] [|y] [|z]; simpl; try done. apply geb_trans.
Qed.

Global Instance key_order {A K : Type} (ltb : K → K → bool) (key : A → K)
  `{!DescOrder ltb} : DescOrder (λ a b, ltb (key a) (key b)).
Proof.
  split.
  - intros x y. apply ltb_asym.
  - intros x y z. apply geb_trans.
Qed.

Lemma filter_none {A : Type} (P : A → Prop) `{!∀ x, Decision (P x)} (l : list A) :
  (∀ x, x ∈ l → ¬ P x) → filter P l = [].
Proof.
  induction l as [|x l IH]; intros Hall; [done|].
  rewrite filter_cons_False by (apply Hall; left).
  apply IH. intros y Hy. apply Hall. by right.
Qed.

Section SortingFacts.
Context {A : Type} (ltb : A → A → bool) `{!DescOrder ltb}.

Lemma not_below_refl x : not_below ltb x x.
  Proof.
    unfold not_below. destruct (ltb x x) eqn:E; [|done].
    by rewrite (ltb_asym x x E) in E.
  Qed.

Lemma insert_desc_perm x l : insert_desc ltb x l ≡ₚ x :: l.
  Proof.
    induction l as [|y l IH]; simpl; [done|].
    destruct (ltb x y); [|done].
    rewrite IH. apply Permutation_swap.
  Qed.

Lemma sorted_desc_perm l : sorted_desc ltb l ≡ₚ l.
  Proof.
    induction l as [|x l IH]; simpl; [done|].
    by rewrite insert_desc_perm, IH.
  Qed.

Lemma sorted_desc_length l : length (sorted_desc ltb l) = length l.
  Proof. by rewrite sorted_desc_perm. Qed.

Lemma insert_desc_sorted x l :
    StronglySorted (not_below ltb) l →
    StronglySorted (not_below ltb) (insert_desc ltb x l).
  Proof.
    induction 1 as [|y l Hs IH Hy]; simpl.
    - repeat constructor.
    - destruct (ltb x y) eqn:E.
      + constructor; [done|].
        rewrite insert_desc_perm. constructor; [|done].
        by apply ltb_asym.
      + constructor; [by constructor|].
        constructor; [done|].
        eapply Forall_impl; [exact Hy|].
        intros z Hz. by eapply geb_trans.
  Qed.

Lemma sorted_desc_sorted l : StronglySorted (not_below ltb) (sorted_desc ltb l).
  Proof.
    induction l as [|x l IH]; simpl; [constructor|].
    by apply insert_desc_sorted.
  Qed.

  (** what is kept is not below what is cut off *)
Lemma sorted_desc_take_drop k l a b :
    a ∈ take k (sorted_desc ltb l) → b ∈ drop k (sorted_desc ltb l) →
    ltb a b = false.
  Proof.
    intros Ha Hb.
    pose proof (sorted_desc_sorted l) as Hs.
    rewrite <- (take_drop k (sorted_desc ltb l)) in Hs.
    by eapply (StronglySorted_app_1_elem_of (not_below ltb)).
  Qed.

  (** a property that holds of everything above one of its members, and of at
      least [k] members, holds of the first [k] *)
Lemma sorted_desc_take_all (P : A → Prop) `{!∀ x, Decision (P x)} k l a :
    (∀ x y, ltb x y = false → P y → P x) →
    k ≤ length (filter P l) →
    a ∈ take k (sorted_desc ltb l) → P a.
  Proof.
    intros Hup Hk Ha.
    destruct (decide (P a)) as [|Hna]; [done|exfalso].
    apply elem_of_take in Ha as (i & Hi & Hik).
    pose proof (sorted_desc_sorted l) as Hs.
    rewrite <- (take_drop_middle _ _ _ Hi) in Hs.
    assert (Hrest : filter P (drop (S i) (sorted_desc ltb l)) = []).
    { apply filter_none. intros b Hb Pb.
      apply Hna, (Hup a b); [|done].
      apply StronglySorted_app_1_r in Hs.
      apply StronglySorted_cons in Hs as [Hall _].
      rewrite Forall_forall in Hall. by apply Hall. }
    assert (Hlen : length (filter P l) ≤ i).
    { rewrite <- (sorted_desc_perm l).
      rewrite <- (take_drop_middle _ _ _ Hi) at 1.
      rewrite filter_app, filter_cons_False, Hrest, app_nil_r by done.
      etrans; [apply length_filter|].
      rewrite length_take. lia. }
    lia.
  Qed.
End SortingFacts.

(** ** [topk] *)

Section Enumerate.
Context {A : Type}.

Lemma enumerate_from_fst (g : nat → nat) (l : list A) :
    (imap (λ i x, (x, g i)) l).*1 = l.
  Proof.
    revert g. induction l as [|x l IH]; intros g; [done|].
    rewrite imap_cons. simpl. f_equal. apply (IH (g ∘ S)).
  Qed.

Lemma enumerate_snd (l : list A) :
    (imap (λ i x, (x, i)) l).*2 = seq 0 (length l).
  Proof.
    apply list_eq. intros i.
    rewrite list_lookup_fmap, list_lookup_imap.
    destruct (l !! i) as [x|] eqn:E; simpl.
    - symmetry. apply lookup_seq. split; [done|]. by eapply lookup_lt_Some.
    - symmetry. apply lookup_seq_ge. by apply lookup_ge_None.
  Qed.

Lemma elem_of_enumerate (l : list A) x i :
    (x, i) ∈ imap (λ i x, (x, i)) l ↔ l !! i = Some x.
  Proof.
    rewrite elem_of_lookup_imap. split.
    - intros (j & y & [= -> ->] & Hy). done.
    - intros Hx. eauto.
  Qed.

Lemma filter_fst_length (P : A → Prop) `{!∀ x, Decision (P x)}
      (l : list (A * nat)) :
    length (filter (λ p, P p.1) l) = length (filter P l.*1).
  Proof.
    induction l as [|[x i] l IH]; [done|].
    rewrite fmap_cons, !filter_cons. simpl.
    destruct (decide (P x)); simpl; by rewrite IH.
  Qed.
End Enumerate.

Section TopK.
Context {K : Type} (ltb : K → K → bool) `{!DescOrder ltb}.

Lemma topk_Some k l r :
    topk ltb k l = Some r ↔
    k ≤ length l ∧ r = take k (sorted_by ltb fst (imap (λ i x, (x, i)) l)).
  Proof.
    unfold topk. destruct (decide (k ≤ length l)) as [Hk|Hk].
    - split; [by intros [= <-]|by intros [_ ->]].
    - split; [done|]. by intros [? _].
  Qed.

Lemma topk_is_Some k l : k ≤ length l → is_Some (topk ltb k l).
  Proof. intros. unfold topk. rewrite decide_True by done. eauto. Qed.

Lemma topk_length k l r : topk ltb k l = Some r → length r = k.
  Proof.
    intros [Hk ->]%topk_Some. unfold sorted_by.
    rewrite length_take, sorted_desc_length, length_imap by apply _. lia.
  Qed.

Lemma topk_lookup k l r v i :
    topk ltb k l = Some r → (v, i) ∈ r → l !! i = Some v.
  Proof.
    intros [Hk ->]%topk_Some Hin. apply elem_of_enumerate.
    apply elem_of_take in Hin as (j & Hj & _).
    apply list_elem_of_lookup_2 in Hj. unfold sorted_by in Hj.
    by rewrite sorted_desc_perm in Hj by apply _.
  Qed.

Lemma topk_NoDup k l r : topk ltb k l = Some r → NoDup r.*2.
  Proof.
    intros [Hk ->]%topk_Some.
    rewrite fmap_take. eapply sublist_NoDup; [|apply sublist_take].
    unfold sorted_by.
    rewrite sorted_desc_perm by apply _.
    rewrite enumerate_snd. apply NoDup_seq.
  Qed.

Lemma topk_sorted k l r :
    topk ltb k l = Some r →
    StronglySorted (λ p q : K * nat, ltb p.1 q.1 = false) r.
  Proof.
    intros [Hk ->]%topk_Some.
    pose proof (sorted_desc_sorted (λ p q : K * nat, ltb p.1 q.1)
                  (imap (λ i x, (x, i)) l)) as Hs.
    unfold sorted_by.
    rewrite <- (take_drop k (sorted_desc _ _)) in Hs.
    by apply StronglySorted_app_1_l in Hs.
  Qed.

  (** the entries left out are not above the entries taken *)
Lemma topk_dominates k l r v i w j :
    topk ltb k l = Some r → (v, i) ∈ r → l !! j = Some w → j ∉ r.*2 →
    ltb v w = false.
  Proof.
    intros [Hk ->]%topk_Some Hin Hj Hnot.
    eapply (sorted_desc_take_drop (λ p q : K * nat, ltb p.1 q.1) k _ (v, i) (w, j));
      [exact Hin|].
    assert (Hall : (w, j) ∈ sorted_desc (λ p q : K * nat, ltb p.1 q.1)
                     (imap (λ i x, (x, i)) l)).
    { rewrite sorted_desc_perm by apply _. by apply elem_of_enumerate. }
    rewrite <- (take_drop k (sorted_desc _ _)) in Hall.
    apply elem_of_app in Hall as [Hall|Hall]; [|done].
    exfalso. apply Hnot. apply list_elem_of_fmap. by exists (w, j).
  Qed.

Lemma topk_all (P : K → Prop) `{!∀ x, Decision (P x)} k l r v i :
    (∀ x y, ltb x y = false → P y → P x) →
    k ≤ length (filter P l) →
    topk ltb k l = Some r → (v, i) ∈ r → P v.
  Proof.
    intros Hup Hcount [Hk ->]%topk_Some Hin.
    eapply (sorted_desc_take_all (λ p q : K * nat, ltb p.1 q.1)
              (λ p : K * nat, P p.1) k _ (v, i)); [| |exact Hin].
    - intros x y. apply Hup.
    - by rewrite filter_fst_length, enumerate_from_fst.
  Qed.
End TopK.
(** ** The model object across calls *)

Lemma state_dict_batching_in_rnn (self : Lemmatizer) :
  _get_state_dict self !! "batching_in_rnn" = Some (VBool (batching_in_rnn self)).
Proof. reflexivity. Qed.

Lemma after_call_beam_size {tensor : Type} (net : Network tensor) self c :
  beam_size (after_call net self c) = beam_size self.
Proof.
  unfold after_call, predict. simpl. by case_decide.
Qed.

Lemma after_call_batching_off {tensor : Type} (net : Network tensor) self c :
  beam_size self = 1 ∨ batching_in_rnn self = false →
  batching_in_rnn (after_call net self c) = false.
Proof.
  unfold after_call, predict. simpl. case_decide; [done|]. by intros [?|?].
Qed.

Lemma after_calls_batching_off {tensor : Type} (net : Network tensor) self calls :
  batching_in_rnn self = false →
  batching_in_rnn (after_calls net self calls) = false.
Proof.
  unfold after_calls. revert self.
  induction calls as [|c calls IH]; intros self Hoff; simpl; [done|].
  apply IH, after_call_batching_off. by right.
Qed.

(** C9: a call of [predict] on a model whose [beam_size] is 1 leaves
    [batching_in_rnn] at [False]; it stays so through all later calls, the
    exported state carries it, and a model that had batching switched on is
    not the same afterwards. *)
Theorem predict_switches_batching_off {tensor : Type} (net : Network tensor)
    (self : Lemmatizer) (c : Call) :
  beam_size self = 1 →
  let self' := after_call net self c in
  batching_in_rnn self' = false ∧
  _get_state_dict self' !! "batching_in_rnn" = Some (VBool false) ∧
  (∀ calls : list Call,
     batching_in_rnn (after_calls net self' calls) = false ∧
     _get_state_dict (after_calls net self' calls) !! "batching_in_rnn"
       = Some (VBool false)) ∧
  (batching_in_rnn self = true → self' ≠ self).
Proof.
  intros Hbeam self'.
  assert (Hoff : batching_in_rnn self' = false)
    by (apply after_call_batching_off; by left).
  split; [done|]. split; [by rewrite state_dict_batching_in_rnn, Hoff|].
  split.
  - intros calls.
    assert (batching_in_rnn (after_calls net self' calls) = false) as Hcalls
      by by apply after_calls_batching_off.
    split; [done|]. by rewrite state_dict_batching_in_rnn, Hcalls.
  - intros Hon Heq. rewrite Heq in Hoff. congruence.
Qed.
(** ** Word-by-word search: what one expansion does *)

Section TokenFacts.
Context {tensor : Type} (net : Network tensor) (self : Lemmatizer).
Context (return_loss : bool) (max_length : nat).

Lemma spread_spec seq hid score new_loss top ns fs :
    spread net self seq hid score new_loss top ns fs =
      (ns ++ live_children net self seq hid score new_loss top,
       fs ++ finished_children net self seq score new_loss top).
  Proof.
    unfold live_children, finished_children.
    revert ns fs. induction top as [|[p idx] top IH]; intros ns fs; simpl.
    - by rewrite !app_nil_r.
    - rewrite !filter_cons. simpl.
      destruct (decide (idx = end_index self)) as [->|Hne].
      + rewrite IH. rewrite decide_False by (intros H; by apply H).
        simpl. by rewrite <- app_assoc.
      + rewrite IH. rewrite decide_True by done.
        simpl. by rewrite <- app_assoc.
  Qed.

Lemma expand_spec i enc target sequences ns fs :
    expand net self return_loss i enc target sequences ns fs =
      rs ← mapM (next_characters net self return_loss i enc target) sequences;
      Some (ns ++ concat ((λ hr, (children_of net self hr.1 hr.2).1) <$> zip sequences rs),
            fs ++ concat ((λ hr, (children_of net self hr.1 hr.2).2) <$> zip sequences rs)).
  Proof.
    revert ns fs.
    induction sequences as [|[[[seq hid] score] seq_loss] sequences IH];
      intros ns fs; simpl.
    - by rewrite !app_nil_r.
    - destruct (last seq) as [input_index|]; simpl; [|done].
      destruct (decode net self input_index hid enc) as [[out hid']|]; simpl; [|done].
      destruct (if return_loss then _ else _) as [new_loss|]; simpl; [|done].
      destruct (top_characters net self out) as [top|]; simpl; [|done].
      rewrite spread_spec, IH.
      destruct (mapM _ sequences) as [rs|]; simpl; [|done].
      unfold children_of, candidate_seq, candidate_score. simpl.
      by rewrite <- !app_assoc.
  Qed.
End TokenFacts.

(** ** Masking *)

Lemma filter_insert_length {A : Type} (P : A → Prop) `{!∀ x, Decision (P x)}
    (l : list A) (i : nat) (x : A) :
  length (filter P l) ≤ S (length (filter P (<[i:=x]> l))).
Proof.
  revert i. induction l as [|y l IH]; intros i; [simpl; lia|].
  destruct i as [|i]; simpl.
  - rewrite !filter_cons. destruct (decide (P y)), (decide (P x)); simpl; lia.
  - rewrite !filter_cons. specialize (IH i).
    destruct (decide (P y)); simpl; lia.
Qed.

Lemma filter_all {A : Type} (P : A → Prop) `{!∀ x, Decision (P x)} (l : list A) :
  (∀ x, x ∈ l → P x) → filter P l = l.
Proof.
  induction l as [|x l IH]; intros Hall; [done|].
  rewrite filter_cons_True by (apply Hall; left).
  f_equal. apply IH. intros y Hy. apply Hall. by right.
Qed.

Section Masking.
Context {tensor : Type} (net : Network tensor) (self : Lemmatizer).

Lemma decode_output input_index hid enc out hid' :
    decode net self input_index hid enc = Some (out, hid') →
    ∃ t, out = character_decoder net t.
  Proof.
    unfold decode. destruct (decoder_rnn net input_index hid) as [output h].
    destruct (use_attention self); simpl.
    - destruct enc as [e|]; simpl; [|done]. intros [= <- <-]. eauto.
    - intros [= <- <-]. eauto.
  Qed.

Lemma mask_probs_lookup probs i p :
    mask_probs self probs !! i = Some p → (-1 < p)%Q →
    i ≠ dummy_index self ∧ i ≠ start_index self ∧ probs !! i = Some p.
  Proof.
    unfold mask_probs. intros Hi Hp.
    apply list_lookup_insert_Some in Hi as [(-> & <- & _)|[Hs Hi]]; [done|].
    apply list_lookup_insert_Some in Hi as [(-> & <- & _)|[Hd Hi]]; [done|].
    done.
  Qed.

Lemma mask_probs_length probs : length (mask_probs self probs) = length probs.
  Proof. unfold mask_probs. by rewrite !length_insert. Qed.

  (** with two characters to spare, the best [beam_size] are never masked *)
Lemma top_characters_unmasked n t top p i :
    distributions net n → beam_size self + 2 ≤ n →
    top_characters net self (character_decoder net t) = Some top →
    (p, i) ∈ top →
    i ≠ dummy_index self ∧ i ≠ start_index self ∧ (0 <= p)%Q ∧
    softmax net (character_decoder net t) !! i = Some p.
  Proof.
    intros Hd Hn Htop Hin. destruct (Hd t) as [Hlen Hpos].
    set (probs := softmax net (character_decoder net t)) in *.
    unfold top_characters in Htop. fold probs in Htop.
    assert (HP : Qltb (-1) p = true).
    { eapply (topk_all Qltb (λ v, Qltb (-1) v = true)); [| |exact Htop|exact Hin].
      - intros x y Hxy%Qltb_ge Hy%Qltb_lt. apply Qltb_lt.
        by eapply Qlt_le_trans.
      - unfold mask_probs.
        pose proof (filter_insert_length (λ v, Qltb (-1) v = true)
                      (<[dummy_index self:=(-1)%Q]> probs) (start_index self) (-1)%Q).
        pose proof (filter_insert_length (λ v, Qltb (-1) v = true)
                      probs (dummy_index self) (-1)%Q).
        assert (filter (λ v, Qltb (-1) v = true) probs = probs) as Hall.
        { apply filter_all. intros x Hx. apply Qltb_lt.
          eapply Qlt_le_trans; [|by apply Hpos]. done. }
        rewrite Hall in *. lia. }
    apply Qltb_lt in HP.
    apply (topk_lookup Qltb _ _ _ _ _ Htop) in Hin.
    apply mask_probs_lookup in Hin as (? & ? & Hi); [|done].
    repeat split; try done. apply Hpos. by eapply list_elem_of_lookup_2.
  Qed.
End Masking.

Lemma concat_join {A : Type} (ls : list (list A)) : concat ls = mjoin ls.
Proof. induction ls as [|l ls IH]; simpl; [done|]. by rewrite IH. Qed.

Lemma elem_of_concat {A : Type} (x : A) (ls : list (list A)) :
  x ∈ concat ls ↔ ∃ l, x ∈ l ∧ l ∈ ls.
Proof. rewrite concat_join. apply list_elem_of_join. Qed.

Lemma elem_of_zip_Forall2 {A B : Type} (P : A → B → Prop) (l : list A) (k : list B) x y :
  Forall2 P l k → (x, y) ∈ zip l k → P x y.
Proof.
  intros HF Hin. apply list_elem_of_lookup_1 in Hin as [i Hi].
  apply lookup_zip_with_Some in Hi as (a & b & [= <- <-] & Ha & Hb).
  by eapply Forall2_lookup_lr.
Qed.

Section TokenInvariants.
Context {tensor : Type} (net : Network tensor) (self : Lemmatizer).
Context (return_loss : bool) (max_length : nat).

Lemma next_characters_Some i enc target seq hid score seq_loss top hid' new_loss :
    next_characters net self return_loss i enc target (seq, hid, score, seq_loss)
      = Some (top, hid', new_loss) →
    ∃ input_index out,
      last seq = Some input_index ∧
      decode net self input_index hid enc = Some (out, hid') ∧
      top_characters net self out = Some top ∧
      (if return_loss
       then ∃ t, target !! i = Some t ∧ new_loss = (seq_loss + cross_entropy net out t)%Q
       else new_loss = 0%Q).
  Proof.
    unfold next_characters.
    destruct (last seq) as [input_index|]; simpl; [|done].
    destruct (decode net self input_index hid enc) as [[out h]|] eqn:Hdec; simpl; [|done].
    destruct return_loss.
    - destruct (target !! i) as [t|] eqn:Ht; simpl; [|done].
      destruct (top_characters net self out) as [top'|] eqn:Htop; simpl; [|done].
      intros [= <- <- <-]. exists input_index, out. eauto 10.
    - simpl. destruct (top_characters net self out) as [top'|] eqn:Htop; simpl; [|done].
      intros [= <- <- <-]. exists input_index, out. eauto 10.
  Qed.

Lemma first_pass_Some hid enc target sequences :
    first_pass net self return_loss hid enc target = Some sequences →
    ∃ out hid' top loss,
      decode net self (start_index self) hid enc = Some (out, hid') ∧
      top_characters net self out = Some top ∧
      (if return_loss
       then ∃ t, target !! 0 = Some t ∧ loss = cross_entropy net out t
       else loss = 0%Q) ∧
      sequences = (λ p : Q * nat, ([p.2], hid', ln net p.1, loss)) <$> top.
  Proof.
    unfold first_pass.
    destruct (decode net self (start_index self) hid enc) as [[out h]|] eqn:Hdec;
      simpl; [|done].
    destruct (top_characters net self out) as [top|] eqn:Htop; simpl; [|done].
    destruct return_loss.
    - destruct (target !! 0) as [t|] eqn:Ht; simpl; [|done].
      intros [= <-]. exists out, h, top, (cross_entropy net out t).
      repeat split; eauto. apply list_fmap_ext. by intros ? [].
    - simpl. intros [= <-]. exists out, h, top, 0%Q.
      repeat split; eauto. apply list_fmap_ext. by intros ? [].
  Qed.

  (** an invariant of the live and the finished hypotheses that every
      expansion keeps holds when the loop ends *)
Lemma beam_loop_inv (I : list (Candidate tensor) → list (Final Q) → Prop)
      steps enc target sequences0 finals0 sequences finals :
    (∀ i seqs fs ns fs',
       I seqs fs →
       expand net self return_loss i enc target seqs [] fs = Some (ns, fs') →
       (ns = [] → I seqs fs') ∧
       (ns ≠ [] → I (take (beam_size self) (sorted_by Qltb candidate_score ns)) fs')) →
    I sequences0 finals0 →
    beam_loop net self return_loss steps enc target sequences0 finals0
      = Some (sequences, finals) →
    I sequences finals.
  Proof.
    intros Hstep. revert sequences0 finals0.
    induction steps as [|i steps IH]; intros seqs fs HI; simpl.
    - by intros [= <- <-].
    - destruct (expand _ _ _ _ _ _ _ _ _) as [[ns fs']|] eqn:Hexp; simpl; [|done].
      destruct (Hstep _ _ _ _ _ HI Hexp) as [Hnil Hcons].
      destruct (decide (length ns = 0)) as [Hlen|Hlen].
      + intros [= <- <-]. apply Hnil. by apply nil_length_inv.
      + apply IH, Hcons. by intros ->.
  Qed.

  (** the members of an expansion *)
Lemma expand_members i enc target seqs fs ns fs' :
    expand net self return_loss i enc target seqs [] fs = Some (ns, fs') →
    (∀ c, c ∈ ns ↔
       ∃ h top hid' new_loss p idx,
         h ∈ seqs ∧
         next_characters net self return_loss i enc target h = Some (top, hid', new_loss) ∧
         (p, idx) ∈ top ∧ idx ≠ end_index self ∧
         c = (candidate_seq h ++ [idx], hid', (candidate_score h + ln net p)%Q, new_loss)) ∧
    (∀ f, f ∈ fs' ↔
       f ∈ fs ∨
       ∃ h top hid' new_loss p,
         h ∈ seqs ∧
         next_characters net self return_loss i enc target h = Some (top, hid', new_loss) ∧
         (p, end_index self) ∈ top ∧
         f = (candidate_seq h,
              Qdiv_nat (candidate_score h + ln net p) (length (candidate_seq h) + 1),
              Qdiv_nat new_loss (length (candidate_seq h) + 1))).
  Proof.
    rewrite expand_spec.
    destruct (mapM _ seqs) as [rs|] eqn:Hrs; simpl; [|done].
    intros [= <- <-]. apply mapM_Some in Hrs.
    split.
    - intros c. rewrite elem_of_concat. split.
      + intros (l & Hc & Hl). apply list_elem_of_fmap in Hl as ([h r] & -> & Hhr).
        pose proof (elem_of_zip_Forall2 _ _ _ _ _ Hrs Hhr) as Hnext.
        destruct r as [[top hid'] new_loss]. simpl in Hc.
        unfold live_children in Hc.
        apply list_elem_of_fmap in Hc as ([p idx] & -> & Hp).
        apply list_elem_of_filter in Hp as [Hne Hp]. simpl in *.
        exists h, top, hid', new_loss, p, idx. repeat split; try done.
        by eapply elem_of_zip_l.
      + intros (h & top & hid' & new_loss & p & idx & Hh & Hnext & Hp & Hne & ->).
        apply list_elem_of_lookup_1 in Hh as [k Hk].
        destruct (Forall2_lookup_l _ _ _ _ _ Hrs Hk) as (r & Hr & Hnext').
        rewrite Hnext in Hnext'. injection Hnext' as <-.
        eexists. split; [|apply list_elem_of_fmap; eexists (h, _); split; [done|]].
        2:{ eapply list_elem_of_lookup_2. apply lookup_zip_with_Some.
            eexists _, _. eauto. }
        simpl. unfold live_children. apply list_elem_of_fmap.
        exists (p, idx). split; [done|]. by apply list_elem_of_filter.
    - intros f. rewrite elem_of_app, elem_of_concat. split.
      + intros [Hf|(l & Hf & Hl)]; [by left|right].
        apply list_elem_of_fmap in Hl as ([h r] & -> & Hhr).
        pose proof (elem_of_zip_Forall2 _ _ _ _ _ Hrs Hhr) as Hnext.
        destruct r as [[top hid'] new_loss]. simpl in Hf.
        unfold finished_children in Hf.
        apply list_elem_of_fmap in Hf as ([p idx] & -> & Hp).
        apply list_elem_of_filter in Hp as [He Hp]. simpl in *. subst idx.
        exists h, top, hid', new_loss, p. repeat split; try done.
        by eapply elem_of_zip_l.
      + intros [Hf|(h & top & hid' & new_loss & p & Hh & Hnext & Hp & ->)];
          [by left|right].
        apply list_elem_of_lookup_1 in Hh as [k Hk].
        destruct (Forall2_lookup_l _ _ _ _ _ Hrs Hk) as (r & Hr & Hnext').
        rewrite Hnext in Hnext'. injection Hnext' as <-.
        eexists. split; [|apply list_elem_of_fmap; eexists (h, _); split; [done|]].
        2:{ eapply list_elem_of_lookup_2. apply lookup_zip_with_Some.
            eexists _, _. eauto. }
        simpl. unfold finished_children. apply list_elem_of_fmap.
        exists (p, end_index self). split; [done|]. by apply list_elem_of_filter.
  Qed.
End TokenInvariants.

Section TokenClean.
Context {tensor : Type} (net : Network tensor) (self : Lemmatizer).
Context (return_loss : bool) (max_length : nat).

Lemma search_token_Some embedding token best loss :
    search_token net self return_loss max_length embedding token = Some (best, loss) →
    ∃ hid enc target sequences0 sequences finals finals' score,
      token_encoding net self embedding token = Some (hid, enc) ∧
      (if return_loss then token_target self max_length token = Some target
       else target = []) ∧
      first_pass net self return_loss hid enc target = Some sequences0 ∧
      beam_loop net self return_loss (seq 1 (max_length - 1)) enc target sequences0 []
        = Some (sequences, finals) ∧
      without_end return_loss max_length sequences finals = Some finals' ∧
      sorted_by Qltb final_score finals' !! 0 = Some (best, score, loss).
  Proof.
    unfold search_token.
    destruct (token_encoding net self embedding token) as [[hid enc]|]; simpl; [|done].
    destruct (if return_loss then token_target self max_length token else Some [])
      as [target|] eqn:Ht; simpl; [|done].
    destruct (first_pass net self return_loss hid enc target) as [s0|] eqn:H1;
      simpl; [|done].
    destruct (beam_loop _ _ _ _ _ _ _ _) as [[s fs]|] eqn:H2; simpl; [|done].
    destruct (without_end _ _ _ _) as [fs'|] eqn:H3; simpl; [|done].
    destruct (sorted_by Qltb final_score fs' !! 0) as [[[sq sc] l]|] eqn:H4;
      simpl; [|done].
    intros [= <- <-].
    exists hid, enc, target, s0, s, fs, fs', sc. repeat split; try done.
    destruct return_loss; [done|]. by injection Ht as <-.
  Qed.

Lemma without_end_Some (sequences : list (Candidate tensor)) finals finals' :
    without_end return_loss max_length sequences finals = Some finals' →
    (finals ≠ [] ∧ finals' = finals) ∨
    (finals = [] ∧ ∃ sq hid score loss,
       sequences !! 0 = Some (sq, hid, score, loss) ∧
       finals' = [(sq, Qdiv_nat score max_length, Qdiv_nat loss max_length)]).
  Proof.
    unfold without_end. destruct (decide (length finals = 0)) as [Hl|Hl].
    - apply nil_length_inv in Hl as ->.
      destruct (sequences !! 0) as [[[[sq hid] sc] l]|]; simpl; [|done].
      case_decide; [done|]. intros [= <-]. right. split; [done|]. eauto 10.
    - intros [= <-]. left. split; [|done]. by intros ->.
  Qed.

Context (n : nat) (Hd : distributions net n) (Hn : beam_size self + 2 ≤ n).

Lemma first_pass_clean hid enc target sequences :
    first_pass net self return_loss hid enc target = Some sequences →
    Forall (λ c, clean self (candidate_seq c)) sequences.
  Proof.
    intros (out & hid' & top & loss & Hdec & Htop & _ & ->)%first_pass_Some.
    apply decode_output in Hdec as [t ->].
    apply Forall_fmap, Forall_forall. intros [p i] Hp. unfold candidate_seq. simpl.
    destruct (top_characters_unmasked net self n t top p i Hd Hn Htop Hp)
      as (? & ? & _).
    split; intros Heq%list_elem_of_singleton; congruence.
  Qed.

Lemma expand_clean i enc target seqs fs ns fs' :
    Forall (λ c, clean self (candidate_seq c)) seqs →
    Forall (λ f : Final Q, clean self (final_seq f)) fs →
    expand net self return_loss i enc target seqs [] fs = Some (ns, fs') →
    Forall (λ c, clean self (candidate_seq c)) ns ∧
    Forall (λ f : Final Q, clean self (final_seq f)) fs'.
  Proof.
    intros Hs Hf Hexp. rewrite Forall_forall in Hs. rewrite Forall_forall in Hf.
    destruct (expand_members net self return_loss i enc target seqs fs ns fs' Hexp)
      as [Hns Hfs].
    split; apply Forall_forall.
    - intros c (h & top & hid' & new_loss & p & idx & Hh & Hnext & Hp & _ & ->)%Hns.
      destruct h as [[[sq hid] sc] l].
      apply next_characters_Some in Hnext as (? & out & _ & Hdec & Htop & _).
      apply decode_output in Hdec as [t ->].
      destruct (top_characters_unmasked net self n t top p idx Hd Hn Htop Hp)
        as (? & ? & _).
      destruct (Hs _ Hh) as [Hc1 Hc2]. unfold candidate_seq in *. simpl in *.
      split; (intros [?|Heq%list_elem_of_singleton]%elem_of_app; [done|congruence]).
    - intros f [Hin|(h & top & hid' & new_loss & p & Hh & _ & _ & ->)]%Hfs.
      + by apply Hf.
      + by apply Hs.
  Qed.

  (** the predicted index sequence of a word never holds a masked symbol *)
Lemma search_token_clean embedding token seq loss :
    search_token net self return_loss max_length embedding token = Some (seq, loss) →
    clean self seq.
  Proof.
    intros (hid & enc & target & s0 & s & fs & fs' & sc & _ & _ & H1 & H2 & H3 & H4)
      %search_token_Some.
    apply first_pass_clean in H1.
    assert (HI : Forall (λ c, clean self (candidate_seq c)) s ∧
                 Forall (λ f : Final Q, clean self (final_seq f)) fs).
    { eapply (beam_loop_inv net self return_loss
                (λ s fs, Forall (λ c, clean self (candidate_seq c)) s ∧
                         Forall (λ f : Final Q, clean self (final_seq f)) fs));
        [|split; [exact H1|constructor]|exact H2].
      intros i seqs fs0 ns fs0' [Hs Hf] Hexp.
      destruct (expand_clean _ _ _ _ _ _ _ Hs Hf Hexp) as [Hns Hfs].
      split; intros _; (split; [|done]); [done|].
      apply Forall_take. unfold sorted_by.
      by rewrite sorted_desc_perm by apply _. }
    destruct HI as [Hs Hf].
    assert (Hf' : Forall (λ f : Final Q, clean self (final_seq f)) fs').
    { apply without_end_Some in H3
        as [[_ ->]|(-> & sq & h & sc' & l & H0 & ->)]; [done|].
      constructor; [|constructor].
      rewrite Forall_forall in Hs. apply (Hs _ (list_elem_of_lookup_2 _ _ _ H0)). }
    apply list_elem_of_lookup_2 in H4. unfold sorted_by in H4.
    rewrite sorted_desc_perm in H4 by apply _.
    rewrite Forall_forall in Hf'. by apply (Hf' _ H4).
  Qed.
End TokenClean.

(** ** Rows of equal width: [view] and flat positions *)

Section Matrix.
Context {A : Type}.
Implicit Types (rows : list (list A)) (l : list A).

Lemma concat_uniform_length w rows :
    Forall (λ r, length r = w) rows → length (concat rows) = length rows * w.
  Proof.
    induction 1 as [|r rows Hr _ IH]; simpl; [done|].
    rewrite length_app, IH, Hr. done.
  Qed.

  (** the entry of row [i] and column [j] sits at the flat position
      [i * w + j] *)
Lemma lookup_concat_uniform w rows i j :
    Forall (λ r, length r = w) rows → j < w →
    concat rows !! (i * w + j) = rows !! i ≫= (.!! j).
  Proof.
    intros Hall Hj. revert i. induction Hall as [|r rows Hr _ IH]; intros i.
    - by destruct i.
    - destruct i as [|i]; simpl.
      + rewrite lookup_app_l by lia. done.
      + rewrite lookup_app_r by lia. rewrite <- IH. f_equal. lia.
  Qed.

Lemma lookup_reshape_uniform n s l t :
    t < n →
    reshape (replicate n s) l !! t = Some (take s (drop (t * s) l)).
  Proof.
    revert l t. induction n as [|n IH]; intros l t Ht; [lia|].
    destruct t as [|t]; simpl; [done|].
    rewrite IH by lia. by rewrite drop_drop.
  Qed.

Lemma length_reshape_uniform n s l :
    length (reshape (replicate n s) l) = n.
  Proof. by rewrite length_reshape, length_replicate. Qed.

  (** [view(n, m * w)] of [n * m] rows of width [w]: position [q] of the row of
      word [t] is the entry at row [t * m + q / w], column [q mod w] *)
Lemma lookup_view w m n rows t q row :
    Forall (λ r, length r = w) rows →
    reshape (replicate n (m * w)) (concat rows) !! t = Some row →
    q < m * w →
    row !! q = rows !! (t * m + q / w) ≫= (.!! (q `mod` w)).
  Proof.
    intros Hall Hrow Hq.
    assert (Ht : t < n).
    { apply lookup_lt_Some in Hrow. by rewrite length_reshape_uniform in Hrow. }
    rewrite lookup_reshape_uniform in Hrow by done. injection Hrow as <-.
    rewrite lookup_take_lt, lookup_drop by done.
    assert (Hw : 0 < w) by (destruct w; lia).
    rewrite <- (lookup_concat_uniform w) by (done || by apply Nat.mod_upper_bound; lia).
    f_equal. pose proof (Nat.div_mod_eq q w). lia.
  Qed.
End Matrix.

(** ** Batched search: setting hypotheses aside *)

Lemma elem_of_nonzero (e : nat) (t : list (list nat)) (r c : nat) :
  (r, c) ∈ nonzero e t ↔ entry t r c = Some e.
Proof.
  unfold nonzero, entry. rewrite elem_of_concat. split.
  - intros (l & Hin & Hl).
    apply elem_of_lookup_imap in Hl as (r' & row & -> & Hrow).
    apply list_elem_of_fmap in Hin as ([c' idx] & [= -> ->] & Hf).
    apply list_elem_of_filter in Hf as [He Hf]. simpl in He. subst idx.
    apply elem_of_lookup_imap in Hf as (c'' & idx & [= <- <-] & Hc).
    rewrite Hrow. done.
  - destruct (t !! r) as [row|] eqn:Hrow; simpl; [|done]. intros Hc.
    eexists. split; [|apply elem_of_lookup_imap; eauto].
    apply list_elem_of_fmap. exists (c, e). split; [done|].
    apply list_elem_of_filter. split; [done|].
    apply elem_of_lookup_imap. eauto.
Qed.

Lemma NoDup_nonzero (e : nat) (t : list (list nat)) : NoDup (nonzero e t).
Proof.
  unfold nonzero.
  assert (Hgen : ∀ (k : nat) (t : list (list nat)),
    NoDup (concat (imap (λ r row, (λ p : nat * nat, (k + r, p.1)) <$>
             filter (λ p : nat * nat, p.2 = e) (imap (λ c idx, (c, idx)) row)) t)) ∧
    ∀ r c, (r, c) ∈ concat (imap (λ r row, (λ p : nat * nat, (k + r, p.1)) <$>
             filter (λ p : nat * nat, p.2 = e) (imap (λ c idx, (c, idx)) row)) t)
           → k ≤ r).
  { clear t. intros k t. revert k. induction t as [|row t IH]; intros k.
    - split; [constructor|]. intros r c Hin. by apply elem_of_nil in Hin.
    - rewrite imap_cons. simpl. split.
      + apply NoDup_app. split; [|split].
        * apply NoDup_fmap_2_strong.
          -- intros [c1 i1] [c2 i2] H1 H2 Heq. simpl in Heq.
             assert (c1 = c2) as <- by congruence. clear Heq.
             apply list_elem_of_filter in H1 as [_ H1].
             apply list_elem_of_filter in H2 as [_ H2].
             apply elem_of_lookup_imap in H1 as (? & ? & [= <- <-] & H1).
             apply elem_of_lookup_imap in H2 as (? & ? & [= <- <-] & H2).
             congruence.
          -- apply NoDup_filter.
             apply (NoDup_fmap_1 fst).
             rewrite fmap_imap.
             assert (imap (λ n : nat, fst ∘ (λ idx : nat, (n, idx))) row
                     = seq 0 (length row)) as ->.
             { apply list_eq. intros i. rewrite list_lookup_imap.
               destruct (row !! i) eqn:E; simpl.
               - symmetry. apply lookup_seq. split; [done|]. by eapply lookup_lt_Some.
               - symmetry. apply lookup_seq_ge. by apply lookup_ge_None. }
             apply NoDup_seq.
        * intros [r c] Hin Hin2.
          apply list_elem_of_fmap in Hin as (? & [= Hr Hc] & _). subst r.
          destruct (IH (S k)) as [_ Hle].
          assert (S k ≤ k + 0); [|lia].
          eapply (Hle _ c).
          erewrite imap_ext; [exact Hin2|].
          intros i0 x0 _. simpl. apply list_fmap_ext. intros ? [? ?] _. simpl.
          f_equal. lia.
        * destruct (IH (S k)) as [Hnd _].
          erewrite imap_ext; [exact Hnd|].
          intros i0 x0 _. simpl. apply list_fmap_ext. intros ? [? ?] _. simpl.
          f_equal. lia.
      + intros r c [Hin|Hin]%elem_of_app.
        * apply list_elem_of_fmap in Hin as (? & [= Hr Hc] & _). lia.
        * destruct (IH (S k)) as [_ Hle].
          assert (S k ≤ r); [|lia].
          eapply (Hle _ c).
          erewrite imap_ext; [exact Hin|].
          intros i0 x0 _. simpl. apply list_fmap_ext. intros ? [? ?] _. simpl.
          f_equal. lia. }
  destruct (Hgen 0 t) as [Hnd _]. exact Hnd.
Qed.

Lemma entry_insert {A : Type} (t : list (list A)) (r c : nat) (row : list A) (x : A)
    (r' c' : nat) :
  t !! r = Some row →
  entry (<[r := <[c := x]> row]> t) r' c' =
    if decide ((r', c') = (r, c)) then (λ _, x) <$> entry t r' c' else entry t r' c'.
Proof.
  intros Hrow. unfold entry.
  destruct (decide (r' = r)) as [->|Hr].
  - rewrite list_lookup_insert_eq by (by eapply lookup_lt_Some). rewrite Hrow. simpl.
    destruct (decide (c' = c)) as [->|Hc].
    + rewrite decide_True by done.
      destruct (decide (c < length row)).
      * rewrite list_lookup_insert_eq by done.
        destruct (lookup_lt_is_Some_2 row c) as [y ->]; done.
      * rewrite list_insert_ge by lia.
        rewrite (proj2 (lookup_ge_None row c)) by lia. done.
    + rewrite decide_False by congruence.
      by rewrite list_lookup_insert_ne.
  - rewrite decide_False by congruence.
    by rewrite list_lookup_insert_ne.
Qed.

Section SetAside.
Context {tensor : Type} (net : Network tensor) (self : Lemmatizer).
Context (return_loss : bool) (j : nat) (target : list (list nat)).
Context (st : Beam tensor) (outs : list (list Q)).

Lemma set_aside_Some fs lps r c fs' lps' :
    set_aside net self return_loss j target st outs (fs, lps) (r, c) = Some (fs', lps') →
    ∃ e old row,
      finished_entry net self return_loss j target st outs lps r c = Some e ∧
      fs !! (r / beam_size self) = Some old ∧ lps !! r = Some row ∧
      fs' = <[r / beam_size self := old ++ [e]]> fs ∧
      lps' = <[r := <[c := NegInf]> row]> lps.
  Proof.
    unfold set_aside, finished_entry, entry.
    destruct (sequences st !! r) as [sq|]; simpl; [|done].
    destruct (scores st !! r) as [parent|]; simpl; [|done].
    destruct (lps !! r) as [row|]; simpl; [|done].
    destruct (row !! c) as [lp|]; simpl; [|done].
    destruct (if return_loss then _ else _) as [loss|]; simpl; [|done].
    destruct (fs !! (r / beam_size self)) as [old|]; simpl; [|done].
    intros [= <- <-]. eauto 10.
  Qed.

Lemma finished_entry_ext lps lps' r c :
    entry lps' r c = entry lps r c →
    finished_entry net self return_loss j target st outs lps' r c =
    finished_entry net self return_loss j target st outs lps r c.
  Proof. intros He. unfold finished_entry. by rewrite He. Qed.

Lemma set_aside_all_spec ps fs lps fs' lps' :
    NoDup ps →
    set_aside_all net self return_loss j target st outs ps (fs, lps) = Some (fs', lps') →
    length fs' = length fs ∧
    (∀ r c, entry lps' r c =
       if decide ((r, c) ∈ ps) then (λ _, NegInf) <$> entry lps r c else entry lps r c) ∧
    (∀ t x, x ∈ default [] (fs' !! t) ↔
       x ∈ default [] (fs !! t) ∨
       ∃ r c, (r, c) ∈ ps ∧ r / beam_size self = t ∧
         finished_entry net self return_loss j target st outs lps r c = Some x).
  Proof.
    revert fs lps. induction ps as [|[r c] ps IH]; intros fs lps Hnd;
      cbn [set_aside_all].
    - intros [= <- <-]. split; [done|]. split.
      + intros r c. case_decide as Hin; [by apply elem_of_nil in Hin|done].
      + intros t x. split; [by left|]. intros [?|(r & c & []%elem_of_nil & _)]. done.
    - destruct (set_aside net self return_loss j target st outs (fs, lps) (r, c))
        as [[fs1 lps1]|] eqn:H1; cbn [mbind option_bind]; [|done].
      apply set_aside_Some in H1 as (e & old & row & He & Hdone & Hrow & -> & ->).
      apply NoDup_cons in Hnd as [Hnotin Hnd].
      intros Hrest. destruct (IH _ _ Hnd Hrest) as (Hlen & Hlps & Hfs).
      split; [by rewrite Hlen, length_insert|]. split.
      + intros r' c'. rewrite Hlps, entry_insert by done.
        destruct (decide ((r', c') = (r, c))) as [[= -> ->]|Hne].
        * rewrite decide_False by done. rewrite decide_True by left. done.
        * destruct (decide ((r', c') ∈ ps)) as [Hin|Hin].
          -- rewrite decide_True by (by right). done.
          -- rewrite decide_False; [done|].
             intros [?|?]%elem_of_cons; done.
      + intros t x. rewrite Hfs. clear Hfs Hlps.
        assert (Hext : ∀ r' c', (r', c') ∈ ps →
          finished_entry net self return_loss j target st outs
            (<[r:=<[c:=NegInf]> row]> lps) r' c' =
          finished_entry net self return_loss j target st outs lps r' c').
        { intros r' c' Hin. apply finished_entry_ext.
          rewrite entry_insert by done. rewrite decide_False; [done|].
          intros [= -> ->]. done. }
        destruct (decide (t = r / beam_size self)) as [->|Hne].
        * rewrite list_lookup_insert_eq by (by eapply lookup_lt_Some).
          rewrite Hdone. simpl. rewrite elem_of_app, list_elem_of_singleton.
          split.
          -- intros [[Hx| ->]|(r' & c' & Hin & Ht & Hx)].
             ++ by left.
             ++ right. exists r, c. split; [left|]. done.
             ++ right. exists r', c'. split; [by right|]. split; [done|].
                by rewrite <- Hext.
          -- intros [Hx|(r' & c' & Hin & Ht & Hx)]; [by left; left|].
             apply elem_of_cons in Hin as [[= -> ->]|Hin].
             ++ left; right. congruence.
             ++ right. exists r', c'. split; [done|]. split; [done|].
                by rewrite Hext.
        * rewrite list_lookup_insert_ne by done. split.
          -- intros [Hx|(r' & c' & Hin & Ht & Hx)]; [by left|].
             right. exists r', c'. split; [by right|]. split; [done|].
             by rewrite <- Hext.
          -- intros [Hx|(r' & c' & Hin & Ht & Hx)]; [by left|].
             apply elem_of_cons in Hin as [[= -> ->]|Hin]; [done|].
             right. exists r', c'. split; [done|]. split; [done|].
             by rewrite Hext.
  Qed.
End SetAside.

(** ** Batched search: one expansion taken apart *)

Lemma gather_Some {A : Type} (t : list A) (bn : list nat) (x : list A) :
  gather t bn = Some x ↔ Forall2 (λ b y, t !! b = Some y) bn x.
Proof. apply mapM_Some. Qed.

Lemma gather2_Some {A : Type} (t : list (list A)) (bn sn : list nat) (x : list A) :
  gather2 t bn sn = Some x ↔
  Forall2 (λ p y, entry t p.1 p.2 = Some y) (zip bn sn) x.
Proof.
  unfold gather2. rewrite mapM_Some. split; intros H.
  - eapply Forall2_impl; [exact H|]. by intros [b c] y.
  - eapply Forall2_impl; [exact H|]. by intros [b c] y.
Qed.

Lemma entry_index_table top r c idx :
  entry (index_table top) r c = Some idx ↔
  ∃ p, entry top r c = Some (p, idx).
Proof.
  unfold entry, index_table. rewrite list_lookup_fmap.
  destruct (top !! r) as [row|]; simpl.
  - rewrite list_lookup_fmap. destruct (row !! c) as [[p i]|]; simpl.
    + split; [intros [= <-]; eauto|]. by intros (q & [= <- <-]).
    + split; [done|]. by intros (q & ?).
  - split; [done|]. by intros (q & ?).
Qed.

Lemma entry_log_table {tensor : Type} (net : Network tensor) top r c :
  entry (log_table net top) r c = (λ p : Q * nat, Fin (ln net p.1)) <$> entry top r c.
Proof.
  unfold entry, log_table. rewrite list_lookup_fmap.
  destruct (top !! r) as [row|]; simpl; [|done].
  by rewrite list_lookup_fmap.
Qed.

Section ExpandBatch.
Context {tensor : Type} (net : Network tensor) (self : Lemmatizer).
Context (return_loss : bool) (max_length : nat).

Lemma expand_batch_Some n encs target j st st' :
    expand_batch net self return_loss n encs target j st = Some st' →
    ∃ decoded top fs' lps' bn sn olds chars oscores steps hids losses',
      decode_rows net self encs st = Some decoded ∧
      mapM (top_characters net self) decoded.*1 = Some top ∧
      set_aside_all net self return_loss j target st decoded.*1
        (nonzero (end_index self) (index_table top))
        (final_candidates st, log_table net top) = Some (fs', lps') ∧
      best_extensions self n (scores st) lps' = Some (bn, sn) ∧
      gather (sequences st) bn = Some olds ∧
      gather2 (index_table top) bn sn = Some chars ∧
      gather (scores st) bn = Some oscores ∧
      gather2 lps' bn sn = Some steps ∧
      gather decoded.*2 bn = Some hids ∧
      (if return_loss
       then ∃ old_losses outputs,
              gather (losses st) bn = Some old_losses ∧
              gather decoded.*1 bn = Some outputs ∧
              update_losses net self target j old_losses outputs = Some losses'
       else losses' = []) ∧
      st' = mkBeam (zip_with (λ sq c, sq ++ [c]) olds chars)
                   (zip_with score_add oscores steps) chars hids losses' fs'.
  Proof.
    unfold expand_batch.
    destruct (decode_rows net self encs st) as [decoded|] eqn:H1; simpl; [|done].
    destruct (mapM (top_characters net self) decoded.*1) as [top|] eqn:H2;
      simpl; [|done].
    fold (index_table top). fold (log_table net top).
    destruct (set_aside_all _ _ _ _ _ _ _ _ _) as [[fs' lps']|] eqn:H3; simpl; [|done].
    destruct (best_extensions self n (scores st) lps') as [[bn sn]|] eqn:H4;
      simpl; [|done].
    destruct (gather (sequences st) bn) as [olds|] eqn:H5; simpl; [|done].
    destruct (gather2 (index_table top) bn sn) as [chars|] eqn:H6; simpl; [|done].
    destruct (gather (scores st) bn) as [oscores|] eqn:H7; simpl; [|done].
    destruct (gather2 lps' bn sn) as [steps|] eqn:H8; simpl; [|done].
    destruct (gather decoded.*2 bn) as [hids|] eqn:H9; simpl; [|done].
    destruct return_loss.
    - destruct (gather (losses st) bn) as [old_losses|] eqn:H10; simpl; [|done].
      destruct (gather decoded.*1 bn) as [outputs|] eqn:H11; simpl; [|done].
      destruct (update_losses _ _ _ _ _ _) as [losses'|] eqn:H12; simpl; [|done].
      intros [= <-]. eexists _, _, _, _, _, _, _, _, _, _, _, _.
      repeat split; eauto.
    - simpl. intros [= <-]. eexists _, _, _, _, _, _, _, _, _, _, _, _.
      repeat split; eauto.
  Qed.

Lemma decode_rows_outputs encs st decoded out :
    decode_rows net self encs st = Some decoded →
    out ∈ decoded.*1 → ∃ t, out = character_decoder net t.
  Proof.
    unfold decode_rows. intros Hm%mapM_Some Hin.
    apply list_elem_of_fmap in Hin as ([o h] & -> & Hin).
    apply list_elem_of_lookup_1 in Hin as [i Hi].
    destruct (Forall2_lookup_r _ _ _ _ _ Hm Hi) as ([[idx hid] enc] & _ & Hdec).
    by eapply decode_output.
  Qed.

  (** every row of the table comes from a distribution of the decoder *)
Lemma top_rows_outputs encs st decoded top row :
    decode_rows net self encs st = Some decoded →
    mapM (top_characters net self) decoded.*1 = Some top →
    row ∈ top → ∃ t, top_characters net self (character_decoder net t) = Some row.
  Proof.
    intros Hdec Htop%mapM_Some Hrow.
    apply list_elem_of_lookup_1 in Hrow as [i Hi].
    destruct (Forall2_lookup_r _ _ _ _ _ Htop Hi) as (out & Hout & Hrow).
    apply list_elem_of_lookup_2 in Hout.
    destruct (decode_rows_outputs _ _ _ _ Hdec Hout) as [t ->]. eauto.
  Qed.
End ExpandBatch.

(** ** Batched search: the choice of the next hypotheses *)

Lemma entry_zip_with_rows (scores : list score) (lps : list (list score)) r c :
  entry (zip_with (λ s row, score_add s <$> row) scores lps) r c =
  hypothesis_score scores lps r c.
Proof.
  unfold entry, hypothesis_score, entry. rewrite lookup_zip_with.
  destruct (scores !! r) as [s|]; simpl; [|done].
  destruct (lps !! r) as [row|]; simpl; [|done].
  rewrite list_lookup_fmap. by destruct (row !! c).
Qed.

Lemma take_concat_uniform {A : Type} (w m : nat) (rows : list (list A)) :
  Forall (λ r, length r = w) rows →
  take (m * w) (concat rows) = concat (take m rows).
Proof.
  intros Hall. revert m. induction Hall as [|r rows Hr _ IH]; intros m.
  - simpl. by rewrite !take_nil.
  - destruct m as [|m]; simpl; [done|].
    rewrite take_app_add' by done. by rewrite IH.
Qed.

Lemma drop_concat_uniform {A : Type} (w m : nat) (rows : list (list A)) :
  Forall (λ r, length r = w) rows →
  drop (m * w) (concat rows) = concat (drop m rows).
Proof.
  intros Hall. revert m. induction Hall as [|r rows Hr _ IH]; intros m.
  - simpl. by rewrite !drop_nil.
  - destruct m as [|m]; simpl; [done|].
    rewrite drop_app_add' by done. by rewrite IH.
Qed.

Lemma reshape_concat_uniform {A : Type} (w m n : nat) (rows : list (list A)) t :
  Forall (λ r, length r = w) rows → t < n →
  reshape (replicate n (m * w)) (concat rows) !! t
    = Some (concat (take m (drop (t * m) rows))).
Proof.
  intros Hall Ht. rewrite lookup_reshape_uniform by done. f_equal.
  rewrite Nat.mul_assoc, (drop_concat_uniform w) by done.
  apply take_concat_uniform. by apply Forall_drop.
Qed.

Lemma filter_concat_length {A : Type} (P : A → Prop) `{!∀ x, Decision (P x)}
    (rows : list (list A)) (k : nat) :
  Forall (λ r, k ≤ length (filter P r)) rows →
  length rows * k ≤ length (filter P (concat rows)).
Proof.
  induction 1 as [|r rows Hr _ IH]; simpl; [done|].
  rewrite filter_app, length_app. lia.
Qed.

Section BestExtensions.
Context (self : Lemmatizer).
Let beam := beam_size self.

Lemma best_extensions_spec n scores lps bn sn :
    Forall (λ row : list score, length row = beam) lps →
    best_extensions self n scores lps = Some (bn, sn) →
    length bn = n * beam ∧ length sn = n * beam ∧
    ∀ t, t < n →
      ∃ sel : list (score * nat),
        length sel = beam ∧ NoDup sel.*2 ∧
        StronglySorted (λ p q : score * nat, score_ltb p.1 q.1 = false) sel ∧
        (∀ k v q, sel !! k = Some (v, q) →
           q < beam * beam ∧
           bn !! (t * beam + k) = Some (t * beam + q / beam) ∧
           sn !! (t * beam + k) = Some (q `mod` beam) ∧
           hypothesis_score scores lps (t * beam + q / beam) (q `mod` beam) = Some v) ∧
        (∀ q w v q', q < beam * beam → q ∉ sel.*2 →
           hypothesis_score scores lps (t * beam + q / beam) (q `mod` beam) = Some w →
           (v, q') ∈ sel → score_ltb v w = false) ∧
        (∀ (P : score → Prop) (Hdec : ∀ x, Decision (P x)),
           (∀ x y, score_ltb x y = false → P y → P x) →
           beam ≤ length (filter P (concat (take beam (drop (t * beam)
                     (zip_with (λ s row, score_add s <$> row) scores lps))))) →
           ∀ v q, (v, q) ∈ sel → P v).
  Proof.
    intros Hlps. unfold best_extensions. fold beam.
    set (hs := zip_with (λ s row, score_add s <$> row) scores lps).
    assert (Hhs : Forall (λ row : list score, length row = beam) hs).
    { apply Forall_forall. intros row Hrow.
      apply elem_of_zip_with in Hrow as (s & r & -> & _ & Hr).
      rewrite length_fmap. rewrite Forall_forall in Hlps. by apply Hlps. }
    destruct (mapM _ (reshape _ _)) as [ipt|] eqn:Hm; simpl; [|done].
    intros [= <- <-]. apply mapM_Some in Hm.
    pose proof (Forall2_length _ _ _ Hm) as Hlen.
    rewrite length_reshape_uniform in Hlen.
    assert (Hrows : ∀ t ind, ipt !! t = Some ind →
      ∃ row sel, reshape (replicate n (beam * beam)) (concat hs) !! t = Some row ∧
                 topk score_ltb beam row = Some sel ∧ ind = sel.*2).
    { intros t ind Hind.
      destruct (Forall2_lookup_r _ _ _ _ _ Hm Hind) as (row & Hrow & Htop).
      destruct (topk score_ltb beam row) as [sel|] eqn:Hsel; simpl in Htop; [|done].
      injection Htop as <-. eauto. }
    set (numbers := concat (imap (λ i (row : list nat),
                       (λ index, (i * beam + index / beam, index `mod` beam)) <$> row) ipt)).
    assert (Huni : Forall (λ r : list (nat * nat), length r = beam)
              (imap (λ i (row : list nat),
                 (λ index, (i * beam + index / beam, index `mod` beam)) <$> row) ipt)).
    { apply Forall_forall. intros r Hr.
      apply elem_of_lookup_imap in Hr as (t & ind & -> & Hind).
      destruct (Hrows t ind Hind) as (row & sel & _ & Hsel & ->).
      rewrite !length_fmap. by eapply (topk_length score_ltb). }
    assert (Hnum : length numbers = n * beam).
    { unfold numbers. rewrite (concat_uniform_length beam) by done.
      by rewrite length_imap, Hlen. }
    split; [by rewrite length_fmap|]. split; [by rewrite length_fmap|].
    intros t Ht.
    destruct (lookup_lt_is_Some_2 ipt t) as [ind Hind]; [lia|].
    destruct (Hrows t ind Hind) as (row & sel & Hrow & Hsel & ->).
    exists sel.
    split; [by eapply (topk_length score_ltb)|].
    split; [by eapply (topk_NoDup score_ltb)|].
    split; [by eapply (topk_sorted score_ltb)|].
    assert (Hentry : ∀ q, q < beam * beam →
      row !! q = hypothesis_score scores lps (t * beam + q / beam) (q `mod` beam)).
    { intros q Hq. rewrite <- entry_zip_with_rows. fold hs.
      by apply (lookup_view beam beam n hs t q row). }
    assert (Hrowlen : length row ≤ beam * beam).
    { rewrite lookup_reshape_uniform in Hrow by done. injection Hrow as <-.
      rewrite length_take. lia. }
    split.
    { intros k v q Hk.
      pose proof (list_elem_of_lookup_2 _ _ _ Hk) as Hin.
      pose proof (topk_lookup score_ltb _ _ _ _ _ Hsel Hin) as Hq.
      assert (q < beam * beam) by (apply lookup_lt_Some in Hq; lia).
      split; [done|].
      assert (Hk' : k < beam).
      { apply lookup_lt_Some in Hk.
        by rewrite (topk_length score_ltb _ _ _ Hsel) in Hk. }
      assert (Hn : numbers !! (t * beam + k)
                   = Some (t * beam + q / beam, q `mod` beam)).
      { unfold numbers. rewrite (lookup_concat_uniform beam) by done.
        rewrite list_lookup_imap, Hind. simpl.
        rewrite list_lookup_fmap, list_lookup_fmap, Hk. done. }
      rewrite !list_lookup_fmap, Hn. simpl.
      split; [done|]. split; [done|]. by rewrite <- Hentry. }
    split.
    - intros q w v q' Hq Hnot Hw Hin.
      rewrite <- Hentry in Hw by done.
      by eapply (topk_dominates score_ltb).
    - intros P Hdec Hup Hcount v q Hin.
      rewrite (reshape_concat_uniform beam beam n hs t) in Hrow by done.
      injection Hrow as <-.
      by eapply (topk_all score_ltb P).
  Qed.
End BestExtensions.

(** ** Batched search: the log-probabilities after setting aside *)

Lemma table_ext {A : Type} (t1 t2 : list (list A)) :
  length <$> t1 = length <$> t2 →
  (∀ r c, entry t1 r c = entry t2 r c) → t1 = t2.
Proof.
  intros Hlen Hent. apply list_eq. intros r.
  assert (Hr : length <$> t1 !! r = length <$> t2 !! r)
    by by rewrite <- !list_lookup_fmap, Hlen.
  destruct (t1 !! r) as [row1|] eqn:H1, (t2 !! r) as [row2|] eqn:H2;
    simpl in Hr; try done.
  f_equal. apply list_eq. intros c.
  specialize (Hent r c). unfold entry in Hent. by rewrite H1, H2 in Hent.
Qed.

Section SetAsideTable.
Context {tensor : Type} (net : Network tensor) (self : Lemmatizer).
Context (return_loss : bool) (j : nat) (target : list (list nat)).
Context (st : Beam tensor) (outs : list (list Q)).

Lemma set_aside_all_shape ps fs lps fs' lps' :
    set_aside_all net self return_loss j target st outs ps (fs, lps) = Some (fs', lps') →
    length <$> lps' = length <$> lps.
  Proof.
    revert fs lps. induction ps as [|[r c] ps IH]; intros fs lps; cbn [set_aside_all].
    - by intros [= <- <-].
    - destruct (set_aside net self return_loss j target st outs (fs, lps) (r, c))
        as [[fs1 lps1]|] eqn:H1; cbn [mbind option_bind]; [|done].
      apply set_aside_Some in H1 as (e & old & row & He & Hdone & Hrow & -> & ->).
      intros Hrest. rewrite (IH _ _ Hrest).
      rewrite list_fmap_insert, length_insert.
      apply list_insert_id. by rewrite list_lookup_fmap, Hrow.
  Qed.

  (** after the loop of line 443 the table holds [-inf] exactly where the end
      symbol was predicted *)
Lemma set_aside_all_table top fs fs' lps' :
    set_aside_all net self return_loss j target st outs
      (nonzero (end_index self) (index_table top)) (fs, log_table net top)
      = Some (fs', lps') →
    lps' = without_end_symbol self (index_table top) (log_table net top).
  Proof.
    intros Hs. apply table_ext.
    - rewrite (set_aside_all_shape _ _ _ _ _ Hs).
      unfold without_end_symbol, index_table, log_table.
      apply list_eq. intros r.
      rewrite !list_lookup_fmap, lookup_zip_with, !list_lookup_fmap.
      destruct (top !! r) as [row|]; simpl; [|done].
      by rewrite length_zip_with, !length_fmap, Nat.min_id.
    - intros r c.
      destruct (set_aside_all_spec _ _ _ _ _ _ _ _ _ _ _ _ (NoDup_nonzero _ _) Hs)
        as (_ & Hent & _).
      rewrite Hent. clear Hent.
      unfold without_end_symbol.
      assert (Hrhs : entry (zip_with (zip_with (λ idx lp,
                 if decide (idx = end_index self) then NegInf else lp))
                 (index_table top) (log_table net top)) r c
               = (λ p : Q * nat, if decide (p.2 = end_index self) then NegInf
                                 else Fin (ln net p.1)) <$> entry top r c).
      { unfold entry, index_table, log_table.
        rewrite lookup_zip_with, !list_lookup_fmap.
        destruct (top !! r) as [row|]; simpl; [|done].
        rewrite lookup_zip_with, !list_lookup_fmap.
        by destruct (row !! c) as [[p i]|]. }
      rewrite Hrhs, entry_log_table.
      destruct (entry top r c) as [[p idx]|] eqn:He; simpl.
      + destruct (decide (idx = end_index self)) as [->|Hne].
        * rewrite decide_True; [done|].
          apply elem_of_nonzero, entry_index_table. eauto.
        * rewrite decide_False; [done|].
          intros (p' & Hp')%elem_of_nonzero%entry_index_table. congruence.
      + by case_decide.
  Qed.
End SetAsideTable.

(** ** Batched search: the table of continuations *)

Lemma row_finite_count (e : nat) (g : Q → Q) (q : Q) (row : list (Q * nat)) :
  NoDup row.*2 →
  length row - 1 ≤
    length (filter (λ s, is_finite s = true)
      ((λ p : Q * nat, score_add (Fin q)
          (if decide (p.2 = e) then NegInf else Fin (g p.1))) <$> row)).
Proof.
  induction row as [|[p i] row IH]; intros Hnd; [simpl; lia|].
  rewrite fmap_cons in Hnd. apply NoDup_cons in Hnd as [Hnotin Hnd].
  rewrite fmap_cons, filter_cons. simpl in *.
  destruct (decide (i = e)) as [->|Hne]; simpl.
  - rewrite filter_all; [rewrite length_fmap; lia|].
    intros s (p' & -> & Hp')%list_elem_of_fmap.
    rewrite decide_False; [done|].
    intros He. apply Hnotin. apply list_elem_of_fmap. exists p'. by rewrite He.
  - specialize (IH Hnd). lia.
Qed.

Section Table.
Context {tensor : Type} (net : Network tensor) (self : Lemmatizer).
Let beam := beam_size self.

Lemma decode_rows_length n encs st decoded :
    shaped self n st → length encs = n * beam →
    decode_rows net self encs st = Some decoded →
    length decoded = n * beam.
  Proof.
    intros (_ & _ & Hl & Hh & _) He Hd. unfold decode_rows in Hd.
    apply length_mapM in Hd. rewrite <- Hd, !length_zip_with. fold beam in Hl, Hh. lia.
  Qed.

Lemma table_rows encs st decoded top r row :
    decode_rows net self encs st = Some decoded →
    mapM (top_characters net self) decoded.*1 = Some top →
    top !! r = Some row →
    ∃ hid' out, row_continuations net self encs st r = Some (row, hid', out) ∧
                decoded !! r = Some (out, hid').
  Proof.
    intros Hd%mapM_Some Ht%mapM_Some Hr.
    destruct (Forall2_lookup_r _ _ _ _ _ Ht Hr) as (out & Hout & Hrow).
    rewrite list_lookup_fmap in Hout.
    destruct (decoded !! r) as [[out' hid']|] eqn:Hdr; simpl in Hout; [|done].
    injection Hout as ->.
    destruct (Forall2_lookup_r _ _ _ _ _ Hd Hdr) as ([[li hid] enc] & Hz & Hdec).
    apply lookup_zip_with_Some in Hz as ([li' hid''] & enc' & [= <- <- <-] & Hz & Henc).
    apply lookup_zip_with_Some in Hz as (li' & hid'' & [= <- <-] & Hli & Hhid).
    exists hid', out. split; [|done].
    unfold row_continuations. rewrite Hli, Hhid, Henc. simpl. rewrite Hdec. simpl.
    by rewrite Hrow.
  Qed.

Lemma table_row_facts encs st decoded top r row :
    decode_rows net self encs st = Some decoded →
    mapM (top_characters net self) decoded.*1 = Some top →
    top !! r = Some row →
    length row = beam ∧ NoDup row.*2.
  Proof.
    intros Hd Ht Hr.
    destruct (table_rows _ _ _ _ _ _ Hd Ht Hr) as (hid' & out & Hrc & _).
    unfold row_continuations in Hrc.
    destruct (leading_indices st !! r) as [li|]; simpl in Hrc; [|done].
    destruct (hidden_states_beam st !! r) as [hid|]; simpl in Hrc; [|done].
    destruct (encs !! r) as [enc|]; simpl in Hrc; [|done].
    destruct (decode net self li hid enc) as [[o1 h1]|]; simpl in Hrc; [|done].
    destruct (top_characters net self o1) as [row'|] eqn:Htop; simpl in Hrc; [|done].
    injection Hrc as -> _ _. unfold top_characters in Htop.
    split; [by eapply (topk_length Qltb)|by eapply (topk_NoDup Qltb)].
  Qed.

Lemma without_end_symbol_uniform encs st decoded top :
    decode_rows net self encs st = Some decoded →
    mapM (top_characters net self) decoded.*1 = Some top →
    Forall (λ row : list score, length row = beam)
      (without_end_symbol self (index_table top) (log_table net top)).
  Proof.
    intros Hd Ht. apply Forall_forall. intros row Hrow.
    unfold without_end_symbol, index_table, log_table in Hrow.
    apply elem_of_zip_with in Hrow as (ir & lr & -> & Hir & Hlr).
    apply list_elem_of_fmap in Hir as (row1 & -> & Hrow1).
    apply list_elem_of_fmap in Hlr as (row2 & -> & Hrow2).
    apply list_elem_of_lookup_1 in Hrow1 as [r1 Hr1].
    apply list_elem_of_lookup_1 in Hrow2 as [r2 Hr2].
    destruct (table_row_facts _ _ _ _ _ _ Hd Ht Hr1) as [H1 _].
    destruct (table_row_facts _ _ _ _ _ _ Hd Ht Hr2) as [H2 _].
    rewrite length_zip_with, !length_fmap. lia.
  Qed.

  (** in every row all continuations but at most one are finite *)
Lemma hypothesis_rows_finite encs st decoded top hrow :
    finite_scores st →
    decode_rows net self encs st = Some decoded →
    mapM (top_characters net self) decoded.*1 = Some top →
    hrow ∈ zip_with (λ s row, score_add s <$> row) (scores st)
             (without_end_symbol self (index_table top) (log_table net top)) →
    beam - 1 ≤ length (filter (λ s, is_finite s = true) hrow).
  Proof.
    intros Hfin Hd Ht Hrow.
    apply list_elem_of_lookup_1 in Hrow as [r Hr].
    apply lookup_zip_with_Some in Hr as (s & lrow & -> & Hs & Hl).
    unfold without_end_symbol, index_table, log_table in Hl.
    apply lookup_zip_with_Some in Hl as (ir & lr & -> & Hir & Hlr).
    rewrite list_lookup_fmap in Hir. rewrite list_lookup_fmap in Hlr.
    destruct (top !! r) as [row|] eqn:Htr; simpl in *; [|done].
    injection Hir as <-. injection Hlr as <-.
    destruct (table_row_facts _ _ _ _ _ _ Hd Ht Htr) as [Hlen Hnd].
    destruct (Hfin s (list_elem_of_lookup_2 _ _ _ Hs)) as [q ->].
    rewrite <- Hlen.
    etrans; [apply (row_finite_count (end_index self) (ln net) q row Hnd)|].
    apply Nat.eq_le_incl. f_equal. f_equal.
    apply list_eq. intros c.
    rewrite !list_lookup_fmap, lookup_zip_with, !list_lookup_fmap.
    by destruct (row !! c) as [[p i]|].
  Qed.
End Table.

(** ** Batched search: one expansion, put together *)

Section ExpandParts.
Context {tensor : Type} (net : Network tensor) (self : Lemmatizer).
Context (return_loss : bool).
Let beam := beam_size self.

Lemma continuation_entry encs st decoded top r c :
    decode_rows net self encs st = Some decoded →
    mapM (top_characters net self) decoded.*1 = Some top →
    continuation net self encs st r c = entry top r c.
  Proof.
    intros Hd Ht. unfold continuation, entry.
    destruct (top !! r) as [row|] eqn:Hr; simpl.
    - destruct (table_rows _ _ _ _ _ _ _ _ Hd Ht Hr) as (hid' & out & -> & _). done.
    - destruct (row_continuations net self encs st r) as [[[row hid'] out]|] eqn:Hrc;
        simpl; [|done].
      exfalso. unfold row_continuations in Hrc.
      destruct (leading_indices st !! r) as [li|] eqn:Hli; simpl in Hrc; [|done].
      destruct (hidden_states_beam st !! r) as [hid|] eqn:Hh; simpl in Hrc; [|done].
      destruct (encs !! r) as [enc|] eqn:He; simpl in Hrc; [|done].
      apply length_mapM in Hd, Ht.
      rewrite length_fmap in Ht. rewrite !length_zip_with in Hd.
      apply lookup_ge_None in Hr.
      apply lookup_lt_Some in Hli, Hh, He. lia.
  Qed.

Lemma finished_entry_hypothesis j target encs st decoded top r c :
    decode_rows net self encs st = Some decoded →
    mapM (top_characters net self) decoded.*1 = Some top →
    is_Some (entry top r c) →
    finished_entry net self return_loss j target st decoded.*1 (log_table net top) r c
    = finished_hypothesis net self return_loss j target encs st r c.
  Proof.
    intros Hd Ht [p Hp]. unfold finished_entry, finished_hypothesis.
    rewrite entry_log_table, Hp. unfold entry in Hp.
    destruct (top !! r) as [row|] eqn:Hr; simpl in Hp; [|done].
    destruct (table_rows _ _ _ _ _ _ _ _ Hd Ht Hr) as (hid' & out & -> & Hdr).
    simpl. rewrite Hp. simpl.
    destruct (sequences st !! r) as [sq|]; simpl; [|done].
    destruct (scores st !! r) as [s|]; simpl; [|done].
    rewrite list_lookup_fmap, Hdr. simpl.
    destruct return_loss; [|done].
    destruct (target !! (r / beam_size self)) as [trow|]; simpl; [|done].
    destruct (trow !! j) as [t|]; simpl; [|done].
    by destruct (losses st !! r).
  Qed.

Lemma expand_batch_parts n encs target j st st' :
    shaped self n st → length encs = n * beam →
    expand_batch net self return_loss n encs target j st = Some st' →
    ∃ decoded top bn sn,
      decode_rows net self encs st = Some decoded ∧
      mapM (top_characters net self) decoded.*1 = Some top ∧
      length top = n * beam ∧
      set_aside_all net self return_loss j target st decoded.*1
        (nonzero (end_index self) (index_table top))
        (final_candidates st, log_table net top)
        = Some (final_candidates st',
                without_end_symbol self (index_table top) (log_table net top)) ∧
      best_extensions self n (scores st)
        (without_end_symbol self (index_table top) (log_table net top))
        = Some (bn, sn) ∧
      length (sequences st') = n * beam ∧ length (scores st') = n * beam ∧
      length (leading_indices st') = n * beam ∧
      length (hidden_states_beam st') = n * beam ∧
      ∀ k b c, bn !! k = Some b → sn !! k = Some c →
        ∃ sq p idx s hid' out,
          sequences st !! b = Some sq ∧ entry top b c = Some (p, idx) ∧
          scores st !! b = Some s ∧ decoded !! b = Some (out, hid') ∧
          sequences st' !! k = Some (sq ++ [idx]) ∧
          scores st' !! k =
            Some (score_add s (if decide (idx = end_index self) then NegInf
                               else Fin (ln net p))) ∧
          leading_indices st' !! k = Some idx ∧
          hidden_states_beam st' !! k = Some hid'.
  Proof.
    intros Hsh Henc Hexp.
    apply expand_batch_Some in Hexp
      as (decoded & top & fs' & lps' & bn & sn & olds & chars & oscores & steps
          & hids & losses' & Hd & Ht & Hsa & Hbe & Ho & Hc & Hs & Hst & Hh & _ & ->).
    pose proof (set_aside_all_table net self return_loss j target st _ _ _ _ _ Hsa) as ->.
    exists decoded, top, bn, sn.
    assert (Htl : length top = n * beam).
    { apply length_mapM in Ht. rewrite <- Ht, length_fmap.
      by eapply decode_rows_length. }
    pose proof (without_end_symbol_uniform _ _ _ _ _ _ Hd Ht) as Huni.
    destruct (best_extensions_spec _ _ _ _ _ _ Huni Hbe) as (Hbn & Hsn & _).
    fold beam in Hbn, Hsn.
    apply gather_Some in Ho, Hs, Hh. apply gather2_Some in Hc, Hst.
    pose proof (Forall2_length _ _ _ Ho) as Hlo.
    pose proof (Forall2_length _ _ _ Hs) as Hls.
    pose proof (Forall2_length _ _ _ Hh) as Hlh.
    pose proof (Forall2_length _ _ _ Hc) as Hlc.
    pose proof (Forall2_length _ _ _ Hst) as Hlst.
    rewrite length_zip_with in Hlc, Hlst.
    simpl. rewrite !length_zip_with.
    repeat (split; [done || lia|]).
    intros k b c Hb Hcc.
    destruct (Forall2_lookup_l _ _ _ _ _ Ho Hb) as (sq & Hsq & Hsq').
    destruct (Forall2_lookup_l _ _ _ _ _ Hs Hb) as (s & Hs1 & Hs2).
    destruct (Forall2_lookup_l _ _ _ _ _ Hh Hb) as (hid' & Hh1 & Hh2).
    assert (Hz : zip bn sn !! k = Some (b, c)).
    { apply lookup_zip_with_Some. eauto. }
    destruct (Forall2_lookup_l _ _ _ _ _ Hc Hz) as (idx & Hi1 & Hi2).
    destruct (Forall2_lookup_l _ _ _ _ _ Hst Hz) as (lp & Hl1 & Hl2).
    simpl in Hi2, Hl2.
    apply entry_index_table in Hi2 as (p & Hp).
    rewrite list_lookup_fmap in Hh2.
    destruct (decoded !! b) as [[out h]|] eqn:Hdb; simpl in Hh2; [|done].
    injection Hh2 as ->.
    exists sq, p, idx, s, hid', out.
    repeat (split; [done|]).
    split; [|split; [|done]].
    - apply lookup_zip_with_Some. eauto.
    - apply lookup_zip_with_Some. exists s, lp. repeat split; try done.
      f_equal. f_equal.
      assert (Hlp : entry (without_end_symbol self (index_table top) (log_table net top)) b c
                = Some (if decide (idx = end_index self) then NegInf else Fin (ln net p))).
      { unfold without_end_symbol, entry, index_table, log_table.
        rewrite lookup_zip_with, !list_lookup_fmap.
        unfold entry in Hp.
        destruct (top !! b) as [row|]; simpl in *; [|done].
        rewrite lookup_zip_with, !list_lookup_fmap, Hp. done. }
      congruence.
  Qed.
End ExpandParts.

Section SetAsideTotal.
Context {tensor : Type} (net : Network tensor) (self : Lemmatizer).
Context (return_loss : bool) (j : nat) (target : list (list nat)).
Context (st : Beam tensor) (outs : list (list Q)).

Lemma set_aside_all_entries ps fs lps fs' lps' r c :
    NoDup ps →
    set_aside_all net self return_loss j target st outs ps (fs, lps) = Some (fs', lps') →
    (r, c) ∈ ps →
    is_Some (finished_entry net self return_loss j target st outs lps r c) ∧
    r / beam_size self < length fs.
  Proof.
    revert fs lps. induction ps as [|[r0 c0] ps IH]; intros fs lps Hnd;
      cbn [set_aside_all].
    - intros _ []%elem_of_nil.
    - destruct (set_aside net self return_loss j target st outs (fs, lps) (r0, c0))
        as [[fs1 lps1]|] eqn:H1; cbn [mbind option_bind]; [|done].
      apply set_aside_Some in H1 as (e & old & row & He & Hdone & Hrow & -> & ->).
      apply NoDup_cons in Hnd as [Hnotin Hnd].
      intros Hrest [[= -> ->]|Hin]%elem_of_cons.
      + split; [eauto|]. by eapply lookup_lt_Some.
      + destruct (IH _ _ Hnd Hrest Hin) as [Hsome Hlt].
        rewrite length_insert in Hlt. split; [|done].
        erewrite <- finished_entry_ext; [exact Hsome|].
        rewrite entry_insert by done. rewrite decide_False; [done|].
        intros [= -> ->]. done.
  Qed.
End SetAsideTotal.

(** ** Batched search: what one expansion does *)

Section ExpandStep.
Context {tensor : Type} (net : Network tensor) (self : Lemmatizer).
Context (return_loss : bool).
Let beam := beam_size self.

  (** the hypotheses set aside by one expansion *)
Lemma expand_batch_finals n encs target j st st' :
    shaped self n st → length encs = n * beam →
    expand_batch net self return_loss n encs target j st = Some st' →
    length (final_candidates st') = n ∧
    (∀ t x, x ∈ default [] (final_candidates st' !! t) ↔
       x ∈ default [] (final_candidates st !! t) ∨
       ∃ r c p, r / beam = t ∧
         continuation net self encs st r c = Some (p, end_index self) ∧
         finished_hypothesis net self return_loss j target encs st r c = Some x) ∧
    (∀ r c p, continuation net self encs st r c = Some (p, end_index self) →
       r / beam < n ∧
       is_Some (finished_hypothesis net self return_loss j target encs st r c)).
  Proof.
    intros Hsh Henc Hexp.
    destruct (expand_batch_parts _ _ _ _ _ _ _ _ _ Hsh Henc Hexp)
      as (decoded & top & bn & sn & Hd & Ht & Htl & Hsa & _).
    destruct (set_aside_all_spec _ _ _ _ _ _ _ _ _ _ _ _ (NoDup_nonzero _ _) Hsa)
      as (Hlen & _ & Hfs).
    destruct Hsh as (_ & _ & _ & _ & Hfl).
    split; [by rewrite Hlen|].
    assert (Hpos : ∀ r c, (r, c) ∈ nonzero (end_index self) (index_table top) ↔
              ∃ p, continuation net self encs st r c = Some (p, end_index self)).
    { intros r c. rewrite elem_of_nonzero, entry_index_table.
      by setoid_rewrite (continuation_entry _ _ _ _ _ _ _ _ Hd Ht). }
    split.
    - intros t x. rewrite Hfs. split.
      + intros [?|(r & c & Hin & Hr & Hx)]; [by left|right].
        apply Hpos in Hin as Hc. destruct Hc as [p Hc].
        exists r, c, p. split; [done|]. split; [done|].
        rewrite <- Hx. symmetry. apply finished_entry_hypothesis; [done..|].
        rewrite <- (continuation_entry _ _ _ _ _ _ _ _ Hd Ht), Hc. eauto.
      + intros [?|(r & c & p & Hr & Hc & Hx)]; [by left|right].
        exists r, c. split; [apply Hpos; eauto|]. split; [done|].
        rewrite <- Hx. apply finished_entry_hypothesis; [done..|].
        rewrite <- (continuation_entry _ _ _ _ _ _ _ _ Hd Ht), Hc. eauto.
    - intros r c p Hc.
      assert (Hin : (r, c) ∈ nonzero (end_index self) (index_table top))
        by (apply Hpos; eauto).
      destruct (set_aside_all_entries _ _ _ _ _ _ _ _ _ _ _ _ _ _
                  (NoDup_nonzero _ _) Hsa Hin) as [Hsome Hlt].
      split; [by rewrite <- Hfl|].
      rewrite <- (finished_entry_hypothesis _ _ _ _ _ _ _ decoded top); [done..|].
      rewrite <- (continuation_entry _ _ _ _ _ _ _ _ Hd Ht), Hc. eauto.
  Qed.
End ExpandStep.

Lemma flat_position_div (w i c : nat) : c < w → (i * w + c) / w = i.
Proof.
  intros Hc. symmetry. apply (Nat.div_unique _ _ _ c); [done|]. lia.
Qed.

Lemma flat_position_mod (w i c : nat) : c < w → (i * w + c) `mod` w = c.
Proof.
  intros Hc. symmetry. apply (Nat.mod_unique _ _ i); [done|]. lia.
Qed.

Lemma score_add_finite (a b : score) :
  is_finite (score_add a b) = true → is_finite a = true ∧ is_finite b = true.
Proof. by destruct a, b. Qed.

Section ExpandChosen.
Context {tensor : Type} (net : Network tensor) (self : Lemmatizer).
Context (return_loss : bool).
Let beam := beam_size self.

  (** the next hypotheses of a word: [beam_size] different continuations of
      its rows, none by the end symbol, and no other continuation of the
      word that does not end it has a higher cumulative score *)
Lemma expand_batch_chosen n encs target j st st' :
    2 ≤ beam → shaped self n st → length encs = n * beam → finite_scores st →
    expand_batch net self return_loss n encs target j st = Some st' →
    ∀ t, t < n →
      ∃ chosen : list (nat * nat),
        length chosen = beam ∧ NoDup chosen ∧
        (∀ k b c, chosen !! k = Some (b, c) →
           t * beam ≤ b < t * beam + beam ∧ c < beam ∧
           ∃ p idx s sq row hid' out,
             continuation net self encs st b c = Some (p, idx) ∧
             idx ≠ end_index self ∧
             scores st !! b = Some s ∧ sequences st !! b = Some sq ∧
             row_continuations net self encs st b = Some (row, hid', out) ∧
             sequences st' !! (t * beam + k) = Some (sq ++ [idx]) ∧
             scores st' !! (t * beam + k) = Some (score_add s (Fin (ln net p))) ∧
             leading_indices st' !! (t * beam + k) = Some idx ∧
             hidden_states_beam st' !! (t * beam + k) = Some hid') ∧
        (∀ b c p idx s b' c' p' idx' s',
           t * beam ≤ b < t * beam + beam →
           continuation net self encs st b c = Some (p, idx) →
           idx ≠ end_index self → scores st !! b = Some s →
           (b, c) ∉ chosen →
           (b', c') ∈ chosen →
           continuation net self encs st b' c' = Some (p', idx') →
           scores st !! b' = Some s' →
           score_ltb (score_add s' (Fin (ln net p'))) (score_add s (Fin (ln net p)))
             = false).
  Proof.
    intros Hbeam Hsh Henc Hfin Hexp t Ht.
    destruct (expand_batch_parts _ _ _ _ _ _ _ _ _ Hsh Henc Hexp)
      as (decoded & top & bn & sn & Hd & Htop & Htl & Hsa & Hbe & _ & _ & _ & _ & Hrows).
    pose proof (without_end_symbol_uniform _ _ _ _ _ _ Hd Htop) as Huni.
    destruct (best_extensions_spec _ _ _ _ _ _ Huni Hbe) as (Hbn & Hsn & Hsel).
    fold beam in Hbn, Hsn, Hsel.
    destruct (Hsel t Ht) as (sel & Hlen & Hnd & _ & Hk & Hdom & Hall). clear Hsel.
    set (lps' := without_end_symbol self (index_table top) (log_table net top)) in *.
    (* every chosen continuation has a finite score *)
    assert (Hfinite : ∀ v q, (v, q) ∈ sel → is_finite v = true).
    { apply (Hall (λ s, is_finite s = true) _).
      - intros [|x] [|y]; simpl; done.
      - set (rows := take beam (drop (t * beam)
                       (zip_with (λ s row, score_add s <$> row) (scores st) lps'))).
        assert (Hrl : length rows = beam).
        { unfold rows. rewrite length_take, length_drop, length_zip_with.
          destruct Hsh as (_ & Hs & _). fold beam in Hs.
          assert (length lps' = n * beam).
          { unfold lps', without_end_symbol, index_table, log_table.
            rewrite length_zip_with, !length_fmap. lia. }
          nia. }
        assert (Hcount : length rows * (beam - 1)
                         ≤ length (filter (λ s, is_finite s = true) (concat rows))).
        { apply filter_concat_length, Forall_forall. intros hrow Hin.
          eapply (hypothesis_rows_finite net self encs st decoded top);
            [done..|].
          unfold rows in Hin.
          apply list_elem_of_lookup_1 in Hin as [i Hi].
          apply lookup_take_Some in Hi as [Hi _]. rewrite lookup_drop in Hi.
          by eapply list_elem_of_lookup_2. }
        rewrite Hrl in Hcount. nia. }
    (* the entry of the table behind a chosen position *)
    assert (Hcont : ∀ b c, continuation net self encs st b c = entry top b c)
      by (intros; by eapply continuation_entry).
    assert (Hhyp : ∀ b c p idx s,
      entry top b c = Some (p, idx) → scores st !! b = Some s →
      hypothesis_score (scores st) lps' b c
      = Some (score_add s (if decide (idx = end_index self) then NegInf
                           else Fin (ln net p)))).
    { intros b c p idx s He Hs. unfold hypothesis_score. rewrite Hs. simpl.
      unfold lps', without_end_symbol, entry, index_table, log_table.
      rewrite lookup_zip_with, !list_lookup_fmap. unfold entry in He.
      destruct (top !! b) as [row|]; simpl in *; [|done].
      rewrite lookup_zip_with, !list_lookup_fmap, He. done. }
    exists ((λ p : score * nat, (t * beam + p.2 / beam, p.2 `mod` beam)) <$> sel).
    split; [by rewrite length_fmap|]. split; [|split].
    - apply NoDup_fmap_2_strong; [|by apply (NoDup_fmap_1 snd)].
      intros [v1 q1] [v2 q2] H1 H2 [= Hq Hm]. simpl in *.
      assert (q1 = q2).
      { rewrite (Nat.div_mod_eq q1 beam), (Nat.div_mod_eq q2 beam).
        assert (q1 / beam = q2 / beam) as -> by lia. by rewrite Hm. }
      subst q2. f_equal.
      apply list_elem_of_lookup_1 in H1 as [k1 Hk1], H2 as [k2 Hk2].
      assert (k1 = k2).
      { eapply NoDup_lookup; [exact Hnd| |];
          rewrite list_lookup_fmap; [rewrite Hk1|rewrite Hk2]; done. }
      subst k2. congruence.
    - intros k b c Hkc. rewrite list_lookup_fmap in Hkc.
      destruct (sel !! k) as [[v q]|] eqn:Hsk; simpl in Hkc; [|done].
      injection Hkc as <- <-.
      destruct (Hk k v q Hsk) as (Hq & Hb & Hc & Hv).
      assert (Hqd : q / beam < beam) by (apply Nat.Div0.div_lt_upper_bound; lia).
      assert (Hqm : q `mod` beam < beam) by (apply Nat.mod_upper_bound; lia).
      split; [lia|]. split; [done|].
      destruct (Hrows _ _ _ Hb Hc)
        as (sq & p & idx & s & hid' & out & Hsq & He & Hs & Hdb & Hs' & Hsc' & Hl' & Hh').
      rewrite (Hhyp _ _ _ _ _ He Hs) in Hv. injection Hv as <-.
      pose proof (Hfinite _ _ (list_elem_of_lookup_2 _ _ _ Hsk)) as Hf.
      apply score_add_finite in Hf as [_ Hf].
      destruct (decide (idx = end_index self)) as [->|Hne]; [done|].
      assert (Hrc : ∃ row, row_continuations net self encs st (t * beam + q / beam)
                           = Some (row, hid', out)).
      { unfold entry in He.
        destruct (top !! (t * beam + q / beam)) as [row|] eqn:Hr; simpl in He; [|done].
        destruct (table_rows _ _ _ _ _ _ _ _ Hd Htop Hr) as (h & o & Hrc & Hdo).
        exists row. congruence. }
      destruct Hrc as [row Hrc].
      exists p, idx, s, sq, row, hid', out. rewrite Hcont. repeat split; done.
    - intros b c p idx s b' c' p' idx' s' Hb Hc Hne Hs Hnot Hin Hc' Hs'.
      rewrite Hcont in Hc, Hc'.
      apply list_elem_of_fmap in Hin as ([v' q'] & [= -> ->] & Hin). simpl in *.
      apply list_elem_of_lookup_1 in Hin as Hlk. destruct Hlk as [k Hsk].
      destruct (Hk k v' q' Hsk) as (Hq' & _ & _ & Hv').
      rewrite (Hhyp _ _ _ _ _ Hc' Hs') in Hv'. injection Hv' as <-.
      pose proof (Hfinite _ _ Hin) as Hf.
      apply score_add_finite in Hf as [_ Hf].
      destruct (decide (idx' = end_index self)) as [->|Hne']; [done|].
      assert (Hcw : c < beam).
      { unfold entry in Hc. destruct (top !! b) as [row|] eqn:Hr; simpl in Hc; [|done].
        destruct (table_row_facts net self _ _ _ _ _ _ Hd Htop Hr) as [Hrl _].
        apply lookup_lt_Some in Hc. fold beam in Hrl. lia. }
      set (q := (b - t * beam) * beam + c).
      assert (Hqd : q / beam = b - t * beam) by by apply flat_position_div.
      assert (Hqm : q `mod` beam = c) by by apply flat_position_mod.
      assert (Hq : q < beam * beam) by (unfold q; nia).
      eapply (Hdom q _ _ q' Hq); [| |exact Hin].
      + intros Hqin. apply Hnot.
        apply list_elem_of_fmap in Hqin as ([v2 q2] & Heq & Hin2). simpl in Heq.
        apply list_elem_of_fmap. exists (v2, q2). split; [|done]. simpl.
        rewrite <- Heq, Hqd, Hqm. f_equal. lia.
      + rewrite Hqd, Hqm. replace (t * beam + (b - t * beam)) with b by lia.
        rewrite (Hhyp _ _ _ _ _ Hc Hs). by rewrite decide_False.
  Qed.
End ExpandChosen.

Lemma bind_concat {A B : Type} (f : A → list B) (l : list A) :
  l ≫= f = concat (f <$> l).
Proof. induction l as [|x l IH]; [done|]. rewrite fmap_cons. simpl. by rewrite <- IH. Qed.

Lemma lookup_bind_uniform {A B : Type} (w : nat) (f : A → list B) (l : list A) i k :
  (∀ x, x ∈ l → length (f x) = w) → k < w →
  (l ≫= f) !! (i * w + k) = l !! i ≫= λ x, f x !! k.
Proof.
  intros Hall Hk. rewrite bind_concat, (lookup_concat_uniform w); [|by apply Forall_fmap, Forall_forall|done].
  rewrite list_lookup_fmap. by destruct (l !! i).
Qed.

Lemma length_bind_uniform {A B : Type} (w : nat) (f : A → list B) (l : list A) :
  (∀ x, x ∈ l → length (f x) = w) → length (l ≫= f) = length l * w.
Proof.
  intros Hall. rewrite bind_concat, (concat_uniform_length w), length_fmap; [done|].
  by apply Forall_fmap, Forall_forall.
Qed.

Lemma block_position (w K : nat) : 0 < w → K = K / w * w + K `mod` w ∧ K `mod` w < w.
Proof.
  intros Hw. split; [|apply Nat.mod_upper_bound; lia].
  pose proof (Nat.div_mod_eq K w). lia.
Qed.

Section BatchInvariants.
Context {tensor : Type} (net : Network tensor) (self : Lemmatizer).
Context (return_loss : bool).
Let beam := beam_size self.

  (** one expansion keeps the shape and the finite scores, and leaves no end
      symbol as the next input of the decoder *)
Lemma expand_batch_inv n encs target j st st' :
    2 ≤ beam → shaped self n st → length encs = n * beam → finite_scores st →
    expand_batch net self return_loss n encs target j st = Some st' →
    shaped self n st' ∧ finite_scores st' ∧
    end_index self ∉ leading_indices st'.
  Proof.
    intros Hbeam Hsh Henc Hfin Hexp.
    destruct (expand_batch_parts _ _ _ _ _ _ _ _ _ Hsh Henc Hexp)
      as (_ & _ & _ & _ & _ & _ & _ & _ & _ & H1 & H2 & H3 & H4 & _).
    destruct (expand_batch_finals _ _ _ _ _ _ _ _ _ Hsh Henc Hexp) as (H5 & _).
    pose proof (expand_batch_chosen _ _ _ _ _ _ _ _ _ Hbeam Hsh Henc Hfin Hexp)
      as Hch.
    split; [done|].
    assert (Hrow : ∀ K, K < n * beam →
      ∃ q idx, scores st' !! K = Some (Fin q) ∧
               leading_indices st' !! K = Some idx ∧ idx ≠ end_index self).
    { intros K HK.
      destruct (block_position beam K) as [HKeq HKm]; [lia|].
      assert (Ht : K / beam < n).
      { apply Nat.Div0.div_lt_upper_bound. lia. }
      destruct (Hch _ Ht) as (chosen & Hlen & _ & Hk & _).
      destruct (lookup_lt_is_Some_2 chosen (K `mod` beam)) as [[b c] Hbc]; [lia|].
      destruct (Hk _ _ _ Hbc)
        as (_ & _ & p & idx & s & sq & row & hid' & out & _ & Hne & Hs & _ & _ & _
            & Hsc & Hl & _).
      assert (HK' : K / beam * beam + K `mod` beam = K) by lia.
      unfold beam in *. rewrite HK' in Hsc. rewrite HK' in Hl.
      destruct (Hfin s (list_elem_of_lookup_2 _ _ _ Hs)) as [q ->].
      simpl in Hsc. eauto. }
    split.
    - intros s [K HK]%list_elem_of_lookup_1.
      destruct (Hrow K) as (q & idx & Hq & _).
      { apply lookup_lt_Some in HK. fold beam in H2. lia. }
      exists q. congruence.
    - intros [K HK]%list_elem_of_lookup_1.
      destruct (Hrow K) as (q & idx & _ & Hi & Hne).
      { apply lookup_lt_Some in HK. fold beam in H3. lia. }
      congruence.
  Qed.

Lemma expand_loop_inv (I : Beam tensor → Prop) n encs target steps st st' :
    (∀ j st st', I st →
       expand_batch net self return_loss n encs target j st = Some st' → I st') →
    I st →
    expand_loop net self return_loss n encs target steps st = Some st' →
    I st'.
  Proof.
    intros Hstep. revert st. induction steps as [|j steps IH]; intros st HI; simpl.
    - by intros [= <-].
    - destruct (expand_batch net self return_loss n encs target j st) as [st1|] eqn:H1;
        simpl; [|done].
      apply IH. by eapply Hstep.
  Qed.

  (** *** the first step *)
Lemma first_step_Some encoded target st :
    first_step net self return_loss encoded target = Some st →
    ∃ rows : list (list Q * tensor * list (Q * nat)),
      Forall2 (λ e r, decode net self (start_index self) e.1 e.2 = Some (r.1.1, r.1.2) ∧
                      top_characters net self r.1.1 = Some r.2) encoded rows ∧
      sequences st = (rows ≫= λ r, (λ p : Q * nat, [p.2]) <$> r.2) ∧
      scores st = (rows ≫= λ r, (λ p : Q * nat, Fin (ln net p.1)) <$> r.2) ∧
      leading_indices st = (rows ≫= λ r, r.2.*2) ∧
      hidden_states_beam st = (rows ≫= λ r, replicate beam r.1.2) ∧
      final_candidates st = replicate (length encoded) [].
  Proof.
    unfold first_step.
    destruct (mapM _ encoded) as [rows|] eqn:Hm; simpl; [|done].
    destruct (if return_loss then _ else _) as [ls|]; simpl; [|done].
    intros [= <-]. exists rows. simpl. split; [|done].
    apply mapM_Some in Hm. eapply Forall2_impl; [exact Hm|].
    intros [hid enc] [[out hid'] top]. simpl.
    destruct (decode net self (start_index self) hid enc) as [[o h]|]; simpl; [|done].
    destruct (top_characters net self o) as [tp|] eqn:Htp; simpl; [|done].
    by intros [= <- <- <-].
  Qed.

Lemma first_step_shaped encoded target st :
    first_step net self return_loss encoded target = Some st →
    shaped self (length encoded) st ∧ finite_scores st.
  Proof.
    intros (rows & Hrows & Hs & Hsc & Hl & Hh & Hf)%first_step_Some.
    assert (Hlen : ∀ r, r ∈ rows → length r.2 = beam).
    { intros r [i Hi]%list_elem_of_lookup_1.
      destruct (Forall2_lookup_r _ _ _ _ _ Hrows Hi) as (e & _ & _ & Htop).
      by eapply (topk_length Qltb). }
    pose proof (Forall2_length _ _ _ Hrows) as Hrl.
    split.
    - unfold shaped. rewrite Hs, Hsc, Hl, Hh, Hf, length_replicate. fold beam.
      rewrite !(length_bind_uniform beam), Hrl; [done|..].
      + intros r _. by rewrite length_replicate.
      + intros r Hr. rewrite length_fmap. by apply Hlen.
      + intros r Hr. rewrite length_fmap. by apply Hlen.
      + intros r Hr. rewrite length_fmap. by apply Hlen.
    - intros s. rewrite Hsc. intros (r & Hin & _)%list_elem_of_bind.
      apply list_elem_of_fmap in Hin as (p & -> & _). eauto.
  Qed.
End BatchInvariants.

(** ** Batched search: the end of the search *)

Section BatchEnd.
Context {tensor : Type} (net : Network tensor) (self : Lemmatizer).
Context (return_loss : bool) (max_length : nat).
Let beam := beam_size self.

  (** a word without finished hypothesis gets its best live one, normalised
      by [max_length]; the others keep what they have *)
Lemma fill_unfinished_Some n (st : Beam tensor) fc :
    length (scores st) = n * beam →
    fill_unfinished self return_loss max_length n st = Some fc →
    length fc = n ∧
    ∀ t, t < n →
      ∃ old, final_candidates st !! t = Some old ∧
        (old ≠ [] → fc !! t = Some old) ∧
        (old = [] →
           ∃ k sq s loss,
             k < beam ∧ sequences st !! (t * beam + k) = Some sq ∧
             scores st !! (t * beam + k) = Some s ∧
             (∀ k' s', k' < beam → scores st !! (t * beam + k') = Some s' →
                       score_ltb s s' = false) ∧
             (if return_loss
              then ∃ l, losses st !! (t * beam + k) = Some l ∧ loss = Qdiv_nat l max_length
              else loss = 0%Q) ∧
             fc !! t = Some [(sq, score_div s max_length, loss)]).
  Proof.
    intros Hsl. unfold fill_unfinished. fold beam.
    destruct (mapM (topk score_ltb 1) _) as [best|] eqn:Hb; simpl; [|done].
    intros Hm. apply mapM_Some in Hb, Hm.
    pose proof (Forall2_length _ _ _ Hb) as Hbl.
    rewrite length_reshape_uniform in Hbl.
    pose proof (Forall2_length _ _ _ Hm) as Hml. rewrite length_imap in Hml.
    split; [lia|]. intros t Ht.
    destruct (lookup_lt_is_Some_2 best t) as [row Hrow]; [lia|].
    assert (Hi : imap (λ j row, (j, row)) best !! t = Some (t, row))
      by by rewrite list_lookup_imap, Hrow.
    destruct (Forall2_lookup_l _ _ _ _ _ Hm Hi) as (res & Hres & Hf).
    simpl in Hf.
    destruct (row !! 0) as [[score index]|] eqn:H0; simpl in Hf; [|done].
    destruct (final_candidates st !! t) as [old|] eqn:Hold; simpl in Hf; [|done].
    exists old. split; [done|].
    destruct (decide (length old = 0)) as [Hl|Hl].
    - split; [intros Hne; by apply nil_length_inv in Hl|]. intros _.
      destruct (Forall2_lookup_r _ _ _ _ _ Hb Hrow) as (srow & Hsrow & Htop).
      rewrite lookup_reshape_uniform in Hsrow by done. injection Hsrow as <-.
      pose proof (list_elem_of_lookup_2 _ _ _ H0) as Hin.
      pose proof (topk_lookup score_ltb _ _ _ _ _ Htop Hin) as Hlk.
      apply lookup_take_Some in Hlk as [Hlk Hidx]. rewrite lookup_drop in Hlk.
      destruct (if return_loss then _ else _) as [loss|] eqn:Hloss; simpl in Hf; [|done].
      destruct (sequences st !! (t * beam + index)) as [sq|] eqn:Hsq;
        simpl in Hf; [|done].
      injection Hf as <-. apply nil_length_inv in Hl as ->.
      exists index, sq, score, loss. fold beam in Hsq, Hloss.
      repeat split; try done.
      + intros k' s' Hk' Hs'.
        destruct (decide (k' = index)) as [->|Hne].
        * assert (s' = score) as -> by congruence. apply (not_below_refl score_ltb).
        * eapply (topk_dominates score_ltb _ _ _ _ _ _ k' Htop Hin).
          -- rewrite lookup_take_lt, lookup_drop by done. done.
          -- pose proof (topk_length score_ltb _ _ _ Htop) as Hrl.
             destruct row as [|[v i] [|? ?]]; simpl in *; try done.
             injection H0 as <- <-.
             intros Hk%list_elem_of_singleton. done.
      + destruct return_loss; [|by injection Hloss as <-].
        destruct (losses st !! (t * beam + index)) as [l|]; simpl in Hloss; [|done].
        injection Hloss as <-. eauto.
    - split; [|intros ->; done]. intros _. by injection Hf as <-.
  Qed.

Lemma search_batch_Some (batch : list Sentence) outs :
    search_batch net self return_loss max_length batch = Some outs →
    ∃ encoded target st0 st fc,
      encode net self batch = Some encoded ∧
      (if return_loss
       then batch_target self max_length (concat batch) = Some target
       else target = []) ∧
      first_step net self return_loss encoded target = Some st0 ∧
      expand_loop net self return_loss (length (concat batch))
        (batched_encoding_output self encoded) target (seq 1 (max_length - 1)) st0
        = Some st ∧
      fill_unfinished self return_loss max_length (length (concat batch)) st = Some fc ∧
      Forall2 (λ l o, ∃ score, sorted_by score_ltb final_score l !! 0
                               = Some (o.1, score, o.2)) fc outs.
  Proof.
    unfold search_batch.
    destruct (encode net self batch) as [encoded|]; simpl; [|done].
    destruct (if return_loss then _ else _) as [target|] eqn:Ht; simpl; [|done].
    destruct (first_step net self return_loss encoded target) as [st0|] eqn:H0;
      simpl; [|done].
    destruct (expand_loop _ _ _ _ _ _ _ _) as [st|] eqn:H1; simpl; [|done].
    destruct (fill_unfinished _ _ _ _ _) as [fc|] eqn:H2; simpl; [|done].
    intros Hm%mapM_Some.
    exists encoded, target, st0, st, fc. repeat split; try done.
    - destruct return_loss; [done|]. by injection Ht as <-.
    - eapply Forall2_impl; [exact Hm|]. intros l [sq loss] Hl. simpl in *.
      destruct (sorted_by score_ltb final_score l !! 0) as [[[s1 s2] s3]|];
        simpl in Hl; [|done].
      injection Hl as <- <-. eauto.
  Qed.

Lemma encode_length batch encoded :
    encode net self batch = Some encoded → length encoded = length (concat batch).
  Proof.
    unfold encode.
    destruct (if encode_characters self then _ else _) as [chars|]; simpl; [|done].
    intros Hm%length_mapM. by rewrite <- Hm, length_seq.
  Qed.

Lemma batched_encoding_output_length (encoded : list (tensor * option tensor)) :
    length (batched_encoding_output self encoded) = length encoded * beam.
  Proof.
    unfold batched_encoding_output. apply length_bind_uniform.
    intros e _. by rewrite length_replicate.
  Qed.
End BatchEnd.

(** ** Batched search: no masked symbol in any sequence *)

Section BatchClean.
Context {tensor : Type} (net : Network tensor) (self : Lemmatizer).
Context (return_loss : bool) (max_length : nat).
Context (n : nat) (Hd : distributions net n) (Hn : beam_size self + 2 ≤ n).

Lemma clean_snoc sq idx :
    clean self sq → idx ≠ dummy_index self → idx ≠ start_index self →
    clean self (sq ++ [idx]).
  Proof.
    intros [H1 H2] Hd1 Hs1.
    split; (intros [?|Heq%list_elem_of_singleton]%elem_of_app; [done|congruence]).
  Qed.

Lemma first_step_clean encoded target st :
    first_step net self return_loss encoded target = Some st → clean_state self st.
  Proof.
    intros (rows & Hrows & Hs & _ & _ & _ & Hf)%first_step_Some. split.
    - intros sq. rewrite Hs. intros (r & Hin & Hr)%list_elem_of_bind.
      apply list_elem_of_fmap in Hin as ([p i] & -> & Hp).
      apply list_elem_of_lookup_1 in Hr as [k Hk].
      destruct (Forall2_lookup_r _ _ _ _ _ Hrows Hk) as (e & _ & Hdec & Htop).
      apply decode_output in Hdec as [t Ht]. rewrite Ht in Htop.
      destruct (top_characters_unmasked net self n t _ p i Hd Hn Htop Hp)
        as (? & ? & _).
      simpl. split; intros Heq%list_elem_of_singleton; congruence.
    - intros l f. rewrite Hf. intros [-> _]%elem_of_replicate. by intros ?%elem_of_nil.
  Qed.

Lemma expand_batch_clean m encs target j (st st' : Beam tensor) :
    clean_state self st →
    expand_batch net self return_loss m encs target j st = Some st' →
    clean_state self st'.
  Proof.
    intros [Hs Hf] Hexp.
    apply expand_batch_Some in Hexp
      as (decoded & top & fs' & lps' & bn & sn & olds & chars & oscores & steps
          & hids & losses' & Hdr & Ht & Hsa & _ & Ho & Hc & _ & _ & _ & _ & ->).
    simpl. split.
    - intros sq (o & c & -> & Ho1 & Hc1)%elem_of_zip_with.
      apply gather_Some in Ho. apply gather2_Some in Hc.
      apply list_elem_of_lookup_1 in Ho1 as [k1 Hk1].
      destruct (Forall2_lookup_r _ _ _ _ _ Ho Hk1) as (b & _ & Hb).
      apply list_elem_of_lookup_1 in Hc1 as [k2 Hk2].
      destruct (Forall2_lookup_r _ _ _ _ _ Hc Hk2) as ([b2 c2] & _ & Hb2).
      simpl in Hb2. apply entry_index_table in Hb2 as (p & Hp).
      unfold entry in Hp.
      destruct (top !! b2) as [row|] eqn:Hrow; simpl in Hp; [|done].
      destruct (top_rows_outputs net self _ _ _ _ row Hdr Ht) as [t Htop].
      { by eapply list_elem_of_lookup_2. }
      destruct (top_characters_unmasked net self n t _ p c Hd Hn Htop)
        as (? & ? & _).
      { by eapply list_elem_of_lookup_2. }
      apply clean_snoc; [|done..].
      apply Hs. by eapply list_elem_of_lookup_2.
    - intros l f [t Hl]%list_elem_of_lookup_1 Hin.
      destruct (set_aside_all_spec _ _ _ _ _ _ _ _ _ _ _ _ (NoDup_nonzero _ _) Hsa)
        as (_ & _ & Hfs).
      simpl in Hl. specialize (Hfs t f). rewrite Hl in Hfs. simpl in Hfs.
      apply Hfs in Hin as [Hin|(r & c & _ & _ & He)].
      + destruct (final_candidates st !! t) as [old|] eqn:Hold; simpl in Hin;
          [|by apply elem_of_nil in Hin].
        eapply Hf; [|exact Hin]. by eapply list_elem_of_lookup_2.
      + unfold finished_entry in He.
        destruct (sequences st !! r) as [sq|] eqn:Hsq; simpl in He; [|done].
        destruct (scores st !! r); simpl in He; [|done].
        destruct (entry _ r c); simpl in He; [|done].
        destruct (if return_loss then _ else _); simpl in He; [|done].
        injection He as <-. unfold final_seq. simpl.
        apply Hs. by eapply list_elem_of_lookup_2.
  Qed.

Lemma fill_unfinished_clean m (st : Beam tensor) fc :
    clean_state self st →
    fill_unfinished self return_loss max_length m st = Some fc →
    ∀ l f, l ∈ fc → f ∈ l → clean self (final_seq f).
  Proof.
    intros [Hs Hf]. unfold fill_unfinished.
    destruct (mapM (topk score_ltb 1) _) as [best|]; simpl; [|done].
    intros Hm%mapM_Some l f [t Hl]%list_elem_of_lookup_1 Hin.
    destruct (Forall2_lookup_r _ _ _ _ _ Hm Hl) as ([j row] & _ & Hr).
    simpl in Hr.
    destruct (row !! 0) as [[score index]|]; simpl in Hr; [|done].
    destruct (final_candidates st !! j) as [old|] eqn:Hold; simpl in Hr; [|done].
    assert (Hc : ∀ f, f ∈ old → clean self (final_seq f)).
    { intros f' Hf'. eapply Hf; [|exact Hf']. by eapply list_elem_of_lookup_2. }
    destruct (decide (length old = 0)).
    - destruct (if return_loss then _ else _); simpl in Hr; [|done].
      destruct (sequences st !! _) as [sq|] eqn:Hsq; simpl in Hr; [|done].
      injection Hr as <-.
      apply elem_of_app in Hin as [Hin|Hin]; [by apply Hc|].
      apply list_elem_of_singleton in Hin as ->.
      apply Hs. by eapply list_elem_of_lookup_2.
    - injection Hr as <-. by apply Hc.
  Qed.

  (** the predicted index sequences of a batch never hold a masked symbol *)
Lemma search_batch_clean batch outs o :
    search_batch net self return_loss max_length batch = Some outs →
    o ∈ outs → clean self o.1.
  Proof.
    intros (encoded & target & st0 & st & fc & _ & _ & H0 & H1 & H2 & H3)
      %search_batch_Some Ho.
    apply first_step_clean in H0.
    assert (Hst : clean_state self st).
    { eapply (expand_loop_inv net self return_loss (clean_state self)); [|exact H0|exact H1].
      intros j s s' Hs He. by eapply expand_batch_clean. }
    apply list_elem_of_lookup_1 in Ho as [k Hk].
    destruct (Forall2_lookup_r _ _ _ _ _ H3 Hk) as (l & Hl & score & Hsort).
    apply list_elem_of_lookup_2 in Hsort. unfold sorted_by in Hsort.
    rewrite sorted_desc_perm in Hsort by apply _.
    apply (fill_unfinished_clean _ _ _ Hst H2 l (o.1, score, o.2));
      [by eapply list_elem_of_lookup_2|done].
  Qed.
End BatchClean.

(** ** Batched search: states reached from the first step *)

Section Reached.
Context {tensor : Type} (net : Network tensor) (self : Lemmatizer).
Context (return_loss : bool).

Lemma expand_batch_inv_batched n encs target j st st' :
    beam_size self ≠ 1 → shaped self n st → length encs = n * beam_size self →
    finite_scores st →
    expand_batch net self return_loss n encs target j st = Some st' →
    shaped self n st' ∧ finite_scores st' ∧ end_index self ∉ leading_indices st'.
  Proof.
    intros Hbatched Hsh Henc Hfin Hexp.
    destruct (decide (beam_size self = 0)) as [H0|H0].
    - destruct (expand_batch_parts _ _ _ _ _ _ _ _ _ Hsh Henc Hexp)
        as (_ & _ & _ & _ & _ & _ & _ & _ & _ & H1 & H2 & H3 & H4 & _).
      destruct (expand_batch_finals _ _ _ _ _ _ _ _ _ Hsh Henc Hexp) as (H5 & _).
      split; [done|]. rewrite H0, Nat.mul_0_r in H2, H3.
      apply nil_length_inv in H2, H3. split.
      + intros s. rewrite H2. by intros ?%elem_of_nil.
      + rewrite H3. apply not_elem_of_nil.
    - eapply expand_batch_inv; eauto. lia.
  Qed.

  (** every state of the loop of line 423 has the shape of the batch and
      finite scores *)
Lemma reached_shaped encoded target steps st0 st :
    beam_size self ≠ 1 →
    first_step net self return_loss encoded target = Some st0 →
    expand_loop net self return_loss (length encoded)
      (batched_encoding_output self encoded) target steps st0 = Some st →
    shaped self (length encoded) st ∧ finite_scores st.
  Proof.
    intros Hbatched H0 H1.
    eapply (expand_loop_inv net self return_loss
              (λ st, shaped self (length encoded) st ∧ finite_scores st));
      [|by eapply first_step_shaped|exact H1].
    intros j s s' [Hs Hf] He.
    destruct (expand_batch_inv_batched _ _ _ _ _ _ Hbatched Hs
                (batched_encoding_output_length self encoded) Hf He) as (? & ? & _).
    done.
  Qed.
End Reached.

(** ** Claim C1 *)


(** ** Claim C2 *)

Lemma filter_other_length (e : nat) (l : list (Q * nat)) :
  NoDup l.*2 → length l - 1 ≤ length (filter (λ p : Q * nat, p.2 ≠ e) l).
Proof.
  induction l as [|[p i] l IH]; intros Hnd; [simpl; lia|].
  rewrite fmap_cons in Hnd. apply NoDup_cons in Hnd as [Hnotin Hnd].
  rewrite filter_cons. simpl in *.
  destruct (decide (i ≠ e)) as [Hne|He]; simpl.
  - specialize (IH Hnd). lia.
  - assert (i = e) as -> by (destruct (decide (i = e)); [done|by exfalso; apply He]).
    rewrite filter_all; [lia|].
    intros [p' i'] Hin. simpl. intros ->. apply Hnotin.
    apply list_elem_of_fmap. by exists (p', e).
Qed.

Section TokenChoice.
Context {tensor : Type} (net : Network tensor) (self : Lemmatizer).
Context (return_loss : bool).

Lemma next_characters_top i enc target h top hid' new_loss :
    next_characters net self return_loss i enc target h = Some (top, hid', new_loss) →
    length top = beam_size self ∧ NoDup top.*2.
  Proof.
    destruct h as [[[sq hid] sc] l].
    intros (? & out & _ & _ & Htop & _)%next_characters_Some.
    unfold top_characters in Htop.
    split; [by eapply (topk_length Qltb)|by eapply (topk_NoDup Qltb)].
  Qed.

  (** an expansion of [beam_size] hypotheses leaves enough live continuations
      to fill the beam, unless it leaves none *)
Lemma expand_enough i enc target (live : list (Candidate tensor)) finals ns fs' :
    expand net self return_loss i enc target live [] finals = Some (ns, fs') →
    length live = beam_size self → ns ≠ [] →
    beam_size self ≤ length ns.
  Proof.
    rewrite expand_spec.
    destruct (mapM _ live) as [rs|] eqn:Hrs; simpl; [|done].
    intros [= <- _] Hlive Hne. apply mapM_Some in Hrs.
    set (rows := (λ hr : Candidate tensor * (list (Q * nat) * tensor * Q),
                    (children_of net self hr.1 hr.2).1) <$> zip live rs) in *.
    assert (Hrows : Forall (λ r, beam_size self - 1
                            ≤ length (filter (λ _ : Candidate tensor, True) r)) rows).
    { apply Forall_fmap, Forall_forall. intros [h [[top hid'] nl]] Hin. simpl.
      pose proof (elem_of_zip_Forall2 _ _ _ _ _ Hrs Hin) as Hnext.
      apply next_characters_top in Hnext as [Hlen Hnd].
      rewrite filter_all by done. unfold live_children. rewrite length_fmap.
      rewrite <- Hlen. by apply filter_other_length. }
    apply (filter_concat_length (λ _, True)) in Hrows.
    rewrite filter_all in Hrows by done.
    assert (length rows = beam_size self) as Hrl.
    { unfold rows. rewrite length_fmap, length_zip_with.
      apply Forall2_length in Hrs. lia. }
    rewrite Hrl in Hrows.
    enough (beam_size self ≤ length (concat rows)) by done.
    assert (Hne' : concat rows ≠ []) by done.
    destruct (concat rows) as [|c cs]; [done|]. simpl in Hrows |- *.
    destruct (beam_size self) as [|[|b]]; simpl in *; nia.
  Qed.
End TokenChoice.


(** ** [predict]: batches and the caller's sentences *)

Lemma concat_batches_of {A : Type} (fuel batch_size : nat) (l : list A) :
  0 < batch_size → length l ≤ fuel →
  concat (batches_of fuel batch_size l) = l.
Proof.
  intros Hb. revert l. induction fuel as [|fuel IH]; intros l Hl.
  - destruct l; [done|simpl in Hl; lia].
  - destruct l as [|x l]; [done|].
    cbn [batches_of concat]. rewrite IH.
    + apply take_drop.
    + rewrite length_drop. simpl in *. lia.
Qed.

Lemma data_loader_concat {A : Type} (batch_size : nat) (l : list A) batches :
  data_loader batch_size l = Some batches → concat batches = l.
Proof.
  unfold data_loader. case_decide; [done|]. intros [= <-].
  apply concat_batches_of; lia.
Qed.

Lemma Forall2_concat {A B : Type} (R : A → B → Prop) (ll : list (list A))
    (kk : list (list B)) :
  Forall2 (Forall2 R) ll kk → Forall2 R (concat ll) (concat kk).
Proof.
  induction 1 as [|l k ll kk Hlk _ IH]; simpl; [constructor|].
  by apply Forall2_app.
Qed.

Lemma Forall2_reshape {A B : Type} (R : A → B → Prop) (ll : list (list A))
    (k : list B) :
  Forall2 R (concat ll) k →
  Forall2 (Forall2 R) ll (reshape (length <$> ll) k).
Proof.
  revert k. induction ll as [|l ll IH]; intros k H; simpl in *; [constructor|].
  apply Forall2_app_inv_l in H as (k1 & k2 & H1 & H2 & ->).
  pose proof (Forall2_length _ _ _ H1) as Hlen.
  rewrite take_app_length', drop_app_length' by done.
  constructor; [done|]. by apply IH.
Qed.

Lemma scatter_spec (R : Sentence → Sentence → Prop) (given result : list Sentence) :
  Forall2 R (filter (λ s : Sentence, 0 < length s) given) result →
  Forall2 (λ s s', if decide (0 < length s) then R s s' else s' = s)
    given (scatter given result).
Proof.
  revert result. induction given as [|s given IH]; intros result H; simpl.
  - constructor.
  - rewrite filter_cons in H. destruct (decide (0 < length s)) as [Hs|Hs].
    + inversion H as [|? r ? result' Hr Hrest]; subst.
      constructor; [by rewrite decide_True|]. by apply IH.
    + constructor; [by rewrite decide_False|]. by apply IH.
Qed.

Section PredictParts.
Context {tensor : Type} (net : Network tensor).

Lemma fill_unfinished_length (self : Lemmatizer) rl ml m (st : Beam tensor) fc :
    fill_unfinished self rl ml m st = Some fc → length fc = m.
  Proof.
    unfold fill_unfinished.
    destruct (mapM (topk score_ltb 1) _) as [best|] eqn:Hb; simpl; [|done].
    intros Hm%length_mapM. apply length_mapM in Hb.
    rewrite length_reshape_uniform in Hb. rewrite length_imap in Hm. lia.
  Qed.

Lemma search_batch_length self rl ml batch outs :
    search_batch net self rl ml batch = Some outs →
    length outs = length (concat batch).
  Proof.
    intros (encoded & target & st0 & st & fc & _ & _ & _ & _ & H2 & H3)%search_batch_Some.
    apply fill_unfinished_length in H2. apply Forall2_length in H3. lia.
  Qed.

  (** one batch, all words at once: every word is tagged *)
Lemma predict_batch_annotated self label_name rl ml batch res loss cnt :
    predict_batch net self label_name rl ml batch = Some (res, loss, cnt) →
    Forall2 (annotated label_name) batch res ∧ cnt = length (concat batch).
  Proof.
    unfold predict_batch. cbv zeta.
    set (batch' := (λ sentence : list Token,
                      (λ token, remove_labels token label_name) <$> sentence) <$> batch).
    destruct (search_batch net self rl ml batch') as [outs|] eqn:Hs;
      cbn [mbind option_bind]; [|done].
    destruct (mapM _ outs) as [lemmas|] eqn:Hl; cbn [mbind option_bind]; [|done].
    intros [= <- <- <-].
    apply search_batch_length in Hs. apply length_mapM in Hl.
    assert (Hcat : concat batch'
                   = (λ token, remove_labels token label_name) <$> concat batch).
    { unfold batch'. clear. induction batch as [|s b IH]; [done|].
      rewrite fmap_cons. simpl. by rewrite fmap_app, <- IH. }
    split.
    - assert (Hlens : length <$> batch' = length <$> batch).
      { unfold batch'. rewrite <- list_fmap_compose. apply list_fmap_ext.
        intros i s _. simpl. by rewrite length_fmap. }
      rewrite Hlens. apply Forall2_reshape.
      rewrite Hcat. apply Forall2_same_length_lookup_2.
      + by rewrite length_imap, length_fmap.
      + intros i tok tok' Hi Hi'.
        rewrite list_lookup_imap, list_lookup_fmap, Hi in Hi'. simpl in Hi'.
        destruct (lemmas !! i) as [lemma|] eqn:Hlem.
        * injection Hi' as <-. by exists lemma.
        * exfalso. apply lookup_ge_None in Hlem. apply lookup_lt_Some in Hi.
          rewrite Hcat, length_fmap in Hs. lia.
    - by rewrite Hcat, length_fmap.
  Qed.

Lemma predict_token_tagged self label_name rl ml emb token token' loss :
    predict_token net self label_name rl ml emb token = Some (token', loss) →
    ∃ lemma, token' = tagged label_name lemma token.
  Proof.
    unfold predict_token.
    destruct (search_token _ _ _ _ _ _) as [[best l]|]; simpl; [|done].
    destruct (lemma_of self best) as [lemma|]; simpl; [|done].
    intros [= <- <-]. by exists lemma.
  Qed.

Lemma predict_sentence_annotated self label_name rl ml sentence res :
    predict_sentence net self label_name rl ml sentence = Some res →
    annotated label_name sentence res.*1.
  Proof.
    unfold predict_sentence. intros Hm%mapM_Some.
    apply Forall2_fmap_r. apply Forall2_same_length_lookup_2.
    - apply Forall2_length in Hm. by rewrite length_imap in Hm.
    - intros i tok [tok' loss] Hi Hi'.
      assert (Him : imap (λ i token, (i, token)) sentence !! i = Some (i, tok))
        by by rewrite list_lookup_imap, Hi.
      pose proof (Forall2_lookup_lr _ _ _ _ _ _ Hm Him Hi') as Hp. simpl in Hp.
      by eapply predict_token_tagged.
  Qed.

  (** one batch, word by word: every word is tagged *)
Lemma predict_batch_tokens_annotated self label_name rl ml batch res loss cnt :
    predict_batch_tokens net self label_name rl ml batch = Some (res, loss, cnt) →
    Forall2 (annotated label_name) batch res ∧ cnt = length (concat batch).
  Proof.
    unfold predict_batch_tokens.
    destruct (mapM _ batch) as [results|] eqn:Hm; simpl; [|done].
    intros [= <- <- <-]. apply mapM_Some in Hm.
    assert (HF : Forall2 (annotated label_name) batch
                   ((λ r : list (Token * Q), r.*1) <$> results)).
    { apply Forall2_fmap_r. eapply Forall2_impl; [exact Hm|].
      intros s r. apply predict_sentence_annotated. }
    split; [done|].
    apply Forall2_concat in HF. apply Forall2_length in HF. rewrite HF.
    clear. induction results as [|r rs IH]; simpl; [done|].
    by rewrite !length_app, length_fmap, IH.
  Qed.
End PredictParts.

(** ** [predict]: the whole call *)

Lemma length_concat_filter_nonempty (l : list Sentence) :
  length (concat (filter (λ s : Sentence, 0 < length s) l)) = length (concat l).
Proof.
  induction l as [|s l IH]; [done|]. rewrite filter_cons. simpl.
  destruct (decide (0 < length s)); simpl; rewrite ?length_app, IH; lia.
Qed.

Lemma filter_nonempty_nil (l : list Sentence) :
  filter (λ s : Sentence, 0 < length s) l = [] ↔ Forall (λ s, length s = 0) l.
Proof.
  induction l as [|s l IH]; [by split; [constructor|]|].
  rewrite filter_cons, Forall_cons. destruct (decide (0 < length s)).
  - split; [done|]. intros [? _]. lia.
  - rewrite IH. split; [|by intros [_ ?]]. intros H. split; [lia|done].
Qed.

Section PredictWhole.
Context {tensor : Type} (net : Network tensor).

Lemma predict_Some self sentences label_name mini_batch_size return_loss store ret :
    (predict net self sentences label_name mini_batch_size return_loss).2
      = Some (store, ret) →
    let self' := (predict net self sentences label_name mini_batch_size return_loss).1 in
    let given := given_sentences sentences in
    let nonempty := filter (λ s : Sentence, 0 < length s) given in
    (nonempty = [] ∧ store = given ∧ ret = RetSentences []) ∨
    (nonempty ≠ [] ∧
     ∃ max_length batches (results : list (list Sentence * Q * nat)),
       max_length_of self' nonempty = Some max_length ∧
       data_loader mini_batch_size nonempty = Some batches ∧
       Forall2 (λ b r,
          (if batching_in_rnn self'
           then predict_batch net self' label_name return_loss max_length
           else predict_batch_tokens net self' label_name return_loss max_length) b
          = Some r) batches results ∧
       store = scatter given (concat ((λ r : list Sentence * Q * nat, r.1.1) <$> results)) ∧
       ret = if return_loss
             then RetLoss (Qsum ((λ r : list Sentence * Q * nat, r.1.2) <$> results))
                          (sum_list ((λ r : list Sentence * Q * nat, r.2) <$> results))
             else RetNone).
  Proof.
    unfold predict, given_sentences. cbn [fst snd].
    set (self' := if decide (beam_size self = 1) then _ else _).
    set (given := match sentences with inl s => [s] | inr l => l end).
    set (nonempty := filter _ given).
    destruct (decide (length nonempty = 0)) as [Hl|Hl].
    - apply nil_length_inv in Hl. intros [= <- <-]. left. by rewrite Hl.
    - intros H. right. split; [by intros Hn; rewrite Hn in Hl|].
      destruct (max_length_of self' nonempty) as [ml|]; simpl in H; [|done].
      destruct (data_loader mini_batch_size nonempty) as [batches|]; simpl in H; [|done].
      destruct (mapM _ batches) as [results|] eqn:Hm; simpl in H; [|done].
      injection H as <- <-. apply mapM_Some in Hm.
      exists ml, batches, results. repeat split; done.
  Qed.
End PredictWhole.

(** ** Claim C8 *)

Lemma sum_counts (batches : list (list Sentence))
    (results : list (list Sentence * Q * nat)) :
  Forall2 (λ b r, r.2 = length (concat b)) batches results →
  sum_list ((λ r : list Sentence * Q * nat, r.2) <$> results)
  = length (concat (concat batches)).
Proof.
  induction 1 as [|b r bs rs Hbr _ IH]; [done|].
  rewrite fmap_cons. cbn [sum_list sum_list_with concat].
  rewrite concat_app, length_app, <- Hbr. f_equal. exact IH.
Qed.

(** C8, as the code has it: a call of [predict] that ends without exception
    leaves every empty sentence of the caller as it was and every other
    sentence with the same words, each tagged under [label_name] with a
    predicted lemma in place of its old labels of that name.  It hands back
    the (empty) filtered list when no sentence has a word, else the pair of
    the total loss and the number of words when [return_loss] is set, else
    nothing: the annotated sentences are not returned. *)
Theorem predict_annotates_in_place {tensor : Type} (net : Network tensor)
    (self : Lemmatizer) (sentences : Sentence + list Sentence)
    (label_name : string) (mini_batch_size : nat) (return_loss : bool)
    (store : list Sentence) (ret : Returned) :
  (predict net self sentences label_name mini_batch_size return_loss).2
    = Some (store, ret) →
  let given := given_sentences sentences in
  Forall2 (λ s s', if decide (0 < length s) then annotated label_name s s' else s' = s)
    given store ∧
  (Forall (λ s : Sentence, length s = 0) given → ret = RetSentences []) ∧
  (¬ Forall (λ s : Sentence, length s = 0) given →
   if return_loss
   then ∃ overall_loss, ret = RetLoss overall_loss (length (concat given))
   else ret = RetNone).
Proof.
  intros H given.
  apply predict_Some in H as [(Hn & -> & ->)|(Hn & ml & batches & results & _ & Hdl & Hres & -> & ->)];
    fold given in Hn |- *.
  - apply filter_nonempty_nil in Hn as Hall. split; [|split; [done|done]].
    apply Forall2_same_length_lookup_2; [done|].
    intros i s s' Hs Hs'. rewrite Forall_forall in Hall.
    rewrite decide_False;
      [pose proof (eq_trans (eq_sym Hs') Hs) as Heq; by injection Heq|].
    pose proof (Hall s (list_elem_of_lookup_2 _ _ _ Hs)). lia.
  - set (self' := (predict net self sentences label_name mini_batch_size return_loss).1)
      in *.
    assert (Hann : Forall2 (λ b (r : list Sentence * Q * nat),
                     Forall2 (annotated label_name) b r.1.1 ∧ r.2 = length (concat b))
                     batches results).
    { eapply Forall2_impl; [exact Hres|]. intros b [[res loss] cnt] Hb. simpl.
      destruct (batching_in_rnn self').
      - by eapply predict_batch_annotated.
      - by eapply predict_batch_tokens_annotated. }
    apply data_loader_concat in Hdl.
    split; [|split].
    + assert (HF : Forall2 (annotated label_name) (concat batches)
                     (concat ((λ r : list Sentence * Q * nat, r.1.1) <$> results))).
      { apply Forall2_concat, Forall2_fmap_r.
        eapply Forall2_impl; [exact Hann|]. by intros b r [? _]. }
      rewrite Hdl in HF. apply scatter_spec. exact HF.
    + intros Hall%filter_nonempty_nil. done.
    + intros _. destruct return_loss; [|done].
      eexists. f_equal.
      rewrite (sum_counts batches).
      * by rewrite Hdl, length_concat_filter_nonempty.
      * eapply Forall2_impl; [exact Hann|]. by intros b r [_ ?].
Qed.

(** a call on a sentence of one word and an empty sentence, with the loss *)
Lemma predict_annotates_in_place_witness :
  let call := predict (demo_network never_end) (demo_model 2 true false 2)
                (inr [[word "a"]; []]) "predicted" 16 true in
  call.2 = Some ([[tagged "predicted" "aa" (word "a")]; []], RetLoss (15 # 20) 1) ∧
  Forall2 (λ s s', if decide (0 < length s) then annotated "predicted" s s' else s' = s)
    [[word "a"]; []] [[tagged "predicted" "aa" (word "a")]; []].
Proof.
  assert (H : (predict (demo_network never_end) (demo_model 2 true false 2)
                 (inr [[word "a"]; []]) "predicted" 16 true).2
              = Some ([[tagged "predicted" "aa" (word "a")]; []], RetLoss (15 # 20) 1))
    by (vm_compute; reflexivity).
  split; [exact H|].
  exact (proj1 (predict_annotates_in_place _ _ _ _ _ _ _ _ H)).
Defined.

(** C8 as stated fails: a call on one sentence of one word hands back nothing,
    not the annotated sentences; with [return_loss] it hands back the pair
    alone. *)
Lemma predict_does_not_return_sentences :
  (∃ store,
     (predict (demo_network never_end) (demo_model 2 true false 2)
        (inr [[word "a"]]) "predicted" 16 false).2 = Some (store, RetNone) ∧
     predicted_lemmas "predicted" store = [["aa"]] ∧
     RetNone ≠ RetSentences store) ∧
  (∃ store,
     (predict (demo_network never_end) (demo_model 2 true false 2)
        (inr [[word "a"]]) "predicted" 16 true).2
       = Some (store, RetLoss (15 # 20) 1) ∧
     RetLoss (15 # 20) 1 ≠ RetSentences store).
Proof.
  split.
  - exists [[tagged "predicted" "aa" (word "a")]].
    split; [vm_compute; reflexivity|]. split; [vm_compute; reflexivity|done].
  - exists [[tagged "predicted" "aa" (word "a")]].
    split; [vm_compute; reflexivity|done].
Qed.

(** ** The claims at concrete searches *)



(** the matrix of the two strings of the specification *)
Lemma words_to_char_indices_matrix_witness :
  ["ab"; "c"] ≠ [] ∧
  ∃ longest : nat,
    (longest ∈ String.length <$> ["ab"; "c"]) ∧
    words_to_char_indices (demo_model 2 true true 3) ["ab"; "c"] true true false None
      = Some [[2; 4; 5; 3]; [2; 6; 3; 1]].
Proof.
  assert (Hne : ["ab"; "c"] ≠ []) by done.
  split; [exact Hne|].
  destruct (words_to_char_indices_matrix (demo_model 2 true true 3) ["ab"; "c"]
              true true false None Hne) as (longest & Hin & _ & _ & _ & Hex).
  exists longest. split; [exact Hin|]. exact Hex.
Defined.

(** a model with one hypothesis and batching switched on *)
Lemma predict_switches_batching_off_witness :
  beam_size (demo_model 1 true true 3) = 1 ∧
  batching_in_rnn (demo_model 1 true true 3) = true ∧
  batching_in_rnn
    (after_call (demo_network never_end) (demo_model 1 true true 3)
       (mkCall (inr [[word "a"]]) "predicted" 16 false)) = false.
Proof.
  assert (H1 : beam_size (demo_model 1 true true 3) = 1) by reflexivity.
  split; [exact H1|]. split; [reflexivity|].
  exact (proj1 (predict_switches_batching_off (demo_network never_end)
                  (demo_model 1 true true 3)
                  (mkCall (inr [[word "a"]]) "predicted" 16 false) H1)).
Defined.

(** ** The masked symbols *)

Section MaskedEntries.
Context (self : Lemmatizer).

(** the two masked entries hold [-1], the others are untouched *)
Lemma mask_probs_masked probs i :
  i < length probs → i = dummy_index self ∨ i = start_index self →
  mask_probs self probs !! i = Some (-1)%Q.
Proof.
  intros Hi Hm. unfold mask_probs.
  destruct (decide (i = start_index self)) as [-> | Hne].
  - apply list_lookup_insert_eq. by rewrite length_insert.
  - destruct Hm as [-> | ->]; [|done].
    rewrite list_lookup_insert_ne by done.
    by apply list_lookup_insert_eq.
Qed.

Lemma mask_probs_other probs i :
  i ≠ dummy_index self → i ≠ start_index self →
  mask_probs self probs !! i = probs !! i.
Proof.
  intros H1 H2. unfold mask_probs.
  by rewrite !list_lookup_insert_ne by done.
Qed.
End MaskedEntries.

Section PredictedSequences.
Context {tensor : Type} (net : Network tensor) (self : Lemmatizer).

Lemma predict_token_sequence label_name rl ml emb token token' loss :
  predict_token net self label_name rl ml emb token = Some (token', loss) →
  ∃ sq lemma,
    search_token net self rl ml emb (remove_labels token label_name) = Some (sq, loss) ∧
    lemma_of self sq = Some lemma ∧
    token' = tagged label_name lemma token.
Proof.
  unfold predict_token.
  destruct (search_token _ _ _ _ _ _) as [[sq l]|]; simpl; [|done].
  destruct (lemma_of self sq) as [lemma|] eqn:Hl; simpl; [|done].
  intros [= <- <-]. by exists sq, lemma.
Qed.

Lemma predict_batch_sequences label_name rl ml batch res loss cnt :
  predict_batch net self label_name rl ml batch = Some (res, loss, cnt) →
  ∃ outs lemmas,
    search_batch net self rl ml
      ((λ sentence : Sentence,
          (λ token, remove_labels token label_name) <$> sentence) <$> batch)
      = Some outs ∧
    Forall2 (λ o lemma, lemma_of self o.1 = Some lemma) outs lemmas ∧
    Forall2 (λ token' lemma, ∃ token, token' = tagged label_name lemma token)
      (concat res) lemmas.
Proof.
  unfold predict_batch.
  destruct (search_batch _ _ _ _ _) as [outs|] eqn:Hs; simpl; [|done].
  destruct (mapM _ outs) as [lemmas|] eqn:Hm; simpl; [|done].
  intros [= <- _ _]. exists outs, lemmas. split; [done|].
  apply mapM_Some in Hm. split; [exact Hm|].
  pose proof (search_batch_length net _ _ _ _ _ Hs) as Hlen.
  pose proof (Forall2_length _ _ _ Hm) as Hlen'.
  set (toks := concat _) in *.
  rewrite concat_join, join_reshape.
  2:{ rewrite length_imap. unfold toks. by rewrite concat_join, length_join. }
  apply Forall2_same_length_lookup_2.
  - rewrite length_imap. lia.
  - intros i t' lemma Ht' Hl. rewrite list_lookup_imap in Ht'.
    destruct (toks !! i) as [tok|] eqn:Htok; simpl in Ht'; [|done].
    rewrite Hl in Ht'. injection Ht' as <-.
    unfold toks in Htok.
    assert (Hin : tok ∈ concat ((λ sentence : Sentence,
               (λ token, remove_labels token label_name) <$> sentence) <$> batch))
      by by eapply list_elem_of_lookup_2.
    apply elem_of_concat in Hin as (s' & Hin & Hs').
    apply list_elem_of_fmap in Hs' as (s & -> & _).
    apply list_elem_of_fmap in Hin as (token & -> & _).
    by exists token.
Qed.
End PredictedSequences.


(** the demonstration networks give distributions over the seven characters
    of the demonstration dictionary *)
Lemma constant_distributions (dist : list Q) (n : nat) :
  length dist = n → Forall (λ p, (0 <= p)%Q) dist →
  distributions (demo_network (λ _ _, dist)) n.
Proof.
  intros Hl Hp t. split; [exact Hl|].
  intros p Hin. rewrite Forall_forall in Hp. by apply Hp.
Qed.

Lemma never_end_distributions : distributions (demo_network never_end) 7.
Proof.
  apply constant_distributions; [reflexivity|].
  repeat constructor; by vm_compute.
Qed.



(** ** The first decoding step *)

Section FirstStepRows.
Context {tensor : Type} (net : Network tensor) (self : Lemmatizer).
Context (return_loss : bool).

(** the [k]-th selected first character of word [t] opens row
    [t * beam_size + k] of the first state, whatever the character is *)
Lemma first_step_row encoded target st t k e out hid' top p idx :
  first_step net self return_loss encoded target = Some st →
  encoded !! t = Some e →
  decode net self (start_index self) e.1 e.2 = Some (out, hid') →
  top_characters net self out = Some top →
  top !! k = Some (p, idx) →
  sequences st !! (t * beam_size self + k) = Some [idx] ∧
  scores st !! (t * beam_size self + k) = Some (Fin (ln net p)) ∧
  leading_indices st !! (t * beam_size self + k) = Some idx ∧
  hidden_states_beam st !! (t * beam_size self + k) = Some hid'.
Proof.
  intros (rows & Hrows & Hs & Hsc & Hl & Hh & _)%first_step_Some He Hdec Htop Hk.
  destruct (Forall2_lookup_l _ _ _ _ _ Hrows He) as (r & Hr & Hdec' & Htop').
  rewrite Hdec in Hdec'. injection Hdec' as Ho Hh'.
  rewrite <- Ho in Htop'. rewrite Htop in Htop'. injection Htop' as Ht.
  assert (Hlen : ∀ x, x ∈ rows → length x.2 = beam_size self).
  { intros x [i Hi]%list_elem_of_lookup_1.
    destruct (Forall2_lookup_r _ _ _ _ _ Hrows Hi) as (e' & _ & _ & Ht').
    by apply topk_length in Ht'. }
  assert (Hkb : k < beam_size self).
  { apply lookup_lt_Some in Hk. apply topk_length in Htop. lia. }
  rewrite Hs, Hsc, Hl, Hh.
  rewrite !(lookup_bind_uniform (beam_size self)); try done.
  - rewrite Hr. simpl. rewrite <- Ht, <- Hh'.
    rewrite !list_lookup_fmap, Hk. simpl.
    split; [done|]. split; [done|]. split; [done|].
    by apply lookup_replicate_2.
  - intros x _. by rewrite length_replicate.
  - intros x Hx. rewrite length_fmap. by apply Hlen.
  - intros x Hx. rewrite length_fmap. by apply Hlen.
  - intros x Hx. rewrite length_fmap. by apply Hlen.
Qed.
End FirstStepRows.

(** C10.  The first decoding step does not look for the end symbol.  Word by
    word, every selected first character opens a live hypothesis, the end
    symbol like any other, and the search goes on with nothing set aside.
    In a batch, the [k]-th selected first character of a word opens the
    [k]-th row of the word and the finished lists of all words start empty.
    With the network [end_first] the predicted lemma of a word is the string
    of the end symbol, in both modes. *)
Theorem first_step_keeps_end_symbol :
  (∀ (tensor : Type) (net : Network tensor) (self : Lemmatizer) (return_loss : bool),
     (∀ hid enc target live,
        first_pass net self return_loss hid enc target = Some live →
        ∃ out hid' top loss,
          decode net self (start_index self) hid enc = Some (out, hid') ∧
          top_characters net self out = Some top ∧
          length live = length top ∧
          ∀ k p, top !! k = Some (p, end_index self) →
                 live !! k = Some ([end_index self], hid', ln net p, loss)) ∧
     (∀ max_length embedding token best loss,
        search_token net self return_loss max_length embedding token
          = Some (best, loss) →
        ∃ hid enc target live,
          first_pass net self return_loss hid enc target = Some live ∧
          ∃ sequences finals,
            beam_loop net self return_loss (seq 1 (max_length - 1)) enc target live []
              = Some (sequences, finals)) ∧
     (∀ encoded target st,
        first_step net self return_loss encoded target = Some st →
        final_candidates st = replicate (length encoded) [] ∧
        ∀ t k e out hid' top p,
          encoded !! t = Some e →
          decode net self (start_index self) e.1 e.2 = Some (out, hid') →
          top_characters net self out = Some top →
          top !! k = Some (p, end_index self) →
          sequences st !! (t * beam_size self + k) = Some [end_index self] ∧
          scores st !! (t * beam_size self + k) = Some (Fin (ln net p)) ∧
          leading_indices st !! (t * beam_size self + k) = Some (end_index self)))
  ∧
  (∀ batching : bool,
     let self := demo_model 2 batching false 2 in
     get_item_for_index (char_dictionary self) (end_index self) = Some "<E>" ∧
     ∃ store,
       (predict (demo_network end_first) self (inr [[word "ab"]]) "predicted" 16
          false).2 = Some (store, RetNone) ∧
       predicted_lemmas "predicted" store = [["<E>"]]).
Proof.
  split.
  - intros tensor net self return_loss. split; [|split].
    + intros hid enc target live
        (out & hid' & top & loss & Hdec & Htop & _ & ->)%first_pass_Some.
      exists out, hid', top, loss. split; [done|]. split; [done|].
      split; [by rewrite length_fmap|].
      intros k p Hk. by rewrite list_lookup_fmap, Hk.
    + intros max_length embedding token best loss
        (hid & enc & target & live & sequences & finals & _ & _ & _ & _ & H1 & H2 & _)
        %search_token_Some.
      exists hid, enc, target, live. split; [done|]. by exists sequences, finals.
    + intros encoded target st Hst. split.
      * by apply first_step_Some in Hst as (rows & _ & _ & _ & _ & _ & Hf).
      * intros t k e out hid' top p He Hdec Htop Hk.
        destruct (first_step_row net self return_loss _ _ _ _ _ _ _ _ _ _ _
                    Hst He Hdec Htop Hk) as (? & ? & ? & _).
        done.
  - intros [|]; (split; [reflexivity|]); eexists;
      (split; [vm_compute; reflexivity|vm_compute; reflexivity]).
Qed.

(** the word "ab" with [end_first]: the end symbol, the best first character,
    opens the first live hypothesis and the first row *)
Lemma first_step_keeps_end_symbol_witness :
  (∃ live loss,
     first_pass (demo_network end_first) (demo_model 2 false false 2) false 3 (Some 0) []
       = Some live ∧
     live !! 0 = Some ([3], 4, ((6 # 10) - 1)%Q, loss)) ∧
  (∃ st, first_step (demo_network end_first) (demo_model 2 true false 2) false
           [(0, Some 3)] [] = Some st ∧
         sequences st !! 0 = Some [3] ∧ final_candidates st = [[]]).
Proof.
  destruct first_step_keeps_end_symbol as [Hgen _].
  destruct (Hgen nat (demo_network end_first) (demo_model 2 false false 2) false)
    as (Hword & _ & _).
  destruct (Hgen nat (demo_network end_first) (demo_model 2 true false 2) false)
    as (_ & _ & Hbatch).
  split.
  - edestruct (Hword 3 (Some 0) [])
      as (out & hid' & top & loss & Hdec & Htop & _ & Hk); [vm_compute; reflexivity|].
    eexists _, loss. split; [vm_compute; reflexivity|].
    vm_compute in Hdec. injection Hdec as <- <-.
    vm_compute in Htop. injection Htop as <-.
    exact (Hk 0 (6 # 10)%Q eq_refl).
  - eexists. split; [vm_compute; reflexivity|].
    edestruct (Hbatch [(0, Some 3)] []) as [Hf Hrow]; [vm_compute; reflexivity|].
    split; [|exact Hf].
    edestruct (Hrow 0 0 (0, Some 3) (end_first 0 0) 1) as (Hs & _);
      [reflexivity|vm_compute; reflexivity|vm_compute; reflexivity| |exact Hs].
    reflexivity.
Defined.

(** ** Searches that do not fail *)

Lemma length_write_letters d offset letters index row :
  length (write_letters d offset letters index row) = length row.
Proof.
  revert index row. induction letters as [|a letters IH]; intros index row; simpl.
  - done.
  - by rewrite IH, length_insert.
Qed.

Lemma length_fill_row self token end_symbol start_symbol padding_in_front width c :
  length (fill_row self token end_symbol start_symbol padding_in_front width c) = width.
Proof.
  unfold fill_row. rewrite length_write_letters.
  destruct end_symbol, start_symbol; rewrite ?length_insert, length_replicate; done.
Qed.

Lemma words_to_char_indices_rows self tokens end_symbol start_symbol padding_in_front
    seq_length :
  tokens ≠ [] →
  ∃ width,
    words_to_char_indices self tokens end_symbol start_symbol padding_in_front seq_length
      = Some ((λ token, fill_row self token end_symbol start_symbol padding_in_front
                          width (Nat.b2n end_symbol + Nat.b2n start_symbol)) <$> tokens) ∧
    Nat.b2n end_symbol + Nat.b2n start_symbol ≤ width.
Proof.
  intros Hne. unfold words_to_char_indices.
  destruct (py_max_is_Some (String.length <$> tokens)) as [longest Hl].
  { destruct tokens; done. }
  rewrite Hl. simpl.
  eexists. split; [reflexivity|].
  destruct seq_length as [[|m]|]; lia.
Qed.

Lemma get_tag_tagged label_name lemma token :
  get_tag (tagged label_name lemma token) label_name = lemma.
Proof.
  unfold get_tag, tagged, add_tag, remove_labels. simpl.
  by rewrite lookup_insert_eq, lookup_delete_eq.
Qed.

Section Total.
Context {tensor : Type} (net : Network tensor) (self : Lemmatizer).
Context (n : nat).
Context (Hd : distributions net n).
Context (Hbeam : 1 ≤ beam_size self ≤ n).

Lemma decode_is_Some input_index hid enc :
  (use_attention self = true → is_Some enc) →
  ∃ t hid', decode net self input_index hid enc = Some (character_decoder net t, hid').
Proof.
  intros Ha. unfold decode.
  destruct (decoder_rnn net input_index hid) as [output hid'].
  destruct (use_attention self).
  - destruct Ha as [e ->]; [done|]. simpl. eauto.
  - simpl. eauto.
Qed.

Lemma top_characters_is_Some t :
  ∃ top, top_characters net self (character_decoder net t) = Some top ∧
         length top = beam_size self ∧
         ∀ p i, (p, i) ∈ top → i < n.
Proof.
  destruct (topk_is_Some Qltb (beam_size self)
              (mask_probs self (softmax net (character_decoder net t))))
    as [top Htop].
  { rewrite mask_probs_length. destruct (Hd t) as [-> _]. lia. }
  exists top. split; [exact Htop|]. split; [by eapply topk_length|].
  intros p i Hin. apply (topk_lookup Qltb _ _ _ _ _ Htop) in Hin.
  apply lookup_lt_Some in Hin. rewrite mask_probs_length in Hin.
  destruct (Hd t) as [Hl _]. lia.
Qed.

Context (Hitems : ∀ i, i < n →
           ∃ item, get_item_for_index (char_dictionary self) i = Some item ∧
                   item ≠ EmptyString).
Context (Hchars : encode_characters self = true).
Context (Hemb : encoder_embeddings self = false).

Lemma lemma_of_single idx :
  idx < n → ∃ item, lemma_of self [idx] = Some item ∧ item ≠ EmptyString.
Proof.
  intros Hi. destruct (Hitems idx Hi) as (item & Hitem & Hne).
  exists item. unfold lemma_of. simpl. rewrite Hitem. simpl. done.
Qed.

Lemma token_encoding_is_Some embedding token :
  ∃ hid enc, token_encoding net self embedding token = Some (hid, Some enc).
Proof.
  unfold token_encoding. rewrite Hemb.
  destruct (words_to_char_indices_rows self [text token] (end_symbol self)
              (start_symbol self) false None) as (width & -> & _); [done|].
  simpl. destruct (encoder_rnn net _) as [outs hid]. eauto.
Qed.

Lemma token_target_is_Some max_length token :
  ∃ target, token_target self max_length token = Some target ∧ 0 < length target.
Proof.
  unfold token_target.
  destruct (words_to_char_indices_rows self [gold_label self token] true false false
              (Some max_length)) as (width & -> & Hw); [done|].
  simpl. eexists. split; [reflexivity|]. rewrite length_fill_row. simpl in Hw. lia.
Qed.

(** with [max_length = 1] the loop is not entered and the best first
    character is the prediction *)
Lemma search_token_one return_loss embedding token :
  ∃ idx loss,
    search_token net self return_loss 1 embedding token = Some ([idx], loss) ∧ idx < n.
Proof.
  unfold search_token.
  destruct (token_encoding_is_Some embedding token) as (hid & enc & ->). simpl.
  assert (Ht : ∃ target, (if return_loss then token_target self 1 token else Some [])
                         = Some target ∧ (return_loss = true → 0 < length target)).
  { destruct return_loss.
    - destruct (token_target_is_Some 1 token) as (target & -> & Hl). eauto.
    - eexists. split; [done|]. done. }
  destruct Ht as (target & -> & Hl). simpl.
  unfold first_pass.
  destruct (decode_is_Some (start_index self) hid (Some enc)) as (t & hid' & ->);
    [eauto|].
  simpl.
  destruct (top_characters_is_Some t) as (top & -> & Hlen & Hidx). simpl.
  assert (Hloss : ∃ loss, (if return_loss
                           then t0 ← target !! 0;
                                Some (cross_entropy net (character_decoder net t) t0)
                           else Some 0%Q) = Some loss).
  { destruct return_loss; [|eauto].
    destruct (lookup_lt_is_Some_2 target 0) as [t0 ->]; [by apply Hl|].
    simpl. eauto. }
  destruct Hloss as (loss & ->). simpl.
  destruct top as [|[p idx] top]; [simpl in Hlen; lia|].
  simpl. unfold without_end. simpl.
  exists idx, (Qdiv_nat loss 1). split; [done|].
  apply (Hidx p). left.
Qed.

Lemma predict_token_one label_name return_loss embedding token :
  ∃ lemma loss,
    predict_token net self label_name return_loss 1 embedding token
      = Some (tagged label_name lemma token, loss) ∧
    lemma ≠ EmptyString.
Proof.
  unfold predict_token.
  destruct (search_token_one return_loss embedding (remove_labels token label_name))
    as (idx & loss & -> & Hi).
  simpl. destruct (lemma_of_single idx Hi) as (item & -> & Hne). simpl.
  by exists item, loss.
Qed.

Lemma encode_is_Some (batch : list Sentence) :
  concat batch ≠ [] →
  ∃ encoded, encode net self batch = Some encoded ∧
             length encoded = length (concat batch) ∧
             ∀ e, e ∈ encoded → is_Some e.2.
Proof.
  intros Hne. unfold encode. rewrite Hchars, Hemb.
  assert (Hc : ∃ l, encode_chars net self (concat batch) = Some l ∧
                    length l = length (concat batch)).
  { unfold encode_chars.
    destruct (words_to_char_indices_rows self (text <$> concat batch) (end_symbol self)
                (start_symbol self) (padding_in_front_for_encoder self) None)
      as (width & -> & _).
    { destruct (concat batch); done. }
    simpl.
    destruct (py_max_is_Some
                ((λ token, String.length (text token)
                           + (Nat.b2n (start_symbol self) + Nat.b2n (end_symbol self)))
                   <$> concat batch)) as [w ->].
    { destruct (concat batch); done. }
    simpl. eexists. split; [reflexivity|].
    rewrite length_zip_with, !length_fmap. lia. }
  destruct Hc as (l & -> & Hl). simpl.
  destruct (mapM _ (seq 0 (length (concat batch)))) as [encoded|] eqn:Hm.
  - exists encoded. split; [done|]. split.
    + apply length_mapM in Hm. by rewrite length_seq in Hm.
    + apply mapM_Some in Hm. intros e [i Hi]%list_elem_of_lookup_1.
      destruct (Forall2_lookup_r _ _ _ _ _ Hm Hi) as (j & _ & Hj).
      destruct (l !! j) as [c|]; simpl in Hj; [|done].
      injection Hj as <-. simpl. eauto.
  - exfalso. apply eq_None_not_Some in Hm. apply Hm.
    apply mapM_is_Some, Forall_forall. intros i Hi%elem_of_seq. simpl.
    destruct (lookup_lt_is_Some_2 l i) as [c ->]; [lia|]. simpl. eauto.
Qed.

Lemma batch_target_is_Some max_length (tokens : list Token) :
  tokens ≠ [] →
  ∃ target, batch_target self max_length tokens = Some target ∧
            length target = length tokens ∧
            ∀ row, row ∈ target → 0 < length row.
Proof.
  intros Hne. unfold batch_target.
  destruct (words_to_char_indices_rows self (gold_label self <$> tokens) true false false
              (Some max_length)) as (width & -> & Hw).
  { destruct tokens; done. }
  eexists. split; [reflexivity|]. split; [by rewrite !length_fmap|].
  intros row (x & -> & _)%list_elem_of_fmap. rewrite length_fill_row. simpl in Hw. lia.
Qed.

Lemma first_step_is_Some return_loss (encoded : list (tensor * option tensor)) target :
  (∀ e, e ∈ encoded → is_Some e.2) →
  (return_loss = true →
   length target = length encoded ∧ ∀ row, row ∈ target → 0 < length row) →
  ∃ st, first_step net self return_loss encoded target = Some st ∧
        (return_loss = true → length (losses st) = length encoded * beam_size self).
Proof.
  intros He Ht. unfold first_step.
  destruct (mapM _ encoded) as [rows|] eqn:Hm.
  2:{ exfalso. apply eq_None_not_Some in Hm. apply Hm.
      apply mapM_is_Some, Forall_forall. intros [hid enc] Hin. simpl.
      destruct (decode_is_Some (start_index self) hid enc) as (t & hid' & ->).
      { intros _. by apply (He _ Hin). }
      simpl. destruct (top_characters_is_Some t) as (top & -> & _). simpl. eauto. }
  simpl. pose proof (length_mapM _ _ _ Hm) as Hlen.
  destruct return_loss.
  - destruct Ht as [Hlt Hrows]; [done|].
    destruct (mapM _ (imap (λ i r, (i, r)) rows)) as [ls|] eqn:Hls.
    2:{ exfalso. apply eq_None_not_Some in Hls. apply Hls.
        apply mapM_is_Some, Forall_forall.
        intros [i [[out hid] top]] [k Hk]%list_elem_of_lookup_1. simpl.
        rewrite list_lookup_imap in Hk.
        destruct (rows !! k) as [r|] eqn:Hr; simpl in Hk; [|done].
        injection Hk as <- _. apply lookup_lt_Some in Hr.
        destruct (lookup_lt_is_Some_2 target k) as [row Hrow]; [lia|].
        rewrite Hrow. simpl.
        destruct (lookup_lt_is_Some_2 row 0) as [t0 ->].
        { apply Hrows. by eapply list_elem_of_lookup_2. }
        simpl. eauto. }
    simpl. eexists. split; [reflexivity|]. intros _. simpl.
    apply mapM_Some in Hls.
    rewrite (concat_uniform_length (beam_size self)).
    + apply Forall2_length in Hls. rewrite length_imap in Hls. lia.
    + apply Forall_forall. intros l [k Hk]%list_elem_of_lookup_1.
      destruct (Forall2_lookup_r _ _ _ _ _ Hls Hk) as ([i [[out hid] top]] & _ & Hx).
      simpl in Hx.
      destruct (target !! i) as [row|]; simpl in Hx; [|done].
      destruct (row !! 0); simpl in Hx; [|done].
      injection Hx as <-. by rewrite length_replicate.
  - simpl. eexists. split; [reflexivity|]. done.
Qed.

Lemma fill_unfinished_is_Some return_loss max_length m (st : Beam tensor) :
  shaped self m st →
  (return_loss = true → length (losses st) = m * beam_size self) →
  is_Some (fill_unfinished self return_loss max_length m st).
Proof.
  intros (Hsq & Hsc & _ & _ & Hf) Hlo. unfold fill_unfinished.
  destruct (mapM (topk score_ltb 1) _) as [best|] eqn:Hb.
  2:{ exfalso. apply eq_None_not_Some in Hb. apply Hb.
      apply mapM_is_Some, Forall_forall. intros row [t Ht]%list_elem_of_lookup_1.
      pose proof (lookup_lt_Some _ _ _ Ht) as Hlt.
      rewrite length_reshape_uniform in Hlt.
      rewrite lookup_reshape_uniform in Ht by done. injection Ht as <-.
      simpl. apply topk_is_Some.
      rewrite length_take, length_drop. nia. }
  simpl. apply mapM_Some in Hb.
  pose proof (Forall2_length _ _ _ Hb) as Hbl. rewrite length_reshape_uniform in Hbl.
  apply mapM_is_Some, Forall_forall. intros [j row] [t Ht]%list_elem_of_lookup_1.
  rewrite list_lookup_imap in Ht.
  destruct (best !! t) as [row'|] eqn:Hrow; simpl in Ht; [|done].
  injection Ht as <- <-. simpl.
  pose proof (lookup_lt_Some _ _ _ Hrow) as Htm.
  destruct (Forall2_lookup_r _ _ _ _ _ Hb Hrow) as (srow & Hsrow & Htop).
  rewrite lookup_reshape_uniform in Hsrow by lia. injection Hsrow as <-.
  pose proof (topk_length score_ltb _ _ _ Htop) as Hlen.
  destruct row' as [|[score index] rest]; [done|]. simpl.
  destruct (final_candidates st !! t) as [old|] eqn:Hold;
    [|apply lookup_ge_None in Hold; unfold Final in *; lia].
  simpl.
  assert (Hidx : index < beam_size self).
  { assert (Hin : (score, index) ∈ (score, index) :: rest) by left.
    apply (topk_lookup score_ltb _ _ _ _ _ Htop) in Hin.
    apply lookup_lt_Some in Hin. rewrite length_take in Hin. lia. }
  destruct (decide (length old = 0)); [|eauto].
  assert (Hpos : t * beam_size self + index < m * beam_size self) by nia.
  destruct (lookup_lt_is_Some_2 (sequences st) (t * beam_size self + index))
    as [sq ->]; [lia|].
  destruct return_loss.
  - destruct (lookup_lt_is_Some_2 (losses st) (t * beam_size self + index))
      as [l ->]; [rewrite Hlo by done; lia|].
    simpl. eauto.
  - simpl. eauto.
Qed.

(** a batch searched with [max_length = 1]: every word gets its best first
    character *)
Lemma search_batch_one return_loss (batch : list Sentence) :
  concat batch ≠ [] →
  ∃ outs, search_batch net self return_loss 1 batch = Some outs ∧
          ∀ o, o ∈ outs → ∃ idx, o.1 = [idx] ∧ idx < n.
Proof.
  intros Hne.
  destruct (encode_is_Some batch Hne) as (encoded & Henc & Hlen & Hatt).
  assert (Ht : ∃ target,
             (if return_loss then batch_target self 1 (concat batch) else Some [])
             = Some target ∧
             (return_loss = true →
              length target = length encoded ∧ ∀ row, row ∈ target → 0 < length row)).
  { destruct return_loss; [|by eexists].
    destruct (batch_target_is_Some 1 (concat batch) Hne) as (target & -> & Hl & Hr).
    exists target. split; [done|]. intros _. split; [lia|done]. }
  destruct Ht as (target & Htarget & Ht).
  destruct (first_step_is_Some return_loss encoded target Hatt Ht) as (st & Hst & Hlo).
  destruct (first_step_shaped net self return_loss _ _ _ Hst) as [Hsh _].
  destruct (fill_unfinished_is_Some return_loss 1 (length encoded) st Hsh Hlo)
    as [fc Hfc].
  pose proof Hsh as (_ & Hsc & _).
  destruct (fill_unfinished_Some self return_loss 1 _ st fc Hsc Hfc) as [Hfl Hfill].
  apply first_step_Some in Hst as Hparts.
  destruct Hparts as (rows & Hrows & Hseqs & _ & _ & _ & Hfin).
  assert (Hsingle : ∀ sq, sq ∈ sequences st → ∃ idx, sq = [idx] ∧ idx < n).
  { intros sq. rewrite Hseqs. intros (r & Hin & Hr)%list_elem_of_bind.
    apply list_elem_of_fmap in Hin as ([p i] & -> & Hp).
    apply list_elem_of_lookup_1 in Hr as [k Hk].
    destruct (Forall2_lookup_r _ _ _ _ _ Hrows Hk) as (e & _ & Hdec & Htop).
    apply decode_output in Hdec as [t Hout]. rewrite Hout in Htop.
    destruct (top_characters_is_Some t) as (top & Htop' & _ & Hidx).
    rewrite Htop' in Htop. injection Htop as Heq. rewrite <- Heq in Hp.
    exists i. split; [done|]. by apply (Hidx p). }
  assert (Hone : ∀ l, l ∈ fc → ∃ sq s loss, l = [(sq, s, loss)] ∧ sq ∈ sequences st).
  { intros l [t Hl]%list_elem_of_lookup_1.
    pose proof (lookup_lt_Some _ _ _ Hl) as Htl.
    assert (Htl' : t < length encoded) by (unfold Final in *; lia).
    destruct (Hfill t Htl') as (old & Hold & _ & Hnew).
    rewrite Hfin in Hold. apply lookup_replicate in Hold as [-> _].
    destruct Hnew as (k & sq & s & loss & _ & Hsq & _ & _ & _ & Hfct); [done|].
    pose proof (eq_trans (eq_sym Hl) Hfct) as Heq. injection Heq as ->.
    eexists _, _, _. split; [done|]. by eapply list_elem_of_lookup_2. }
  unfold search_batch. cbv zeta. rewrite Henc. cbn [mbind option_bind].
  rewrite Htarget. cbn [mbind option_bind].
  rewrite Hst. cbn [mbind option_bind expand_loop seq Nat.sub].
  rewrite <- Hlen, Hfc. cbn [mbind option_bind].
  destruct (mapM _ fc) as [outs|] eqn:Hm.
  - exists outs. split; [done|]. apply mapM_Some in Hm.
    intros o [k Hk]%list_elem_of_lookup_1.
    destruct (Forall2_lookup_r _ _ _ _ _ Hm Hk) as (l & Hl & Ho).
    destruct (Hone l) as (sq & s & loss & -> & Hin); [by eapply list_elem_of_lookup_2|].
    simpl in Ho. injection Ho as <-. simpl. by apply Hsingle.
  - exfalso. apply eq_None_not_Some in Hm. apply Hm.
    apply mapM_is_Some, Forall_forall. intros l Hl.
    destruct (Hone l Hl) as (sq & s & loss & -> & _). simpl. eauto.
Qed.

Lemma predict_sentence_one label_name return_loss (sentence : Sentence) :
  ∃ res, predict_sentence net self label_name return_loss 1 sentence = Some res ∧
         with_lemma label_name sentence res.*1.
Proof.
  unfold predict_sentence.
  destruct (mapM _ (imap (λ i token, (i, token)) sentence)) as [res|] eqn:Hm.
  - exists res. split; [done|]. apply mapM_Some in Hm.
    apply Forall2_fmap_r, Forall2_same_length_lookup_2.
    + apply Forall2_length in Hm. by rewrite length_imap in Hm.
    + intros i tok [tok' loss] Hi Hi'.
      assert (Him : imap (λ i token, (i, token)) sentence !! i = Some (i, tok))
        by by rewrite list_lookup_imap, Hi.
      pose proof (Forall2_lookup_lr _ _ _ _ _ _ Hm Him Hi') as Hp. simpl in Hp.
      destruct (predict_token_one label_name return_loss
                  (embed net (text <$> sentence) !! i) tok) as (lemma & l & Heq & Hne).
      rewrite Heq in Hp. injection Hp as <- _. by exists lemma.
  - exfalso. apply eq_None_not_Some in Hm. apply Hm.
    apply mapM_is_Some, Forall_forall. intros [i tok] _. simpl.
    destruct (predict_token_one label_name return_loss
                (embed net (text <$> sentence) !! i) tok) as (lemma & l & -> & _).
    eauto.
Qed.

Lemma predict_batch_tokens_one label_name return_loss (batch : list Sentence) :
  ∃ r, predict_batch_tokens net self label_name return_loss 1 batch = Some r ∧
       Forall2 (with_lemma label_name) batch r.1.1.
Proof.
  unfold predict_batch_tokens.
  destruct (mapM _ batch) as [results|] eqn:Hm.
  - simpl. eexists. split; [reflexivity|]. simpl. apply mapM_Some in Hm.
    apply Forall2_fmap_r. eapply Forall2_impl; [exact Hm|].
    intros s r Hs. simpl.
    destruct (predict_sentence_one label_name return_loss s) as (res & Heq & Hw).
    pose proof (eq_trans (eq_sym Heq) Hs) as E. by injection E as <-.
  - exfalso. apply eq_None_not_Some in Hm. apply Hm.
    apply mapM_is_Some, Forall_forall. intros s _. simpl.
    destruct (predict_sentence_one label_name return_loss s) as (res & -> & _). eauto.
Qed.

Lemma predict_batch_one label_name return_loss (batch : list Sentence) :
  concat batch ≠ [] →
  ∃ r, predict_batch net self label_name return_loss 1 batch = Some r ∧
       Forall2 (with_lemma label_name) batch r.1.1.
Proof.
  intros Hne. unfold predict_batch. cbv zeta.
  set (batch' := (λ sentence : list Token,
                    (λ token, remove_labels token label_name) <$> sentence) <$> batch).
  assert (Hcat : concat batch'
                 = (λ token, remove_labels token label_name) <$> concat batch).
  { unfold batch'. clear. induction batch as [|s b IH]; [done|].
    rewrite fmap_cons. simpl. by rewrite fmap_app, <- IH. }
  destruct (search_batch_one return_loss batch') as (outs & Hs & Houts).
  { rewrite Hcat. destruct (concat batch); done. }
  rewrite Hs. cbn [mbind option_bind].
  pose proof (search_batch_length net _ _ _ _ _ Hs) as Hlen.
  destruct (mapM (λ best : list nat * Q, lemma_of self best.1) outs)
    as [lemmas|] eqn:Hl.
  2:{ exfalso. apply eq_None_not_Some in Hl. apply Hl.
      apply mapM_is_Some, Forall_forall. intros o Ho. simpl.
      destruct (Houts o Ho) as (idx & -> & Hi).
      destruct (lemma_of_single idx Hi) as (item & -> & _). eauto. }
  cbn [mbind option_bind]. eexists. split; [reflexivity|]. simpl.
  apply mapM_Some in Hl. pose proof (Forall2_length _ _ _ Hl) as Hll.
  assert (Hlens : length <$> batch' = length <$> batch).
  { unfold batch'. rewrite <- list_fmap_compose. apply list_fmap_ext.
    intros i s _. simpl. by rewrite length_fmap. }
  rewrite Hlens. apply Forall2_reshape.
  rewrite Hcat. apply Forall2_same_length_lookup_2.
  - by rewrite length_imap, length_fmap.
  - intros i tok tok' Hi Hi'.
    rewrite list_lookup_imap, list_lookup_fmap, Hi in Hi'. simpl in Hi'.
    destruct (lemmas !! i) as [lemma|] eqn:Hlem.
    + injection Hi' as <-. exists lemma. split; [|done].
      destruct (Forall2_lookup_r _ _ _ _ _ Hl Hlem) as (o & Ho & Hlo).
      destruct (Houts o) as (idx & Heq & Hidx); [by eapply list_elem_of_lookup_2|].
      rewrite Heq in Hlo.
      destruct (lemma_of_single idx Hidx) as (item & Hitem & Hne').
      rewrite Hitem in Hlo. by injection Hlo as <-.
    + exfalso. apply lookup_ge_None in Hlem. apply lookup_lt_Some in Hi.
      rewrite Hcat, length_fmap in Hlen. lia.
Qed.
End Total.

Lemma batches_of_elem {A : Type} (fuel batch_size : nat) (l b : list A) :
  0 < batch_size → b ∈ batches_of fuel batch_size l →
  b ≠ [] ∧ ∀ x, x ∈ b → x ∈ l.
Proof.
  intros Hb. revert l. induction fuel as [|fuel IH]; intros l Hin; simpl in Hin.
  - by apply elem_of_nil in Hin.
  - destruct l as [|x l]; [by apply elem_of_nil in Hin|].
    apply elem_of_cons in Hin as [->|Hin].
    + split.
      * destruct batch_size; [lia|done].
      * intros y Hy. by eapply subseteq_take.
    + destruct (IH _ Hin) as [Hne Hsub]. split; [done|].
      intros y Hy. eapply subseteq_drop, Hsub, Hy.
Qed.

(** [predict] with [max_length = 1]: no exception, and every word gets a
    lemma that is not empty *)
Lemma predict_one {tensor : Type} (net : Network tensor) (self : Lemmatizer) (n : nat)
    (sentences : Sentence + list Sentence) (label_name : string)
    (mini_batch_size : nat) (return_loss : bool) :
  distributions net n →
  1 ≤ beam_size self ≤ n →
  (∀ i, i < n → ∃ item, get_item_for_index (char_dictionary self) i = Some item ∧
                        item ≠ EmptyString) →
  encode_characters self = true →
  encoder_embeddings self = false →
  0 < mini_batch_size →
  max_length_of self
    (filter (λ s : Sentence, 0 < length s) (given_sentences sentences)) = Some 1 →
  ∃ store ret,
    (predict net self sentences label_name mini_batch_size return_loss).2
      = Some (store, ret) ∧
    Forall2 (with_lemma label_name) (given_sentences sentences) store.
Proof.
  intros Hd Hbeam Hitems Hchars Hemb Hmbs Hml.
  unfold predict, given_sentences in *. cbn [fst snd].
  set (self' := if decide (beam_size self = 1) then _ else _).
  set (given := match sentences with inl s => [s] | inr l => l end) in *.
  set (nonempty := filter _ given) in *.
  assert (Hbeam' : 1 ≤ beam_size self' ≤ n) by (unfold self'; by case_decide).
  assert (Hitems' : ∀ i, i < n →
            ∃ item, get_item_for_index (char_dictionary self') i = Some item ∧
                    item ≠ EmptyString) by (unfold self'; by case_decide).
  assert (Hchars' : encode_characters self' = true) by (unfold self'; by case_decide).
  assert (Hemb' : encoder_embeddings self' = false) by (unfold self'; by case_decide).
  assert (Hml' : max_length_of self' nonempty = Some 1)
    by (unfold self'; by case_decide).
  destruct (decide (length nonempty = 0)) as [Hl|Hl].
  - eexists _, _. split; [reflexivity|].
    apply nil_length_inv, filter_nonempty_nil in Hl.
    apply Forall2_same_length_lookup_2; [done|].
    intros i s s' Hs Hs'. rewrite Forall_forall in Hl.
    pose proof (eq_trans (eq_sym Hs') Hs) as Heq. injection Heq as ->.
    pose proof (Hl s (list_elem_of_lookup_2 _ _ _ Hs)) as H0.
    apply nil_length_inv in H0. rewrite H0. constructor.
  - rewrite Hml'. cbn [mbind option_bind].
    unfold data_loader. rewrite decide_False by lia. cbn [mbind option_bind].
    set (batches := batches_of (length nonempty) mini_batch_size nonempty).
    assert (Hcat : concat batches = nonempty)
      by (apply concat_batches_of; [done|lia]).
    set (step := if batching_in_rnn self'
                 then predict_batch net self' label_name return_loss 1
                 else predict_batch_tokens net self' label_name return_loss 1).
    assert (Hstep : ∀ b, b ∈ batches →
              ∃ r, step b = Some r ∧ Forall2 (with_lemma label_name) b r.1.1).
    { intros b Hb. unfold step. destruct (batching_in_rnn self').
      - apply (predict_batch_one net self' n Hd Hbeam' Hitems' Hchars' Hemb').
        destruct (batches_of_elem _ _ _ _ Hmbs Hb) as [Hne Hsub].
        destruct b as [|s b]; [done|].
        assert (Hs : s ∈ nonempty) by (apply Hsub; left).
        apply list_elem_of_filter in Hs as [Hs _].
        simpl. destruct s; [simpl in Hs; lia|done].
      - by apply (predict_batch_tokens_one net self' n). }
    destruct (mapM step batches) as [results|] eqn:Hm.
    2:{ exfalso. apply eq_None_not_Some in Hm. apply Hm.
        apply mapM_is_Some, Forall_forall. intros b Hb. simpl.
        destruct (Hstep b Hb) as (r & -> & _). eauto. }
    cbn [mbind option_bind]. eexists _, _. split; [reflexivity|].
    apply mapM_Some in Hm.
    assert (HF : Forall2 (with_lemma label_name) (concat batches)
                   (concat ((λ r : list Sentence * Q * nat, r.1.1) <$> results))).
    { apply Forall2_concat, Forall2_fmap_r.
      apply Forall2_same_length_lookup_2; [by eapply Forall2_length|].
      intros i b r Hb Hr.
      pose proof (Forall2_lookup_lr _ _ _ _ _ _ Hm Hb Hr) as Hbr.
      destruct (Hstep b (list_elem_of_lookup_2 _ _ _ Hb)) as (r' & Heq & Hw).
      pose proof (eq_trans (eq_sym Heq) Hbr) as E. by injection E as <-. }
    rewrite Hcat in HF. apply scatter_spec in HF.
    eapply Forall2_impl; [exact HF|]. intros s s' Hs. simpl in Hs.
    destruct (decide (0 < length s)) as [|Hz]; [done|].
    rewrite Hs. destruct s; [constructor|simpl in Hz; lia].
Qed.

(** ** The best live hypothesis comes first *)

Lemma StronglySorted_weaken {A : Type} (R1 R2 : relation A) (l : list A) :
  (∀ a b, R1 a b → R2 a b) → StronglySorted R1 l → StronglySorted R2 l.
Proof.
  intros HR Hs. induction Hs as [|a l Hs IH Hall]; constructor; [done|].
  eapply Forall_impl; [exact Hall|]. intros b. apply HR.
Qed.

Section LiveOrder.
Context {tensor : Type} (net : Network tensor) (self : Lemmatizer).
Context (return_loss : bool) (max_length : nat).
Context (Hln : monotone_ln net) (Hbeam : 1 ≤ beam_size self).

(** [ordered live]: no hypothesis has a higher score than one before it *)
Let ordered (live : list (Candidate tensor)) : Prop :=
  live ≠ [] ∧
  StronglySorted (λ a b, (candidate_score b <= candidate_score a)%Q) live.

Lemma first_pass_ordered hid enc target live :
  first_pass net self return_loss hid enc target = Some live → ordered live.
Proof.
  intros (out & hid' & top & loss & _ & Htop & _ & ->)%first_pass_Some.
  pose proof (topk_length Qltb _ _ _ Htop) as Hlen.
  pose proof (topk_sorted Qltb _ _ _ Htop) as Hs.
  split.
  - destruct top; [simpl in Hlen; lia|done].
  - clear Htop Hlen. induction Hs as [|p top Hs IH Hall]; simpl; constructor.
    + exact IH.
    + apply Forall_fmap. eapply Forall_impl; [exact Hall|].
      intros q Hq. unfold candidate_score. simpl.
      apply Hln. by apply Qltb_ge.
Qed.

Lemma take_sorted_ordered (new_live : list (Candidate tensor)) :
  new_live ≠ [] →
  ordered (take (beam_size self) (sorted_by Qltb candidate_score new_live)).
Proof.
  intros Hne. split.
  - intros Hnil. apply (f_equal length) in Hnil.
    unfold sorted_by in Hnil.
    rewrite length_take, sorted_desc_length in Hnil. simpl in Hnil.
    destruct new_live; [done|]. simpl in Hnil. lia.
  - pose proof (sorted_desc_sorted (λ a b : Candidate tensor,
                   Qltb (candidate_score a) (candidate_score b)) new_live) as Hs.
    unfold sorted_by.
    rewrite <- (take_drop (beam_size self) (sorted_desc _ _)) in Hs.
    apply StronglySorted_app_1_l in Hs.
    eapply StronglySorted_weaken; [|exact Hs].
    intros a b Hab. by apply Qltb_ge.
Qed.

Lemma beam_loop_ordered steps enc target live0 finals0 live finals :
  ordered live0 →
  beam_loop net self return_loss steps enc target live0 finals0 = Some (live, finals) →
  ordered live.
Proof.
  intros H0 Hloop.
  eapply (beam_loop_inv net self return_loss (λ live _, ordered live));
    [|exact H0|exact Hloop].
  intros i seqs fs ns fs' Hseqs _. split; [done|]. apply take_sorted_ordered.
Qed.

(** the head of an ordered list is a best hypothesis, and it is the one
    taken when nothing has been set aside *)
Lemma without_end_best live0 live steps hid enc target :
  1 ≤ max_length →
  first_pass net self return_loss hid enc target = Some live0 →
  beam_loop net self return_loss steps enc target live0 [] = Some (live, []) →
  ∃ sq hid' score loss,
    live !! 0 = Some (sq, hid', score, loss) ∧
    (∀ c, c ∈ live → (candidate_score c <= score)%Q) ∧
    without_end return_loss max_length live []
      = Some [(sq, Qdiv_nat score max_length, Qdiv_nat loss max_length)].
Proof.
  intros Hml H0%first_pass_ordered Hloop.
  destruct (beam_loop_ordered _ _ _ _ _ _ _ H0 Hloop) as [Hne Hs].
  destruct live as [|[[[sq hid'] score] loss] live]; [done|].
  exists sq, hid', score, loss. split; [done|]. split.
  - intros c [->|Hc]%elem_of_cons.
    + unfold candidate_score. simpl. apply Qle_refl.
    + apply StronglySorted_cons in Hs as [Hall _].
      rewrite Forall_forall in Hall. by apply (Hall c).
  - unfold without_end. simpl. rewrite decide_False by lia. done.
Qed.
End LiveOrder.


Lemma demo_items (i : nat) :
  i < 7 →
  ∃ item, get_item_for_index demo_dictionary i = Some item ∧ item ≠ EmptyString.
Proof.
  intros Hi.
  do 7 (destruct i as [|i]; [eexists; split; [reflexivity|done]|]). lia.
Qed.

Lemma demo_ln_monotone (dist : nat → nat → list Q) : monotone_ln (demo_network dist).
Proof.
  intros p q Hpq. simpl. unfold Qminus.
  apply Qplus_le_compat; [exact Hpq|apply Qle_refl].
Qed.

(** ** One hypothesis: greedy decoding *)

(** [highest] gives an entry that no other exceeds, the first such entry *)
Lemma highest_spec (l : list Q) (i : nat) (v : Q) :
  highest l = Some (i, v) →
  l !! i = Some v ∧
  ∀ j w, l !! j = Some w → (w <= v)%Q ∧ (j < i → (w < v)%Q).
Proof.
  revert i v. induction l as [|x l IH]; intros i v; simpl; [done|].
  destruct (highest l) as [[i' v']|] eqn:Hh.
  - destruct (IH i' v' eq_refl) as [Hi Hall].
    destruct (Qltb x v') eqn:Hlt; intros [= <- <-].
    + apply Qltb_lt in Hlt. split; [done|].
      intros [|j] w Hw; simpl in Hw.
      * injection Hw as <-. split; [by apply Qlt_le_weak|done].
      * destruct (Hall j w Hw) as [Hle Hlt']. split; [done|].
        intros Hj. apply Hlt'. lia.
    + apply Qltb_ge in Hlt. split; [done|].
      intros [|j] w Hw; simpl in Hw.
      * injection Hw as <-. split; [apply Qle_refl|lia].
      * destruct (Hall j w Hw) as [Hle _]. split; [|lia].
        by eapply Qle_trans.
  - intros [= <- <-]. split; [done|].
    intros [|j] w Hw; simpl in Hw.
    + injection Hw as <-. split; [apply Qle_refl|lia].
    + destruct l; [done|]. simpl in Hh.
      destruct (highest l) as [[? ?]|]; [destruct (Qltb _ _)|]; done.
Qed.

Lemma head_insert_desc {A : Type} (ltb : A → A → bool) (x : A) (l : list A) :
  head (insert_desc ltb x l) =
    Some (match head l with
          | Some y => if ltb x y then y else x
          | None => x
          end).
Proof. destruct l as [|y l]; simpl; [done|]. by destruct (ltb x y). Qed.

Lemma head_sorted_enumerate (g : nat → nat) (l : list Q) :
  head (sorted_by Qltb fst (imap (λ i x, (x, g i)) l))
  = (λ b : nat * Q, (b.2, g b.1)) <$> highest l.
Proof.
  unfold sorted_by. revert g. induction l as [|x l IH]; intros g; [done|].
  cbn [imap sorted_desc foldr]. rewrite head_insert_desc.
  change (foldr (insert_desc (λ a b : Q * nat, Qltb a.1 b.1)) []
            (imap ((λ i x0, (x0, g i)) ∘ S) l))
    with (sorted_desc (λ a b : Q * nat, Qltb a.1 b.1)
            (imap (λ i x0, (x0, (g ∘ S) i)) l)).
  rewrite (IH (g ∘ S)). simpl.
  destruct (highest l) as [[i v]|]; simpl; [|done].
  by destruct (Qltb x v).
Qed.

Lemma topk_one (l : list Q) :
  topk Qltb 1 l = (λ b : nat * Q, [(b.2, b.1)]) <$> highest l.
Proof.
  unfold topk.
  pose proof (head_sorted_enumerate id l) as Hh. simpl in Hh.
  destruct l as [|x l].
  - done.
  - rewrite decide_True by (simpl; lia).
    assert (Hsome : highest (x :: l) ≠ None).
    { simpl. destruct (highest l) as [[? v]|]; [destruct (Qltb x v)|]; done. }
    set (h := highest (x :: l)) in *. clearbody h.
    destruct (sorted_by Qltb fst (imap (λ i x0, (x0, i)) (x :: l))) as [|y s];
      cbn [head] in Hh; destruct h as [b|]; try done.
    simpl in *. by injection Hh as ->.
Qed.

Section SingleHypothesis.
Context {tensor : Type} (net : Network tensor) (self : Lemmatizer).
Context (return_loss : bool) (max_length : nat).
Context (Hone : beam_size self = 1).

Lemma top_characters_one out :
  top_characters net self out
  = (λ b : nat * Q, [(b.2, b.1)]) <$> highest (mask_probs self (softmax net out)).
Proof. unfold top_characters. rewrite Hone. apply topk_one. Qed.

(** the first pass keeps the character of the first greedy step *)
Lemma first_pass_single hid enc target live :
  first_pass net self return_loss hid enc target = Some live →
  ∃ c hid' score loss,
    greedy_character net self (start_index self) hid enc = Some (c, hid') ∧
    live = [([c], hid', score, loss)].
Proof.
  intros (out & hid' & top & loss & Hdec & Htop & _ & ->)%first_pass_Some.
  rewrite top_characters_one in Htop. unfold greedy_character. rewrite Hdec. simpl.
  destruct (highest _) as [[c v]|]; simpl in *; [|done].
  injection Htop as <-. simpl. by eexists _, _, _, _.
Qed.

(** one expansion of the only hypothesis follows the next greedy step *)
Lemma expand_single i enc target sq hid score loss c finals new_live finals' :
  last sq = Some c →
  expand net self return_loss i enc target [(sq, hid, score, loss)] [] finals
    = Some (new_live, finals') →
  ∃ c' hid',
    greedy_character net self c hid enc = Some (c', hid') ∧
    ((c' = end_index self ∧ new_live = [] ∧
      ∃ s l, finals' = finals ++ [(sq, s, l)]) ∨
     (c' ≠ end_index self ∧ finals' = finals ∧
      ∃ s l, new_live = [(sq ++ [c'], hid', s, l)])).
Proof.
  intros Hlast. simpl. rewrite Hlast. simpl.
  unfold greedy_character.
  destruct (decode net self c hid enc) as [[out hid']|]; simpl; [|done].
  destruct (if return_loss then _ else _) as [new_loss|]; simpl; [|done].
  rewrite top_characters_one.
  destruct (highest _) as [[c' v]|]; simpl; [|done].
  destruct (decide (c' = end_index self)) as [->|Hne]; intros [= <- <-].
  - eexists _, _. split; [done|]. left. split; [done|]. split; [done|].
    by eexists _, _.
  - eexists _, _. split; [done|]. right. split; [done|]. split; [done|].
    by eexists _, _.
Qed.

Lemma expand_single_total i enc target sq hid score loss c finals c' hid' :
  return_loss = false →
  last sq = Some c →
  greedy_character net self c hid enc = Some (c', hid') →
  is_Some (expand net self return_loss i enc target [(sq, hid, score, loss)] [] finals).
Proof.
  intros -> Hlast. simpl. rewrite Hlast. simpl.
  unfold greedy_character.
  destruct (decode net self c hid enc) as [[out hid'']|]; simpl; [|done].
  rewrite top_characters_one.
  destruct (highest _) as [[c'' v]|]; simpl; [|done].
  intros _. destruct (decide (c'' = end_index self)); eauto.
Qed.

Lemma take_one_sorted (h : Candidate tensor) :
  take (beam_size self) (sorted_by Qltb candidate_score [h]) = [h].
Proof. by rewrite Hone. Qed.

(** the loop follows the greedy steps: it ends with the greedy lemma set
    aside, or, when the steps are used up, as the only live hypothesis *)
Lemma beam_loop_single steps enc target sq hid score loss c live finals :
  last sq = Some c →
  beam_loop net self return_loss steps enc target [(sq, hid, score, loss)] []
    = Some (live, finals) →
  ∃ best,
    greedy_from net self (length steps) enc c hid sq = Some best ∧
    ((finals = [] ∧ ∃ hid' s l, live = [(best, hid', s, l)]) ∨
     (∃ s l, finals = [(best, s, l)])).
Proof.
  revert sq hid score loss c.
  induction steps as [|i steps IH]; intros sq hid score loss c Hlast.
  - simpl. intros [= <- <-]. exists sq. split; [done|]. left.
    split; [done|]. by eexists _, _, _.
  - cbn [beam_loop length greedy_from].
    destruct (expand net self return_loss i enc target [(sq, hid, score, loss)] [] [])
      as [[ns fs]|] eqn:Hexp; simpl; [|done].
    destruct (expand_single _ _ _ _ _ _ _ _ _ _ _ Hlast Hexp)
      as (c' & hid' & -> & [(-> & -> & s & l & ->)|(Hne & -> & s & l & ->)]);
      cbn [mbind option_bind].
    + rewrite !decide_True by done. intros [= <- <-].
      exists sq. split; [done|]. right. by eexists _, _.
    + repeat (rewrite decide_False by done).
      rewrite take_one_sorted. apply IH. by rewrite last_snoc.
Qed.

Lemma beam_loop_single_total steps enc target sq hid score loss c :
  return_loss = false →
  last sq = Some c →
  is_Some (greedy_from net self (length steps) enc c hid sq) →
  is_Some (beam_loop net self return_loss steps enc target [(sq, hid, score, loss)] []).
Proof.
  intros Hrl. revert sq hid score loss c.
  induction steps as [|i steps IH]; intros sq hid score loss c Hlast; [by eauto|].
  cbn [beam_loop length greedy_from].
  destruct (greedy_character net self c hid enc) as [[c' hid']|] eqn:Hg;
    cbn [mbind option_bind]; [|by intros [? ?]].
  destruct (expand_single_total i enc target sq hid score loss c [] c' hid'
              Hrl Hlast Hg) as [[ns fs] Hexp].
  rewrite Hexp. cbn [mbind option_bind].
  destruct (expand_single _ _ _ _ _ _ _ _ _ _ _ Hlast Hexp)
    as (c'' & hid'' & Hg' & Hcases).
  rewrite Hg in Hg'. injection Hg' as <- <-.
  destruct Hcases as [(-> & -> & s & l & ->)|(Hne & -> & s & l & ->)].
  - rewrite decide_True by done. eauto.
  - repeat (rewrite decide_False by done).
    rewrite take_one_sorted. apply IH. by rewrite last_snoc.
Qed.

(** the search of one word returns the greedy lemma *)
Lemma search_token_greedy embedding token best loss :
  1 ≤ max_length →
  search_token net self return_loss max_length embedding token = Some (best, loss) →
  ∃ hid enc,
    token_encoding net self embedding token = Some (hid, enc) ∧
    greedy net self max_length hid enc = Some best.
Proof.
  intros Hml
    (hid & enc & target & s0 & s & fs & fs' & sc & Henc & _ & H1 & H2 & H3 & H4)
    %search_token_Some.
  exists hid, enc. split; [done|].
  apply first_pass_single in H1 as (c & hid' & score & l & Hg & ->).
  unfold greedy. rewrite Hg. simpl.
  apply (beam_loop_single _ _ _ _ _ _ _ c) in H2 as (b & Hb & Hcases); [|done].
  rewrite length_seq in Hb. rewrite Hb. f_equal.
  destruct Hcases as [(-> & hid'' & s' & l' & ->)|(s' & l' & ->)].
  - unfold without_end in H3. simpl in H3.
    rewrite decide_False in H3 by lia. injection H3 as <-.
    simpl in H4. by injection H4 as <- _ _.
  - unfold without_end in H3. simpl in H3. injection H3 as <-.
    simpl in H4. by injection H4 as <- _ _.
Qed.

Lemma search_token_greedy_total embedding token hid enc :
  return_loss = false →
  1 ≤ max_length →
  token_encoding net self embedding token = Some (hid, enc) →
  is_Some (greedy net self max_length hid enc) →
  is_Some (search_token net self return_loss max_length embedding token).
Proof.
  intros Hrl Hml Henc. unfold greedy, search_token. rewrite Henc. simpl.
  destruct (greedy_character net self (start_index self) hid enc)
    as [[c hid']|] eqn:Hg; simpl; [|by intros [? ?]].
  intros Hfrom. rewrite Hrl. simpl. rewrite <- Hrl.
  assert (Hfirst : ∃ score l,
            first_pass net self return_loss hid enc [] = Some [([c], hid', score, l)]).
  { unfold first_pass. unfold greedy_character in Hg.
    destruct (decode net self (start_index self) hid enc) as [[out hid'']|];
      simpl in *; [|done].
    rewrite top_characters_one.
    destruct (highest _) as [[c'' v]|]; simpl in *; [|done].
    injection Hg as <- <-. rewrite Hrl. simpl. by eexists _, _. }
  destruct Hfirst as (score & l & ->). simpl.
  destruct (beam_loop_single_total (seq 1 (max_length - 1)) enc [] [c] hid' score l c)
    as [[live finals] Hloop]; [done|done|by rewrite length_seq|].
  rewrite Hloop. simpl.
  destruct (beam_loop_single (seq 1 (max_length - 1)) enc [] [c] hid' score l c
              live finals eq_refl Hloop)
    as (b & _ & [(-> & hid'' & s' & l' & ->)|(s' & l' & ->)]).
  - unfold without_end. simpl. rewrite decide_False by lia. simpl. eauto.
  - unfold without_end. simpl. eauto.
Qed.
End SingleHypothesis.

(** C4.  With one hypothesis [predict] switches the batched search off, so
    that the flag [batching_in_rnn] changes nothing, and the search of a word
    is greedy decoding: it returns exactly the lemma that [greedy] builds
    from the single highest entry of every masked distribution ([highest]
    gives an entry that no other exceeds). *)
Theorem one_hypothesis_is_greedy {tensor : Type} (net : Network tensor)
    (self : Lemmatizer) :
  beam_size self = 1 →
  (∀ b sentences label_name mini_batch_size return_loss,
     predict net (set_batching_in_rnn b self) sentences label_name mini_batch_size
       return_loss
     = predict net self sentences label_name mini_batch_size return_loss)
  ∧
  (∀ return_loss max_length embedding token best loss,
     1 ≤ max_length →
     search_token net self return_loss max_length embedding token = Some (best, loss) →
     ∃ hid enc,
       token_encoding net self embedding token = Some (hid, enc) ∧
       greedy net self max_length hid enc = Some best)
  ∧
  (∀ max_length embedding token,
     1 ≤ max_length →
     fst <$> search_token net self false max_length embedding token
     = token_encoding net self embedding token
         ≫= λ e, greedy net self max_length e.1 e.2)
  ∧
  (∀ label_name return_loss max_length embedding token token' loss,
     1 ≤ max_length →
     predict_token net self label_name return_loss max_length embedding token
       = Some (token', loss) →
     ∃ hid enc best lemma,
       token_encoding net self embedding (remove_labels token label_name)
         = Some (hid, enc) ∧
       greedy net self max_length hid enc = Some best ∧
       lemma_of self best = Some lemma ∧
       token' = tagged label_name lemma token)
  ∧
  (∀ (l : list Q) i v,
     highest l = Some (i, v) →
     l !! i = Some v ∧
     ∀ j w, l !! j = Some w → (w <= v)%Q ∧ (j < i → (w < v)%Q)).
Proof.
  intros Hone. split; [|split; [|split; [|split]]].
  - intros b sentences label_name mini_batch_size return_loss.
    unfold predict. cbn [beam_size set_batching_in_rnn].
    destruct (decide (beam_size self = 1)); [reflexivity|done].
  - intros return_loss max_length embedding token best loss Hml Hs.
    by eapply search_token_greedy.
  - intros max_length embedding token Hml.
    destruct (search_token net self false max_length embedding token)
      as [[best loss]|] eqn:Hs.
    + destruct (search_token_greedy net self false max_length Hone _ _ _ _ Hml Hs)
        as (hid & enc & -> & Hg).
      simpl. by rewrite Hg.
    + destruct (token_encoding net self embedding token) as [[hid enc]|] eqn:Henc;
        [|done].
      simpl. destruct (greedy net self max_length hid enc) as [best|] eqn:Hg; [|done].
      destruct (search_token_greedy_total net self false max_length Hone
                  embedding token hid enc eq_refl Hml Henc) as [r Hr]; [by eauto|].
      rewrite Hr in Hs. done.
  - intros label_name return_loss max_length embedding token token' loss Hml
      (sq & lemma & Hs & Hl & ->)%predict_token_sequence.
    destruct (search_token_greedy net self return_loss max_length Hone _ _ _ _ Hml Hs)
      as (hid & enc & Henc & Hg).
    by exists hid, enc, sq, lemma.
  - apply highest_spec.
Qed.

(** the word "ab" with one hypothesis, in a network that ends a lemma after
    an "a" *)
Lemma one_hypothesis_is_greedy_witness :
  beam_size (demo_model 1 true false 3) = 1 ∧
  search_token (demo_network end_after_a) (demo_model 1 true false 3) false 3 None
    (word "ab") = Some ([4], (0 # 2)%Q) ∧
  greedy (demo_network end_after_a) (demo_model 1 true false 3) 3 3 (Some 0)
    = Some [4].
Proof.
  assert (H1 : beam_size (demo_model 1 true false 3) = 1) by reflexivity.
  assert (Hs : search_token (demo_network end_after_a) (demo_model 1 true false 3)
                 false 3 None (word "ab") = Some ([4], (0 # 2)%Q))
    by (vm_compute; reflexivity).
  split; [exact H1|]. split; [exact Hs|].
  destruct (one_hypothesis_is_greedy (demo_network end_after_a)
              (demo_model 1 true false 3) H1) as (_ & Hgreedy & _).
  destruct (Hgreedy false 3 None (word "ab") [4] (0 # 2)%Q) as (hid & enc & Henc & Hg);
    [lia|exact Hs|].
  vm_compute in Henc. injection Henc as <- <-. exact Hg.
Defined.

(** ** The rows of one word do not depend on the other words *)

Lemma same_block_take_drop {A : Type} (w t1 t2 : nat) (l1 l2 : list A) :
  same_block w t1 t2 l1 l2 →
  take w (drop (t1 * w) l1) = take w (drop (t2 * w) l2).
Proof.
  intros Hb. apply list_eq. intros k.
  destruct (decide (k < w)) as [Hk|Hk].
  - rewrite !lookup_take_lt, !lookup_drop by done. by apply Hb.
  - by rewrite !lookup_take_ge by lia.
Qed.

Lemma same_block_fmap {A B : Type} (f : A → B) (w t1 t2 : nat) (l1 l2 : list A) :
  same_block w t1 t2 l1 l2 → same_block w t1 t2 (f <$> l1) (f <$> l2).
Proof. intros Hb k Hk. by rewrite !list_lookup_fmap, Hb. Qed.

Lemma same_block_zip_with {A B C : Type} (f : A → B → C) (w t1 t2 : nat)
    (l1 l2 : list A) (k1 k2 : list B) :
  same_block w t1 t2 l1 l2 → same_block w t1 t2 k1 k2 →
  same_block w t1 t2 (zip_with f l1 k1) (zip_with f l2 k2).
Proof. intros Hl Hk i Hi. by rewrite !lookup_zip_with, Hl, Hk. Qed.

Lemma same_block_bind {A B : Type} (f : A → list B) (w t1 t2 : nat) (l1 l2 : list A) :
  (∀ x, x ∈ l1 → length (f x) = w) → (∀ x, x ∈ l2 → length (f x) = w) →
  l1 !! t1 = l2 !! t2 →
  same_block w t1 t2 (l1 ≫= f) (l2 ≫= f).
Proof.
  intros H1 H2 Heq k Hk.
  rewrite (lookup_bind_uniform w f l1) by done.
  rewrite (lookup_bind_uniform w f l2) by done.
  by rewrite Heq.
Qed.

Lemma filter_concat {A : Type} (P : A → Prop) `{!∀ x, Decision (P x)}
    (ls : list (list A)) :
  filter P (concat ls) = concat ((λ l : list A, filter P l) <$> ls).
Proof.
  induction ls as [|l ls IH]; simpl; [done|]. by rewrite filter_app, IH.
Qed.

Lemma omap_concat {A B : Type} (g : A → option B) (ls : list (list A)) :
  omap g (concat ls) = concat ((λ l : list A, omap g l) <$> ls).
Proof.
  induction ls as [|l ls IH]; simpl; [done|]. by rewrite omap_app, IH.
Qed.

Lemma concat_nil_all {A : Type} (ls : list (list A)) :
  (∀ l, l ∈ ls → l = []) → concat ls = [].
Proof.
  induction ls as [|l ls IH]; intros H; simpl; [done|].
  rewrite (H l) by left. simpl. apply IH. intros l' Hl'. apply H. by right.
Qed.

(** the positions of [e] in the rows of word [t], in the order of [nonzero] *)
Lemma nonzero_block (e w t : nat) (table : list (list nat)) :
  0 < w → (t + 1) * w ≤ length table →
  filter (λ p : nat * nat, p.1 / w = t) (nonzero e table)
  = concat (imap (λ k row,
              (λ p : nat * nat, (t * w + k, p.1)) <$>
                filter (λ p : nat * nat, p.2 = e) (imap (λ c idx, (c, idx)) row))
            (take w (drop (t * w) table))).
Proof.
  intros Hw Hlen. unfold nonzero.
  set (F := λ (r : nat) (row : list nat),
              (λ p : nat * nat, (r, p.1)) <$>
                filter (λ p : nat * nat, p.2 = e) (imap (λ c idx, (c, idx)) row)).
  assert (HF : ∀ r row, filter (λ p : nat * nat, p.1 / w = t) (F r row)
                        = if decide (r / w = t) then F r row else []).
  { intros r row. case_decide as Hr.
    - apply filter_all. intros p (q & -> & _)%list_elem_of_fmap. done.
    - apply filter_none. intros p (q & -> & _)%list_elem_of_fmap. done. }
  rewrite filter_concat, fmap_imap.
  rewrite <- (take_drop (t * w) table) at 1.
  rewrite <- (take_drop w (drop (t * w) table)) at 1.
  rewrite !imap_app, !concat_app.
  assert (Hl1 : length (take (t * w) table) = t * w) by (rewrite length_take; lia).
  assert (Hl2 : length (take w (drop (t * w) table)) = w)
    by (rewrite length_take, length_drop; lia).
  rewrite (concat_nil_all (imap _ (take (t * w) table))).
  2:{ intros l (r & row & -> & Hr)%elem_of_lookup_imap. simpl.
      rewrite HF. rewrite decide_False; [done|].
      apply lookup_lt_Some in Hr. rewrite Hl1 in Hr.
      intros Hdiv. pose proof (Nat.div_mod_eq r w) as Hdm.
      pose proof (Nat.mod_upper_bound r w). nia. }
  rewrite (concat_nil_all (imap _ (drop w (drop (t * w) table)))).
  2:{ intros l (r & row & -> & Hr)%elem_of_lookup_imap. simpl.
      rewrite HF. rewrite decide_False; [done|].
      rewrite Hl1, Hl2. intros Hdiv.
      pose proof (Nat.div_mod_eq (t * w + (w + r)) w) as Hdm.
      pose proof (Nat.mod_upper_bound (t * w + (w + r)) w). nia. }
  simpl. rewrite app_nil_r. f_equal. apply imap_ext.
  intros k row Hk. simpl. rewrite HF, Hl1.
  apply lookup_lt_Some in Hk. rewrite Hl2 in Hk.
  rewrite decide_True; [done|]. by apply flat_position_div.
Qed.

Lemma nonzero_block_pairs (e w t1 t2 : nat) (table1 table2 : list (list nat)) :
  0 < w → (t1 + 1) * w ≤ length table1 → (t2 + 1) * w ≤ length table2 →
  same_block w t1 t2 table1 table2 →
  Forall2 (λ a b : nat * nat,
             ∃ k c, k < w ∧ a = (t1 * w + k, c) ∧ b = (t2 * w + k, c))
    (filter (λ p : nat * nat, p.1 / w = t1) (nonzero e table1))
    (filter (λ p : nat * nat, p.1 / w = t2) (nonzero e table2)).
Proof.
  intros Hw H1 H2 Hb. rewrite !nonzero_block by done.
  rewrite <- (same_block_take_drop _ _ _ _ _ Hb).
  set (B := take w (drop (t1 * w) table1)).
  assert (HB : length B ≤ w) by (unfold B; rewrite length_take; lia).
  apply Forall2_concat. apply Forall2_same_length_lookup_2.
  - by rewrite !length_imap.
  - intros k l1 l2 Hk1 Hk2. rewrite list_lookup_imap in Hk1, Hk2.
    destruct (B !! k) as [row|] eqn:Hrow; simpl in *; [|done].
    injection Hk1 as <-. injection Hk2 as <-.
    apply lookup_lt_Some in Hrow.
    apply Forall2_fmap, Forall_Forall2_diag, Forall_forall.
    intros p _. exists k, p.1. split; [lia|done].
Qed.

Section SetAsideExact.
Context {tensor : Type} (net : Network tensor) (self : Lemmatizer).
Context (return_loss : bool) (j : nat).

(** the finished hypotheses of word [t] after the loop of line 443: the old
    ones, then one for every end symbol in the rows of the word, in the
    order of the positions *)
Lemma set_aside_all_exact target (st : Beam tensor) outs ps fs lps fs' lps' t :
  NoDup ps →
  set_aside_all net self return_loss j target st outs ps (fs, lps) = Some (fs', lps') →
  fs' !! t =
    (λ old, old ++ omap (λ p : nat * nat,
                     finished_entry net self return_loss j target st outs lps p.1 p.2)
                   (filter (λ p : nat * nat, p.1 / beam_size self = t) ps))
      <$> fs !! t.
Proof.
  revert fs lps. induction ps as [|[r c] ps IH]; intros fs lps Hnd;
    cbn [set_aside_all].
  - intros [= <- <-]. rewrite filter_nil. simpl.
    destruct (fs !! t); simpl; [|done]. by rewrite app_nil_r.
  - destruct (set_aside net self return_loss j target st outs (fs, lps) (r, c))
      as [[fs1 lps1]|] eqn:H1; cbn [mbind option_bind]; [|done].
    apply set_aside_Some in H1 as (e & old & row & He & Hdone & Hrow & -> & ->).
    apply NoDup_cons in Hnd as [Hnotin Hnd].
    intros Hrest. rewrite (IH _ _ Hnd Hrest). clear IH Hrest.
    assert (Hext : omap (λ p : nat * nat,
                      finished_entry net self return_loss j target st outs
                        (<[r:=<[c:=NegInf]> row]> lps) p.1 p.2)
                     (filter (λ p : nat * nat, p.1 / beam_size self = t) ps)
                 = omap (λ p : nat * nat,
                      finished_entry net self return_loss j target st outs lps p.1 p.2)
                     (filter (λ p : nat * nat, p.1 / beam_size self = t) ps)).
    { apply list_omap_ext, Forall_Forall2_diag, Forall_forall.
      intros [r' c'] [_ Hin]%list_elem_of_filter. simpl.
      apply finished_entry_ext. rewrite entry_insert by done.
      rewrite decide_False; [done|]. intros [= -> ->]. done. }
    rewrite Hext. rewrite filter_cons. simpl.
    destruct (decide (r / beam_size self = t)) as [<-|Hne].
    + rewrite list_lookup_insert_eq by (by eapply lookup_lt_Some).
      rewrite Hdone. simpl. rewrite He. simpl. by rewrite <- app_assoc.
    + by rewrite list_lookup_insert_ne by done.
Qed.

(** what is set aside at a position depends on the row only *)
Lemma finished_entry_local (t1 t2 k c : nat) target1 target2 (st1 st2 : Beam tensor)
    (outs1 outs2 : list (list Q)) (lps1 lps2 : list (list score)) :
  k < beam_size self →
  same_word self return_loss t1 t2 st1 st2 →
  same_block (beam_size self) t1 t2 outs1 outs2 →
  same_block (beam_size self) t1 t2 lps1 lps2 →
  (return_loss = true → same_target t1 t2 j target1 target2) →
  finished_entry net self return_loss j target1 st1 outs1 lps1
    (t1 * beam_size self + k) c
  = finished_entry net self return_loss j target2 st2 outs2 lps2
      (t2 * beam_size self + k) c.
Proof.
  intros Hk (Hsq & Hsc & _ & _ & Hlo & _) Ho Hl Ht.
  unfold finished_entry, entry.
  rewrite (Hsq k Hk), (Hsc k Hk), (Hl k Hk).
  destruct (sequences st2 !! _) as [sq|]; simpl; [|done].
  destruct (scores st2 !! _) as [parent|]; simpl; [|done].
  destruct (lps2 !! _ ≫= _) as [lp|]; simpl; [|done].
  destruct return_loss; [|done].
  rewrite (Ho k Hk), (Hlo eq_refl k Hk), !flat_position_div by done.
  specialize (Ht eq_refl). unfold same_target in Ht.
  destruct (outs2 !! _) as [o|]; simpl; [|done].
  destruct (target1 !! t1) as [row1|], (target2 !! t2) as [row2|]; simpl in *.
  - by rewrite Ht.
  - destruct (row1 !! j); done.
  - destruct (row2 !! j); done.
  - done.
Qed.
End SetAsideExact.

Section BestExact.
Context (self : Lemmatizer).
Let beam := beam_size self.

(** the rows chosen for word [t] are read off the [beam_size] best of its
    [beam_size ** 2] hypothesis scores *)
Lemma best_extensions_exact n scores lps bn sn t :
  Forall (λ row : list score, length row = beam) lps →
  best_extensions self n scores lps = Some (bn, sn) →
  t < n →
  ∃ sel : list (score * nat),
    topk score_ltb beam
      (concat (take beam (drop (t * beam)
                 (zip_with (λ s row, score_add s <$> row) scores lps)))) = Some sel ∧
    ∀ k v q, sel !! k = Some (v, q) →
      q < beam * beam ∧
      bn !! (t * beam + k) = Some (t * beam + q / beam) ∧
      sn !! (t * beam + k) = Some (q `mod` beam).
Proof.
  intros Hlps. unfold best_extensions. fold beam.
  set (hs := zip_with (λ s row, score_add s <$> row) scores lps).
  assert (Hhs : Forall (λ row : list score, length row = beam) hs).
  { apply Forall_forall. intros row Hrow.
    apply elem_of_zip_with in Hrow as (s & r & -> & _ & Hr).
    rewrite length_fmap. rewrite Forall_forall in Hlps. by apply Hlps. }
  destruct (mapM _ (reshape _ _)) as [ipt|] eqn:Hm; simpl; [|done].
  intros [= <- <-] Ht. apply mapM_Some in Hm.
  pose proof (Forall2_length _ _ _ Hm) as Hlen.
  rewrite length_reshape_uniform in Hlen.
  destruct (lookup_lt_is_Some_2 ipt t) as [ind Hind]; [lia|].
  destruct (Forall2_lookup_r _ _ _ _ _ Hm Hind) as (row & Hrow & Htop).
  destruct (topk score_ltb beam row) as [sel|] eqn:Hsel; simpl in Htop; [|done].
  injection Htop as <-.
  rewrite (reshape_concat_uniform beam beam n hs t) in Hrow by done.
  injection Hrow as <-.
  exists sel. split; [done|].
  intros k v q Hk.
  pose proof (list_elem_of_lookup_2 _ _ _ Hk) as Hin.
  pose proof (topk_lookup score_ltb _ _ _ _ _ Hsel Hin) as Hq.
  assert (Hqb : q < beam * beam).
  { apply lookup_lt_Some in Hq.
    rewrite (concat_uniform_length beam) in Hq.
    - rewrite length_take in Hq. nia.
    - apply Forall_take, Forall_drop, Hhs. }
  split; [done|].
  assert (Hk' : k < beam).
  { apply lookup_lt_Some in Hk.
    by rewrite (topk_length score_ltb _ _ _ Hsel) in Hk. }
  set (rows := imap (λ i (row : list nat),
                 (λ index, (i * beam + index / beam, index `mod` beam)) <$> row) ipt).
  assert (Huni : ∀ r, r ∈ rows → length r = beam).
  { intros r (t' & ind & -> & Hind')%elem_of_lookup_imap.
    destruct (Forall2_lookup_r _ _ _ _ _ Hm Hind') as (row' & _ & Htop').
    destruct (topk score_ltb beam row') as [sel'|] eqn:Hsel'; simpl in Htop'; [|done].
    injection Htop' as <-.
    rewrite !length_fmap. by eapply (topk_length score_ltb). }
  assert (Hn : concat rows !! (t * beam + k)
               = Some (t * beam + q / beam, q `mod` beam)).
  { rewrite (lookup_concat_uniform beam) by (by apply Forall_forall || done).
    unfold rows. rewrite list_lookup_imap, Hind. simpl.
    by rewrite !list_lookup_fmap, Hk. }
  by rewrite !list_lookup_fmap, Hn.
Qed.
End BestExact.

Lemma gather_local {A : Type} (w t1 t2 : nat) (l1 l2 : list A) (bn1 bn2 : list nat)
    (x1 x2 : list A) :
  gather l1 bn1 = Some x1 → gather l2 bn2 = Some x2 →
  (∀ k, k < w → ∃ d, d < w ∧ bn1 !! (t1 * w + k) = Some (t1 * w + d) ∧
                     bn2 !! (t2 * w + k) = Some (t2 * w + d)) →
  same_block w t1 t2 l1 l2 →
  same_block w t1 t2 x1 x2.
Proof.
  intros H1%gather_Some H2%gather_Some Hbn Hl k Hk.
  destruct (Hbn k Hk) as (d & Hd & Hb1 & Hb2).
  destruct (Forall2_lookup_l _ _ _ _ _ H1 Hb1) as (y1 & -> & Hy1).
  destruct (Forall2_lookup_l _ _ _ _ _ H2 Hb2) as (y2 & -> & Hy2).
  rewrite <- Hy1, <- Hy2. by apply Hl.
Qed.

Lemma gather2_local {A : Type} (w t1 t2 : nat) (l1 l2 : list (list A))
    (bn1 bn2 sn1 sn2 : list nat) (x1 x2 : list A) :
  gather2 l1 bn1 sn1 = Some x1 → gather2 l2 bn2 sn2 = Some x2 →
  (∀ k, k < w → ∃ d c, d < w ∧ bn1 !! (t1 * w + k) = Some (t1 * w + d) ∧
                       bn2 !! (t2 * w + k) = Some (t2 * w + d) ∧
                       sn1 !! (t1 * w + k) = Some c ∧ sn2 !! (t2 * w + k) = Some c) →
  same_block w t1 t2 l1 l2 →
  same_block w t1 t2 x1 x2.
Proof.
  intros H1%gather2_Some H2%gather2_Some Hbn Hl k Hk.
  destruct (Hbn k Hk) as (d & c & Hd & Hb1 & Hb2 & Hs1 & Hs2).
  assert (Hz1 : zip bn1 sn1 !! (t1 * w + k) = Some (t1 * w + d, c))
    by (apply lookup_zip_with_Some; eauto).
  assert (Hz2 : zip bn2 sn2 !! (t2 * w + k) = Some (t2 * w + d, c))
    by (apply lookup_zip_with_Some; eauto).
  destruct (Forall2_lookup_l _ _ _ _ _ H1 Hz1) as (y1 & -> & Hy1).
  destruct (Forall2_lookup_l _ _ _ _ _ H2 Hz2) as (y2 & -> & Hy2).
  simpl in Hy1, Hy2. rewrite <- Hy1, <- Hy2. unfold entry. by rewrite (Hl d Hd).
Qed.

Section ExpandLocal.
Context {tensor : Type} (net : Network tensor) (self : Lemmatizer).
Context (return_loss : bool).

Lemma row_continuations_local encs1 encs2 (st1 st2 : Beam tensor) t1 t2 k :
  k < (beam_size self) →
  same_word self return_loss t1 t2 st1 st2 →
  same_block (beam_size self) t1 t2 encs1 encs2 →
  row_continuations net self encs1 st1 (t1 * (beam_size self) + k)
  = row_continuations net self encs2 st2 (t2 * (beam_size self) + k).
Proof.
  intros Hk (_ & _ & Hl & Hh & _) He. unfold row_continuations.
  by rewrite (Hl k Hk), (Hh k Hk), (He k Hk).
Qed.

(** the decoder outputs and the selected characters of the rows of a word *)
Lemma tables_local n1 n2 encs1 encs2 (st1 st2 : Beam tensor) t1 t2
    decoded1 decoded2 top1 top2 :
  shaped self n1 st1 → shaped self n2 st2 →
  length encs1 = n1 * (beam_size self) → length encs2 = n2 * (beam_size self) →
  t1 < n1 → t2 < n2 →
  same_word self return_loss t1 t2 st1 st2 →
  same_block (beam_size self) t1 t2 encs1 encs2 →
  decode_rows net self encs1 st1 = Some decoded1 →
  mapM (top_characters net self) decoded1.*1 = Some top1 →
  decode_rows net self encs2 st2 = Some decoded2 →
  mapM (top_characters net self) decoded2.*1 = Some top2 →
  same_block (beam_size self) t1 t2 decoded1 decoded2 ∧ same_block (beam_size self) t1 t2 top1 top2.
Proof.
  intros Hs1 Hs2 He1 He2 Ht1 Ht2 Hw He Hd1 Hm1 Hd2 Hm2.
  assert (Hl1 : length top1 = n1 * (beam_size self)).
  { apply length_mapM in Hm1. rewrite <- Hm1, length_fmap.
    by eapply decode_rows_length. }
  assert (Hl2 : length top2 = n2 * (beam_size self)).
  { apply length_mapM in Hm2. rewrite <- Hm2, length_fmap.
    by eapply decode_rows_length. }
  assert (Hrows : ∀ k, k < (beam_size self) →
            decoded1 !! (t1 * (beam_size self) + k) = decoded2 !! (t2 * (beam_size self) + k) ∧
            top1 !! (t1 * (beam_size self) + k) = top2 !! (t2 * (beam_size self) + k)).
  { intros k Hk.
    destruct (lookup_lt_is_Some_2 top1 (t1 * (beam_size self) + k)) as [row1 Hr1]; [nia|].
    destruct (lookup_lt_is_Some_2 top2 (t2 * (beam_size self) + k)) as [row2 Hr2]; [nia|].
    destruct (table_rows net self _ _ _ _ _ _ Hd1 Hm1 Hr1) as (h1 & o1 & Hc1 & Hx1).
    destruct (table_rows net self _ _ _ _ _ _ Hd2 Hm2 Hr2) as (h2 & o2 & Hc2 & Hx2).
    rewrite (row_continuations_local encs1 encs2 st1 st2 t1 t2 k Hk Hw He) in Hc1.
    rewrite Hc1 in Hc2. injection Hc2 as <- <- <-.
    by rewrite Hr1, Hr2, Hx1, Hx2. }
  split; intros k Hk; by destruct (Hrows k Hk).
Qed.

Lemma update_losses_local t1 t2 j target1 target2 old1 old2 outs1 outs2 new1 new2 :
  0 < (beam_size self) →
  update_losses net self target1 j old1 outs1 = Some new1 →
  update_losses net self target2 j old2 outs2 = Some new2 →
  same_block (beam_size self) t1 t2 old1 old2 →
  same_block (beam_size self) t1 t2 outs1 outs2 →
  same_target t1 t2 j target1 target2 →
  same_block (beam_size self) t1 t2 new1 new2.
Proof.
  intros Hb H1%mapM_Some H2%mapM_Some Ho Hu Ht k Hk.
  destruct (new1 !! (t1 * (beam_size self) + k)) as [y1|] eqn:Hy1,
           (new2 !! (t2 * (beam_size self) + k)) as [y2|] eqn:Hy2.
  - destruct (Forall2_lookup_r _ _ _ _ _ H1 Hy1) as ([i1 [l1 o1]] & Hi1 & Hf1).
    destruct (Forall2_lookup_r _ _ _ _ _ H2 Hy2) as ([i2 [l2 o2]] & Hi2 & Hf2).
    rewrite list_lookup_imap in Hi1, Hi2.
    destruct (zip old1 outs1 !! _) as [z1|] eqn:Hz1; simpl in Hi1; [|done].
    destruct (zip old2 outs2 !! _) as [z2|] eqn:Hz2; simpl in Hi2; [|done].
    injection Hi1 as <- ->. injection Hi2 as <- ->.
    apply lookup_zip_with_Some in Hz1 as (? & ? & [= <- <-] & Hl1 & Ho1).
    apply lookup_zip_with_Some in Hz2 as (? & ? & [= <- <-] & Hl2 & Ho2).
    rewrite (Ho k Hk), Hl2 in Hl1. injection Hl1 as ->.
    rewrite (Hu k Hk), Ho2 in Ho1. injection Ho1 as ->.
    simpl in Hf1, Hf2.
    rewrite flat_position_div in Hf1, Hf2 by done.
    unfold same_target in Ht.
    destruct (target1 !! t1) as [row1|]; simpl in *; [|done].
    destruct (target2 !! t2) as [row2|]; simpl in *; [|done].
    rewrite Ht in Hf1. destruct (row2 !! j); simpl in *; [|done].
    congruence.
  - exfalso.
    destruct (Forall2_lookup_r _ _ _ _ _ H1 Hy1) as ([i1 [l1 o1]] & Hi1 & _).
    rewrite list_lookup_imap in Hi1.
    destruct (zip old1 outs1 !! _) as [z1|] eqn:Hz1; simpl in Hi1; [|done].
    apply lookup_zip_with_Some in Hz1 as (a & b & _ & Hl1 & Ho1).
    rewrite (Ho k Hk) in Hl1. rewrite (Hu k Hk) in Ho1.
    apply lookup_ge_None in Hy2. apply Forall2_length in H2.
    rewrite length_imap in H2.
    assert (Hz2 : is_Some (zip old2 outs2 !! (t2 * (beam_size self) + k))).
    { exists (a, b). apply lookup_zip_with_Some. eauto. }
    apply lookup_lt_is_Some in Hz2. lia.
  - exfalso.
    destruct (Forall2_lookup_r _ _ _ _ _ H2 Hy2) as ([i2 [l2 o2]] & Hi2 & _).
    rewrite list_lookup_imap in Hi2.
    destruct (zip old2 outs2 !! _) as [z2|] eqn:Hz2; simpl in Hi2; [|done].
    apply lookup_zip_with_Some in Hz2 as (a & b & _ & Hl2 & Ho2).
    rewrite <- (Ho k Hk) in Hl2. rewrite <- (Hu k Hk) in Ho2.
    apply lookup_ge_None in Hy1. apply Forall2_length in H1.
    rewrite length_imap in H1.
    assert (Hz1 : is_Some (zip old1 outs1 !! (t1 * (beam_size self) + k))).
    { exists (a, b). apply lookup_zip_with_Some. eauto. }
    apply lookup_lt_is_Some in Hz1. lia.
  - done.
Qed.

(** one expansion keeps the hypotheses of a word the same in two searches *)
Lemma expand_batch_local n1 n2 encs1 encs2 target1 target2 j
    (st1 st2 st1' st2' : Beam tensor) t1 t2 :
  0 < (beam_size self) →
  shaped self n1 st1 → shaped self n2 st2 →
  length encs1 = n1 * (beam_size self) → length encs2 = n2 * (beam_size self) →
  t1 < n1 → t2 < n2 →
  same_word self return_loss t1 t2 st1 st2 →
  same_block (beam_size self) t1 t2 encs1 encs2 →
  (return_loss = true → same_target t1 t2 j target1 target2) →
  expand_batch net self return_loss n1 encs1 target1 j st1 = Some st1' →
  expand_batch net self return_loss n2 encs2 target2 j st2 = Some st2' →
  same_word self return_loss t1 t2 st1' st2'.
Proof.
  intros Hb Hsh1 Hsh2 Hle1 Hle2 Ht1 Ht2 Hw He Htg Hx1 Hx2.
  apply expand_batch_Some in Hx1
    as (decoded1 & top1 & fs1 & lps1 & bn1 & sn1 & olds1 & chars1 & oscores1 & steps1
        & hids1 & losses1 & Hd1 & Hm1 & Hsa1 & Hbe1 & Ho1 & Hc1 & Hs1 & Hst1 & Hh1
        & Hlo1 & ->).
  apply expand_batch_Some in Hx2
    as (decoded2 & top2 & fs2 & lps2 & bn2 & sn2 & olds2 & chars2 & oscores2 & steps2
        & hids2 & losses2 & Hd2 & Hm2 & Hsa2 & Hbe2 & Ho2 & Hc2 & Hs2 & Hst2 & Hh2
        & Hlo2 & ->).
  pose proof (set_aside_all_table net self return_loss j target1 st1 _ _ _ _ _ Hsa1)
    as Hl1.
  pose proof (set_aside_all_table net self return_loss j target2 st2 _ _ _ _ _ Hsa2)
    as Hl2.
  destruct (tables_local n1 n2 encs1 encs2 st1 st2 t1 t2 decoded1 decoded2 top1 top2)
    as [Hdec Htop]; try done.
  assert (Htl1 : length top1 = n1 * (beam_size self)).
  { apply length_mapM in Hm1. rewrite <- Hm1, length_fmap.
    by eapply decode_rows_length. }
  assert (Htl2 : length top2 = n2 * (beam_size self)).
  { apply length_mapM in Hm2. rewrite <- Hm2, length_fmap.
    by eapply decode_rows_length. }
  assert (Hidx : same_block (beam_size self) t1 t2 (index_table top1) (index_table top2))
    by by apply same_block_fmap.
  assert (Hlog : same_block (beam_size self) t1 t2 (log_table net top1) (log_table net top2))
    by by apply same_block_fmap.
  assert (Hlps : same_block (beam_size self) t1 t2 lps1 lps2).
  { rewrite Hl1, Hl2. by apply same_block_zip_with. }
  pose proof Hw as (Hwsq & Hwsc & Hwl & Hwh & Hwlo & Hwf).
  (* the chosen rows *)
  pose proof (without_end_symbol_uniform _ _ _ _ _ _ Hd1 Hm1) as Huni1.
  pose proof (without_end_symbol_uniform _ _ _ _ _ _ Hd2 Hm2) as Huni2.
  rewrite <- Hl1 in Huni1. rewrite <- Hl2 in Huni2.
  destruct (best_extensions_exact self n1 _ _ _ _ t1 Huni1 Hbe1 Ht1) as (sel1 & Hsel1 & Hr1).
  destruct (best_extensions_exact self n2 _ _ _ _ t2 Huni2 Hbe2 Ht2) as (sel2 & Hsel2 & Hr2).
  assert (Hsel : sel1 = sel2).
  { rewrite (same_block_take_drop (beam_size self) t1 t2 _
               (zip_with (λ s row, score_add s <$> row) (scores st2) lps2)) in Hsel1.
    - congruence.
    - by apply same_block_zip_with. }
  subst sel2.
  assert (Hrows : ∀ k, k < (beam_size self) →
            ∃ d c, d < (beam_size self) ∧
              bn1 !! (t1 * (beam_size self) + k) = Some (t1 * (beam_size self) + d) ∧
              bn2 !! (t2 * (beam_size self) + k) = Some (t2 * (beam_size self) + d) ∧
              sn1 !! (t1 * (beam_size self) + k) = Some c ∧ sn2 !! (t2 * (beam_size self) + k) = Some c).
  { intros k Hk.
    destruct (lookup_lt_is_Some_2 sel1 k) as [[v q] Hq].
    { by rewrite (topk_length score_ltb _ _ _ Hsel1). }
    destruct (Hr1 k v q Hq) as (Hqb & Hb1 & Hs1').
    destruct (Hr2 k v q Hq) as (_ & Hb2 & Hs2').
    exists (q / (beam_size self)), (q `mod` (beam_size self)).
    split; [apply Nat.Div0.div_lt_upper_bound; lia|done]. }
  assert (Hrows' : ∀ k, k < (beam_size self) →
            ∃ d, d < (beam_size self) ∧
              bn1 !! (t1 * (beam_size self) + k) = Some (t1 * (beam_size self) + d) ∧
              bn2 !! (t2 * (beam_size self) + k) = Some (t2 * (beam_size self) + d)).
  { intros k Hk. destruct (Hrows k Hk) as (d & c & ? & ? & ? & _). eauto. }
  assert (Holds : same_block (beam_size self) t1 t2 olds1 olds2)
    by by eapply gather_local.
  assert (Hchars : same_block (beam_size self) t1 t2 chars1 chars2)
    by by eapply gather2_local.
  assert (Hosc : same_block (beam_size self) t1 t2 oscores1 oscores2)
    by by eapply gather_local.
  assert (Hsteps : same_block (beam_size self) t1 t2 steps1 steps2)
    by by eapply gather2_local.
  assert (Hhids : same_block (beam_size self) t1 t2 hids1 hids2).
  { eapply gather_local; [exact Hh1|exact Hh2|done|]. by apply same_block_fmap. }
  split; [by apply same_block_zip_with|].
  split; [by apply same_block_zip_with|].
  split; [done|]. split; [done|]. split.
  - intros Hrl. simpl. rewrite Hrl in Hlo1, Hlo2.
    destruct Hlo1 as (ol1 & ou1 & Hg1 & Hgo1 & Hu1).
    destruct Hlo2 as (ol2 & ou2 & Hg2 & Hgo2 & Hu2).
    eapply (update_losses_local t1 t2 j target1 target2 ol1 ol2 ou1 ou2); try done.
    + eapply gather_local; [exact Hg1|exact Hg2|done|]. by apply Hwlo.
    + eapply gather_local; [exact Hgo1|exact Hgo2|done|]. by apply same_block_fmap.
    + by apply Htg.
  - simpl.
    rewrite (set_aside_all_exact net self return_loss j _ _ _ _ _ _ _ _ t1
               (NoDup_nonzero _ _) Hsa1).
    rewrite (set_aside_all_exact net self return_loss j _ _ _ _ _ _ _ _ t2
               (NoDup_nonzero _ _) Hsa2).
    rewrite Hwf.
    destruct (final_candidates st2 !! t2) as [old|]; simpl; [|done].
    f_equal. f_equal.
    apply list_omap_ext.
    eapply Forall2_impl.
    + apply (nonzero_block_pairs (end_index self) (beam_size self) t1 t2); try done.
      * unfold index_table. rewrite length_fmap. nia.
      * unfold index_table. rewrite length_fmap. nia.
    + intros a b (k & c & Hk & -> & ->). simpl.
      apply finished_entry_local; try done. by apply same_block_fmap.
Qed.
End ExpandLocal.

(** ** A word in two batches *)

Section SearchLocal.
Context {tensor : Type} (net : Network tensor) (self : Lemmatizer).
Context (return_loss : bool).

Lemma expand_batch_shaped n encs target j (st st' : Beam tensor) :
  shaped self n st → length encs = n * beam_size self →
  expand_batch net self return_loss n encs target j st = Some st' →
  shaped self n st'.
Proof.
  intros Hsh Henc Hexp.
  destruct (expand_batch_parts net self return_loss _ _ _ _ _ _ Hsh Henc Hexp)
    as (decoded & top & bn & sn & _ & _ & _ & _ & _ & H1 & H2 & H3 & H4 & _).
  destruct (expand_batch_finals net self return_loss _ _ _ _ _ _ Hsh Henc Hexp)
    as (H5 & _).
  done.
Qed.

(** the loop keeps the hypotheses of a word the same in two searches *)
Lemma expand_loop_local n1 n2 encs1 encs2 target1 target2 steps
    (st1 st2 st1' st2' : Beam tensor) t1 t2 :
  0 < beam_size self →
  shaped self n1 st1 → shaped self n2 st2 →
  length encs1 = n1 * beam_size self → length encs2 = n2 * beam_size self →
  t1 < n1 → t2 < n2 →
  same_word self return_loss t1 t2 st1 st2 →
  same_block (beam_size self) t1 t2 encs1 encs2 →
  (return_loss = true → ∀ j, j ∈ steps → same_target t1 t2 j target1 target2) →
  expand_loop net self return_loss n1 encs1 target1 steps st1 = Some st1' →
  expand_loop net self return_loss n2 encs2 target2 steps st2 = Some st2' →
  shaped self n1 st1' ∧ shaped self n2 st2' ∧
  same_word self return_loss t1 t2 st1' st2'.
Proof.
  intros Hb Hsh1 Hsh2 Hle1 Hle2 Ht1 Ht2 Hw He Htg.
  revert st1 st2 Hsh1 Hsh2 Hw.
  induction steps as [|j steps IH]; intros st1 st2 Hsh1 Hsh2 Hw; simpl.
  - by intros [= <-] [= <-].
  - destruct (expand_batch net self return_loss n1 encs1 target1 j st1)
      as [sa|] eqn:Ha; simpl; [|done].
    destruct (expand_batch net self return_loss n2 encs2 target2 j st2)
      as [sb|] eqn:Hb'; simpl; [|done].
    apply IH.
    + intros Hrl j' Hj'. apply Htg; [done|]. by right.
    + by eapply expand_batch_shaped.
    + by eapply expand_batch_shaped.
    + eapply (expand_batch_local net self return_loss n1 n2 encs1 encs2
                target1 target2 j st1 st2); try done.
      intros Hrl. apply Htg; [done|]. left.
Qed.

(** the first state, with its losses *)
Lemma first_step_exact encoded target (st : Beam tensor) :
  first_step net self return_loss encoded target = Some st →
  ∃ rows : list (list Q * tensor * list (Q * nat)),
    Forall2 (λ e r, decode net self (start_index self) e.1 e.2 = Some (r.1.1, r.1.2) ∧
                    top_characters net self r.1.1 = Some r.2) encoded rows ∧
    sequences st = (rows ≫= λ r, (λ p : Q * nat, [p.2]) <$> r.2) ∧
    scores st = (rows ≫= λ r, (λ p : Q * nat, Fin (ln net p.1)) <$> r.2) ∧
    leading_indices st = (rows ≫= λ r, r.2.*2) ∧
    hidden_states_beam st = (rows ≫= λ r, replicate (beam_size self) r.1.2) ∧
    final_candidates st = replicate (length encoded) [] ∧
    (return_loss = true →
     ∃ ls : list (list Q),
       Forall2 (λ r l, ∃ t, target !! r.1 ≫= (.!! 0) = Some t ∧
                  l = replicate (beam_size self) (cross_entropy net r.2.1.1 t))
         (imap (λ i r, (i, r)) rows) ls ∧
       losses st = concat ls).
Proof.
  unfold first_step.
  destruct (mapM _ encoded) as [rows|] eqn:Hm; simpl; [|done].
  destruct (if return_loss then _ else _) as [ls|] eqn:Hls; simpl; [|done].
  intros [= <-]. exists rows. simpl.
  split; [|repeat (split; [done|])].
  - apply mapM_Some in Hm. eapply Forall2_impl; [exact Hm|].
    intros [hid enc] [[out hid'] top]. simpl.
    destruct (decode net self (start_index self) hid enc) as [[o h]|]; simpl; [|done].
    destruct (top_characters net self o) as [tp|] eqn:Htp; simpl; [|done].
    by intros [= <- <- <-].
  - intros Hrl. rewrite Hrl in Hls.
    destruct (mapM _ (imap (λ i r, (i, r)) rows)) as [l|] eqn:Hl; simpl in Hls; [|done].
    injection Hls as <-. exists l. split; [|done].
    apply mapM_Some in Hl. eapply Forall2_impl; [exact Hl|].
    intros [i [[o h] tp]] y. simpl.
    destruct (target !! i) as [row|]; simpl; [|done].
    destruct (row !! 0) as [t|]; simpl; [|done].
    intros [= <-]. by exists t.
Qed.

(** the first state of a word depends on its encoding and its first gold
    character only *)
Lemma first_step_local encoded1 encoded2 target1 target2 (st1 st2 : Beam tensor) t1 t2 :
  0 < beam_size self →
  t1 < length encoded1 → t2 < length encoded2 →
  encoded1 !! t1 = encoded2 !! t2 →
  (return_loss = true → same_target t1 t2 0 target1 target2) →
  first_step net self return_loss encoded1 target1 = Some st1 →
  first_step net self return_loss encoded2 target2 = Some st2 →
  same_word self return_loss t1 t2 st1 st2.
Proof.
  intros Hb Ht1 Ht2 He Htg
    (rows1 & Hm1 & Hsq1 & Hsc1 & Hli1 & Hh1 & Hf1 & Hlo1)%first_step_exact
    (rows2 & Hm2 & Hsq2 & Hsc2 & Hli2 & Hh2 & Hf2 & Hlo2)%first_step_exact.
  assert (Hlen : ∀ (encoded : list (tensor * option tensor)) rows,
            Forall2 (λ e r,
              decode net self (start_index self) e.1 e.2 = Some (r.1.1, r.1.2) ∧
              top_characters net self r.1.1 = Some r.2) encoded rows →
            ∀ r : list Q * tensor * list (Q * nat),
              r ∈ rows → length r.2 = beam_size self).
  { intros encoded rows Hm r [i Hi]%list_elem_of_lookup_1.
    destruct (Forall2_lookup_r _ _ _ _ _ Hm Hi) as (e & _ & _ & Hr).
    by eapply (topk_length Qltb). }
  pose proof (Hlen _ _ Hm1) as Hlen1. pose proof (Hlen _ _ Hm2) as Hlen2.
  assert (Hrow : rows1 !! t1 = rows2 !! t2).
  { destruct (lookup_lt_is_Some_2 encoded1 t1 Ht1) as [e1 He1].
    destruct (lookup_lt_is_Some_2 encoded2 t2 Ht2) as [e2 He2].
    destruct (Forall2_lookup_l _ _ _ _ _ Hm1 He1) as ([[o1 h1] tp1] & -> & Hd1 & Hp1).
    destruct (Forall2_lookup_l _ _ _ _ _ Hm2 He2) as ([[o2 h2] tp2] & -> & Hd2 & Hp2).
    rewrite He1, He2 in He. injection He as ->. simpl in *.
    rewrite Hd1 in Hd2. injection Hd2 as <- <-. congruence. }
  split; [|split; [|split; [|split; [|split]]]].
  - rewrite Hsq1, Hsq2. apply same_block_bind; [| |done].
    + intros r Hr. rewrite length_fmap. by apply Hlen1.
    + intros r Hr. rewrite length_fmap. by apply Hlen2.
  - rewrite Hsc1, Hsc2. apply same_block_bind; [| |done].
    + intros r Hr. rewrite length_fmap. by apply Hlen1.
    + intros r Hr. rewrite length_fmap. by apply Hlen2.
  - rewrite Hli1, Hli2. apply same_block_bind; [| |done].
    + intros r Hr. rewrite length_fmap. by apply Hlen1.
    + intros r Hr. rewrite length_fmap. by apply Hlen2.
  - rewrite Hh1, Hh2. apply same_block_bind; [| |done].
    + intros r Hr. by rewrite length_replicate.
    + intros r Hr. by rewrite length_replicate.
  - intros Hrl. specialize (Htg Hrl).
    destruct (Hlo1 Hrl) as (l1 & Hl1 & ->). destruct (Hlo2 Hrl) as (l2 & Hl2 & ->).
    assert (Huni : ∀ (target : list (list nat))
              (rows : list (list Q * tensor * list (Q * nat))) (l : list (list Q)),
              Forall2 (λ r l, ∃ t, target !! r.1 ≫= (.!! 0) = Some t ∧
                  l = replicate (beam_size self) (cross_entropy net r.2.1.1 t))
                (imap (λ i r, (i, r)) rows) l →
              Forall (λ r, length r = beam_size self) l).
    { intros target rows l Hl. apply Forall_forall.
      intros x [i Hi]%list_elem_of_lookup_1.
      destruct (Forall2_lookup_r _ _ _ _ _ Hl Hi) as (r & _ & t & _ & ->).
      by rewrite length_replicate. }
    intros k Hk.
    rewrite !(lookup_concat_uniform (beam_size self)) by eauto.
    assert (Hl : l1 !! t1 = l2 !! t2); [|by rewrite Hl].
    apply Forall2_length in Hm1 as Hlm1. apply Forall2_length in Hm2 as Hlm2.
    destruct (lookup_lt_is_Some_2 rows1 t1) as [r1 Hr1]; [lia|].
    destruct (lookup_lt_is_Some_2 rows2 t2) as [r2 Hr2]; [lia|].
    assert (Hi1 : imap (λ i r, (i, r)) rows1 !! t1 = Some (t1, r1))
      by by rewrite list_lookup_imap, Hr1.
    assert (Hi2 : imap (λ i r, (i, r)) rows2 !! t2 = Some (t2, r2))
      by by rewrite list_lookup_imap, Hr2.
    destruct (Forall2_lookup_l _ _ _ _ _ Hl1 Hi1) as (y1 & -> & tt1 & Hy1 & ->).
    destruct (Forall2_lookup_l _ _ _ _ _ Hl2 Hi2) as (y2 & -> & tt2 & Hy2 & ->).
    simpl in Hy1, Hy2. rewrite Hr1, Hr2 in Hrow. injection Hrow as ->.
    unfold same_target in Htg. rewrite Htg, Hy2 in Hy1. by injection Hy1 as ->.
  - rewrite Hf1, Hf2. rewrite !lookup_replicate_2; done.
Qed.

(** the hypothesis added for a word without finished hypothesis *)
Lemma fill_unfinished_local max_length n1 n2 (st1 st2 : Beam tensor) fc1 fc2 t1 t2 :
  t1 < n1 → t2 < n2 →
  same_word self return_loss t1 t2 st1 st2 →
  fill_unfinished self return_loss max_length n1 st1 = Some fc1 →
  fill_unfinished self return_loss max_length n2 st2 = Some fc2 →
  fc1 !! t1 = fc2 !! t2.
Proof.
  intros Ht1 Ht2 (Hsq & Hsc & _ & _ & Hlo & Hf) H1 H2.
  unfold fill_unfinished in H1, H2.
  destruct (mapM (topk score_ltb 1)
              (reshape (replicate n1 (beam_size self)) (scores st1)))
    as [best1|] eqn:Hb1; simpl in H1; [|done].
  destruct (mapM (topk score_ltb 1)
              (reshape (replicate n2 (beam_size self)) (scores st2)))
    as [best2|] eqn:Hb2; simpl in H2; [|done].
  apply mapM_Some in Hb1, Hb2, H1, H2.
  pose proof (Forall2_length _ _ _ Hb1) as Hl1.
  pose proof (Forall2_length _ _ _ Hb2) as Hl2.
  rewrite length_reshape_uniform in Hl1, Hl2.
  destruct (lookup_lt_is_Some_2 best1 t1) as [row1 Hr1]; [lia|].
  destruct (lookup_lt_is_Some_2 best2 t2) as [row2 Hr2]; [lia|].
  destruct (Forall2_lookup_r _ _ _ _ _ Hb1 Hr1) as (s1 & Hs1 & Htop1).
  destruct (Forall2_lookup_r _ _ _ _ _ Hb2 Hr2) as (s2 & Hs2 & Htop2).
  rewrite lookup_reshape_uniform in Hs1, Hs2 by done.
  injection Hs1 as <-. injection Hs2 as <-.
  rewrite (same_block_take_drop _ _ _ _ _ Hsc) in Htop1.
  rewrite Htop1 in Htop2. injection Htop2 as <-.
  assert (Hi1 : imap (λ j row, (j, row)) best1 !! t1 = Some (t1, row1))
    by by rewrite list_lookup_imap, Hr1.
  assert (Hi2 : imap (λ j row, (j, row)) best2 !! t2 = Some (t2, row1))
    by by rewrite list_lookup_imap, Hr2.
  destruct (Forall2_lookup_l _ _ _ _ _ H1 Hi1) as (y1 & -> & Hy1).
  destruct (Forall2_lookup_l _ _ _ _ _ H2 Hi2) as (y2 & -> & Hy2).
  simpl in Hy1, Hy2. rewrite <- Hy1, <- Hy2.
  destruct (row1 !! 0) as [[score index]|] eqn:H0; simpl; [|done].
  assert (Hidx : index < beam_size self).
  { apply list_elem_of_lookup_2 in H0.
    apply (topk_lookup score_ltb _ _ _ _ _ Htop1) in H0.
    apply lookup_lt_Some in H0. rewrite length_take in H0. lia. }
  unfold Final in *. rewrite Hf, (Hsq index Hidx).
  destruct return_loss; [|done].
  by rewrite (Hlo eq_refl index Hidx).
Qed.
End SearchLocal.

Lemma py_max_longest {A : Type} (f : A → nat) (l : list A) (x : A) (m : nat) :
  py_max (f <$> l) = Some m → x ∈ l → (∀ y, y ∈ l → f y ≤ f x) → m = f x.
Proof.
  intros [Hin Hmax]%py_max_spec Hx Hle.
  apply list_elem_of_fmap in Hin as (y & -> & Hy).
  assert (f x ≤ f y) by (apply Hmax, list_elem_of_fmap; eauto).
  specialize (Hle y Hy). lia.
Qed.

(** the gold characters of a word do not depend on the width of the matrix *)
Lemma fill_row_lookup_width (self : Lemmatizer) (token : string) (w1 w2 j : nat) :
  String.length token + 1 ≤ w1 → String.length token + 1 ≤ w2 →
  j < w1 → j < w2 →
  fill_row self token true false false w1 (1 + 0) !! j
  = fill_row self token true false false w2 (1 + 0) !! j.
Proof.
  intros H1 H2 Hj1 Hj2.
  rewrite !fill_row_spec by (simpl; lia). simpl.
  set (letters := char_indices (char_dictionary self) token).
  assert (Hlen : length letters = String.length token).
  { unfold letters, char_indices. by rewrite length_fmap, length_list_ascii. }
  destruct (decide (j < length letters)) as [Hj|Hj].
  - by rewrite !lookup_app_l by done.
  - rewrite !lookup_app_r by lia.
    destruct (j - length letters) as [|i] eqn:Hi; simpl; [done|].
    rewrite !lookup_replicate_2; [done|lia|lia].
Qed.

Section EncodeLocal.
Context {tensor : Type} (net : Network tensor) (self : Lemmatizer).

Lemma encode_chars_local (tokens1 tokens2 : list Token) l1 l2 t1 t2 tok :
  encode_chars net self tokens1 = Some l1 →
  encode_chars net self tokens2 = Some l2 →
  tokens1 !! t1 = Some tok → tokens2 !! t2 = Some tok →
  longest tok tokens1 → longest tok tokens2 →
  l1 !! t1 = l2 !! t2.
Proof.
  assert (Hone : ∀ (tokens : list Token) l t,
            encode_chars net self tokens = Some l →
            tokens !! t = Some tok → longest tok tokens →
            l !! t =
              Some (let extra := Nat.b2n (start_symbol self) + Nat.b2n (end_symbol self) in
                    let c := Nat.b2n (end_symbol self) + Nat.b2n (start_symbol self) in
                    let row := fill_row self (text tok) (end_symbol self)
                                 (start_symbol self) (padding_in_front_for_encoder self)
                                 (String.length (text tok) + c) c in
                    let '(outputs, hidden) :=
                      encoder_rnn net (take (String.length (text tok) + extra) row) in
                    let outputs :=
                      pad_packed_sequence net (String.length (text tok) + extra) outputs in
                    let '(outputs, hidden) :=
                      if bi_encoding self
                      then (bi_hidden_states_to_hidden_size net outputs,
                            bi_states net hidden)
                      else (outputs, hidden) in
                    (mask_out net ((λ i, bool_decide (i = dummy_index self)) <$> row)
                       outputs, hidden))).
  { intros tokens l t Henc Ht Hlong. unfold encode_chars, words_to_char_indices in Henc.
    rewrite <- list_fmap_compose in Henc.
    destruct (py_max ((String.length ∘ text) <$> tokens)) as [m|] eqn:Hm;
      simpl in Henc; [|done].
    apply (py_max_longest _ _ tok) in Hm;
      [|by eapply list_elem_of_lookup_2|intros y Hy; by apply Hlong].
    simpl in Hm. subst m.
    destruct (py_max _) as [w|] eqn:Hw; simpl in Henc; [|done].
    apply (py_max_longest _ _ tok) in Hw;
      [|by eapply list_elem_of_lookup_2|intros y Hy; specialize (Hlong y Hy); lia].
    subst w. injection Henc as <-.
    rewrite lookup_zip_with, !list_lookup_fmap, Ht. simpl. done. }
  intros H1 H2 Ht1 Ht2 Hl1 Hl2.
  by rewrite (Hone _ _ _ H1 Ht1 Hl1), (Hone _ _ _ H2 Ht2 Hl2).
Qed.

(** the encoding of a word that no word of its batch exceeds in length *)
Lemma encode_local (batch1 batch2 : list Sentence) encoded1 encoded2 t1 t2 tok :
  encoder_embeddings self = false →
  encode net self batch1 = Some encoded1 →
  encode net self batch2 = Some encoded2 →
  concat batch1 !! t1 = Some tok → concat batch2 !! t2 = Some tok →
  longest tok (concat batch1) → longest tok (concat batch2) →
  encoded1 !! t1 = encoded2 !! t2.
Proof.
  intros Hemb H1 H2 Ht1 Ht2 Hl1 Hl2. unfold encode in H1, H2.
  rewrite Hemb in H1, H2.
  destruct (encode_characters self) eqn:Hchars.
  - destruct (encode_chars net self (concat batch1)) as [l1|] eqn:Hc1;
      simpl in H1; [|done].
    destruct (encode_chars net self (concat batch2)) as [l2|] eqn:Hc2;
      simpl in H2; [|done].
    apply mapM_Some in H1, H2.
    pose proof (encode_chars_local _ _ _ _ _ _ _ Hc1 Hc2 Ht1 Ht2 Hl1 Hl2) as Heq.
    assert (Hs1 : seq 0 (length (concat batch1)) !! t1 = Some t1).
    { apply lookup_seq. split; [done|]. by eapply lookup_lt_Some. }
    assert (Hs2 : seq 0 (length (concat batch2)) !! t2 = Some t2).
    { apply lookup_seq. split; [done|]. by eapply lookup_lt_Some. }
    destruct (Forall2_lookup_l _ _ _ _ _ H1 Hs1) as (y1 & -> & Hy1).
    destruct (Forall2_lookup_l _ _ _ _ _ H2 Hs2) as (y2 & -> & Hy2).
    simpl in Hy1, Hy2. rewrite Heq in Hy1. by rewrite <- Hy1, <- Hy2.
  - simpl in H1. apply mapM_Some in H1.
    assert (Hs1 : seq 0 (length (concat batch1)) !! t1 = Some t1).
    { apply lookup_seq. split; [done|]. by eapply lookup_lt_Some. }
    by destruct (Forall2_lookup_l _ _ _ _ _ H1 Hs1) as (y1 & _ & Hy1).
Qed.

(** the gold characters read at the steps of a search *)
Lemma batch_target_local max_length (tokens1 tokens2 : list Token) target1 target2
    t1 t2 tok j :
  batch_target self max_length tokens1 = Some target1 →
  batch_target self max_length tokens2 = Some target2 →
  tokens1 !! t1 = Some tok → tokens2 !! t2 = Some tok →
  j = 0 ∨ j < max_length →
  same_target t1 t2 j target1 target2.
Proof.
  assert (Hone : ∀ (tokens : list Token) target t,
            batch_target self max_length tokens = Some target →
            tokens !! t = Some tok →
            ∃ w, String.length (gold_label self tok) + 1 ≤ w ∧
                 (j = 0 ∨ j < max_length → j < w) ∧
                 target !! t
                 = Some (fill_row self (gold_label self tok) true false false w (1 + 0))).
  { intros tokens target t Hb Ht. unfold batch_target, words_to_char_indices in Hb.
    destruct (py_max _) as [m|] eqn:Hm; simpl in Hb; [|done].
    injection Hb as <-. apply py_max_spec in Hm as [_ Hmax].
    assert (Hle : String.length (gold_label self tok) ≤ m).
    { apply Hmax. rewrite <- list_fmap_compose.
      apply list_elem_of_fmap. exists tok. split; [done|].
      by eapply list_elem_of_lookup_2. }
    eexists. split; [|split; [|by rewrite !list_lookup_fmap, Ht]].
    - destruct max_length; lia.
    - destruct max_length; lia. }
  intros H1 H2 Ht1 Ht2 Hj.
  destruct (Hone _ _ _ H1 Ht1) as (w1 & Hw1 & Hj1 & Hr1).
  destruct (Hone _ _ _ H2 Ht2) as (w2 & Hw2 & Hj2 & Hr2).
  unfold same_target. rewrite Hr1, Hr2. simpl.
  apply fill_row_lookup_width; auto.
Qed.
End EncodeLocal.

(** ** The prediction of a word in two batches *)

Section BatchLocal.
Context {tensor : Type} (net : Network tensor) (self : Lemmatizer).
Context (return_loss : bool) (max_length : nat).
Context (Hemb : encoder_embeddings self = false).

Lemma fill_unfinished_beam n (st : Beam tensor) fc :
  fill_unfinished self return_loss max_length n st = Some fc →
  0 < n → 0 < beam_size self.
Proof.
  unfold fill_unfinished. intros H Hn.
  destruct (mapM (topk score_ltb 1) _) as [best|] eqn:Hb; simpl in H; [|done].
  apply mapM_Some in Hb.
  assert (Hr : reshape (replicate n (beam_size self)) (scores st) !! 0
               = Some (take (beam_size self) (drop (0 * beam_size self) (scores st))))
    by by apply lookup_reshape_uniform.
  destruct (Forall2_lookup_l _ _ _ _ _ Hb Hr) as (row & _ & Htop).
  apply topk_Some in Htop as [Hle _].
  rewrite length_take in Hle. lia.
Qed.

Lemma batched_encoding_output_local (encoded1 encoded2 : list (tensor * option tensor))
    t1 t2 :
  encoded1 !! t1 = encoded2 !! t2 →
  same_block (beam_size self) t1 t2
    (batched_encoding_output self encoded1) (batched_encoding_output self encoded2).
Proof.
  intros He. unfold batched_encoding_output.
  apply same_block_bind; [| |done]; intros e _; by rewrite length_replicate.
Qed.

(** a word that no word of its batch exceeds in length gets the same best
    hypothesis in every such batch *)
Lemma search_batch_local (batch1 batch2 : list Sentence) outs1 outs2 t1 t2 tok :
  search_batch net self return_loss max_length batch1 = Some outs1 →
  search_batch net self return_loss max_length batch2 = Some outs2 →
  concat batch1 !! t1 = Some tok → concat batch2 !! t2 = Some tok →
  longest tok (concat batch1) → longest tok (concat batch2) →
  outs1 !! t1 = outs2 !! t2.
Proof.
  intros (encoded1 & target1 & sa1 & sb1 & fc1 & He1 & Htg1 & Hf1 & Hl1 & Hu1 & Ho1)
    %search_batch_Some
    (encoded2 & target2 & sa2 & sb2 & fc2 & He2 & Htg2 & Hf2 & Hl2 & Hu2 & Ho2)
    %search_batch_Some Ht1 Ht2 Hlong1 Hlong2.
  pose proof (encode_length net self _ _ He1) as Hn1.
  pose proof (encode_length net self _ _ He2) as Hn2.
  pose proof (lookup_lt_Some _ _ _ Ht1) as Hlt1.
  pose proof (lookup_lt_Some _ _ _ Ht2) as Hlt2.
  rewrite <- Hn1 in *. rewrite <- Hn2 in *.
  assert (Hb : 0 < beam_size self) by (eapply fill_unfinished_beam; [exact Hu1|lia]).
  pose proof (encode_local net self _ _ _ _ _ _ _ Hemb He1 He2 Ht1 Ht2 Hlong1 Hlong2)
    as Henc.
  assert (Htarget : return_loss = true →
            ∀ j, j = 0 ∨ j < max_length → same_target t1 t2 j target1 target2).
  { intros Hrl j Hj. rewrite Hrl in Htg1, Htg2.
    by eapply (batch_target_local self max_length). }
  destruct (first_step_shaped net self return_loss _ _ _ Hf1) as [Hsh1 _].
  destruct (first_step_shaped net self return_loss _ _ _ Hf2) as [Hsh2 _].
  assert (Hw0 : same_word self return_loss t1 t2 sa1 sa2).
  { eapply (first_step_local net self return_loss encoded1 encoded2 target1 target2);
      try done.
    intros Hrl. apply Htarget; [done|]. by left. }
  destruct (expand_loop_local net self return_loss (length encoded1) (length encoded2)
              (batched_encoding_output self encoded1)
              (batched_encoding_output self encoded2)
              target1 target2 (seq 1 (max_length - 1)) sa1 sa2 sb1 sb2 t1 t2)
    as (_ & _ & Hw); try done.
  - by rewrite batched_encoding_output_length.
  - by rewrite batched_encoding_output_length.
  - by apply batched_encoding_output_local.
  - intros Hrl j [Hj1 Hj]%elem_of_seq. apply Htarget; [done|]. right. lia.
  - pose proof (fill_unfinished_local self return_loss max_length _ _ _ _ _ _ t1 t2
                  Hlt1 Hlt2 Hw Hu1 Hu2) as Hfc.
    pose proof (fill_unfinished_length self _ _ _ _ _ Hu1) as Hfl1.
    pose proof (fill_unfinished_length self _ _ _ _ _ Hu2) as Hfl2.
    destruct (lookup_lt_is_Some_2 fc1 t1) as [l1 Hx1]; [lia|].
    destruct (lookup_lt_is_Some_2 fc2 t2) as [l2 Hx2]; [lia|].
    destruct (Forall2_lookup_l _ _ _ _ _ Ho1 Hx1) as ([sq1 lo1] & -> & s1 & Hy1).
    destruct (Forall2_lookup_l _ _ _ _ _ Ho2 Hx2) as ([sq2 lo2] & -> & s2 & Hy2).
    rewrite Hx1, Hx2 in Hfc. injection Hfc as ->.
    rewrite Hy1 in Hy2. simpl in Hy2. by injection Hy2 as -> _ ->.
Qed.
End BatchLocal.

(** ** A word alone and among other words *)

Section WordAlone.
Context {tensor : Type} (net : Network tensor) (self : Lemmatizer).
Context (label_name : string) (return_loss : bool) (max_length : nat).
Context (Hemb : encoder_embeddings self = false).

(** without sentence embeddings the search of a word does not look at the
    embedding *)
Lemma predict_token_embedding emb1 emb2 token :
  predict_token net self label_name return_loss max_length emb1 token
  = predict_token net self label_name return_loss max_length emb2 token.
Proof.
  unfold predict_token, search_token, token_encoding. by rewrite Hemb.
Qed.

Lemma predict_batch_tokens_word (w : Token) (batch : list Sentence) res1 l1 c1 res l c :
  predict_batch_tokens net self label_name return_loss max_length [[w]]
    = Some (res1, l1, c1) →
  predict_batch_tokens net self label_name return_loss max_length batch
    = Some (res, l, c) →
  ∃ w', res1 = [[w']] ∧
        Forall2 (Forall2 (λ token token' : Token, token = w → token' = w')) batch res.
Proof.
  unfold predict_batch_tokens. intros H1 H2.
  destruct (mapM _ [[w]]) as [r1|] eqn:Hm1; simpl in H1; [|done].
  destruct (mapM _ batch) as [r2|] eqn:Hm2; simpl in H2; [|done].
  injection H1 as <- _ _. injection H2 as <- _ _.
  simpl in Hm1. unfold predict_sentence in Hm1 at 1. simpl in Hm1.
  rewrite (predict_token_embedding _ None) in Hm1.
  destruct (predict_token net self label_name return_loss max_length None w)
    as [[w' lw]|] eqn:Hw; simpl in Hm1; [|done].
  injection Hm1 as <-. exists w'. split; [done|].
  apply mapM_Some in Hm2. apply Forall2_fmap_r.
  eapply Forall2_impl; [exact Hm2|].
  intros s r Hs. simpl in Hs. unfold predict_sentence in Hs.
  apply mapM_Some in Hs. apply Forall2_fmap_r, Forall2_same_length_lookup_2.
  - apply Forall2_length in Hs. by rewrite length_imap in Hs.
  - intros i tok [tok' loss] Hi Hi' ->.
    assert (Him : imap (λ i token, (i, token)) s !! i = Some (i, w))
      by by rewrite list_lookup_imap, Hi.
    pose proof (Forall2_lookup_lr _ _ _ _ _ _ Hs Him Hi') as Hp. simpl in Hp.
    rewrite (predict_token_embedding _ None) in Hp.
    rewrite Hw in Hp. by injection Hp as <- _.
Qed.

Lemma predict_batch_word (w : Token) (batch : list Sentence) res1 l1 c1 res l c :
  predict_batch net self label_name return_loss max_length [[w]]
    = Some (res1, l1, c1) →
  predict_batch net self label_name return_loss max_length batch = Some (res, l, c) →
  longest w (concat batch) →
  ∃ w', res1 = [[w']] ∧
        Forall2 (Forall2 (λ token token' : Token, token = w → token' = w')) batch res.
Proof.
  unfold predict_batch. cbv zeta. intros H1 H2 Hlong.
  set (strip := λ sentence : list Token,
                  (λ token, remove_labels token label_name) <$> sentence) in *.
  destruct (search_batch net self return_loss max_length (strip <$> [[w]]))
    as [outs1|] eqn:Hs1; cbn [mbind option_bind] in H1; [|done].
  destruct (search_batch net self return_loss max_length (strip <$> batch))
    as [outs2|] eqn:Hs2; cbn [mbind option_bind] in H2; [|done].
  destruct (mapM _ outs1) as [lemmas1|] eqn:Hl1; cbn [mbind option_bind] in H1; [|done].
  destruct (mapM _ outs2) as [lemmas2|] eqn:Hl2; cbn [mbind option_bind] in H2; [|done].
  injection H1 as <- _ _. injection H2 as <- _ _.
  assert (Hcat : concat (strip <$> batch)
                 = (λ token, remove_labels token label_name) <$> concat batch).
  { unfold strip. clear. induction batch as [|s b IH]; [done|].
    rewrite fmap_cons. simpl. by rewrite fmap_app, <- IH. }
  assert (Hlens : length <$> (strip <$> batch) = length <$> batch).
  { unfold strip. rewrite <- list_fmap_compose. apply list_fmap_ext.
    intros i s _. simpl. by rewrite length_fmap. }
  pose proof (search_batch_length net _ _ _ _ _ Hs1) as Hlo1.
  pose proof (search_batch_length net _ _ _ _ _ Hs2) as Hlo2.
  apply mapM_Some in Hl1, Hl2.
  pose proof (Forall2_length _ _ _ Hl1) as Hll1.
  pose proof (Forall2_length _ _ _ Hl2) as Hll2.
  simpl in Hlo1.
  destruct lemmas1 as [|lemma [|? ?]]; simpl in Hll1; try lia.
  simpl. eexists. split; [reflexivity|].
  rewrite Hlens. apply Forall2_reshape.
  rewrite Hcat. apply Forall2_same_length_lookup_2.
  - by rewrite length_imap, length_fmap.
  - intros i tok tok' Hi Hi' ->.
    rewrite list_lookup_imap, list_lookup_fmap, Hi in Hi'. simpl in Hi'.
    assert (Heq : outs1 !! 0 = outs2 !! i).
    { eapply (search_batch_local net self return_loss max_length Hemb
                (strip <$> [[w]]) (strip <$> batch) outs1 outs2 0 i
                (remove_labels w label_name)); try done.
      - by rewrite Hcat, list_lookup_fmap, Hi.
      - intros x [->|[]%elem_of_nil]%elem_of_cons. done.
      - rewrite Hcat. intros x (y & -> & Hy)%list_elem_of_fmap. simpl.
        by apply Hlong. }
    assert (Hlem : lemmas2 !! i = Some lemma).
    { destruct (outs1 !! 0) as [o|] eqn:Ho1; [|apply lookup_ge_None in Ho1; lia].
      symmetry in Heq.
      destruct (Forall2_lookup_l _ _ _ _ _ Hl1 Ho1) as (y1 & Hy1 & Hlo).
      destruct (Forall2_lookup_l _ _ _ _ _ Hl2 Heq) as (y2 & Hy2 & Hlo').
      simpl in Hy1. injection Hy1 as <-. congruence. }
    rewrite Hlem in Hi'. by injection Hi' as <-.
Qed.
End WordAlone.

Lemma max_length_of_longest (self : Lemmatizer) (sentences : list Sentence)
    (w : Token) (ml ml1 : nat) :
  w ∈ concat sentences → longest w (concat sentences) →
  max_length_of self sentences = Some ml →
  max_length_of self [[w]] = Some ml1 →
  ml = ml1.
Proof.
  unfold max_length_of. intros Hin Hlong.
  destruct (dependent_on_input self); [|congruence].
  intros H. apply (py_max_longest _ _ w) in H; [|done|].
  - simpl. intros [= <-]. done.
  - intros y Hy. specialize (Hlong y Hy). lia.
Qed.




(** * The dictionary and the constructor *)

Lemma find_item_Some d item i :
  find_item d item = Some i ↔
  idx2item d !! i = Some item ∧ ∀ j, j < i → idx2item d !! j ≠ Some item.
Proof.
  unfold find_item. split.
  - intros H. destruct (list_find _ _) as [[i' x]|] eqn:Hf; [|done].
    simpl in H. injection H as ->.
    apply list_find_Some in Hf as (Hi & -> & Hmin). split; [done|].
    intros j Hj Hj'. by apply (Hmin j item).
  - intros [Hi Hmin].
    assert (Hf : list_find (λ s, s = item) (idx2item d) = Some (i, item)).
    { apply list_find_Some. split; [done|]. split; [done|].
      intros j y Hy Hj ->. by apply (Hmin j). }
    by rewrite Hf.
Qed.

Lemma find_item_None d item : find_item d item = None ↔ item ∉ idx2item d.
Proof.
  unfold find_item. rewrite fmap_None, list_find_None, Forall_forall.
  split.
  - intros H Hin. by apply (H item).
  - intros H x Hx ->. done.
Qed.

Lemma find_item_elem d item : item ∈ idx2item d → is_Some (find_item d item).
Proof.
  intros H. destruct (find_item d item) eqn:Hf; [eauto|].
  by apply find_item_None in Hf.
Qed.

Lemma find_item_lt d item i : find_item d item = Some i → i < dict_len d.
Proof. intros [H _]%find_item_Some. by apply lookup_lt_Some in H. Qed.

(** what [add_item] does: nothing to an item that is there, and a new last
    entry otherwise *)
Lemma add_item_spec d item :
  find_item (add_item d item).1 item = Some (add_item d item).2 ∧
  add_unk (add_item d item).1 = add_unk d ∧
  (item ∈ idx2item d → (add_item d item).1 = d) ∧
  (item ∉ idx2item d →
   idx2item (add_item d item).1 = idx2item d ++ [item] ∧
   (add_item d item).2 = dict_len d) ∧
  (∀ x j, find_item d x = Some j → find_item (add_item d item).1 x = Some j).
Proof.
  unfold add_item. destruct (find_item d item) as [i|] eqn:Hf; simpl.
  - split; [done|]. split; [done|]. split; [done|]. split; [|done].
    intros Hn. by apply find_item_None in Hn; rewrite Hn in Hf.
  - apply find_item_None in Hf as Hn. split; [|split; [done|split; [done|split; [done|]]]].
    + apply find_item_Some. simpl. split.
      * by rewrite lookup_app_r, Nat.sub_diag.
      * intros j Hj. rewrite lookup_app_l by done. intros Hj'.
        apply Hn. by eapply list_elem_of_lookup_2.
    + intros x j [Hj Hmin]%find_item_Some. apply find_item_Some. simpl.
      apply lookup_lt_Some in Hj as Hlt. split.
      * by rewrite lookup_app_l.
      * intros k Hk. rewrite lookup_app_l by lia. by apply Hmin.
Qed.

Lemma add_item_found d item i : find_item d item = Some i → add_item d item = (d, i).
Proof. intros H. unfold add_item. by rewrite H. Qed.

Lemma add_item_prefix d item :
  idx2item d `prefix_of` idx2item (add_item d item).1 ∧
  dict_len (add_item d item).1 ≤ dict_len d + 1.
Proof.
  destruct (decide (item ∈ idx2item d)) as [Hin|Hn].
  - destruct (add_item_spec d item) as (_ & _ & He & _).
    rewrite He by done. split; [done|lia].
  - destruct (add_item_spec d item) as (_ & _ & _ & Hs & _).
    destruct (Hs Hn) as [Heq _].
    unfold dict_len. rewrite Heq, length_app. simpl. split; [|lia].
    by apply prefix_app_r.
Qed.

Lemma add_item_elem d item x :
  x ∈ idx2item (add_item d item).1 ↔ x ∈ idx2item d ∨ x = item.
Proof.
  destruct (decide (item ∈ idx2item d)) as [Hin|Hn].
  - destruct (add_item_spec d item) as (_ & _ & He & _).
    rewrite He by done. split; [by left|]. by intros [H| ->].
  - destruct (add_item_spec d item) as (_ & _ & _ & Hs & _).
    destruct (Hs Hn) as [Heq _].
    rewrite Heq, elem_of_app, list_elem_of_singleton. done.
Qed.

Lemma add_item_NoDup d item :
  NoDup (idx2item d) → NoDup (idx2item (add_item d item).1).
Proof.
  intros Hd. destruct (decide (item ∈ idx2item d)) as [Hin|Hn].
  - destruct (add_item_spec d item) as (_ & _ & He & _). by rewrite He.
  - destruct (add_item_spec d item) as (_ & _ & _ & Hs & _).
    destruct (Hs Hn) as [Heq _].
    rewrite Heq. apply NoDup_app. split; [done|]. split.
    + intros x Hx ->%list_elem_of_singleton. done.
    + apply NoDup_singleton.
Qed.

(** the parts of a constructed model *)
Lemma Lemmatizer_init_Some embeddings label beam isz hsz layers enc att char_dict
    dep msl pad st en bat bi self :
  Lemmatizer_init embeddings label beam isz hsz layers enc att char_dict dep msl
    pad st en bat bi = Some self →
  add_unk char_dict = true ∧
  let d1 := (add_item char_dict "<>").1 in
  let d2 := (add_item d1 "<S>").1 in
  let d3 := (add_item d2 "<E>").1 in
  char_dictionary self = d3 ∧
  dummy_index self = (add_item char_dict "<>").2 ∧
  start_index self = (add_item d1 "<S>").2 ∧
  end_index self = (add_item d2 "<E>").2 ∧
  use_attention self = (if enc then att else false) ∧
  encode_characters self = enc.
Proof.
  unfold Lemmatizer_init. destruct (add_unk char_dict); [|done].
  destruct (add_item char_dict "<>") as [d1 dummy] eqn:H1.
  destruct (add_item d1 "<S>") as [d2 start] eqn:H2.
  destruct (add_item d2 "<E>") as [d3 fin] eqn:H3.
  intros [= <-]. simpl. by rewrite H2; simpl; rewrite H3.
Qed.

Lemma Lemmatizer_init_initialised embeddings label beam isz hsz layers enc att
    char_dict dep msl pad st en bat bi self :
  Lemmatizer_init embeddings label beam isz hsz layers enc att char_dict dep msl
    pad st en bat bi = Some self →
  initialised self.
Proof.
  intros (Hunk & Hd & Hdummy & Hstart & Hend & Hatt & Henc)%Lemmatizer_init_Some.
  set (d1 := (add_item char_dict "<>").1) in *.
  set (d2 := (add_item d1 "<S>").1) in *.
  destruct (add_item_spec char_dict "<>") as (F1 & U1 & _ & _ & _).
  destruct (add_item_spec d1 "<S>") as (F2 & U2 & _ & _ & K2).
  destruct (add_item_spec d2 "<E>") as (F3 & U3 & _ & _ & K3).
  fold d1 in F1, U1, K2. fold d2 in F2, U2, K2, K3.
  unfold initialised. rewrite Hd, Hdummy, Hstart, Hend.
  split; [congruence|]. split; [by apply K3, K2|]. split; [by apply K3|].
  split; [done|]. rewrite Hatt, Henc. by destruct enc.
Qed.

(** X1 — the constructor records three pairwise distinct indices of the
    dictionary of the model, and they are the places of the symbols "<>",
    "<S>" and "<E>": each index is looked up to its symbol and each symbol to
    its index. *)
Theorem constructor_reserves_special_symbols embeddings label beam isz hsz layers
    enc att char_dict dep msl pad st en bat bi self :
  Lemmatizer_init embeddings label beam isz hsz layers enc att char_dict dep msl
    pad st en bat bi = Some self →
  let d := char_dictionary self in
  (get_item_for_index d (dummy_index self) = Some "<>" ∧
   get_item_for_index d (start_index self) = Some "<S>" ∧
   get_item_for_index d (end_index self) = Some "<E>") ∧
  (get_idx_for_item d "<>" = dummy_index self ∧
   get_idx_for_item d "<S>" = start_index self ∧
   get_idx_for_item d "<E>" = end_index self) ∧
  NoDup [dummy_index self; start_index self; end_index self].
Proof.
  intros (_ & H1 & H2 & H3 & _)%Lemmatizer_init_initialised. simpl.
  unfold get_idx_for_item, get_item_for_index. rewrite H1, H2, H3. simpl.
  apply find_item_Some in H1 as [H1 _], H2 as [H2 _], H3 as [H3 _].
  split; [done|]. split; [done|].
  apply NoDup_cons. split.
  - intros [E|[E|E%elem_of_nil]%elem_of_cons]%elem_of_cons; [| |done];
      rewrite E in H1; congruence.
  - apply NoDup_cons. split; [|apply NoDup_singleton].
    intros E%list_elem_of_singleton. rewrite E in H2. congruence.
Qed.

Lemma constructor_reserves_special_symbols_witness :
  Lemmatizer_init false "lemma" 2 30 128 1 true true letters_dictionary true 3
    false true false true false = Some letters_model ∧
  NoDup [dummy_index letters_model; start_index letters_model;
         end_index letters_model].
Proof.
  assert (H : Lemmatizer_init false "lemma" 2 30 128 1 true true letters_dictionary
                true 3 false true false true false = Some letters_model)
    by reflexivity.
  split; [exact H|].
  exact (proj2 (proj2 (constructor_reserves_special_symbols _ _ _ _ _ _ _ _ _ _ _ _
                         _ _ _ _ _ H))).
Defined.

(** X2 — the constructor raises exactly on a dictionary without the unknown
    entry.  Otherwise it only appends to the dictionary it is given: at most
    three entries, all of them special symbols, and every item that was
    there keeps its index. *)
Theorem constructor_only_appends embeddings label beam isz hsz layers enc att
    char_dict dep msl pad st en bat bi :
  match Lemmatizer_init embeddings label beam isz hsz layers enc att char_dict dep
          msl pad st en bat bi with
  | None => add_unk char_dict = false
  | Some self =>
      add_unk char_dict = true ∧
      idx2item char_dict `prefix_of` idx2item (char_dictionary self) ∧
      dict_len (char_dictionary self) ≤ dict_len char_dict + 3 ∧
      (∀ item, item ∈ idx2item (char_dictionary self) ↔
               item ∈ idx2item char_dict ∨ item ∈ ["<>"; "<S>"; "<E>"]) ∧
      (∀ item i, find_item char_dict item = Some i →
                 get_idx_for_item (char_dictionary self) item = i)
  end.
Proof.
  destruct (Lemmatizer_init _ _ _ _ _ _ _ _ _ _ _ _ _ _ _ _) as [self|] eqn:Hi.
  - apply Lemmatizer_init_Some in Hi as (Hunk & Hd & _).
    set (d1 := (add_item char_dict "<>").1) in *.
    set (d2 := (add_item d1 "<S>").1) in *.
    rewrite Hd. split; [done|].
    destruct (add_item_prefix char_dict "<>") as [P1 L1].
    destruct (add_item_prefix d1 "<S>") as [P2 L2].
    destruct (add_item_prefix d2 "<E>") as [P3 L3].
    fold d1 in P1, L1. fold d2 in P2, L2.
    split; [by etrans; [|etrans]|]. split; [lia|]. split.
    + intros item. rewrite add_item_elem. unfold d2. rewrite add_item_elem.
      unfold d1. rewrite add_item_elem.
      rewrite !elem_of_cons, elem_of_nil. tauto.
    + intros item i Hf. unfold get_idx_for_item.
      destruct (add_item_spec char_dict "<>") as (_ & _ & _ & _ & K1).
      destruct (add_item_spec d1 "<S>") as (_ & _ & _ & _ & K2).
      destruct (add_item_spec d2 "<E>") as (_ & _ & _ & _ & K3).
      by rewrite (K3 _ _ (K2 _ _ (K1 _ _ Hf))).
  - unfold Lemmatizer_init in Hi. destruct (add_unk char_dict); [|done].
    destruct (add_item char_dict "<>") as [d1 dummy].
    destruct (add_item d1 "<S>") as [d2 start].
    by destruct (add_item d2 "<E>") as [d3 fin].
Qed.

(** * The dictionary of a corpus *)

Lemma add_items_spec d items :
  idx2item d `prefix_of` idx2item (add_items d items) ∧
  add_unk (add_items d items) = add_unk d ∧
  (NoDup (idx2item d) → NoDup (idx2item (add_items d items))) ∧
  (∀ x, x ∈ idx2item (add_items d items) ↔ x ∈ idx2item d ∨ x ∈ items).
Proof.
  revert d. induction items as [|item items IH]; intros d; simpl.
  - split; [done|]. split; [done|]. split; [done|].
    intros x. rewrite elem_of_nil. tauto.
  - destruct (IH (add_item d item).1) as (P & U & N & E).
    destruct (add_item_prefix d item) as [P1 _].
    destruct (add_item_spec d item) as (_ & U1 & _).
    unfold add_items in *. simpl. split; [by etrans|]. split; [congruence|].
    split.
    + intros Hd. by apply N, add_item_NoDup.
    + intros x. rewrite E, add_item_elem, elem_of_cons. tauto.
Qed.

Lemma create_char_dict_from_corpus_add_items corpus :
  create_char_dict_from_corpus corpus =
    add_items (mkDictionary ["<unk>"; "<>"; "<S>"; "<E>"] true)
      (corpus_characters corpus).
Proof.
  unfold create_char_dict_from_corpus, corpus_characters.
  change (add_item (add_item (add_item new_dictionary "<>").1 "<S>").1 "<E>").1
    with (mkDictionary ["<unk>"; "<>"; "<S>"; "<E>"] true).
  generalize (mkDictionary ["<unk>"; "<>"; "<S>"; "<E>"] true).
  induction corpus as [|sen corpus IH]; intros d; [done|].
  simpl. rewrite IH. unfold add_items. rewrite bind_app, foldl_app. f_equal.
  clear. revert d. induction sen as [|token sen IH]; intros d; [done|].
  simpl. rewrite IH. by rewrite foldl_app.
Qed.

Lemma characters_length token c : c ∈ characters token → String.length c = 1.
Proof. unfold characters. by intros (a & -> & _)%list_elem_of_fmap. Qed.

Lemma corpus_dictionary_special (corpus : list Sentence) :
  add_unk (create_char_dict_from_corpus corpus) = true ∧
  find_item (create_char_dict_from_corpus corpus) "<>" = Some 1 ∧
  find_item (create_char_dict_from_corpus corpus) "<S>" = Some 2 ∧
  find_item (create_char_dict_from_corpus corpus) "<E>" = Some 3.
Proof.
  rewrite create_char_dict_from_corpus_add_items.
  destruct (add_items_spec (mkDictionary ["<unk>"; "<>"; "<S>"; "<E>"] true)
              (corpus_characters corpus)) as (P & U & _ & _).
  split; [done|]. destruct P as [chars Hc]. simpl in Hc.
  repeat split; apply find_item_Some; rewrite Hc; (split; [done|]);
    intros j Hj; repeat (destruct j as [|j]; [done|]); lia.
Qed.

(** X3 — the dictionary built from a corpus holds the unknown entry and the
    symbols "<>", "<S>" and "<E>" at the indices 0 to 3, and behind them,
    once each, exactly the characters that occur in the words of the
    corpus. *)
Theorem corpus_dictionary_contents (corpus : list Sentence) :
  add_unk (create_char_dict_from_corpus corpus) = true ∧
  ∃ chars,
    idx2item (create_char_dict_from_corpus corpus)
      = ["<unk>"; "<>"; "<S>"; "<E>"] ++ chars ∧
    NoDup chars ∧
    ∀ c, c ∈ chars ↔ c ∈ corpus_characters corpus.
Proof.
  rewrite create_char_dict_from_corpus_add_items.
  destruct (add_items_spec (mkDictionary ["<unk>"; "<>"; "<S>"; "<E>"] true)
              (corpus_characters corpus)) as (P & U & N & E).
  split; [done|]. destruct P as [chars Hc]. simpl in Hc. exists chars.
  split; [done|].
  assert (Hnd : NoDup (["<unk>"; "<>"; "<S>"; "<E>"] ++ chars)).
  { change (["<unk>"; "<>"; "<S>"; "<E>"] ++ chars)
      with ("<unk>" :: "<>" :: "<S>" :: "<E>" :: chars).
    rewrite <- Hc. apply N. simpl.
    compute_done. }
  apply NoDup_app in Hnd as (_ & Hdis & Hnd). split; [done|].
  intros c. split.
  - intros Hin.
    assert (Hall : c ∈ idx2item (add_items
                     (mkDictionary ["<unk>"; "<>"; "<S>"; "<E>"] true)
                     (corpus_characters corpus))).
    { rewrite Hc. by do 4 right. }
    apply E in Hall as [Hb|Hcc]; [|done].
    exfalso. by apply (Hdis c).
  - intros Hcc.
    assert (Hall : c ∈ idx2item (add_items
                     (mkDictionary ["<unk>"; "<>"; "<S>"; "<E>"] true)
                     (corpus_characters corpus))).
    { apply E. by right. }
    rewrite Hc in Hall.
    assert (Hlen : String.length c = 1).
    { unfold corpus_characters in Hcc.
      apply list_elem_of_bind in Hcc as (token & Hct & _).
      by eapply characters_length. }
    repeat (apply elem_of_cons in Hall as [-> |Hall]; [done|]). done.
Qed.

(** X4 — the constructor leaves the dictionary of a corpus as it is and
    finds the padding, start and end symbols at the indices 1, 2 and 3. *)
Theorem constructor_on_corpus_dictionary embeddings label beam isz hsz layers enc
    att dep msl pad st en bat bi (corpus : list Sentence) :
  ∃ self,
    Lemmatizer_init embeddings label beam isz hsz layers enc att
      (create_char_dict_from_corpus corpus) dep msl pad st en bat bi = Some self ∧
    char_dictionary self = create_char_dict_from_corpus corpus ∧
    dummy_index self = 1 ∧ start_index self = 2 ∧ end_index self = 3.
Proof.
  destruct (corpus_dictionary_special corpus) as (U & F1 & F2 & F3).
  unfold Lemmatizer_init.
  rewrite U, (add_item_found _ _ _ F1), (add_item_found _ _ _ F2),
    (add_item_found _ _ _ F3).
  eexists. split; [reflexivity|]. done.
Qed.

(** * Index rows and the strings they stand for *)

Lemma words_to_char_indices_padded self tokens end_symbol start_symbol
    padding_in_front seq_length :
  tokens ≠ [] →
  ∃ longest,
    py_max (String.length <$> tokens) = Some longest ∧
    words_to_char_indices self tokens end_symbol start_symbol padding_in_front
      seq_length
    = Some (padded_row self end_symbol start_symbol padding_in_front
              (default 0 seq_length
                 `max` (longest + (Nat.b2n end_symbol + Nat.b2n start_symbol)))
              <$> tokens).
Proof.
  intros Hne. unfold words_to_char_indices.
  destruct (py_max_is_Some (String.length <$> tokens)) as [longest Hl].
  { by destruct tokens. }
  exists longest. split; [done|]. rewrite Hl. simpl. f_equal.
  apply py_max_spec in Hl as [_ Hmax].
  assert (Hw : match seq_length with
               | Some 0 | None => longest + (Nat.b2n end_symbol + Nat.b2n start_symbol)
               | Some (S _ as n) =>
                   n `max` (longest + (Nat.b2n end_symbol + Nat.b2n start_symbol))
               end
               = default 0 seq_length
                   `max` (longest + (Nat.b2n end_symbol + Nat.b2n start_symbol))).
  { by destruct seq_length as [[|n]|]. }
  rewrite Hw. apply list_fmap_ext. intros i token Hi.
  rewrite fill_row_spec; [done|].
  assert (String.length token ≤ longest).
  { apply Hmax, list_elem_of_fmap. exists token. split; [done|].
    by eapply list_elem_of_lookup_2. }
  lia.
Qed.

Lemma string_app_assoc (a b c : string) : (a +:+ b) +:+ c = a +:+ (b +:+ c).
Proof.
  induction a as [|x a IH]; [done|].
  change (String x ((a +:+ b) +:+ c) = String x (a +:+ (b +:+ c))). by rewrite IH.
Qed.

Lemma string_app_nil_r (a : string) : a +:+ EmptyString = a.
Proof.
  induction a as [|x a IH]; [done|].
  change (String x (a +:+ EmptyString) = String x a). by rewrite IH.
Qed.

Lemma lemma_of_from self acc seq :
  foldl (λ predicted_lemma idx,
           l ← predicted_lemma;
           item ← get_item_for_index (char_dictionary self) idx;
           Some (l +:+ item)) (Some acc) seq
  = String.append acc <$> lemma_of self seq.
Proof.
  unfold lemma_of. revert acc. induction seq as [|idx seq IH] using rev_ind; intros acc.
  - simpl. by rewrite string_app_nil_r.
  - rewrite !foldl_app. simpl. rewrite IH.
    destruct (foldl _ (Some EmptyString) seq) as [l|]; simpl; [|done].
    destruct (get_item_for_index _ idx) as [item|]; simpl; [|done].
    by rewrite string_app_assoc.
Qed.

Lemma lemma_of_cons self idx seq :
  lemma_of self (idx :: seq) =
    item ← get_item_for_index (char_dictionary self) idx;
    String.append item <$> lemma_of self seq.
Proof.
  unfold lemma_of at 1. simpl.
  destruct (get_item_for_index _ idx) as [item|]; simpl.
  - apply lemma_of_from.
  - clear. induction seq as [|i seq IH]; [done|]. simpl. apply IH.
Qed.

Lemma get_item_of_known d c :
  c ∈ idx2item d → get_item_for_index d (get_idx_for_item d c) = Some c.
Proof.
  intros [i Hi]%find_item_elem. unfold get_idx_for_item, get_item_for_index.
  rewrite Hi. simpl. by apply find_item_Some in Hi as [Hi _].
Qed.

Lemma lemma_of_letters self (letters : list ascii) :
  (∀ a, a ∈ letters → String a EmptyString ∈ idx2item (char_dictionary self)) →
  lemma_of self
    ((λ letter, get_idx_for_item (char_dictionary self) (String letter EmptyString))
       <$> letters)
  = Some (String.string_of_list_ascii letters).
Proof.
  induction letters as [|a letters IH]; intros Hk; [done|].
  rewrite fmap_cons, lemma_of_cons, get_item_of_known.
  - rewrite IH; [done|]. intros c Hc. apply Hk. by right.
  - apply Hk. by left.
Qed.

Lemma lemma_of_char_indices self token :
  (∀ c, c ∈ characters token → c ∈ idx2item (char_dictionary self)) →
  lemma_of self (char_indices (char_dictionary self) token) = Some token.
Proof.
  intros Hk. unfold char_indices. rewrite lemma_of_letters.
  - by rewrite String.string_of_list_ascii_of_string.
  - intros a Ha. apply Hk. unfold characters. apply list_elem_of_fmap. eauto.
Qed.

(** X5 — a word whose characters are all in the dictionary comes back
    unchanged: its row of indices, one per character, is turned into the
    word again by the loop that builds the predicted lemma. *)
Theorem known_word_round_trip (self : Lemmatizer) (token : string) :
  (∀ c, c ∈ characters token → c ∈ idx2item (char_dictionary self)) →
  ∃ row,
    words_to_char_indices self [token] false false false None = Some [row] ∧
    length row = String.length token ∧
    lemma_of self row = Some token.
Proof.
  intros Hk.
  destruct (words_to_char_indices_padded self [token] false false false None)
    as (longest & Hl & Hw); [done|].
  injection Hl as <-. exists (char_indices (char_dictionary self) token).
  split; [|split].
  - rewrite Hw. simpl. unfold padded_row. simpl.
    replace (String.length token + 0 - (String.length token + 0)) with 0 by lia.
    simpl. by rewrite app_nil_r.
  - unfold char_indices. by rewrite length_fmap, length_list_ascii.
  - by apply lemma_of_char_indices.
Qed.

Lemma known_word_round_trip_witness :
  (∀ c, c ∈ characters "abba" → c ∈ idx2item (char_dictionary letters_model)) ∧
  ∃ row,
    words_to_char_indices letters_model ["abba"] false false false None = Some [row] ∧
    length row = 4 ∧
    lemma_of letters_model row = Some "abba".
Proof.
  assert (H : ∀ c, c ∈ characters "abba"
                   → c ∈ idx2item (char_dictionary letters_model)).
  { apply Forall_forall. apply (bool_decide_unpack _). by vm_compute. }
  split; [exact H|]. exact (known_word_round_trip letters_model "abba" H).
Defined.

(** X6 — a character that is not in the dictionary gets the index 0, the
    index of the unknown entry, and is predicted back as that entry. *)
Theorem unknown_character_is_index_zero (self : Lemmatizer) (c : ascii) unk :
  String c EmptyString ∉ idx2item (char_dictionary self) →
  get_item_for_index (char_dictionary self) 0 = Some unk →
  words_to_char_indices self [String c EmptyString] false false false None
    = Some [[0]] ∧
  lemma_of self [0] = Some unk.
Proof.
  intros Hn H0.
  destruct (words_to_char_indices_padded self [String c EmptyString] false false
              false None) as (longest & Hl & Hw); [done|].
  injection Hl as <-. rewrite Hw. simpl. unfold padded_row, char_indices. simpl.
  unfold get_idx_for_item. apply find_item_None in Hn. rewrite Hn. simpl.
  split; [done|]. rewrite lemma_of_cons, H0. simpl. by rewrite string_app_nil_r.
Qed.

Lemma unknown_character_is_index_zero_witness :
  ("z" ∉ idx2item (char_dictionary letters_model)) ∧
  get_item_for_index (char_dictionary letters_model) 0 = Some "<unk>" ∧
  words_to_char_indices letters_model ["z"] false false false None = Some [[0]] ∧
  lemma_of letters_model [0] = Some "<unk>".
Proof.
  assert (H1 : "z" ∉ idx2item (char_dictionary letters_model))
    by (apply (bool_decide_unpack _); by vm_compute).
  assert (H2 : get_item_for_index (char_dictionary letters_model) 0 = Some "<unk>")
    by reflexivity.
  split; [exact H1|]. split; [exact H2|].
  exact (unknown_character_is_index_zero letters_model "z" "<unk>" H1 H2).
Defined.

(** * Saving and loading *)

Lemma Lemmatizer_init_again self :
  initialised self →
  Lemmatizer_init (encoder_embeddings self) (label_type self) (beam_size self)
    (rnn_input_size self) (rnn_hidden_size self) (rnn_layers self)
    (encode_characters self) (use_attention self) (char_dictionary self)
    (dependent_on_input self) (max_sequence_length self)
    (padding_in_front_for_encoder self) (start_symbol self) (end_symbol self)
    (batching_in_rnn self) (bi_encoding self) = Some self.
Proof.
  intros (U & F1 & F2 & F3 & Hatt). unfold Lemmatizer_init.
  rewrite U, (add_item_found _ _ _ F1), (add_item_found _ _ _ F2),
    (add_item_found _ _ _ F3).
  destruct self as [? ? ? ? ? ? ? ? ? ? ? ? enc att ? ? ? ? ?]. simpl in *.
  destruct enc; [done|]. destruct att; [|done].
  by specialize (Hatt eq_refl).
Qed.

Lemma state_dict_entries self :
  let state := _get_state_dict self in
  state !! "state_dict" = Some VWeights ∧
  state_bool state "embeddings" = Some (encoder_embeddings self) ∧
  state_bool state "encode_characters" = Some (encode_characters self) ∧
  state_nat state "rnn_input_size" = Some (rnn_input_size self) ∧
  state_nat state "rnn_hidden_size" = Some (rnn_hidden_size self) ∧
  state_nat state "rnn_layers" = Some (rnn_layers self) ∧
  state_dictionary state "char_dict" = Some (char_dictionary self) ∧
  state_str state "label_type" = Some (label_type self) ∧
  state_nat state "beam_size" = Some (beam_size self) ∧
  state_bool state "dependent_on_input" = Some (dependent_on_input self) ∧
  state_nat state "max_sequence_length" = Some (max_sequence_length self) ∧
  state_bool state "use_attention" = Some (use_attention self) ∧
  state_bool state "padding_in_front_for_encoder"
    = Some (padding_in_front_for_encoder self) ∧
  state_bool state "start_symbol" = Some (start_symbol self) ∧
  state_bool state "end_symbol" = Some (end_symbol self) ∧
  state_bool state "batching_in_rnn" = Some (batching_in_rnn self) ∧
  state_bool state "bidirectional_encoding" = Some (bi_encoding self).
Proof. repeat split. Qed.

Lemma load_saved self :
  initialised self → _init_model_with_state_dict (_get_state_dict self) = Some self.
Proof.
  intros Hi. unfold _init_model_with_state_dict.
  destruct (state_dict_entries self)
    as (Hw & -> & -> & -> & -> & -> & -> & -> & -> & -> & -> & -> & -> & -> & -> & ->
        & ->).
  cbn [mbind option_bind]. rewrite (Lemmatizer_init_again self Hi).
  cbn [mbind option_bind]. by rewrite Hw.
Qed.

Lemma after_calls_initialised {tensor : Type} (net : Network tensor) self calls :
  initialised self → initialised (after_calls net self calls).
Proof.
  revert self. induction calls as [|c calls IH]; intros self Hi; [done|].
  apply IH. unfold after_call, predict. simpl. by case_decide.
Qed.

(** X7 — saving a model and loading it again gives the same model, for a
    model that the constructor has built and that has since been used for
    any number of predictions: the constructor, run on the saved entries,
    finds the special symbols in the saved dictionary and changes nothing. *)
Theorem saved_model_is_loaded_unchanged {tensor : Type} (net : Network tensor)
    embeddings label beam isz hsz layers enc att char_dict dep msl pad st en bat bi
    (self : Lemmatizer) (calls : list Call) :
  Lemmatizer_init embeddings label beam isz hsz layers enc att char_dict dep msl
    pad st en bat bi = Some self →
  _init_model_with_state_dict (_get_state_dict (after_calls net self calls))
    = Some (after_calls net self calls).
Proof.
  intros Hi%Lemmatizer_init_initialised.
  by apply load_saved, after_calls_initialised.
Qed.

Lemma saved_model_is_loaded_unchanged_witness :
  Lemmatizer_init false "lemma" 2 30 128 1 true true letters_dictionary true 3
    false true false true false = Some letters_model ∧
  _init_model_with_state_dict
    (_get_state_dict
       (after_calls (demo_network never_end) letters_model
          [mkCall (inr [[word "ab"]]) "predicted" 16 false]))
  = Some letters_model.
Proof.
  assert (H : Lemmatizer_init false "lemma" 2 30 128 1 true true letters_dictionary
                true 3 false true false true false = Some letters_model)
    by reflexivity.
  split; [exact H|].
  exact (saved_model_is_loaded_unchanged (demo_network never_end) _ _ _ _ _ _ _ _ _
           _ _ _ _ _ _ _ letters_model
           [mkCall (inr [[word "ab"]]) "predicted" 16 false] H).
Defined.

Lemma state_bool_Some state key b : state_bool state key = Some b → is_Some (state !! key).
Proof. unfold state_bool. destruct (state !! key); [eauto|done]. Qed.

Lemma state_nat_Some state key n : state_nat state key = Some n → is_Some (state !! key).
Proof. unfold state_nat. destruct (state !! key); [eauto|done]. Qed.

Lemma state_str_Some state key s : state_str state key = Some s → is_Some (state !! key).
Proof. unfold state_str. destruct (state !! key); [eauto|done]. Qed.

Lemma state_dictionary_Some state key d :
  state_dictionary state key = Some d → is_Some (state !! key).
Proof. unfold state_dictionary. destruct (state !! key); [eauto|done]. Qed.

(** X8 — loading raises when one of the seventeen entries of a saved model is
    missing, whichever it is. *)
Theorem loading_needs_every_entry (state : gmap string StateValue) (key : string) :
  key ∈ state_keys →
  state !! key = None →
  _init_model_with_state_dict state = None.
Proof.
  intros Hkey Hnone.
  destruct (_init_model_with_state_dict state) as [model|] eqn:Hload; [|done].
  exfalso. apply eq_None_not_Some in Hnone. apply Hnone. clear Hnone.
  unfold _init_model_with_state_dict in Hload.
  repeat match type of Hload with
         | (?x ≫= _) = Some _ =>
             let E := fresh "E" in
             destruct x eqn:E; [cbn [mbind option_bind] in Hload|done]
         end.
  unfold state_keys in Hkey.
  repeat (apply elem_of_cons in Hkey as [-> |Hkey];
          [first [by eauto
                 |by eapply state_bool_Some
                 |by eapply state_nat_Some
                 |by eapply state_str_Some
                 |by eapply state_dictionary_Some]|]).
  by apply elem_of_nil in Hkey.
Qed.

Lemma loading_needs_every_entry_witness :
  "beam_size" ∈ state_keys ∧
  delete "beam_size" (_get_state_dict letters_model) !! "beam_size" = None ∧
  _init_model_with_state_dict (delete "beam_size" (_get_state_dict letters_model))
    = None.
Proof.
  assert (H1 : "beam_size" ∈ state_keys)
    by (apply (bool_decide_unpack _); by vm_compute).
  assert (H2 : delete "beam_size" (_get_state_dict letters_model) !! "beam_size"
               = None) by apply lookup_delete_eq.
  split; [exact H1|]. split; [exact H2|].
  exact (loading_needs_every_entry _ _ H1 H2).
Defined.

(** * What the encoder reads *)

Lemma length_encoder_word self token :
  length (encoder_word self token)
  = String.length (text token) + (Nat.b2n (start_symbol self) + Nat.b2n (end_symbol self)).
Proof.
  unfold encoder_word, char_indices, special.
  rewrite !length_app, length_fmap, length_list_ascii.
  destruct (start_symbol self), (end_symbol self); simpl; lia.
Qed.

Lemma encode_chars_padded {tensor : Type} (net : Network tensor) self
    (tokens : list Token) :
  tokens ≠ [] →
  ∃ width,
    py_max ((λ token, length (encoder_word self token)) <$> tokens) = Some width ∧
    encode_chars net self tokens =
      Some ((λ token,
               let row := padded_row self (end_symbol self) (start_symbol self)
                            (padding_in_front_for_encoder self) width (text token) in
               encoded_word net self width
                 (take (length (encoder_word self token)) row) row) <$> tokens).
Proof.
  intros Hne. unfold encode_chars.
  destruct (words_to_char_indices_padded self (text <$> tokens) (end_symbol self)
              (start_symbol self) (padding_in_front_for_encoder self) None)
    as (longest & Hl & ->).
  { by destruct tokens. }
  cbn [mbind option_bind].
  assert (Hlen : (λ token, String.length (text token)
                           + (Nat.b2n (start_symbol self) + Nat.b2n (end_symbol self)))
                   <$> tokens
                 = (λ token, length (encoder_word self token)) <$> tokens).
  { apply list_fmap_ext. intros i token _. by rewrite length_encoder_word. }
  rewrite Hlen.
  assert (Hw : py_max ((λ token, length (encoder_word self token)) <$> tokens)
               = Some (longest + (Nat.b2n (end_symbol self) + Nat.b2n (start_symbol self)))).
  { rewrite <- Hlen. clear Hlen. rewrite <- list_fmap_compose in Hl.
    destruct tokens as [|t tokens]; [done|]. simpl in *. injection Hl as <-. f_equal.
    generalize (String.length (text t)). clear.
    induction tokens as [|t' tokens IH]; intros m; simpl; [lia|].
    rewrite <- IH. f_equal. lia. }
  rewrite Hw. cbn [mbind option_bind]. eexists. split; [done|]. f_equal.
  rewrite <- list_fmap_compose. simpl.
  rewrite zip_with_fmap_l, zip_with_fmap_r, zip_with_diag.
  apply list_fmap_ext. intros i token _. simpl. by unfold encoded_word.
Qed.

Lemma padded_row_encoder self width token :
  padded_row self (end_symbol self) (start_symbol self)
    (padding_in_front_for_encoder self) width (text token)
  = if padding_in_front_for_encoder self
    then replicate (width - length (encoder_word self token)) (dummy_index self)
         ++ encoder_word self token
    else encoder_word self token
         ++ replicate (width - length (encoder_word self token)) (dummy_index self).
Proof.
  unfold padded_row. rewrite length_encoder_word.
  replace (Nat.b2n (end_symbol self) + Nat.b2n (start_symbol self))
    with (Nat.b2n (start_symbol self) + Nat.b2n (end_symbol self)) by lia.
  unfold encoder_word. destruct (padding_in_front_for_encoder self); simpl.
  - by rewrite app_nil_r.
  - by rewrite <- !app_assoc.
Qed.

(** X9 — with the padding behind the words, the encoder reads of every word
    of a batch exactly its own characters between the special symbols that
    are switched on, whatever the other words of the batch are; only the
    width to which its outputs are filled up, and the mask, depend on the
    longest word. *)
Theorem encoder_reads_each_word_alone {tensor : Type} (net : Network tensor)
    (self : Lemmatizer) (tokens : list Token) :
  padding_in_front_for_encoder self = false →
  tokens ≠ [] →
  ∃ width,
    py_max ((λ token, length (encoder_word self token)) <$> tokens) = Some width ∧
    encode_chars net self tokens =
      Some ((λ token,
               encoded_word net self width (encoder_word self token)
                 (encoder_word self token
                  ++ replicate (width - length (encoder_word self token))
                       (dummy_index self))) <$> tokens).
Proof.
  intros Hpad Hne.
  destruct (encode_chars_padded net self tokens Hne) as (width & Hw & ->).
  exists width. split; [done|]. f_equal. apply list_fmap_ext. intros i token _.
  cbv zeta. rewrite padded_row_encoder, Hpad. by rewrite take_app_length.
Qed.

Lemma encoder_reads_each_word_alone_witness :
  padding_in_front_for_encoder (demo_model 2 true true 3) = false ∧
  [word "abc"; word "a"] ≠ [] ∧
  encode_chars (demo_network never_end) (demo_model 2 true true 3)
    [word "abc"; word "a"]
  = Some [encoded_word (demo_network never_end) (demo_model 2 true true 3) 4
            [2; 4; 5; 6] [2; 4; 5; 6];
          encoded_word (demo_network never_end) (demo_model 2 true true 3) 4
            [2; 4] [2; 4; 1; 1]].
Proof.
  assert (H1 : padding_in_front_for_encoder (demo_model 2 true true 3) = false)
    by reflexivity.
  assert (H2 : [word "abc"; word "a"] ≠ []) by discriminate.
  split; [exact H1|]. split; [exact H2|].
  destruct (encoder_reads_each_word_alone (demo_network never_end)
              (demo_model 2 true true 3) [word "abc"; word "a"] H1 H2)
    as (width & Hw & He).
  injection Hw as <-. exact He.
Defined.

(** X10 — with the padding in front, the encoder does not read a word that
    is shorter than the longest word of its batch as it stands: the first
    indices of its row are read, which are padding, and as many of its last
    characters are left out; a word of at most half the width is read as
    padding only. *)
Theorem front_padding_is_read_for_the_word {tensor : Type} (net : Network tensor)
    (self : Lemmatizer) (tokens : list Token) :
  padding_in_front_for_encoder self = true →
  tokens ≠ [] →
  ∃ width,
    py_max ((λ token, length (encoder_word self token)) <$> tokens) = Some width ∧
    encode_chars net self tokens =
      Some ((λ token,
               let n := length (encoder_word self token) in
               encoded_word net self width
                 (replicate ((width - n) `min` n) (dummy_index self)
                  ++ take (n - (width - n)) (encoder_word self token))
                 (replicate (width - n) (dummy_index self)
                  ++ encoder_word self token)) <$> tokens).
Proof.
  intros Hpad Hne.
  destruct (encode_chars_padded net self tokens Hne) as (width & Hw & ->).
  exists width. split; [done|]. f_equal. apply list_fmap_ext. intros i token _.
  cbv zeta. rewrite padded_row_encoder, Hpad.
  rewrite take_app, take_replicate, length_replicate. do 3 f_equal. lia.
Qed.

Lemma front_padding_is_read_for_the_word_witness :
  padding_in_front_for_encoder front_padded_model = true ∧
  [word "abc"; word "a"] ≠ [] ∧
  encode_chars (demo_network never_end) front_padded_model [word "abc"; word "a"]
  = Some [encoded_word (demo_network never_end) front_padded_model 4
            [2; 4; 5; 6] [2; 4; 5; 6];
          encoded_word (demo_network never_end) front_padded_model 4
            [1; 1] [1; 1; 2; 4]].
Proof.
  assert (H1 : padding_in_front_for_encoder front_padded_model = true)
    by reflexivity.
  assert (H2 : [word "abc"; word "a"] ≠ []) by discriminate.
  split; [exact H1|]. split; [exact H2|].
  destruct (front_padding_is_read_for_the_word (demo_network never_end)
              front_padded_model [word "abc"; word "a"] H1 H2) as (width & Hw & He).
  injection Hw as <-. exact He.
Defined.

(** * Configurations that cannot predict or train *)

Lemma mapM_None_elem {A B : Type} (f : A → option B) (l : list A) x :
  x ∈ l → f x = None → mapM f l = None.
Proof.
  intros Hx Hf. apply eq_None_not_Some. intros Hs%mapM_is_Some.
  rewrite Forall_forall in Hs. specialize (Hs x Hx). simpl in Hs.
  rewrite Hf in Hs. by destruct Hs.
Qed.

Lemma predict_model {tensor : Type} (net : Network tensor) self sentences label_name
    mini_batch_size return_loss :
  (predict net self sentences label_name mini_batch_size return_loss).1
  = if decide (beam_size self = 1) then set_batching_in_rnn false self else self.
Proof. reflexivity. Qed.

(** a call of [predict] on sentences with a word fails when every batch with
    a word does *)
Lemma predict_None {tensor : Type} (net : Network tensor) self sentences label_name
    mini_batch_size return_loss :
  let self' := (predict net self sentences label_name mini_batch_size return_loss).1 in
  (∃ s, s ∈ given_sentences sentences ∧ s ≠ []) →
  (∀ max_length (batch : list Sentence),
     concat batch ≠ [] →
     (if batching_in_rnn self'
      then predict_batch net self' label_name return_loss max_length
      else predict_batch_tokens net self' label_name return_loss max_length) batch
     = None) →
  (predict net self sentences label_name mini_batch_size return_loss).2 = None.
Proof.
  intros self' (s & Hs & Hne) Hfail.
  destruct (predict net self sentences label_name mini_batch_size return_loss).2
    as [[store ret]|] eqn:Hp; [|done].
  exfalso. apply predict_Some in Hp as [(Hnil & _)|(_ & ml & batches & results & _ & Hdl & Hall & _)].
  - apply filter_nonempty_nil in Hnil. rewrite Forall_forall in Hnil.
    specialize (Hnil s Hs). by destruct s.
  - assert (Hin : s ∈ filter (λ s : Sentence, 0 < length s) (given_sentences sentences)).
    { apply list_elem_of_filter. split; [|done]. destruct s; [done|simpl; lia]. }
    rewrite <- (data_loader_concat _ _ _ Hdl) in Hin.
    apply elem_of_concat in Hin as (b & Hsb & Hb).
    apply list_elem_of_lookup_1 in Hb as [i Hi].
    destruct (Forall2_lookup_l _ _ _ _ _ Hall Hi) as (r & _ & Hr).
    fold self' in Hr. rewrite Hfail in Hr; [done|].
    intros Hc. destruct s as [|t s]; [done|].
    assert (Ht : t ∈ concat b).
    { apply elem_of_concat. exists (t :: s). split; [by left|done]. }
    rewrite Hc in Ht. by apply elem_of_nil in Ht.
Qed.

Section Unbound.
Context {tensor : Type} (net : Network tensor) (self : Lemmatizer).
Context (Hemb : encoder_embeddings self = true).
Context (Hatt : use_attention self = true).

Lemma search_token_unbound return_loss max_length embedding token :
  search_token net self return_loss max_length embedding token = None.
Proof.
  unfold search_token, token_encoding. rewrite Hemb.
  destruct embedding as [e|]; [|done]. cbn [mbind option_bind].
  destruct (if return_loss then _ else _) as [target|]; [|done].
  cbn [mbind option_bind]. unfold first_pass, decode.
  destruct (decoder_rnn net _ _) as [output hidden]. by rewrite Hatt.
Qed.

Lemma predict_batch_tokens_unbound label_name return_loss max_length
    (batch : list Sentence) :
  concat batch ≠ [] →
  predict_batch_tokens net self label_name return_loss max_length batch = None.
Proof.
  intros Hne. unfold predict_batch_tokens.
  assert (Hs : ∃ s, s ∈ batch ∧ s ≠ []).
  { clear -Hne. induction batch as [|s batch IH]; [done|].
    destruct s as [|t s].
    - destruct IH as (s' & Hs' & Hn); [done|]. exists s'. split; [by right|done].
    - exists (t :: s). split; [by left|done]. }
  destruct Hs as (s & Hs & Hn).
  rewrite (mapM_None_elem _ _ s Hs); [done|].
  unfold predict_sentence. destruct s as [|t s]; [done|].
  rewrite (mapM_None_elem _ _ (0, t)); [done|by left|].
  unfold predict_token. by rewrite search_token_unbound.
Qed.
End Unbound.

(** X11 — a model that has embeddings and uses attention cannot predict
    word by word: the encoder outputs that the attention reads are never
    assigned, and every call on sentences with a word raises.  This is so
    whenever batching is off, and for every model with one hypothesis. *)
Theorem attention_needs_the_character_encoder {tensor : Type} (net : Network tensor)
    (self : Lemmatizer) (sentences : Sentence + list Sentence) (label_name : string)
    (mini_batch_size : nat) (return_loss : bool) :
  encoder_embeddings self = true →
  use_attention self = true →
  batching_in_rnn self = false ∨ beam_size self = 1 →
  (∃ s, s ∈ given_sentences sentences ∧ s ≠ []) →
  (predict net self sentences label_name mini_batch_size return_loss).2 = None.
Proof.
  intros Hemb Hatt Hmode Hs. apply predict_None; [done|].
  intros max_length batch Hne. rewrite predict_model.
  assert (Hb : batching_in_rnn
                 (if decide (beam_size self = 1)
                  then set_batching_in_rnn false self else self) = false).
  { case_decide; [done|]. by destruct Hmode. }
  rewrite Hb. apply predict_batch_tokens_unbound; [|by case_decide|done].
  by case_decide.
Qed.

Lemma attention_needs_the_character_encoder_witness :
  encoder_embeddings embedded_model = true ∧
  use_attention embedded_model = true ∧
  (batching_in_rnn embedded_model = false ∨ beam_size embedded_model = 1) ∧
  (∃ s, s ∈ given_sentences (inr [[word "ab"]]) ∧ s ≠ []) ∧
  (predict (demo_network never_end) embedded_model (inr [[word "ab"]]) "predicted"
     16 false).2 = None.
Proof.
  assert (H1 : encoder_embeddings embedded_model = true) by reflexivity.
  assert (H2 : use_attention embedded_model = true) by reflexivity.
  assert (H3 : batching_in_rnn embedded_model = false ∨ beam_size embedded_model = 1)
    by (right; reflexivity).
  assert (H4 : ∃ s, s ∈ given_sentences (inr [[word "ab"]]) ∧ s ≠ []).
  { exists [word "ab"]. split; [by left|discriminate]. }
  split; [exact H1|]. split; [exact H2|]. split; [exact H3|]. split; [exact H4|].
  exact (attention_needs_the_character_encoder (demo_network never_end)
           embedded_model (inr [[word "ab"]]) "predicted" 16 false H1 H2 H3 H4).
Defined.

Section NoEncoder.
Context {tensor : Type} (net : Network tensor) (self : Lemmatizer).
Context (Hchars : encode_characters self = false).
Context (Hemb : encoder_embeddings self = false).

Lemma encode_no_encoder (batch : list Sentence) :
  concat batch ≠ [] → encode net self batch = None.
Proof.
  intros Hne. unfold encode. rewrite Hchars, Hemb. cbn [mbind option_bind].
  apply (mapM_None_elem _ _ 0); [|done].
  apply elem_of_seq. destruct (concat batch); [done|]. simpl. lia.
Qed.

Lemma forward_pass_no_encoder sentences : forward_pass net self sentences = None.
Proof.
  unfold forward_pass. cbv zeta.
  generalize (match sentences with inl s => [s] | inr l => l end).
  intros given. destruct (decide (concat given = [])) as [Hnil|Hne].
  - destruct (encode net self given) as [encoded|]; [|done].
    cbn [mbind option_bind]. rewrite Hnil. done.
  - by rewrite encode_no_encoder.
Qed.

Lemma predict_batch_no_encoder label_name return_loss max_length
    (batch : list Sentence) :
  concat batch ≠ [] →
  predict_batch net self label_name return_loss max_length batch = None.
Proof.
  intros Hne. unfold predict_batch, search_batch.
  rewrite encode_no_encoder; [done|].
  intros Hc. apply Hne. apply nil_length_inv.
  apply (f_equal length) in Hc. simpl in Hc. rewrite <- Hc. clear.
  induction batch as [|s batch IH]; [done|].
  simpl. rewrite !length_app, length_fmap. by rewrite IH.
Qed.
End NoEncoder.

(** X12 — a model that neither encodes characters nor has embeddings has
    nothing to start the decoder from: [encode] raises on every batch with a
    word, and so do training and the prediction of whole batches.  Word by
    word the same model does predict, since there the characters are encoded
    whatever [encode_characters] says. *)
Theorem model_without_encoder {tensor : Type} (net : Network tensor)
    (self : Lemmatizer) :
  encode_characters self = false →
  encoder_embeddings self = false →
  (∀ batch : list Sentence, concat batch ≠ [] → encode net self batch = None) ∧
  (∀ sentences, forward_loss net self sentences = None) ∧
  (∀ sentences label_name mini_batch_size return_loss,
     batching_in_rnn self = true → beam_size self ≠ 1 →
     (∃ s, s ∈ given_sentences sentences ∧ s ≠ []) →
     (predict net self sentences label_name mini_batch_size return_loss).2 = None) ∧
  (∀ embedding token,
     ∃ row,
       words_to_char_indices self [text token] (end_symbol self) (start_symbol self)
         false None = Some [row] ∧
       token_encoding net self embedding token
       = Some ((encoder_rnn net row).2, Some (encoder_rnn net row).1)).
Proof.
  intros Hchars Hemb. split; [|split; [|split]].
  - intros batch. by apply encode_no_encoder.
  - intros sentences. unfold forward_loss. by rewrite forward_pass_no_encoder.
  - intros sentences label_name mini_batch_size return_loss Hb Hbeam Hs.
    apply predict_None; [done|]. intros max_length batch Hne.
    rewrite predict_model. rewrite decide_False by done. rewrite Hb.
    by apply predict_batch_no_encoder.
  - intros embedding token. unfold token_encoding. rewrite Hemb.
    destruct (words_to_char_indices_padded self [text token] (end_symbol self)
                (start_symbol self) false None) as (longest & _ & ->); [done|].
    eexists. split; [reflexivity|]. cbn [mbind option_bind fmap list_fmap lookup
      list_lookup]. by destruct (encoder_rnn net _).
Qed.

Lemma model_without_encoder_witness :
  encode_characters bare_model = false ∧
  encoder_embeddings bare_model = false ∧
  forward_loss (demo_network never_end) bare_model (inr [[word "ab"]]) = None.
Proof.
  assert (H1 : encode_characters bare_model = false) by reflexivity.
  assert (H2 : encoder_embeddings bare_model = false) by reflexivity.
  split; [exact H1|]. split; [exact H2|].
  exact (proj1 (proj2 (model_without_encoder (demo_network never_end) bare_model
                         H1 H2)) (inr [[word "ab"]])).
Defined.

(** * Training *)

Lemma length_padded_row self end_symbol start_symbol padding_in_front width token :
  String.length token + (Nat.b2n end_symbol + Nat.b2n start_symbol) ≤ width →
  length (padded_row self end_symbol start_symbol padding_in_front width token) = width.
Proof.
  intros Hw. unfold padded_row, special, char_indices.
  rewrite !length_app, !length_replicate, length_fmap, length_list_ascii.
  destruct padding_in_front, start_symbol, end_symbol; simpl in *; lia.
Qed.

Section TrainingShapes.
Context {tensor : Type} (net : Network tensor) (self : Lemmatizer).

Lemma decode_sequence_length row hidden enc outs hidden' :
  decode_sequence net self row hidden enc = Some (outs, hidden') →
  length outs = length row.
Proof.
  revert hidden outs hidden'.
  induction row as [|i row IH]; intros hidden outs hidden' H; simpl in H.
  - by injection H as <- _.
  - destruct (decode net self i hidden enc) as [[o h]|]; [|done].
    cbn [mbind option_bind] in H.
    destruct (decode_sequence net self row h enc) as [[os h']|] eqn:Hd; [|done].
    cbn [mbind option_bind] in H. injection H as <- _. simpl. f_equal. by eapply IH.
Qed.

Lemma decode_sequence_is_Some row hidden enc :
  (use_attention self = true → is_Some enc) →
  is_Some (decode_sequence net self row hidden enc).
Proof.
  intros Ha. revert hidden. induction row as [|i row IH]; intros hidden; simpl; [eauto|].
  assert (Hd : is_Some (decode net self i hidden enc)).
  { unfold decode. destruct (decoder_rnn net i hidden) as [o h].
    destruct (use_attention self); [|by eauto].
    destruct Ha as [e ->]; [done|]. by eauto. }
  destruct Hd as [[o h] ->]. cbn [mbind option_bind].
  destruct (IH h) as [[os h'] ->]. cbn [mbind option_bind]. eauto.
Qed.

(** the labels that [forward_pass] reads *)
Lemma forward_pass_Some sentences scores labels :
  forward_pass net self sentences = Some (scores, labels) →
  labels = (λ token, get_tag token (label_type self))
             <$> concat (given_sentences sentences) ∧
  ∃ encoded longest,
    encode net self (given_sentences sentences) = Some encoded ∧
    py_max (String.length <$> labels) = Some longest ∧
    Forall2 (λ x scores_of_word,
               fst <$> decode_sequence net self x.1 x.2.1 x.2.2 = Some scores_of_word)
      (zip (padded_row self false true false (longest + 1) <$> labels) encoded)
      scores.
Proof.
  unfold forward_pass. cbv zeta. fold (given_sentences sentences).
  intros H.
  destruct (encode net self (given_sentences sentences)) as [encoded|] eqn:He; [|done].
  cbn [mbind option_bind] in H.
  set (labels' := (λ token, get_tag token (label_type self))
                    <$> concat (given_sentences sentences)) in *.
  destruct (decide (labels' = [])) as [Hnil|Hne].
  { rewrite Hnil in H. done. }
  destruct (words_to_char_indices_padded self labels' false true false None Hne)
    as (longest & Hl & Hw).
  rewrite Hw in H. cbn [mbind option_bind] in H.
  destruct (mapM _ _) as [output_vectors|] eqn:Hm; [|done].
  cbn [mbind option_bind] in H. injection H as <- <-.
  split; [done|]. exists encoded, longest. split; [done|]. split; [done|].
  apply mapM_Some in Hm. simpl in Hm.
  eapply Forall2_impl; [exact Hm|]. by intros [row [h enc]] o.
Qed.
End TrainingShapes.

Lemma lengths_uniform {A : Type} (k : nat) (l : list (list A)) :
  Forall (λ x, length x = k) l → length <$> l = replicate (length l) k.
Proof. induction 1 as [|x l Hx _ IH]; [done|]. by rewrite fmap_cons, Hx, IH. Qed.

Section TrainingLoss.
Context {tensor : Type} (net : Network tensor) (self : Lemmatizer).

Lemma forward_pass_shapes sentences scores labels :
  forward_pass net self sentences = Some (scores, labels) →
  ∃ longest,
    py_max (String.length <$> labels) = Some longest ∧
    length scores = length labels ∧
    Forall (λ scores_of_word : list (list Q), length scores_of_word = longest + 1)
      scores.
Proof.
  intros (Hlabels & encoded & longest & He & Hl & Hall)%forward_pass_Some.
  exists longest. split; [done|].
  apply encode_length in He.
  assert (Hlen : length encoded = length labels).
  { by rewrite He, Hlabels, length_fmap. }
  split.
  - apply Forall2_length in Hall. rewrite <- Hall, length_zip, length_fmap. lia.
  - apply Forall_forall. intros o [i Hi]%list_elem_of_lookup_1.
    destruct (Forall2_lookup_r _ _ _ _ _ Hall Hi) as ([row [h enc]] & Hx & Hd).
    simpl in Hd.
    destruct (decode_sequence net self row h enc) as [[os h']|] eqn:Hs; [|done].
    injection Hd as <-. rewrite (decode_sequence_length _ _ _ _ _ _ _ Hs).
    apply lookup_zip_with_Some in Hx as (row' & e & [= <- <-] & Hrow & _).
    apply list_lookup_fmap_Some in Hrow as (label & -> & Hlab).
    apply length_padded_row. simpl.
    apply py_max_spec in Hl as [_ Hmax].
    assert (String.length label ≤ longest); [|lia].
    apply Hmax, list_elem_of_fmap. exists label. split; [done|].
    by eapply list_elem_of_lookup_2.
Qed.

Lemma calculate_loss_is_Some (scores : list (list (list Q))) labels longest :
  py_max (String.length <$> labels) = Some longest →
  length scores = length labels →
  Forall (λ scores_of_word : list (list Q), length scores_of_word = longest + 1)
    scores →
  ∃ target,
    words_to_char_indices self labels true false false None = Some target ∧
    length <$> scores = length <$> target ∧
    is_Some (_calculate_loss net self scores labels).
Proof.
  intros Hl Hlen Hall.
  assert (Hne : labels ≠ []) by (by destruct labels).
  destruct (words_to_char_indices_padded self labels true false false None Hne)
    as (longest' & Hl' & Hw).
  rewrite Hl in Hl'. injection Hl' as <-.
  eexists. split; [exact Hw|].
  assert (Heq : length <$> scores
                = length <$> (padded_row self true false false
                                (default 0 None `max` (longest + (Nat.b2n true + Nat.b2n false)))
                                <$> labels)).
  { rewrite (lengths_uniform (longest + 1) scores Hall).
    rewrite (lengths_uniform (longest + 1)).
    - by rewrite length_fmap, Hlen.
    - apply Forall_forall. intros row (label & -> & Hin)%list_elem_of_fmap.
      simpl. apply length_padded_row. simpl.
      apply py_max_spec in Hl as [_ Hmax].
      assert (String.length label ≤ longest); [|lia].
      apply Hmax, list_elem_of_fmap. by exists label. }
  split; [exact Heq|].
  unfold _calculate_loss. rewrite Hw. cbn [mbind option_bind].
  rewrite decide_True by exact Heq. eauto.
Qed.

Lemma encode_outputs (batch : list Sentence) encoded :
  encode_characters self = true →
  encode net self batch = Some encoded →
  ∀ e, e ∈ encoded → is_Some e.2.
Proof.
  intros Hchars He e [i Hi]%list_elem_of_lookup_1.
  unfold encode in He. rewrite Hchars in He.
  destruct (encode_chars net self (concat batch)) as [l|]; [|done].
  cbn [mbind option_bind fmap option_fmap option_map] in He.
  apply mapM_Some in He.
  destruct (Forall2_lookup_r _ _ _ _ _ He Hi) as (j & _ & Hj).
  simpl in Hj. destruct (l !! j) as [c|]; simpl in Hj; [|done].
  destruct (if encoder_embeddings self then _ else _) as [embs|]; simpl in Hj.
  - destruct (embs !! j); simpl in Hj; [|done]. injection Hj as <-. simpl. eauto.
  - injection Hj as <-. simpl. eauto.
Qed.
End TrainingLoss.

(** X13 — for a model that uses attention only where it encodes characters,
    as the constructor makes sure, [forward_loss] returns a loss exactly for
    the batches that hold a word and that [encode] accepts; neither the
    decoder nor the loss raises.  A batch without any word raises. *)
Theorem forward_loss_is_defined {tensor : Type} (net : Network tensor)
    (self : Lemmatizer) (sentences : Sentence + list Sentence) :
  (use_attention self = true → encode_characters self = true) →
  is_Some (forward_loss net self sentences) ↔
  concat (given_sentences sentences) ≠ [] ∧
  is_Some (encode net self (given_sentences sentences)).
Proof.
  intros Hatt. split.
  - intros [loss Hloss]. unfold forward_loss in Hloss.
    destruct (forward_pass net self sentences) as [[scores labels]|] eqn:Hf; [|done].
    apply forward_pass_Some in Hf as (Hlabels & encoded & longest & He & Hl & _).
    split; [|by rewrite He].
    intros Hnil. rewrite Hlabels, Hnil in Hl. done.
  - intros [Hne [encoded He]].
    assert (Hf : is_Some (forward_pass net self sentences)).
    { unfold forward_pass. cbv zeta. fold (given_sentences sentences).
      rewrite He. cbn [mbind option_bind].
      destruct (words_to_char_indices_padded self
                  ((λ token, get_tag token (label_type self))
                     <$> concat (given_sentences sentences)) false true false None)
        as (longest & _ & ->).
      { by destruct (concat (given_sentences sentences)). }
      cbn [mbind option_bind].
      destruct (mapM _ _) as [o|] eqn:Hm; [by eauto|].
      exfalso. apply eq_None_not_Some in Hm. apply Hm.
      apply mapM_is_Some, Forall_forall. intros [row [h enc]] Hin. simpl.
      destruct (decode_sequence_is_Some net self row h enc) as [[os h'] ->]; [|by eauto].
      intros Hua. apply elem_of_zip_r in Hin.
      by apply (encode_outputs net self _ _ (Hatt Hua) He (h, enc)). }
    destruct Hf as [[scores labels] Hf]. unfold forward_loss. rewrite Hf.
    cbn [mbind option_bind].
    apply forward_pass_shapes in Hf as (longest & Hl & Hlen & Hall).
    by destruct (calculate_loss_is_Some net self scores labels longest Hl Hlen Hall)
      as (_ & _ & _ & Hs).
Qed.

Lemma forward_loss_is_defined_witness :
  (use_attention (demo_model 2 true true 3) = true
   → encode_characters (demo_model 2 true true 3) = true) ∧
  (is_Some (forward_loss (demo_network never_end) (demo_model 2 true true 3)
              (inr [[]; []])) ↔
   concat (given_sentences (inr [[]; []])) ≠ [] ∧
   is_Some (encode (demo_network never_end) (demo_model 2 true true 3)
              (given_sentences (inr [[]; []])))).
Proof.
  assert (H : use_attention (demo_model 2 true true 3) = true
              → encode_characters (demo_model 2 true true 3) = true)
    by (intros _; reflexivity).
  split; [exact H|].
  exact (forward_loss_is_defined (demo_network never_end) (demo_model 2 true true 3)
           (inr [[]; []]) H).
Defined.

(** * The length of the predicted sequences and the place of the end symbol *)

Section TokenLengths.
Context {tensor : Type} (net : Network tensor) (self : Lemmatizer).
Context (return_loss : bool).

  (** an invariant that counts the expansions *)
Lemma beam_loop_counted (I : nat → list (Candidate tensor) → list (Final Q) → Prop)
    steps enc target k sequences0 finals0 sequences finals :
  (∀ k seqs fs, I k seqs fs → I (S k) seqs fs) →
  (∀ k i seqs fs ns fs',
     I k seqs fs →
     expand net self return_loss i enc target seqs [] fs = Some (ns, fs') →
     (ns = [] → I (S k) seqs fs') ∧
     (ns ≠ [] → I (S k) (take (beam_size self) (sorted_by Qltb candidate_score ns)) fs')) →
  I k sequences0 finals0 →
  beam_loop net self return_loss steps enc target sequences0 finals0
    = Some (sequences, finals) →
  I (k + length steps) sequences finals.
Proof.
  intros Hmono Hstep. revert k sequences0 finals0.
  induction steps as [|i steps IH]; intros k seqs fs HI; simpl.
  - intros [= <- <-]. by rewrite Nat.add_0_r.
  - destruct (expand _ _ _ _ _ _ _ _ _) as [[ns fs']|] eqn:Hexp; simpl; [|done].
    destruct (Hstep _ _ _ _ _ _ HI Hexp) as [Hnil Hcons].
    replace (k + S (length steps)) with (S k + length steps) by lia.
    destruct (decide (length ns = 0)) as [Hlen|Hlen].
    + intros [= <- <-]. apply nil_length_inv in Hlen. specialize (Hnil Hlen).
      clear -Hmono Hnil. induction (length steps) as [|m IHm].
      * by rewrite Nat.add_0_r.
      * replace (S k + S m) with (S (S k + m)) by lia. by apply Hmono.
    + apply IH, Hcons. by intros ->.
Qed.

Lemma expand_counted k i enc target seqs fs ns fs' :
  counted self k seqs fs →
  expand net self return_loss i enc target seqs [] fs = Some (ns, fs') →
  (∀ c, c ∈ ns → 1 ≤ length (candidate_seq c) ≤ S k ∧
                 end_index self ∉ drop 1 (candidate_seq c)) ∧
  (∀ f, f ∈ fs' → 1 ≤ length (final_seq f) < S k ∧
                  end_index self ∉ drop 1 (final_seq f)).
Proof.
  intros [Hs Hf] [Hns Hfs]%expand_members. split.
  - intros c (h & top & hid' & nl & p & idx & Hh & _ & _ & Hne & ->)%Hns.
    destruct (Hs h Hh) as [Hlen Hend]. unfold candidate_seq at 1 3. simpl.
    rewrite length_app. simpl. split; [lia|].
    destruct (candidate_seq h) as [|x sq]; [simpl in Hlen; lia|].
    simpl in *. rewrite drop_0 in *.
    intros [?|?%list_elem_of_singleton]%elem_of_app; [done|congruence].
  - intros f [Hold|(h & top & hid' & nl & p & Hh & _ & _ & ->)]%Hfs.
    + destruct (Hf f Hold) as [Hlen Hend]. split; [lia|done].
    + destruct (Hs h Hh) as [Hlen Hend]. unfold final_seq. simpl. split; [lia|done].
Qed.

Lemma search_token_counted max_length embedding token best loss :
  search_token net self return_loss max_length embedding token = Some (best, loss) →
  1 ≤ length best ≤ 1 `max` max_length ∧ end_index self ∉ drop 1 best.
Proof.
  intros (hid & enc & target & seqs0 & seqs & fs & fs' & score & _ & _ & H0 & H1 & H2 & H3)
    %search_token_Some.
  assert (HI0 : counted self 1 seqs0 []).
  { apply first_pass_Some in H0 as (out & hid' & top & l & _ & _ & _ & ->). split.
    - intros c ([p i] & -> & _)%list_elem_of_fmap. unfold candidate_seq. simpl.
      split; [lia|]. apply not_elem_of_nil.
    - intros f Hf. by apply elem_of_nil in Hf. }
  assert (HI : counted self (1 + length (seq 1 (max_length - 1))) seqs fs).
  { eapply (beam_loop_counted (counted self)); [| |exact HI0|exact H1].
    - intros k s f [Hs Hf]. split.
      + intros c Hc. destruct (Hs c Hc). split; [lia|done].
      + intros x Hx. destruct (Hf x Hx). split; [lia|done].
    - intros k i s f ns f' Hc Hexp.
      destruct (expand_counted _ _ _ _ _ _ _ _ Hc Hexp) as [Hns Hfs].
      destruct Hc as [Hs _]. split.
      + intros _. split; [|done]. intros c Hc. destruct (Hs c Hc). split; [lia|done].
      + intros _. split; [|done]. intros c Hc. apply Hns.
        apply subseteq_take in Hc. unfold sorted_by in Hc.
        by rewrite sorted_desc_perm in Hc by apply _. }
  rewrite length_seq in HI. destruct HI as [Hs Hf].
  assert (Hin : (best, score, loss) ∈ fs').
  { apply list_elem_of_lookup_2 in H3. unfold sorted_by in H3.
    by rewrite sorted_desc_perm in H3 by apply _. }
  apply without_end_Some in H2 as [[_ ->]|(-> & sq & h & sc & l & Hsq & ->)].
  - destruct (Hf _ Hin) as [Hlen Hend]. unfold final_seq in *. simpl in *.
    split; [lia|done].
  - apply list_elem_of_singleton in Hin. injection Hin as -> _ _.
    apply list_elem_of_lookup_2 in Hsq. destruct (Hs _ Hsq) as [Hlen Hend].
    unfold candidate_seq in *. simpl in *. split; [lia|done].
Qed.
End TokenLengths.

Section BatchLengths.
Context {tensor : Type} (net : Network tensor) (self : Lemmatizer).
Context (return_loss : bool).

  (** where the sequences of an expanded state come from *)
Lemma expand_batch_members m encs target j (st st' : Beam tensor) :
  expand_batch net self return_loss m encs target j st = Some st' →
  (∀ sq', sq' ∈ sequences st' →
     ∃ sq c, sq' = sq ++ [c] ∧ sq ∈ sequences st ∧ c ∈ leading_indices st') ∧
  (∀ l f, l ∈ final_candidates st' → f ∈ l →
     (∃ l0, l0 ∈ final_candidates st ∧ f ∈ l0) ∨ final_seq f ∈ sequences st).
Proof.
  intros Hexp.
  apply expand_batch_Some in Hexp
    as (decoded & top & fs' & lps' & bn & sn & olds & chars & oscores & steps
        & hids & losses' & Hdr & Ht & Hsa & _ & Ho & Hc & _ & _ & _ & _ & ->).
  simpl. split.
  - intros sq' (o & c & -> & Ho1 & Hc1)%elem_of_zip_with.
    exists o, c. split; [done|]. split; [|done].
    apply gather_Some in Ho.
    apply list_elem_of_lookup_1 in Ho1 as [k1 Hk1].
    destruct (Forall2_lookup_r _ _ _ _ _ Ho Hk1) as (b & _ & Hb).
    by eapply list_elem_of_lookup_2.
  - intros l f [t Hl]%list_elem_of_lookup_1 Hin.
    destruct (set_aside_all_spec _ _ _ _ _ _ _ _ _ _ _ _ (NoDup_nonzero _ _) Hsa)
      as (_ & _ & Hfs).
    specialize (Hfs t f). rewrite Hl in Hfs. simpl in Hfs.
    apply Hfs in Hin as [Hin|(r & c & _ & _ & He)].
    + destruct (final_candidates st !! t) as [old|] eqn:Hold; simpl in Hin;
        [|by apply elem_of_nil in Hin].
      left. exists old. split; [by eapply list_elem_of_lookup_2|done].
    + right. unfold finished_entry in He.
      destruct (sequences st !! r) as [sq|] eqn:Hsq; simpl in He; [|done].
      destruct (scores st !! r); simpl in He; [|done].
      destruct (entry _ r c); simpl in He; [|done].
      destruct (if return_loss then _ else _); simpl in He; [|done].
      injection He as <-. unfold final_seq. simpl.
      by eapply list_elem_of_lookup_2.
Qed.

Lemma fill_unfinished_members max_length m (st : Beam tensor) fc :
  fill_unfinished self return_loss max_length m st = Some fc →
  ∀ l f, l ∈ fc → f ∈ l →
    (∃ l0, l0 ∈ final_candidates st ∧ f ∈ l0) ∨ final_seq f ∈ sequences st.
Proof.
  unfold fill_unfinished.
  destruct (mapM (topk score_ltb 1) _) as [best|]; simpl; [|done].
  intros Hm%mapM_Some l f [t Hl]%list_elem_of_lookup_1 Hin.
  destruct (Forall2_lookup_r _ _ _ _ _ Hm Hl) as ([j row] & _ & Hr).
  simpl in Hr.
  destruct (row !! 0) as [[score index]|]; simpl in Hr; [|done].
  destruct (final_candidates st !! j) as [old|] eqn:Hold; simpl in Hr; [|done].
  apply list_elem_of_lookup_2 in Hold.
  destruct (decide (length old = 0)).
  - destruct (if return_loss then _ else _); simpl in Hr; [|done].
    destruct (sequences st !! _) as [sq|] eqn:Hsq; simpl in Hr; [|done].
    injection Hr as <-.
    apply elem_of_app in Hin as [Hin|Hin]; [left; by exists old|].
    apply list_elem_of_singleton in Hin as ->. right.
    unfold final_seq. simpl. by eapply list_elem_of_lookup_2.
  - injection Hr as <-. left. by exists old.
Qed.

Lemma first_step_single encoded target (st : Beam tensor) :
  first_step net self return_loss encoded target = Some st →
  (∀ sq, sq ∈ sequences st → length sq = 1) ∧
  (∀ l f, l ∈ final_candidates st → f ∈ l → False).
Proof.
  intros (rows & _ & Hs & _ & _ & _ & Hf)%first_step_Some. split.
  - intros sq. rewrite Hs. intros (r & Hin & _)%list_elem_of_bind.
    by apply list_elem_of_fmap in Hin as ([p i] & -> & _).
  - intros l f. rewrite Hf. intros [-> _]%elem_of_replicate. by intros ?%elem_of_nil.
Qed.

Lemma expand_loop_counted (I : nat → Beam tensor → Prop) m encs target steps k st st' :
  (∀ k j st st', I k st →
     expand_batch net self return_loss m encs target j st = Some st' → I (S k) st') →
  I k st →
  expand_loop net self return_loss m encs target steps st = Some st' →
  I (k + length steps) st'.
Proof.
  intros Hstep. revert k st. induction steps as [|j steps IH]; intros k st HI; simpl.
  - intros [= <-]. by rewrite Nat.add_0_r.
  - destruct (expand_batch _ _ _ _ _ _ _ _) as [st1|] eqn:He; simpl; [|done].
    replace (k + S (length steps)) with (S k + length steps) by lia.
    apply IH. by eapply Hstep.
Qed.

Lemma search_batch_lengths max_length (batch : list Sentence) outs o :
  search_batch net self return_loss max_length batch = Some outs →
  o ∈ outs → 1 ≤ length o.1 ≤ 1 `max` max_length.
Proof.
  intros (encoded & target & st0 & st & fc & _ & _ & H0 & H1 & H2 & H3)
    %search_batch_Some Ho.
  apply first_step_single in H0 as [Hs0 Hf0].
  set (I := λ (k : nat) (s : Beam tensor),
         (∀ sq, sq ∈ sequences s → 1 ≤ length sq ≤ k) ∧
         (∀ l f, l ∈ final_candidates s → f ∈ l → 1 ≤ length (final_seq f) < k)).
  assert (HI : I (1 + length (seq 1 (max_length - 1))) st).
  { eapply (expand_loop_counted I); [| |exact H1].
    - intros k j s s' [Hs Hf] [Hs' Hf']%expand_batch_members. split.
      + intros sq' (sq & c & -> & Hsq & _)%Hs'. specialize (Hs sq Hsq).
        rewrite length_app. simpl. lia.
      + intros l f Hl Hin.
        destruct (Hf' l f Hl Hin) as [(l0 & Hl0 & Hin0)|Hsq].
        * specialize (Hf l0 f Hl0 Hin0). lia.
        * specialize (Hs _ Hsq). lia.
    - split.
      + intros sq Hsq. rewrite (Hs0 sq Hsq). lia.
      + intros l f Hl Hin. by destruct (Hf0 l f Hl Hin). }
  rewrite length_seq in HI. destruct HI as [Hs Hf].
  apply list_elem_of_lookup_1 in Ho as [k Hk].
  destruct (Forall2_lookup_r _ _ _ _ _ H3 Hk) as (l & Hl & score & Hsort).
  apply list_elem_of_lookup_2 in Hsort. unfold sorted_by in Hsort.
  rewrite sorted_desc_perm in Hsort by apply _.
  apply list_elem_of_lookup_2 in Hl.
  destruct (fill_unfinished_members _ _ _ _ H2 l _ Hl Hsort) as [(l0 & Hl0 & Hin0)|Hsq].
  - specialize (Hf l0 _ Hl0 Hin0). unfold final_seq in Hf. simpl in Hf. lia.
  - specialize (Hs _ Hsq). unfold final_seq in Hs. simpl in Hs. lia.
Qed.
End BatchLengths.

Section BatchEndSymbol.
Context {tensor : Type} (net : Network tensor) (self : Lemmatizer).
Context (return_loss : bool).
Context (Hbeam : 2 ≤ beam_size self).

Lemma search_batch_end_symbol max_length (batch : list Sentence) outs o :
  search_batch net self return_loss max_length batch = Some outs →
  o ∈ outs → end_index self ∉ drop 1 o.1.
Proof.
  intros (encoded & target & st0 & st & fc & He & _ & H0 & H1 & H2 & H3)
    %search_batch_Some Ho.
  apply encode_length in He.
  set (m := length (concat batch)) in *.
  set (I := λ s : Beam tensor,
         shaped self m s ∧ finite_scores s ∧
         (∀ sq, sq ∈ sequences s → sq ≠ [] ∧ end_index self ∉ drop 1 sq) ∧
         (∀ l f, l ∈ final_candidates s → f ∈ l →
                 end_index self ∉ drop 1 (final_seq f))).
  assert (HI : I st).
  { eapply (expand_loop_inv net self return_loss I); [| |exact H1].
    - intros j s s' (Hsh & Hfin & Hs & Hf) Hexp.
      destruct (expand_batch_inv net self return_loss m
                  (batched_encoding_output self encoded) target j s s' Hbeam Hsh)
        as (Hsh' & Hfin' & Hend); [|done|done|].
      { by rewrite batched_encoding_output_length, He. }
      apply expand_batch_members in Hexp as [Hs' Hf'].
      split; [done|]. split; [done|]. split.
      + intros sq' (sq & c & -> & Hsq & Hc)%Hs'.
        destruct (Hs sq Hsq) as [Hne Hd]. split; [by destruct sq|].
        destruct sq as [|x sq]; [done|]. simpl in *. rewrite drop_0 in *.
        intros [?|Heq%list_elem_of_singleton]%elem_of_app; [done|].
        by rewrite <- Heq in Hc.
      + intros l f Hl Hin.
        destruct (Hf' l f Hl Hin) as [(l0 & Hl0 & Hin0)|Hsq].
        * by eapply Hf.
        * by destruct (Hs _ Hsq).
    - destruct (first_step_shaped net self return_loss _ _ _ H0) as [Hsh Hfin].
      rewrite He in Hsh.
      apply first_step_single in H0 as [Hs0 Hf0].
      split; [done|]. split; [done|]. split.
      + intros sq Hsq. specialize (Hs0 sq Hsq).
        destruct sq as [|x [|y sq]]; [done| |done].
        split; [done|]. apply not_elem_of_nil.
      + intros l f Hl Hin. by destruct (Hf0 l f Hl Hin). }
  destruct HI as (_ & _ & Hs & Hf).
  apply list_elem_of_lookup_1 in Ho as [k Hk].
  destruct (Forall2_lookup_r _ _ _ _ _ H3 Hk) as (l & Hl & score & Hsort).
  apply list_elem_of_lookup_2 in Hsort. unfold sorted_by in Hsort.
  rewrite sorted_desc_perm in Hsort by apply _.
  apply list_elem_of_lookup_2 in Hl.
  destruct (fill_unfinished_members self return_loss _ _ _ _ H2 l _ Hl Hsort)
    as [(l0 & Hl0 & Hin0)|Hsq].
  - by apply (Hf l0 _ Hl0 Hin0).
  - by destruct (Hs _ Hsq).
Qed.
End BatchEndSymbol.

(** * The choice among the finished hypotheses *)

(** the head of a list sorted by [sorted_desc] is its first greatest
    element *)
Lemma sorted_head_first_max {A : Type} (ltb : A → A → bool) `{!DescOrder ltb}
    (l : list A) (x : A) :
  sorted_desc ltb l !! 0 = Some x →
  ∃ i, l !! i = Some x ∧
       (∀ y, y ∈ l → ltb x y = false) ∧
       (∀ j y, j < i → l !! j = Some y → ltb y x = true).
Proof.
  revert x. induction l as [|y l IH]; intros x; [done|].
  rewrite <- head_lookup. cbn [sorted_desc foldr]. rewrite head_insert_desc.
  fold (sorted_desc ltb l). rewrite head_lookup.
  destruct (sorted_desc ltb l !! 0) as [z|] eqn:Hz.
  - destruct (IH z eq_refl) as (i & Hi & Hall & Hbefore).
    destruct (ltb y z) eqn:Hyz; intros [= <-].
    + exists (S i). split; [done|]. split.
      * intros y' [-> |Hy']%elem_of_cons; [by apply ltb_asym|by apply Hall].
      * intros [|j] y' Hj Hy'; simpl in Hy'.
        -- by injection Hy' as <-.
        -- apply (Hbefore j); [lia|done].
    + exists 0. split; [done|]. split.
      * intros y' [-> |Hy']%elem_of_cons; [apply not_below_refl; apply _|].
        eapply geb_trans; [exact Hyz|by apply Hall].
      * intros j y' Hj. lia.
  - intros [= <-]. exists 0. split; [done|].
    assert (l = []) as ->.
    { apply nil_length_inv. rewrite <- (sorted_desc_length ltb).
      by destruct (sorted_desc ltb l). }
    split.
    + intros y' ->%list_elem_of_singleton. apply not_below_refl. apply _.
    + intros j y' Hj. lia.
Qed.


(** * Calling [predict] again *)

Lemma remove_labels_tagged label_name lemma token :
  remove_labels (tagged label_name lemma token) label_name
  = remove_labels token label_name.
Proof.
  unfold tagged, add_tag, remove_labels. simpl. f_equal.
  by rewrite delete_insert_eq, delete_delete_eq.
Qed.

Lemma mapM_Forall2_ext {A B C : Type} (f : A → option C) (g : B → option C)
    (l : list A) (k : list B) :
  Forall2 (λ a b, f a = g b) l k → mapM f l = mapM g k.
Proof.
  induction 1 as [|a b l k Hab _ IH]; [done|]. simpl. by rewrite Hab, IH.
Qed.

(** sentences that are the same once the labels of [label_name] are gone *)
Lemma stripped_Forall2 label_name (l1 l2 : list Sentence) :
  stripped label_name l1 = stripped label_name l2 ↔
  Forall2 (λ s1 s2 : Sentence,
             (λ token, remove_labels token label_name) <$> s1
             = (λ token, remove_labels token label_name) <$> s2) l1 l2.
Proof.
  unfold stripped. split.
  - revert l2. induction l1 as [|s1 l1 IH]; intros [|s2 l2] H; try done.
    rewrite !fmap_cons in H. injection H as H1 H2.
    constructor; [done|by apply IH].
  - induction 1 as [|s1 s2 l1 l2 H _ IH]; [done|].
    rewrite !fmap_cons. by rewrite H, IH.
Qed.

Lemma stripped_length label_name (s1 s2 : Sentence) :
  (λ token, remove_labels token label_name) <$> s1
  = (λ token, remove_labels token label_name) <$> s2 →
  length s1 = length s2.
Proof. intros H. apply (f_equal length) in H. by rewrite !length_fmap in H. Qed.

Lemma stripped_text label_name (s1 s2 : Sentence) :
  (λ token, remove_labels token label_name) <$> s1
  = (λ token, remove_labels token label_name) <$> s2 →
  text <$> s1 = text <$> s2.
Proof.
  intros H. apply (f_equal (fmap text)) in H.
  by rewrite <- !list_fmap_compose in H.
Qed.

Lemma stripped_filter label_name (l1 l2 : list Sentence) :
  stripped label_name l1 = stripped label_name l2 →
  stripped label_name (filter (λ s : Sentence, 0 < length s) l1)
  = stripped label_name (filter (λ s : Sentence, 0 < length s) l2).
Proof.
  rewrite !stripped_Forall2.
  induction 1 as [|s1 s2 l1 l2 H _ IH]; [done|].
  rewrite !filter_cons. rewrite (stripped_length _ _ _ H).
  case_decide; [by constructor|done].
Qed.

Lemma stripped_batches label_name fuel batch_size (l1 l2 : list Sentence) :
  stripped label_name l1 = stripped label_name l2 →
  Forall2 (λ b1 b2, stripped label_name b1 = stripped label_name b2)
    (batches_of fuel batch_size l1) (batches_of fuel batch_size l2).
Proof.
  revert l1 l2. induction fuel as [|fuel IH]; intros l1 l2 H; [constructor|].
  destruct l1 as [|s1 l1], l2 as [|s2 l2]; try done; try (by constructor).
  cbn [batches_of]. constructor.
  - unfold stripped in *. rewrite !fmap_take. by rewrite H.
  - apply IH. unfold stripped in *. rewrite !fmap_drop. by rewrite H.
Qed.

Section Again.
Context {tensor : Type} (net : Network tensor) (self : Lemmatizer).
Context (label_name : string) (return_loss : bool).

Lemma max_length_of_stripped (l1 l2 : list Sentence) :
  stripped label_name l1 = stripped label_name l2 →
  max_length_of self l1 = max_length_of self l2.
Proof.
  intros H. unfold max_length_of. destruct (dependent_on_input self); [|done].
  f_equal.
  assert (Ht : text <$> concat l1 = text <$> concat l2).
  { apply stripped_Forall2 in H. induction H as [|s1 s2 l1 l2 H _ IH]; [done|].
    simpl. rewrite !fmap_app. by rewrite IH, (stripped_text _ _ _ H). }
  apply (f_equal (fmap (λ s, String.length s + 1))) in Ht.
  by rewrite <- !list_fmap_compose in Ht.
Qed.

Lemma predict_batch_stripped max_length (b1 b2 : list Sentence) :
  stripped label_name b1 = stripped label_name b2 →
  predict_batch net self label_name return_loss max_length b1
  = predict_batch net self label_name return_loss max_length b2.
Proof.
  intros H. unfold predict_batch. cbv zeta. unfold stripped, Sentence in *.
  by rewrite H.
Qed.

Lemma predict_sentence_stripped max_length (s1 s2 : Sentence) :
  (λ token, remove_labels token label_name) <$> s1
  = (λ token, remove_labels token label_name) <$> s2 →
  predict_sentence net self label_name return_loss max_length s1
  = predict_sentence net self label_name return_loss max_length s2.
Proof.
  intros H. unfold predict_sentence. cbv zeta. rewrite (stripped_text _ _ _ H).
  generalize (embed net (text <$> s2)). intros embeddings.
  apply mapM_Forall2_ext.
  assert (HF : Forall2 (λ t1 t2, remove_labels t1 label_name
                                 = remove_labels t2 label_name) s1 s2).
  { clear -H. revert s2 H. induction s1 as [|t1 s1 IH]; intros [|t2 s2] H; try done.
    rewrite !fmap_cons in H. injection H as H1 H2. constructor; [|by apply IH].
    unfold remove_labels. by rewrite H1, H2. }
  apply Forall2_same_length_lookup_2.
  { rewrite !length_imap. by eapply Forall2_length. }
  intros i [j t1] [j' t2] H1 H2.
  rewrite list_lookup_imap in H1, H2.
  apply fmap_Some in H1 as (x1 & Hx1 & [= -> ->]).
  apply fmap_Some in H2 as (x2 & Hx2 & [= -> ->]).
  unfold predict_token. cbv zeta.
  by rewrite (Forall2_lookup_lr _ _ _ _ _ _ HF Hx1 Hx2).
Qed.

Lemma predict_batch_tokens_stripped max_length (b1 b2 : list Sentence) :
  stripped label_name b1 = stripped label_name b2 →
  predict_batch_tokens net self label_name return_loss max_length b1
  = predict_batch_tokens net self label_name return_loss max_length b2.
Proof.
  intros H%stripped_Forall2. unfold predict_batch_tokens.
  rewrite (mapM_Forall2_ext _ (predict_sentence net self label_name return_loss
                                 max_length) b1 b2); [done|].
  eapply Forall2_impl; [exact H|]. intros s1 s2 Hs.
  by apply predict_sentence_stripped.
Qed.
End Again.

Lemma predict_unfold {tensor : Type} (net : Network tensor) self sentences label_name
    mini_batch_size return_loss :
  predict net self sentences label_name mini_batch_size return_loss =
    let self' :=
      if decide (beam_size self = 1) then set_batching_in_rnn false self else self in
    let given := given_sentences sentences in
    let nonempty := filter (λ sentence : Sentence, 0 < length sentence) given in
    (self',
     if decide (length nonempty = 0) then Some (given, RetSentences nonempty)
     else
       max_length ← max_length_of self' nonempty;
       dataloader ← data_loader mini_batch_size nonempty;
       results ←
         mapM (if batching_in_rnn self'
               then predict_batch net self' label_name return_loss max_length
               else predict_batch_tokens net self' label_name return_loss max_length)
              dataloader;
       Some (scatter given (concat ((λ r : list Sentence * Q * nat, r.1.1) <$> results)),
             if return_loss
             then RetLoss (Qsum ((λ r : list Sentence * Q * nat, r.1.2) <$> results))
                    (sum_list ((λ r : list Sentence * Q * nat, r.2) <$> results))
             else RetNone)).
Proof. reflexivity. Qed.

Lemma scatter_again (given annotated : list Sentence) :
  Forall2 (λ s a : Sentence, length a = length s)
    (filter (λ s : Sentence, 0 < length s) given) annotated →
  scatter (scatter given annotated) annotated = scatter given annotated.
Proof.
  revert annotated. induction given as [|s given IH]; intros annotated H; [done|].
  rewrite filter_cons in H. cbn [scatter]. destruct (decide (0 < length s)) as [Hs|Hs].
  - destruct annotated as [|a annotated]; [by apply Forall2_nil_inv_r in H|].
    apply Forall2_cons_1 in H as [Ha H]. cbn [scatter].
    rewrite decide_True by lia. f_equal. by apply IH.
  - cbn [scatter]. rewrite decide_False by done. f_equal. by apply IH.
Qed.

Lemma annotated_stripped label_name (s s' : Sentence) :
  annotated label_name s s' →
  (λ token, remove_labels token label_name) <$> s'
  = (λ token, remove_labels token label_name) <$> s.
Proof.
  induction 1 as [|t t' s s' [lemma ->] _ IH]; [done|].
  rewrite !fmap_cons. by rewrite remove_labels_tagged, IH.
Qed.

Section AgainWhole.
Context {tensor : Type} (net : Network tensor).

  (** the batches of a call and what they become *)
Lemma predict_results self sentences label_name mini_batch_size return_loss store ret :
  (predict net self sentences label_name mini_batch_size return_loss).2
    = Some (store, ret) →
  let self' := (predict net self sentences label_name mini_batch_size return_loss).1 in
  let given := given_sentences sentences in
  let nonempty := filter (λ s : Sentence, 0 < length s) given in
  nonempty ≠ [] →
  ∃ max_length (results : list (list Sentence * Q * nat)),
    max_length_of self' nonempty = Some max_length ∧
    mini_batch_size ≠ 0 ∧
    mapM (if batching_in_rnn self'
          then predict_batch net self' label_name return_loss max_length
          else predict_batch_tokens net self' label_name return_loss max_length)
      (batches_of (length nonempty) mini_batch_size nonempty) = Some results ∧
    Forall2 (annotated label_name) nonempty
      (concat ((λ r : list Sentence * Q * nat, r.1.1) <$> results)) ∧
    store = scatter given (concat ((λ r : list Sentence * Q * nat, r.1.1) <$> results)) ∧
    ret = if return_loss
          then RetLoss (Qsum ((λ r : list Sentence * Q * nat, r.1.2) <$> results))
                       (sum_list ((λ r : list Sentence * Q * nat, r.2) <$> results))
          else RetNone.
Proof.
  intros H self' given nonempty Hne.
  apply predict_Some in H
    as [(Hn & _)|(_ & ml & batches & results & Hml & Hdl & Hres & -> & ->)]; [done|].
  exists ml, results. fold self' given nonempty in Hml, Hdl, Hres |- *.
  split; [done|].
  pose proof (data_loader_concat _ _ _ Hdl) as Hcat.
  unfold data_loader in Hdl. destruct (decide (mini_batch_size = 0)); [done|].
  injection Hdl as <-. split; [done|]. split; [by apply mapM_Some|].
  split; [|done]. rewrite <- Hcat.
  apply Forall2_concat, Forall2_fmap_r.
  eapply Forall2_impl; [exact Hres|]. intros b [[res loss] cnt] Hb. simpl.
  destruct (batching_in_rnn self').
  - by eapply predict_batch_annotated.
  - by eapply predict_batch_tokens_annotated.
Qed.
End AgainWhole.

(** X15 — calling [predict] a second time on the sentences it has annotated
    changes nothing: the labels of the first call are replaced, not added
    to, every word gets the same lemma again, and the same value is
    returned. *)
Theorem predict_again_changes_nothing {tensor : Type} (net : Network tensor)
    (self self' : Lemmatizer) (sentences : Sentence + list Sentence)
    (label_name : string) (mini_batch_size : nat) (return_loss : bool)
    (store : list Sentence) (ret : Returned) :
  predict net self sentences label_name mini_batch_size return_loss
    = (self', Some (store, ret)) →
  predict net self' (inr store) label_name mini_batch_size return_loss
    = (self', Some (store, ret)).
Proof.
  intros H.
  assert (Hself : self' = if decide (beam_size self = 1)
                          then set_batching_in_rnn false self else self).
  { apply (f_equal fst) in H. by rewrite predict_model in H. }
  assert (Hsame : (if decide (beam_size self' = 1)
                   then set_batching_in_rnn false self' else self') = self').
  { rewrite Hself. case_decide as Hb.
    - by rewrite decide_True by done.
    - by rewrite decide_False by done. }
  assert (H2 : (predict net self sentences label_name mini_batch_size return_loss).2
               = Some (store, ret)) by (by rewrite H).
  assert (H1 : (predict net self sentences label_name mini_batch_size return_loss).1
               = self') by (by rewrite H).
  rewrite predict_unfold. cbv zeta. rewrite Hsame. f_equal.
  set (given := given_sentences sentences) in *.
  destruct (decide (filter (λ s : Sentence, 0 < length s) given = [])) as [Hnil|Hne].
  - apply predict_Some in H2 as [(_ & -> & ->)|(Hn & _)]; [|done].
    fold given. cbn [given_sentences]. rewrite Hnil. done.
  - destruct (predict_results net _ _ _ _ _ _ _ H2 Hne)
      as (ml & results & Hml & Hmbs & Hres & Hann & Hstore & Hret).
    rewrite H1 in Hml, Hres. fold given in Hml, Hres, Hann, Hstore.
    set (ann := concat ((λ r : list Sentence * Q * nat, r.1.1) <$> results)) in *.
    assert (Hlen : Forall2 (λ s a : Sentence, length a = length s)
                     (filter (λ s : Sentence, 0 < length s) given) ann).
    { eapply Forall2_impl; [exact Hann|]. intros s a Ha.
      symmetry. by eapply Forall2_length. }
    assert (Hst : stripped label_name store = stripped label_name given).
    { rewrite Hstore. apply stripped_Forall2.
      pose proof (scatter_spec (annotated label_name) given ann Hann) as Hsc.
      apply Forall2_flip. eapply Forall2_impl; [exact Hsc|].
      intros s s' Hs. simpl in Hs. case_decide.
      - by apply annotated_stripped.
      - by rewrite Hs. }
    cbn [given_sentences].
    pose proof (stripped_filter _ _ _ Hst) as Hfilter.
    set (ne2 := filter (λ s : Sentence, 0 < length s) store) in *.
    set (ne := filter (λ s : Sentence, 0 < length s) given) in *.
    assert (Hlen2 : length ne2 = length ne).
    { apply (f_equal length) in Hfilter. unfold stripped in Hfilter.
      by rewrite !length_fmap in Hfilter. }
    rewrite decide_False by (rewrite Hlen2; by destruct ne).
    rewrite (max_length_of_stripped self' label_name ne2 ne Hfilter), Hml.
    cbn [mbind option_bind].
    unfold data_loader. rewrite decide_False by done. cbn [mbind option_bind].
    assert (Hm : mapM (if batching_in_rnn self'
                       then predict_batch net self' label_name return_loss ml
                       else predict_batch_tokens net self' label_name return_loss ml)
                   (batches_of (length ne2) mini_batch_size ne2) = Some results).
    { rewrite Hlen2, <- Hres. apply mapM_Forall2_ext.
      eapply Forall2_impl; [apply (stripped_batches label_name), Hfilter|].
      intros b1 b2 Hb. simpl in Hb. destruct (batching_in_rnn self').
      + by apply predict_batch_stripped.
      + by apply predict_batch_tokens_stripped. }
    rewrite Hm. cbn [mbind option_bind]. rewrite Hret. do 2 f_equal.
    fold ann. rewrite Hstore. by apply scatter_again.
Qed.

Lemma predict_again_changes_nothing_witness :
  predict (demo_network end_after_a) (demo_model 2 true true 3)
    (inr [[word "ab"]; []; [word "b"]]) "predicted" 16 false
  = (demo_model 2 true true 3,
     Some ([[tagged "predicted" "a" (word "ab")]; [];
            [tagged "predicted" "a" (word "b")]], RetNone)) ∧
  predict (demo_network end_after_a) (demo_model 2 true true 3)
    (inr [[tagged "predicted" "a" (word "ab")]; [];
          [tagged "predicted" "a" (word "b")]]) "predicted" 16 false
  = (demo_model 2 true true 3,
     Some ([[tagged "predicted" "a" (word "ab")]; [];
            [tagged "predicted" "a" (word "b")]], RetNone)).
Proof.
  assert (H : predict (demo_network end_after_a) (demo_model 2 true true 3)
                (inr [[word "ab"]; []; [word "b"]]) "predicted" 16 false
              = (demo_model 2 true true 3,
                 Some ([[tagged "predicted" "a" (word "ab")]; [];
                        [tagged "predicted" "a" (word "b")]], RetNone)))
    by (vm_compute; reflexivity).
  split; [exact H|].
  exact (predict_again_changes_nothing _ _ _ _ _ _ _ _ _ H).
Defined.

(** * The size of the batches *)

Lemma mapM_app' {A B : Type} (f : A → option B) (l1 l2 : list A) :
  mapM f (l1 ++ l2) = x ← mapM f l1; y ← mapM f l2; Some (x ++ y).
Proof.
  induction l1 as [|a l1 IH]; simpl.
  - by destruct (mapM f l2).
  - destruct (f a) as [b|]; simpl; [|done]. rewrite IH.
    destruct (mapM f l1) as [x|]; simpl; [|done].
    by destruct (mapM f l2).
Qed.

Section BatchSize.
Context {tensor : Type} (net : Network tensor) (self : Lemmatizer).
Context (label_name : string) (return_loss : bool) (max_length : nat).

  (** the sentences of all batches, predicted word by word *)
Lemma predict_batch_tokens_concat (batches : list (list Sentence)) :
  (λ results : list (list Sentence * Q * nat),
     concat ((λ r : list Sentence * Q * nat, r.1.1) <$> results))
    <$> mapM (predict_batch_tokens net self label_name return_loss max_length) batches
  = (λ rs : list (list (Token * Q)), (λ r : list (Token * Q), r.*1) <$> rs)
      <$> mapM (predict_sentence net self label_name return_loss max_length)
            (concat batches).
Proof.
  induction batches as [|b batches IH]; [done|].
  cbn [concat]. rewrite mapM_app'. cbn [mapM].
  destruct (predict_batch_tokens net self label_name return_loss max_length b)
    as [[[res loss] cnt]|] eqn:Hb; unfold predict_batch_tokens in Hb;
    destruct (mapM (predict_sentence net self label_name return_loss max_length) b)
      as [rs|]; cbn [mbind option_bind] in Hb; try done;
    cbn [mbind option_bind fmap option_fmap option_map]; try done.
  injection Hb as <- _ _.
  destruct (mapM (predict_batch_tokens net self label_name return_loss max_length)
              batches) as [results|];
    destruct (mapM (predict_sentence net self label_name return_loss max_length)
                (concat batches)) as [rs'|];
    cbn [mbind option_bind mret option_ret fmap option_fmap option_map] in IH |- *;
    try done.
  injection IH as IH. f_equal. rewrite fmap_cons. cbn [concat fst].
  rewrite IH. by rewrite fmap_app.
Qed.
End BatchSize.

(** X16 — word by word, the lemmas do not depend on the size of the batches:
    with batching off, or with one hypothesis, two calls that differ in
    [mini_batch_size] leave the same sentences behind, or raise both. *)
Theorem word_by_word_ignores_the_batch_size {tensor : Type} (net : Network tensor)
    (self : Lemmatizer) (sentences : Sentence + list Sentence) (label_name : string)
    (size1 size2 : nat) (return_loss : bool) :
  batching_in_rnn self = false ∨ beam_size self = 1 →
  size1 ≠ 0 → size2 ≠ 0 →
  fst <$> (predict net self sentences label_name size1 return_loss).2
  = fst <$> (predict net self sentences label_name size2 return_loss).2.
Proof.
  intros Hmode H1 H2. rewrite !predict_unfold. cbv zeta. cbn [snd].
  set (self' := if decide (beam_size self = 1)
                then set_batching_in_rnn false self else self).
  assert (Hb : batching_in_rnn self' = false).
  { unfold self'. case_decide; [done|]. by destruct Hmode. }
  rewrite Hb.
  set (given := given_sentences sentences).
  set (ne := filter (λ s : Sentence, 0 < length s) given).
  case_decide; [done|].
  destruct (max_length_of self' ne) as [ml|]; [|done].
  cbn [mbind option_bind]. unfold data_loader.
  rewrite !decide_False by done. cbn [mbind option_bind].
  pose proof (predict_batch_tokens_concat net self' label_name return_loss ml
                (batches_of (length ne) size1 ne)) as E1.
  pose proof (predict_batch_tokens_concat net self' label_name return_loss ml
                (batches_of (length ne) size2 ne)) as E2.
  rewrite concat_batches_of in E1 by lia.
  rewrite concat_batches_of in E2 by lia.
  rewrite <- E2 in E1. clear E2.
  destruct (mapM _ (batches_of (length ne) size1 ne)) as [r1|];
    destruct (mapM _ (batches_of (length ne) size2 ne)) as [r2|];
    cbn [fmap option_fmap option_map] in E1; try done.
  injection E1 as E1. cbn [mbind option_bind fmap option_fmap option_map fst].
  do 2 f_equal. exact E1.
Qed.

Lemma word_by_word_ignores_the_batch_size_witness :
  (batching_in_rnn (demo_model 2 false true 3) = false
   ∨ beam_size (demo_model 2 false true 3) = 1) ∧
  1 ≠ 0 ∧ 16 ≠ 0 ∧
  fst <$> (predict (demo_network end_after_a) (demo_model 2 false true 3)
             (inr [[word "ab"]; []; [word "b"]]) "predicted" 1 false).2
  = fst <$> (predict (demo_network end_after_a) (demo_model 2 false true 3)
               (inr [[word "ab"]; []; [word "b"]]) "predicted" 16 false).2.
Proof.
  assert (H0 : batching_in_rnn (demo_model 2 false true 3) = false
               ∨ beam_size (demo_model 2 false true 3) = 1) by (left; reflexivity).
  assert (H1 : 1 ≠ 0) by lia.
  assert (H2 : 16 ≠ 0) by lia.
  split; [exact H0|]. split; [exact H1|]. split; [exact H2|].
  exact (word_by_word_ignores_the_batch_size (demo_network end_after_a)
           (demo_model 2 false true 3) (inr [[word "ab"]; []; [word "b"]])
           "predicted" 1 16 false H0 H1 H2).
Defined.

(** * The lemmas that [predict] writes *)

Lemma scatter_elem (given annotated : list Sentence) (s' : Sentence) :
  Forall2 (λ s a : Sentence, length a = length s)
    (filter (λ s : Sentence, 0 < length s) given) annotated →
  s' ∈ scatter given annotated → s' ≠ [] → s' ∈ annotated.
Proof.
  revert annotated. induction given as [|s given IH]; intros annotated H Hin Hne.
  { by apply elem_of_nil in Hin. }
  rewrite filter_cons in H. cbn [scatter] in Hin.
  destruct (decide (0 < length s)) as [Hs|Hs].
  - destruct annotated as [|a annotated]; [by apply Forall2_nil_inv_r in H|].
    apply Forall2_cons_1 in H as [Ha H].
    apply elem_of_cons in Hin as [-> |Hin]; [by left|].
    right. by apply IH.
  - apply elem_of_cons in Hin as [-> |Hin]; [|by apply IH].
    destruct s; [done|simpl in Hs; lia].
Qed.

Section Written.
Context {tensor : Type} (net : Network tensor) (self : Lemmatizer).
Context (label_name : string) (return_loss : bool) (max_length : nat).

Lemma predict_batch_tokens_written (batch : list Sentence) res loss cnt s' token' :
  predict_batch_tokens net self label_name return_loss max_length batch
    = Some (res, loss, cnt) →
  s' ∈ res → token' ∈ s' →
  ∃ best,
    lemma_of self best = Some (get_tag token' label_name) ∧
    1 ≤ length best ≤ 1 `max` max_length ∧
    end_index self ∉ drop 1 best.
Proof.
  unfold predict_batch_tokens.
  destruct (mapM _ batch) as [results|] eqn:Hm; [|done].
  cbn [mbind option_bind]. intros [= <- _ _] Hs' Htoken.
  apply list_elem_of_fmap in Hs' as (rs & -> & Hrs).
  apply list_elem_of_fmap in Htoken as ([t l] & -> & Ht). simpl.
  apply mapM_Some in Hm. apply list_elem_of_lookup_1 in Hrs as [i Hi].
  destruct (Forall2_lookup_r _ _ _ _ _ Hm Hi) as (s & _ & Hps).
  unfold predict_sentence in Hps. apply mapM_Some in Hps.
  apply list_elem_of_lookup_1 in Ht as [j Hj].
  destruct (Forall2_lookup_r _ _ _ _ _ Hps Hj) as ([k token] & _ & Hpt).
  simpl in Hpt.
  apply predict_token_sequence in Hpt as (sq & lemma & Hsq & Hl & ->).
  exists sq. rewrite get_tag_tagged. split; [done|].
  by eapply search_token_counted.
Qed.

Lemma predict_batch_written (batch : list Sentence) res loss cnt s' token' :
  beam_size self ≠ 1 →
  predict_batch net self label_name return_loss max_length batch
    = Some (res, loss, cnt) →
  s' ∈ res → token' ∈ s' →
  ∃ best,
    lemma_of self best = Some (get_tag token' label_name) ∧
    1 ≤ length best ≤ 1 `max` max_length ∧
    end_index self ∉ drop 1 best.
Proof.
  intros Hbeam (outs & lemmas & Hs & Hl & Ht)%predict_batch_sequences Hs' Htoken.
  assert (Hin : token' ∈ concat res).
  { apply elem_of_concat. by exists s'. }
  apply list_elem_of_lookup_1 in Hin as [i Hi].
  destruct (Forall2_lookup_l _ _ _ _ _ Ht Hi) as (lemma & Hlemma & token & ->).
  destruct (Forall2_lookup_r _ _ _ _ _ Hl Hlemma) as (o & Ho & Hlo).
  exists o.1. rewrite get_tag_tagged. split; [done|].
  apply list_elem_of_lookup_2 in Ho as Hoin. split.
  - by eapply search_batch_lengths.
  - eapply search_batch_end_symbol; [|exact Hs|exact Hoin].
    assert (0 < beam_size self); [|lia].
    apply search_batch_length in Hs as Hlen.
    apply search_batch_Some in Hs as (_ & _ & _ & st & fc & _ & _ & _ & _ & Hf & _).
    eapply fill_unfinished_beam; [exact Hf|].
    rewrite <- Hlen. apply lookup_lt_Some in Ho. lia.
Qed.
End Written.



(** * Printing the predictions *)

Lemma get_tag_tagged_other label_name lemma token name :
  name ≠ label_name →
  get_tag (tagged label_name lemma token) name = get_tag token name.
Proof.
  intros Hne. unfold get_tag, tagged, add_tag, remove_labels. simpl.
  by rewrite lookup_insert_ne, lookup_delete_ne.
Qed.

Lemma fmap_Forall2_eq {A B C : Type} (f : A → C) (g : B → C) (l : list A) (k : list B) :
  Forall2 (λ a b, f a = g b) l k → f <$> l = g <$> k.
Proof. induction 1 as [|a b l k H _ IH]; [done|]. by rewrite !fmap_cons, H, IH. Qed.

Lemma predict_store {tensor : Type} (net : Network tensor) self sentences label_name
    mini_batch_size return_loss store ret :
  (predict net self sentences label_name mini_batch_size return_loss).2
    = Some (store, ret) →
  Forall2 (λ s s' : Sentence,
             if decide (0 < length s) then annotated label_name s s' else s' = s)
    (given_sentences sentences) store.
Proof.
  intros H. set (given := given_sentences sentences).
  destruct (decide (filter (λ s : Sentence, 0 < length s) given = [])) as [Hnil|Hne].
  - apply predict_Some in H as [(_ & -> & _)|(Hn & _)]; [|done]. fold given.
    apply filter_nonempty_nil in Hnil. rewrite Forall_forall in Hnil.
    apply Forall2_same_length_lookup_2; [done|].
    intros i s s' Hs Hs'. pose proof (eq_trans (eq_sym Hs') Hs) as Heq.
    injection Heq as ->. rewrite decide_False; [done|].
    pose proof (Hnil s (list_elem_of_lookup_2 _ _ _ Hs)). lia.
  - destruct (predict_results net _ _ _ _ _ _ _ H Hne)
      as (ml & results & _ & _ & _ & Hann & -> & _).
    by apply scatter_spec.
Qed.

(** X18 — [_print_predictions] shows in its last column the label
    "predicted" and no other: after a call of [predict] with another label
    name the lines are what they were before the call, without the lemmas
    that the call has written. *)
Theorem printed_predictions_need_the_default_label {tensor : Type}
    (net : Network tensor) (self : Lemmatizer) (sentences : Sentence + list Sentence)
    (label_name : string) (mini_batch_size : nat) (return_loss : bool)
    (store : list Sentence) (ret : Returned) (gold_label_type : string) :
  (predict net self sentences label_name mini_batch_size return_loss).2
    = Some (store, ret) →
  label_name ≠ "predicted" →
  label_name ≠ gold_label_type →
  _print_predictions store gold_label_type
  = _print_predictions (given_sentences sentences) gold_label_type.
Proof.
  intros H Hp Hg. apply predict_store in H. unfold _print_predictions.
  symmetry. apply fmap_Forall2_eq.
  eapply Forall2_impl; [exact H|]. intros s s' Hs. simpl in Hs.
  assert (Hann : Forall2 (λ token token' : Token,
                    text token' = text token ∧
                    get_tag token' gold_label_type = get_tag token gold_label_type ∧
                    get_tag token' "predicted" = get_tag token "predicted") s s').
  { case_decide.
    - eapply Forall2_impl; [exact Hs|]. intros token token' [lemma ->].
      split; [done|]. by rewrite !get_tag_tagged_other.
    - rewrite Hs. by apply Forall_Forall2_diag, Forall_forall. }
  assert (E1 : text <$> s = text <$> s').
  { apply fmap_Forall2_eq. eapply Forall2_impl; [exact Hann|].
    by intros t t' (-> & _). }
  assert (E2 : (λ token, get_tag token gold_label_type) <$> s
               = (λ token, get_tag token gold_label_type) <$> s').
  { apply fmap_Forall2_eq. eapply Forall2_impl; [exact Hann|].
    by intros t t' (_ & -> & _). }
  assert (E3 : (λ token, get_tag token "predicted") <$> s
               = (λ token, get_tag token "predicted") <$> s').
  { apply fmap_Forall2_eq. eapply Forall2_impl; [exact Hann|].
    by intros t t' (_ & _ & ->). }
  by rewrite E1, E2, E3.
Qed.

Lemma printed_predictions_need_the_default_label_witness :
  (predict (demo_network end_after_a) (demo_model 2 true true 3)
     (inr [[labelled "ab" "b"]]) "guess" 16 false).2
  = Some ([[tagged "guess" "a" (labelled "ab" "b")]], RetNone) ∧
  "guess" ≠ "predicted" ∧
  "guess" ≠ "lemma" ∧
  _print_predictions [[tagged "guess" "a" (labelled "ab" "b")]] "lemma"
  = _print_predictions (given_sentences (inr [[labelled "ab" "b"]])) "lemma".
Proof.
  assert (H : (predict (demo_network end_after_a) (demo_model 2 true true 3)
                 (inr [[labelled "ab" "b"]]) "guess" 16 false).2
              = Some ([[tagged "guess" "a" (labelled "ab" "b")]], RetNone))
    by (vm_compute; reflexivity).
  assert (H1 : "guess" ≠ "predicted") by discriminate.
  assert (H2 : "guess" ≠ "lemma") by discriminate.
  split; [exact H|]. split; [exact H1|]. split; [exact H2|].
  exact (printed_predictions_need_the_default_label _ _ _ _ _ _ _ _ "lemma" H H1 H2).
Defined.

(** * More hypotheses than characters *)

Lemma length_concat_fmap {A B : Type} (f : A → B) (ls : list (list A)) :
  length (concat ((λ l : list A, f <$> l) <$> ls)) = length (concat ls).
Proof.
  induction ls as [|l ls IH]; [done|].
  rewrite fmap_cons. cbn [concat]. rewrite !length_app, length_fmap. by rewrite IH.
Qed.

Section Wide.
Context {tensor : Type} (net : Network tensor) (self : Lemmatizer) (n : nat).
Context (Hd : distributions net n).
Context (Hwide : n < beam_size self).

Lemma top_characters_wide t :
  top_characters net self (character_decoder net t) = None.
Proof.
  unfold top_characters, topk. rewrite decide_False; [done|].
  rewrite mask_probs_length. destruct (Hd t) as [-> _]. lia.
Qed.

Lemma search_token_wide return_loss max_length embedding token :
  search_token net self return_loss max_length embedding token = None.
Proof.
  unfold search_token.
  destruct (token_encoding net self embedding token) as [[hid enc]|]; [|done].
  cbn [mbind option_bind].
  destruct (if return_loss then _ else _) as [target|]; [|done].
  cbn [mbind option_bind]. unfold first_pass.
  destruct (decode net self (start_index self) hid enc) as [[out hid']|] eqn:Hdec;
    [|done].
  apply decode_output in Hdec as [t ->]. cbn [mbind option_bind].
  by rewrite top_characters_wide.
Qed.

Lemma predict_batch_tokens_wide label_name return_loss max_length
    (batch : list Sentence) :
  concat batch ≠ [] →
  predict_batch_tokens net self label_name return_loss max_length batch = None.
Proof.
  intros Hne. unfold predict_batch_tokens.
  assert (Hs : ∃ s, s ∈ batch ∧ s ≠ []).
  { clear -Hne. induction batch as [|s batch IH]; [done|].
    destruct s as [|t s].
    - destruct IH as (s' & Hs' & Hn); [done|]. exists s'. split; [by right|done].
    - exists (t :: s). split; [by left|done]. }
  destruct Hs as (s & Hs & Hn).
  rewrite (mapM_None_elem _ _ s Hs); [done|].
  unfold predict_sentence. destruct s as [|t s]; [done|].
  rewrite (mapM_None_elem _ _ (0, t)); [done|by left|].
  unfold predict_token. by rewrite search_token_wide.
Qed.

Lemma predict_batch_wide label_name return_loss max_length (batch : list Sentence) :
  concat batch ≠ [] →
  predict_batch net self label_name return_loss max_length batch = None.
Proof.
  intros Hne. unfold predict_batch, search_batch. cbv zeta.
  destruct (encode net self _) as [encoded|] eqn:He; [|done].
  cbn [mbind option_bind].
  destruct (if return_loss then _ else _) as [target|]; [|done].
  cbn [mbind option_bind].
  assert (Hf : first_step net self return_loss encoded target = None); [|by rewrite Hf].
  apply encode_length in He.
  rewrite length_concat_fmap in He.
  destruct encoded as [|[hid enc] encoded].
  { simpl in He. by destruct (concat batch). }
  unfold first_step. rewrite (mapM_None_elem _ _ (hid, enc)); [done|by left|].
  destruct (decode net self (start_index self) hid enc) as [[out hid']|] eqn:Hdec;
    [|done].
  apply decode_output in Hdec as [t ->]. cbn [mbind option_bind].
  by rewrite top_characters_wide.
Qed.
End Wide.

(** X19 — a model that keeps more hypotheses than its alphabet has
    characters cannot predict: taking the [beam_size] best characters of the
    first distribution raises, for every call on sentences with a word,
    word by word as well as on whole batches. *)
Theorem beam_wider_than_the_alphabet_raises {tensor : Type} (net : Network tensor)
    (self : Lemmatizer) (n : nat) (sentences : Sentence + list Sentence)
    (label_name : string) (mini_batch_size : nat) (return_loss : bool) :
  distributions net n →
  n < beam_size self →
  (∃ s, s ∈ given_sentences sentences ∧ s ≠ []) →
  (predict net self sentences label_name mini_batch_size return_loss).2 = None.
Proof.
  intros Hd Hwide Hs. apply predict_None; [done|].
  intros max_length batch Hne. rewrite predict_model.
  assert (Hw : n < beam_size (if decide (beam_size self = 1)
                              then set_batching_in_rnn false self else self))
    by (by case_decide).
  destruct (batching_in_rnn _).
  - by eapply predict_batch_wide.
  - by eapply predict_batch_tokens_wide.
Qed.

Lemma beam_wider_than_the_alphabet_raises_witness :
  distributions (demo_network never_end) 7 ∧
  7 < beam_size (demo_model 8 true true 3) ∧
  (∃ s, s ∈ given_sentences (inr [[word "ab"]]) ∧ s ≠ []) ∧
  (predict (demo_network never_end) (demo_model 8 true true 3) (inr [[word "ab"]])
     "predicted" 16 false).2 = None.
Proof.
  assert (H1 : distributions (demo_network never_end) 7)
    by exact never_end_distributions.
  assert (H2 : 7 < beam_size (demo_model 8 true true 3)) by (simpl; lia).
  assert (H3 : ∃ s, s ∈ given_sentences (inr [[word "ab"]]) ∧ s ≠ []).
  { exists [word "ab"]. split; [by left|discriminate]. }
  split; [exact H1|]. split; [exact H2|]. split; [exact H3|].
  exact (beam_wider_than_the_alphabet_raises (demo_network never_end)
           (demo_model 8 true true 3) 7 (inr [[word "ab"]]) "predicted" 16 false
           H1 H2 H3).
Defined.

(** * Teacher forcing *)

Lemma padded_row_input self longest label :
  padded_row self false true false (longest + 1) label
  = start_index self :: char_indices (char_dictionary self) label
    ++ replicate (longest - String.length label) (dummy_index self).
Proof.
  unfold padded_row, special. simpl.
  replace (longest + 1 - (String.length label + 1))
    with (longest - String.length label) by lia.
  done.
Qed.

Lemma padded_row_target self longest label :
  padded_row self true false false (longest + 1) label
  = char_indices (char_dictionary self) label
    ++ end_index self :: replicate (longest - String.length label) (dummy_index self).
Proof.
  unfold padded_row, special. simpl.
  replace (longest + 1 - (String.length label + 1))
    with (longest - String.length label) by lia.
  done.
Qed.

(** X20 — training is teacher forced: the decoder of a word reads the start
    symbol and then the characters of the gold lemma, its output at every
    position is compared with the next character of the lemma, and behind
    the last character with the end symbol; both rows are filled up with the
    padding index to the length of the longest lemma plus one, and the padded
    positions count in the loss. *)
Theorem training_is_teacher_forced {tensor : Type} (net : Network tensor)
    (self : Lemmatizer) (sentences : Sentence + list Sentence) scores labels :
  forward_pass net self sentences = Some (scores, labels) →
  ∃ encoded longest,
    encode net self (given_sentences sentences) = Some encoded ∧
    py_max (String.length <$> labels) = Some longest ∧
    let decoder_input (label : string) :=
      start_index self :: char_indices (char_dictionary self) label
      ++ replicate (longest - String.length label) (dummy_index self) in
    let target (label : string) :=
      char_indices (char_dictionary self) label
      ++ end_index self
         :: replicate (longest - String.length label) (dummy_index self) in
    Forall2 (λ x scores_of_word,
               fst <$> decode_sequence net self x.1 x.2.1 x.2.2 = Some scores_of_word)
      (zip (decoder_input <$> labels) encoded) scores ∧
    _calculate_loss net self scores labels
    = let position_losses :=
        concat (zip_with (zip_with (cross_entropy net)) scores (target <$> labels)) in
      Some (Qdiv_nat (Qsum position_losses) (length labels * (longest + 1))).
Proof.
  intros H.
  pose proof (forward_pass_shapes net self _ _ _ H) as (longest' & Hl' & Hlen & Hall).
  apply forward_pass_Some in H as (Hlabels & encoded & longest & He & Hl & HF).
  rewrite Hl in Hl'. injection Hl' as <-.
  exists encoded, longest. split; [done|]. split; [done|]. cbv zeta.
  assert (Hin : (λ label, start_index self :: char_indices (char_dictionary self) label
                          ++ replicate (longest - String.length label) (dummy_index self))
                  <$> labels
                = padded_row self false true false (longest + 1) <$> labels).
  { apply list_fmap_ext. intros i label _. by rewrite padded_row_input. }
  rewrite Hin. split; [done|].
  destruct (calculate_loss_is_Some net self scores labels longest Hl Hlen Hall)
    as (target & Ht & Heq & _).
  unfold _calculate_loss. rewrite Ht. cbn [mbind option_bind].
  rewrite decide_True by done.
  destruct (words_to_char_indices_padded self labels true false false None)
    as (longest' & Hl' & Hw).
  { intros ->. done. }
  rewrite Hl in Hl'. injection Hl' as <-. rewrite Ht in Hw. injection Hw as Htarget.
  assert (Htar : padded_row self true false false (longest + 1) <$> labels
                 = (λ label, char_indices (char_dictionary self) label
                             ++ end_index self
                                :: replicate (longest - String.length label)
                                     (dummy_index self)) <$> labels).
  { apply list_fmap_ext. intros i label _. by rewrite padded_row_target. }
  rewrite Htar in Htarget. rewrite Htarget. clear Ht Heq Htarget Htar. do 2 f_equal.
  assert (Hrows : Forall (λ x : list Q, length x = longest + 1)
                    (zip_with (zip_with (cross_entropy net)) scores
                       ((λ label, char_indices (char_dictionary self) label
                                  ++ end_index self
                                     :: replicate (longest - String.length label)
                                          (dummy_index self)) <$> labels))).
  { apply Forall_forall. intros x (s & t & -> & Hs & Htt)%elem_of_zip_with.
    rewrite length_zip_with. rewrite Forall_forall in Hall. rewrite (Hall s Hs).
    apply list_elem_of_fmap in Htt as (label & -> & Hlab).
    rewrite <- padded_row_target, length_padded_row; [lia|]. simpl.
    apply py_max_spec in Hl as [_ Hmax].
    assert (String.length label ≤ longest); [|lia].
    apply Hmax, list_elem_of_fmap. by exists label. }
  rewrite (concat_uniform_length _ _ Hrows), length_zip_with, length_fmap, Hlen.
  f_equal. lia.
Qed.

Lemma training_is_teacher_forced_witness :
  forward_pass (demo_network never_end) (demo_model 2 true true 3)
    (inr [[labelled "abc" "ab"; labelled "b" "b"]])
  = Some ([[never_end 0 0; never_end 0 0; never_end 0 0];
           [never_end 0 0; never_end 0 0; never_end 0 0]], ["ab"; "b"]) ∧
  ∃ loss,
    _calculate_loss (demo_network never_end) (demo_model 2 true true 3)
      [[never_end 0 0; never_end 0 0; never_end 0 0];
       [never_end 0 0; never_end 0 0; never_end 0 0]] ["ab"; "b"]
    = Some (Qdiv_nat loss 6).
Proof.
  assert (H : forward_pass (demo_network never_end) (demo_model 2 true true 3)
                (inr [[labelled "abc" "ab"; labelled "b" "b"]])
              = Some ([[never_end 0 0; never_end 0 0; never_end 0 0];
                       [never_end 0 0; never_end 0 0; never_end 0 0]], ["ab"; "b"]))
    by (vm_compute; reflexivity).
  split; [exact H|].
  destruct (training_is_teacher_forced _ _ _ _ _ H)
    as (encoded & longest & _ & Hl & _ & Hloss).
  injection Hl as <-. eexists. exact Hloss.
Defined.
(** ** Searches of any length that do not fail *)

Lemma words_to_char_indices_width self tokens end_symbol start_symbol padding_in_front
    max_length :
  tokens ≠ [] →
  ∃ width,
    words_to_char_indices self tokens end_symbol start_symbol padding_in_front
      (Some max_length)
      = Some ((λ token, fill_row self token end_symbol start_symbol padding_in_front
                          width (Nat.b2n end_symbol + Nat.b2n start_symbol)) <$> tokens) ∧
    max_length ≤ width ∧ Nat.b2n end_symbol + Nat.b2n start_symbol ≤ width.
Proof.
  intros Hne. unfold words_to_char_indices.
  destruct (py_max_is_Some (String.length <$> tokens)) as [longest Hl].
  { destruct tokens; done. }
  rewrite Hl. simpl.
  eexists. split; [reflexivity|].
  destruct max_length as [|m]; lia.
Qed.

Lemma lemma_of_below {tensor : Type} (net : Network tensor) (self : Lemmatizer) n seq :
  (∀ i, i < n → ∃ item, get_item_for_index (char_dictionary self) i = Some item ∧
                        item ≠ EmptyString) →
  indices_below n seq →
  ∃ lemma, lemma_of self seq = Some lemma ∧ lemma ≠ EmptyString.
Proof.
  intros Hitems [Hne Hall].
  assert (Hany : ∀ l, Forall (λ i, i < n) l → is_Some (lemma_of self l)).
  { induction 1 as [|i l Hi _ IH]; [by eexists|].
    rewrite lemma_of_cons. destruct (Hitems i Hi) as (item & -> & _).
    destruct IH as [rest ->]. simpl. eauto. }
  destruct seq as [|i seq]; [done|].
  apply Forall_cons in Hall as [Hi Hall].
  rewrite lemma_of_cons. destruct (Hitems i Hi) as (item & -> & Hitem).
  destruct (Hany seq Hall) as [rest ->]. simpl.
  eexists. split; [reflexivity|].
  destruct item; [done|]. done.
Qed.

Section TotalToken.
Context {tensor : Type} (net : Network tensor) (self : Lemmatizer).
Context (n : nat).
Context (Hd : distributions net n).
Context (Hbeam : 1 ≤ beam_size self ≤ n).
Context (return_loss : bool).

Lemma next_characters_is_Some i enc target (h : Candidate tensor) :
  (use_attention self = true → is_Some enc) →
  candidate_seq h ≠ [] →
  (return_loss = true → i < length target) →
  is_Some (next_characters net self return_loss i enc target h).
Proof.
  intros Ha Hne Hi. destruct h as [[[sq hid] score] seq_loss].
  unfold candidate_seq in Hne. simpl in Hne. unfold next_characters.
  destruct (last sq) as [input_index|] eqn:Hlast.
  2:{ apply last_None in Hlast. done. }
  simpl.
  destruct (decode_is_Some net self input_index hid enc Ha) as (t & hid' & ->).
  simpl.
  assert (Hl : ∃ l, (if return_loss
                     then t0 ← target !! i;
                          Some (seq_loss + cross_entropy net (character_decoder net t) t0)%Q
                     else Some 0%Q) = Some l).
  { destruct return_loss; [|eauto].
    destruct (lookup_lt_is_Some_2 target i) as [t0 ->]; [by apply Hi|].
    simpl. eauto. }
  destruct Hl as [l ->]. simpl.
  destruct (top_characters_is_Some net self n Hd Hbeam t) as (top & -> & _).
  simpl. eauto.
Qed.

Lemma expand_is_Some i enc target (live : list (Candidate tensor)) fs :
  (use_attention self = true → is_Some enc) →
  (∀ h, h ∈ live → candidate_seq h ≠ []) →
  (return_loss = true → i < length target) →
  is_Some (expand net self return_loss i enc target live [] fs).
Proof.
  intros Ha Hne Hi. rewrite expand_spec.
  destruct (mapM _ live) as [rs|] eqn:Hm; [simpl; eauto|].
  exfalso. apply eq_None_not_Some in Hm. apply Hm.
  apply mapM_is_Some, Forall_forall. intros h Hh. simpl.
  apply next_characters_is_Some; auto.
Qed.

Lemma expand_below i enc target (live : list (Candidate tensor)) fs ns fs' :
  expand net self return_loss i enc target live [] fs = Some (ns, fs') →
  (∀ h, h ∈ live → indices_below n (candidate_seq h)) →
  (∀ f, f ∈ fs → indices_below n (final_seq f)) →
  (∀ c, c ∈ ns → indices_below n (candidate_seq c)) ∧
  (∀ f, f ∈ fs' → indices_below n (final_seq f)).
Proof.
  intros Hexp Hlive Hfs.
  destruct (expand_members net self return_loss _ _ _ _ _ _ _ Hexp) as [Hns Hfs'].
  split.
  - intros c (h & top & hid' & new_loss & p & idx & Hh & Hnext & Hin & _ & ->)%Hns.
    destruct h as [[[sq hid] score] seq_loss].
    apply next_characters_Some in Hnext
      as (input_index & out & _ & Hdec & Htop & _).
    apply decode_output in Hdec as [t ->].
    destruct (top_characters_is_Some net self n Hd Hbeam t) as (top' & Htop' & _ & Hidx).
    rewrite Htop' in Htop. injection Htop as ->.
    destruct (Hlive _ Hh) as [Hne Hall]. unfold candidate_seq in *. simpl in *.
    split.
    + destruct sq; done.
    + apply Forall_app. split; [done|]. constructor; [|constructor].
      by apply (Hidx p).
  - intros f [Hf|(h & top & hid' & new_loss & p & Hh & _ & _ & ->)]%Hfs'.
    + by apply Hfs.
    + by apply Hlive.
Qed.

Lemma beam_loop_is_Some steps enc target (live : list (Candidate tensor)) fs :
  (use_attention self = true → is_Some enc) →
  (return_loss = true → ∀ i, i ∈ steps → i < length target) →
  live ≠ [] →
  (∀ h, h ∈ live → indices_below n (candidate_seq h)) →
  (∀ f, f ∈ fs → indices_below n (final_seq f)) →
  ∃ live' fs',
    beam_loop net self return_loss steps enc target live fs = Some (live', fs') ∧
    live' ≠ [] ∧
    (∀ h, h ∈ live' → indices_below n (candidate_seq h)) ∧
    (∀ f, f ∈ fs' → indices_below n (final_seq f)).
Proof.
  intros Ha. revert live fs.
  induction steps as [|i steps IH]; intros live fs Hsteps Hne Hlive Hfs.
  - simpl. eauto 10.
  - simpl.
    destruct (expand_is_Some i enc target live fs Ha) as [[ns fs'] Hexp].
    { intros h Hh. by apply Hlive. }
    { intros Hrl. apply Hsteps; [done|left]. }
    rewrite Hexp. simpl.
    destruct (expand_below _ _ _ _ _ _ _ Hexp Hlive Hfs) as [Hns Hfs'].
    destruct (decide (length ns = 0)) as [Hz|Hz]; [eauto 10|].
    apply IH.
    + intros Hrl j Hj. apply Hsteps; [done|by right].
    + intros Hnil. apply (f_equal length) in Hnil.
      rewrite length_take in Hnil. unfold sorted_by in Hnil.
      rewrite sorted_desc_length in Hnil. simpl in Hnil. lia.
    + intros h Hh. apply Hns. apply subseteq_take in Hh.
      unfold sorted_by in Hh. by rewrite sorted_desc_perm in Hh by apply _.
    + done.
Qed.

Context (Hemb : encoder_embeddings self = false).

Lemma token_target_width max_length token :
  ∃ target, token_target self max_length token = Some target ∧
            max_length ≤ length target ∧ 0 < length target.
Proof.
  unfold token_target.
  destruct (words_to_char_indices_width self [gold_label self token] true false false
              max_length) as (width & -> & Hm & Hw); [done|].
  simpl. eexists. split; [reflexivity|]. rewrite length_fill_row. simpl in Hw. lia.
Qed.

(** the search of one word returns, and what it returns can be written out *)
Lemma search_token_is_Some max_length embedding token :
  1 ≤ max_length →
  ∃ best loss,
    search_token net self return_loss max_length embedding token = Some (best, loss) ∧
    indices_below n best.
Proof.
  intros Hml. unfold search_token.
  destruct (token_encoding_is_Some net self Hemb embedding token) as (hid & enc & ->).
  simpl.
  assert (Ht : ∃ target,
             (if return_loss then token_target self max_length token else Some [])
             = Some target ∧ (return_loss = true → max_length ≤ length target)).
  { destruct return_loss.
    - destruct (token_target_width max_length token) as (target & -> & Hl & _). eauto.
    - eexists. split; [done|]. done. }
  destruct Ht as (target & -> & Hl). simpl.
  unfold first_pass.
  destruct (decode_is_Some net self (start_index self) hid (Some enc))
    as (t & hid' & ->); [eauto|].
  simpl.
  destruct (top_characters_is_Some net self n Hd Hbeam t) as (top & -> & Hlen & Hidx).
  simpl.
  assert (Hloss : ∃ loss, (if return_loss
                           then t0 ← target !! 0;
                                Some (cross_entropy net (character_decoder net t) t0)
                           else Some 0%Q) = Some loss).
  { destruct return_loss; [|eauto].
    destruct (lookup_lt_is_Some_2 target 0) as [t0 ->]; [specialize (Hl eq_refl); lia|].
    simpl. eauto. }
  destruct Hloss as (loss & ->). simpl.
  set (first := (λ '(probability, prediction_index), _) <$> top).
  destruct (beam_loop_is_Some (seq 1 (max_length - 1)) (Some enc) target first [])
    as (live & fs & -> & Hne & Hlive & Hfs).
  { eauto. }
  { intros Hrl i Hi%elem_of_seq. specialize (Hl Hrl). lia. }
  { unfold first. destruct top; [simpl in Hlen; lia|done]. }
  { intros h (x & -> & Hx)%list_elem_of_fmap. destruct x as [p idx].
    unfold candidate_seq. simpl. split; [done|].
    constructor; [|constructor]. by apply (Hidx p). }
  { intros f Hf. by apply elem_of_nil in Hf. }
  simpl.
  assert (Hw : ∃ finals, without_end return_loss max_length live fs = Some finals ∧ finals ≠ [] ∧
                         ∀ f, f ∈ finals → indices_below n (final_seq f)).
  { unfold without_end. destruct (decide (length fs = 0)) as [Hz|Hz].
    - destruct live as [|[[[sq hd] score] l] live]; [done|]. simpl.
      rewrite decide_False by lia.
      eexists. split; [reflexivity|]. split; [by destruct fs|].
      intros f [Hf| ->%list_elem_of_singleton]%elem_of_app; [by apply Hfs|].
      apply (Hlive (sq, hd, score, l)). left.
    - eexists. split; [reflexivity|]. split; [by destruct fs|done]. }
  destruct Hw as (finals & -> & Hfne & Hfinals). simpl.
  destruct (sorted_by Qltb final_score finals) as [|[[sq s] l] rest] eqn:Hs.
  { apply (f_equal length) in Hs. unfold sorted_by in Hs.
    rewrite sorted_desc_length in Hs. destruct finals; done. }
  simpl. eexists _, _. split; [reflexivity|].
  apply (Hfinals (sq, s, l)).
  assert (Hin : (sq, s, l) ∈ sorted_by Qltb final_score finals) by (rewrite Hs; left).
  unfold sorted_by in Hin. by rewrite sorted_desc_perm in Hin by apply _.
Qed.
End TotalToken.
(** ** Batched searches of any length that do not fail *)

Lemma gather_is_Some {A : Type} (t : list A) (bn : list nat) :
  (∀ b, b ∈ bn → b < length t) → is_Some (gather t bn).
Proof.
  intros Hb. apply mapM_is_Some, Forall_forall. intros b Hin. simpl.
  apply lookup_lt_is_Some_2. by apply Hb.
Qed.

Lemma gather_length {A : Type} (t : list A) (bn : list nat) x :
  gather t bn = Some x → length x = length bn.
Proof. intros H. apply length_mapM in H. done. Qed.

Lemma gather2_is_Some {A : Type} (w : nat) (t : list (list A)) (bn sn : list nat) :
  Forall (λ row, length row = w) t →
  (∀ b, b ∈ bn → b < length t) → (∀ c, c ∈ sn → c < w) →
  is_Some (gather2 t bn sn).
Proof.
  intros Hrows Hb Hc. apply mapM_is_Some, Forall_forall. intros [b c] Hin. simpl.
  pose proof (elem_of_zip_l _ _ _ _ Hin) as Hbin.
  pose proof (elem_of_zip_r _ _ _ _ Hin) as Hcin.
  destruct (lookup_lt_is_Some_2 t b) as [row Hrow]; [by apply Hb|].
  rewrite Hrow. simpl. apply lookup_lt_is_Some_2.
  rewrite Forall_forall in Hrows.
  rewrite (Hrows row) by (by eapply list_elem_of_lookup_2). by apply Hc.
Qed.

Lemma block_row_bound (w m r : nat) : r < m * w → r / w < m.
Proof. intros Hr. apply Nat.Div0.div_lt_upper_bound. lia. Qed.

Section TotalBatch.
Context {tensor : Type} (net : Network tensor) (self : Lemmatizer).
Context (n : nat).
Context (Hd : distributions net n).
Context (Hbeam : 1 ≤ beam_size self ≤ n).
Context (return_loss : bool).
Let beam := beam_size self.

Lemma decode_rows_is_Some encs (st : Beam tensor) :
  (use_attention self = true → ∀ e, e ∈ encs → is_Some e) →
  is_Some (decode_rows net self encs st).
Proof.
  intros Ha. apply mapM_is_Some, Forall_forall. intros [[input_index hid] enc] Hin.
  simpl. apply elem_of_zip_r in Hin.
  destruct (decode_is_Some net self input_index hid enc) as (t & hid' & ->); [|eauto].
  intros Hatt. by apply Ha.
Qed.

Lemma top_rows_is_Some encs (st : Beam tensor) decoded :
  decode_rows net self encs st = Some decoded →
  is_Some (mapM (top_characters net self) decoded.*1).
Proof.
  intros Hdec. apply mapM_is_Some, Forall_forall. intros out Hout. simpl.
  destruct (decode_rows_outputs net self _ _ _ _ Hdec Hout) as [t ->].
  destruct (top_characters_is_Some net self n Hd Hbeam t) as (top & -> & _). eauto.
Qed.

Lemma set_aside_all_is_Some m j target (st : Beam tensor) outs ps fs lps :
  shaped self m st →
  (return_loss = true →
   length outs = m * beam ∧ length target = m ∧ (∀ row, row ∈ target → j < length row) ∧
   length (losses st) = m * beam) →
  (∀ r c, (r, c) ∈ ps → r < m * beam ∧ c < beam) →
  length fs = m → length lps = m * beam →
  Forall (λ row : list score, length row = beam) lps →
  is_Some (set_aside_all net self return_loss j target st outs ps (fs, lps)).
Proof.
  unfold beam. intros (Hsq & Hsc & _) Hrl. revert fs lps.
  induction ps as [|[r c] ps IH]; intros fs lps Hps Hfs Hlps Hrows; simpl; [eauto|].
  destruct (Hps r c) as [Hr Hc]; [left|].
  pose proof (block_row_bound _ _ _ Hr) as Ht.
  unfold set_aside.
  destruct (lookup_lt_is_Some_2 (sequences st) r) as [sq Hsq']; [lia|].
  destruct (lookup_lt_is_Some_2 (scores st) r) as [parent Hparent]; [lia|].
  destruct (lookup_lt_is_Some_2 lps r) as [row Hrow]; [lia|].
  assert (Hrl' : length row = beam_size self).
  { rewrite Forall_forall in Hrows. apply Hrows. by eapply list_elem_of_lookup_2. }
  destruct (lookup_lt_is_Some_2 row c) as [lp Hlp]; [lia|].
  rewrite Hsq', Hparent, Hrow. cbn [mbind option_bind]. rewrite Hlp.
  cbn [mbind option_bind].
  assert (Hloss : ∃ loss,
            (if return_loss
             then o ← outs !! r;
                  trow ← target !! (r / beam_size self);
                  t ← trow !! j;
                  l ← losses st !! r;
                  Some (Qdiv_nat (l + cross_entropy net o t) (length sq + 1))
             else Some 0%Q) = Some loss).
  { destruct return_loss; [|eauto].
    destruct Hrl as (Ho & Htar & Hj & Hlo); [done|].
    destruct (lookup_lt_is_Some_2 outs r) as [o ->]; [lia|].
    destruct (lookup_lt_is_Some_2 target (r / beam_size self)) as [trow Htrow];
      [lia|].
    rewrite Htrow. cbn [mbind option_bind].
    destruct (lookup_lt_is_Some_2 trow j) as [t ->].
    { apply Hj. by eapply list_elem_of_lookup_2. }
    destruct (lookup_lt_is_Some_2 (losses st) r) as [l ->]; [lia|].
    simpl. eauto. }
  destruct Hloss as [loss ->]. cbn [mbind option_bind]. unfold beam.
  destruct (fs !! (r / beam_size self)) as [old|] eqn:Hold;
    [|apply lookup_ge_None in Hold; unfold Final in *; lia].
  cbn [mbind option_bind].
  apply IH.
  - intros r' c' Hin. apply Hps. by right.
  - by rewrite length_insert.
  - by rewrite length_insert.
  - apply Forall_insert; [done|]. by rewrite length_insert.
Qed.

Lemma best_extensions_is_Some m (scores : list score) lps :
  length scores = m * beam → length lps = m * beam →
  Forall (λ row : list score, length row = beam) lps →
  is_Some (best_extensions self m scores lps).
Proof.
  intros Hsc Hlps Hrows. unfold best_extensions. fold beam.
  set (hs := zip_with (λ s row, score_add s <$> row) scores lps).
  assert (Hhs : Forall (λ r : list score, length r = beam) hs).
  { apply Forall_forall. intros r [k Hk]%list_elem_of_lookup_1.
    unfold hs in Hk. apply lookup_zip_with_Some in Hk as (s & row & -> & _ & Hrow).
    rewrite length_fmap. rewrite Forall_forall in Hrows. apply Hrows.
    by eapply list_elem_of_lookup_2. }
  assert (Hlen : length hs = m * beam).
  { unfold hs. rewrite length_zip_with. lia. }
  destruct (mapM _ (reshape _ (concat hs))) as [ind|] eqn:Hm; [simpl; eauto|].
  exfalso. apply eq_None_not_Some in Hm. apply Hm.
  apply mapM_is_Some, Forall_forall. intros row [t Ht]%list_elem_of_lookup_1.
  pose proof (lookup_lt_Some _ _ _ Ht) as Htm.
  rewrite length_reshape_uniform in Htm.
  rewrite (reshape_concat_uniform beam beam m hs t Hhs Htm) in Ht.
  injection Ht as <-. simpl.
  destruct (topk_is_Some score_ltb beam (concat (take beam (drop (t * beam) hs))))
    as [best ->]; [|simpl; eauto].
  rewrite (concat_uniform_length beam).
  - rewrite length_take, length_drop. nia.
  - apply Forall_take, Forall_drop, Hhs.
Qed.

Lemma best_extensions_bounds m (scores : list score) lps bn sn :
  Forall (λ row : list score, length row = beam) lps →
  best_extensions self m scores lps = Some (bn, sn) →
  length bn = m * beam ∧ length sn = m * beam ∧
  (∀ b, b ∈ bn → b < m * beam) ∧ (∀ c, c ∈ sn → c < beam).
Proof.
  intros Hrows Hbest.
  destruct (best_extensions_spec self m scores lps bn sn Hrows Hbest)
    as (Hbn & Hsn & Hsel).
  fold beam in Hbn, Hsn, Hsel.
  assert (Hpos : ∀ k, k < m * beam →
            ∃ b c, bn !! k = Some b ∧ sn !! k = Some c ∧ b < m * beam ∧ c < beam).
  { intros k Hk.
    destruct (block_position beam k) as [Heq Hmod]; [lia|].
    assert (Ht : k / beam < m) by by apply block_row_bound.
    destruct (Hsel _ Ht) as (sel & Hlen & _ & _ & Hk' & _).
    destruct (lookup_lt_is_Some_2 sel (k `mod` beam)) as [[v q] Hvq]; [lia|].
    destruct (Hk' _ _ _ Hvq) as (Hq & Hb & Hc & _).
    rewrite <- Heq in Hb, Hc.
    eexists _, _. split; [exact Hb|]. split; [exact Hc|].
    assert (q / beam < beam) by (apply Nat.Div0.div_lt_upper_bound; lia).
    assert (q `mod` beam < beam) by (apply Nat.mod_upper_bound; lia).
    split; [nia|done]. }
  split; [done|]. split; [done|]. split.
  - intros b [k Hk]%list_elem_of_lookup_1.
    destruct (Hpos k) as (b' & c & Hb & _ & Hlt & _);
      [apply lookup_lt_Some in Hk; lia|].
    rewrite Hk in Hb. by injection Hb as ->.
  - intros c [k Hk]%list_elem_of_lookup_1.
    destruct (Hpos k) as (b & c' & _ & Hc & _ & Hlt);
      [apply lookup_lt_Some in Hk; lia|].
    rewrite Hk in Hc. by injection Hc as ->.
Qed.

Lemma update_losses_is_Some m target j (old_losses : list Q) (outputs : list (list Q)) :
  length old_losses = m * beam → length outputs = m * beam →
  length target = m → (∀ row, row ∈ target → j < length row) →
  ∃ new_losses,
    update_losses net self target j old_losses outputs = Some new_losses ∧
    length new_losses = m * beam.
Proof.
  intros Ho Hout Htar Hj. unfold update_losses.
  destruct (mapM _ (imap _ (zip old_losses outputs))) as [new|] eqn:Hm.
  - exists new. split; [done|]. apply length_mapM in Hm.
    rewrite length_imap, length_zip in Hm. lia.
  - exfalso. apply eq_None_not_Some in Hm. apply Hm.
    apply mapM_is_Some, Forall_forall. intros [k [l o]] [i Hi]%list_elem_of_lookup_1.
    rewrite list_lookup_imap in Hi.
    destruct (zip old_losses outputs !! i) as [x|] eqn:Hx; simpl in Hi; [|done].
    injection Hi as <- _. apply lookup_lt_Some in Hx. rewrite length_zip in Hx.
    simpl.
    destruct (lookup_lt_is_Some_2 target (i / beam_size self)) as [row Hrow].
    { rewrite Htar. apply block_row_bound. fold beam. lia. }
    rewrite Hrow. simpl.
    destruct (lookup_lt_is_Some_2 row j) as [t ->].
    { apply Hj. by eapply list_elem_of_lookup_2. }
    simpl. eauto.
Qed.

(** one expansion of all hypotheses returns and keeps the state in shape *)
Lemma expand_batch_is_Some m encs target j (st : Beam tensor) :
  length encs = m * beam →
  (use_attention self = true → ∀ e, e ∈ encs → is_Some e) →
  (return_loss = true → length target = m ∧ ∀ row, row ∈ target → j < length row) →
  beam_below self return_loss m n st →
  ∃ st', expand_batch net self return_loss m encs target j st = Some st' ∧
         beam_below self return_loss m n st'.
Proof.
  intros Hencs Ha Htar (Hsh & Hlo & Hseqs & Hfin).
  assert (Hexp : ∃ st', expand_batch net self return_loss m encs target j st = Some st' ∧
            (return_loss = true → length (losses st') = m * beam)).
  { destruct (decode_rows_is_Some encs st Ha) as [decoded Hdec].
    destruct (top_rows_is_Some encs st decoded Hdec) as [top Htop].
    pose proof (decode_rows_length net self m encs st decoded Hsh Hencs Hdec) as Hdl.
    fold beam in Hdl.
    assert (Htl : length top = m * beam).
    { apply length_mapM in Htop. rewrite length_fmap in Htop. lia. }
    assert (Htrows : ∀ r row, top !! r = Some row → length row = beam).
    { intros r row Hr.
      by destruct (table_row_facts net self encs st decoded top r row Hdec Htop Hr). }
    pose proof Hsh as (Hsq & Hsc & Hli & Hhid & Hfc). fold beam in Hsq, Hsc, Hli, Hhid.
    destruct (set_aside_all_is_Some m j target st decoded.*1
                (nonzero (end_index self) (index_table top))
                (final_candidates st) (log_table net top)) as [[fs' lps'] Hset].
    { done. }
    { intros Hrl. rewrite length_fmap. destruct (Htar Hrl) as [? ?]. auto. }
    { intros r c Hin. apply elem_of_nonzero, entry_index_table in Hin as [p Hp].
      unfold entry in Hp.
      destruct (top !! r) as [row|] eqn:Hr; simpl in Hp; [|done].
      apply lookup_lt_Some in Hp. rewrite (Htrows _ _ Hr) in Hp.
      apply lookup_lt_Some in Hr. lia. }
    { done. }
    { unfold log_table. rewrite length_fmap. done. }
    { apply Forall_forall. intros row [r Hr]%list_elem_of_lookup_1.
      unfold log_table in Hr. rewrite list_lookup_fmap in Hr.
      destruct (top !! r) as [trow|] eqn:Htr; simpl in Hr; [|done].
      injection Hr as <-. rewrite length_fmap. by eapply Htrows. }
    pose proof (set_aside_all_table net self return_loss j target st _ _ _ _ _ Hset)
      as Hlps.
    pose proof (without_end_symbol_uniform net self encs st decoded top Hdec Htop)
      as Huni.
    fold beam in Huni. rewrite <- Hlps in Huni.
    assert (Hlpl : length lps' = m * beam).
    { apply set_aside_all_shape in Hset. apply (f_equal length) in Hset.
      rewrite !length_fmap in Hset. unfold log_table in Hset.
      rewrite length_fmap in Hset. lia. }
    destruct (best_extensions_is_Some m (scores st) lps' Hsc Hlpl Huni)
      as [[bn sn] Hbest].
    destruct (best_extensions_bounds m _ _ _ _ Huni Hbest) as (Hbn & Hsn & Hb & Hc).
    destruct (gather_is_Some (sequences st) bn) as [olds Holds];
      [intros b Hin; rewrite Hsq; by apply Hb|].
    destruct (gather2_is_Some beam (index_table top) bn sn) as [chars Hchars].
    { apply Forall_forall. intros row [r Hr]%list_elem_of_lookup_1.
      unfold index_table in Hr. rewrite list_lookup_fmap in Hr.
      destruct (top !! r) as [trow|] eqn:Htr; simpl in Hr; [|done].
      injection Hr as <-. rewrite length_fmap. by eapply Htrows. }
    { intros b Hin. unfold index_table. rewrite length_fmap, Htl. by apply Hb. }
    { done. }
    destruct (gather_is_Some (scores st) bn) as [oscores Hoscores];
      [intros b Hin; rewrite Hsc; by apply Hb|].
    destruct (gather2_is_Some beam lps' bn sn) as [steps Hsteps];
      [done|intros b Hin; rewrite Hlpl; by apply Hb|done|].
    destruct (gather_is_Some decoded.*2 bn) as [hids Hhids];
      [intros b Hin; rewrite length_fmap, Hdl; by apply Hb|].
    assert (Hlosses : ∃ new_losses,
              (if return_loss
               then old_losses ← gather (losses st) bn;
                    outputs ← gather decoded.*1 bn;
                    update_losses net self target j old_losses outputs
               else Some []) = Some new_losses ∧
              (return_loss = true → length new_losses = m * beam)).
    { destruct return_loss; [|by eexists].
      destruct (Htar eq_refl) as [Htl' Hj].
      destruct (gather_is_Some (losses st) bn) as [old_losses Hold];
        [intros b Hin; rewrite Hlo by done; by apply Hb|].
      destruct (gather_is_Some decoded.*1 bn) as [outputs Houts];
        [intros b Hin; rewrite length_fmap, Hdl; by apply Hb|].
      rewrite Hold, Houts. cbn [mbind option_bind].
      apply gather_length in Hold, Houts.
      destruct (update_losses_is_Some m target j old_losses outputs)
        as (new & -> & Hnl); [lia|lia|done|done|].
      eauto. }
    destruct Hlosses as (new_losses & Hnew & Hnl).
    unfold expand_batch. rewrite Hdec. cbn [mbind option_bind].
    rewrite Htop. cbn [mbind option_bind].
    fold (index_table top). fold (log_table net top).
    rewrite Hset. cbn [mbind option_bind].
    rewrite Hbest. cbn [mbind option_bind].
    rewrite Holds. cbn [mbind option_bind].
    rewrite Hchars. cbn [mbind option_bind].
    rewrite Hoscores. cbn [mbind option_bind].
    rewrite Hsteps. cbn [mbind option_bind].
    rewrite Hhids. cbn [mbind option_bind].
    rewrite Hnew. cbn [mbind option_bind].
    eexists. split; [reflexivity|]. done. }
  destruct Hexp as (st' & Hexp & Hlo').
  exists st'. split; [done|].
  split; [by eapply expand_batch_shaped|]. split; [done|].
  destruct (expand_batch_members net self return_loss _ _ _ _ _ _ Hexp) as [Hm1 Hm2].
  destruct (expand_batch_Some net self return_loss _ _ _ _ _ _ Hexp)
    as (decoded & top & fs' & lps' & bn & sn & olds & chars & oscores & steps & hids
        & losses' & Hdec & Htop & _ & _ & _ & Hchars & _ & _ & _ & _ & ->).
  split.
  - intros sq' (sq & c & -> & Hsq & Hc)%Hm1. simpl in Hc.
    destruct (Hseqs _ Hsq) as [Hne Hall]. split; [by destruct sq|].
    apply Forall_app. split; [done|]. constructor; [|constructor].
    apply gather2_Some in Hchars.
    apply list_elem_of_lookup_1 in Hc as [k Hk].
    destruct (Forall2_lookup_r _ _ _ _ _ Hchars Hk) as ([b c'] & _ & He).
    simpl in He. apply entry_index_table in He as [p Hp].
    unfold entry in Hp.
    destruct (top !! b) as [row|] eqn:Hrow; simpl in Hp; [|done].
    destruct (top_rows_outputs net self _ _ _ _ row Hdec Htop) as [t Ht];
      [by eapply list_elem_of_lookup_2|].
    destruct (top_characters_is_Some net self n Hd Hbeam t) as (top' & Htop' & _ & Hidx).
    rewrite Htop' in Ht. injection Ht as ->.
    apply (Hidx p). by eapply list_elem_of_lookup_2.
  - intros l f Hl Hf. destruct (Hm2 l f Hl Hf) as [(l0 & Hl0 & Hf0)|Hsq].
    + by eapply Hfin.
    + by apply Hseqs.
Qed.

Lemma expand_loop_is_Some m encs target steps (st : Beam tensor) :
  length encs = m * beam →
  (use_attention self = true → ∀ e, e ∈ encs → is_Some e) →
  (return_loss = true →
   length target = m ∧ ∀ j row, j ∈ steps → row ∈ target → j < length row) →
  beam_below self return_loss m n st →
  ∃ st', expand_loop net self return_loss m encs target steps st = Some st' ∧
         beam_below self return_loss m n st'.
Proof.
  intros Hencs Ha. revert st.
  induction steps as [|j steps IH]; intros st Htar Hst; simpl; [eauto|].
  destruct (expand_batch_is_Some m encs target j st Hencs Ha) as (st1 & -> & Hst1).
  { intros Hrl. destruct (Htar Hrl) as [Hl Hj]. split; [done|].
    intros row Hrow. apply Hj; [left|done]. }
  { done. }
  simpl. apply IH; [|done].
  intros Hrl. destruct (Htar Hrl) as [Hl Hj]. split; [done|].
  intros j' row Hj' Hrow. apply Hj; [by right|done].
Qed.
End TotalBatch.
(** ** A call that returns a lemma for every word *)

Section TotalPredict.
Context {tensor : Type} (net : Network tensor) (self : Lemmatizer).
Context (n : nat).
Context (Hd : distributions net n).
Context (Hbeam : 1 ≤ beam_size self ≤ n).
Context (Hitems : ∀ i, i < n →
           ∃ item, get_item_for_index (char_dictionary self) i = Some item ∧
                   item ≠ EmptyString).
Context (Hchars : encode_characters self = true).
Context (Hemb : encoder_embeddings self = false).
Context (label_name : string) (return_loss : bool) (max_length : nat).

Lemma batch_target_width (tokens : list Token) :
  tokens ≠ [] →
  ∃ target, batch_target self max_length tokens = Some target ∧
            length target = length tokens ∧
            ∀ row, row ∈ target → max_length ≤ length row ∧ 0 < length row.
Proof.
  intros Hne. unfold batch_target.
  destruct (words_to_char_indices_width self (gold_label self <$> tokens) true false
              false max_length) as (width & -> & Hm & Hw).
  { destruct tokens; done. }
  eexists. split; [reflexivity|]. split; [by rewrite !length_fmap|].
  intros row (x & -> & _)%list_elem_of_fmap. rewrite length_fill_row. simpl in Hw. lia.
Qed.

(** the batched search returns for every word a sequence that can be
    written out *)
Lemma search_batch_is_Some (batch : list Sentence) :
  concat batch ≠ [] →
  ∃ outs, search_batch net self return_loss max_length batch = Some outs ∧
          ∀ o, o ∈ outs → indices_below n o.1.
Proof.
  intros Hne.
  destruct (encode_is_Some net self n Hbeam Hchars Hemb batch Hne)
    as (encoded & Henc & Hlen & Hatt).
  assert (Ht : ∃ target,
             (if return_loss then batch_target self max_length (concat batch)
              else Some []) = Some target ∧
             (return_loss = true →
              length target = length encoded ∧
              ∀ row, row ∈ target → max_length ≤ length row ∧ 0 < length row)).
  { destruct return_loss; [|by eexists].
    destruct (batch_target_width (concat batch) Hne) as (target & -> & Hl & Hr).
    exists target. split; [done|]. intros _. split; [lia|done]. }
  destruct Ht as (target & Htarget & Ht).
  destruct (first_step_is_Some net self n Hd Hbeam return_loss encoded target Hatt)
    as (st0 & Hst0 & Hlo0).
  { intros Hrl. destruct (Ht Hrl) as [Hl Hrows]. split; [done|].
    intros row Hrow. by apply Hrows. }
  destruct (first_step_shaped net self return_loss _ _ _ Hst0) as [Hsh0 _].
  assert (Hb0 : beam_below self return_loss (length encoded) n st0).
  { split; [done|]. split; [done|].
    apply first_step_Some in Hst0 as Hparts.
    destruct Hparts as (rows & Hrows & Hseqs & _ & _ & _ & Hfin).
    split.
    - intros sq. rewrite Hseqs. intros (r & Hin & Hr)%list_elem_of_bind.
      apply list_elem_of_fmap in Hin as ([p i] & -> & Hp).
      apply list_elem_of_lookup_1 in Hr as [k Hk].
      destruct (Forall2_lookup_r _ _ _ _ _ Hrows Hk) as (e & _ & Hdec & Htop).
      apply decode_output in Hdec as [t Hout]. rewrite Hout in Htop.
      destruct (top_characters_is_Some net self n Hd Hbeam t) as (top & Htop' & _ & Hidx).
      rewrite Htop' in Htop. injection Htop as Heq. rewrite <- Heq in Hp.
      split; [done|]. constructor; [|constructor]. by apply (Hidx p).
    - intros l f Hl Hf. rewrite Hfin in Hl.
      apply elem_of_replicate in Hl as [-> _]. by apply elem_of_nil in Hf. }
  destruct (expand_loop_is_Some net self n Hd Hbeam return_loss (length encoded)
              (batched_encoding_output self encoded) target (seq 1 (max_length - 1)) st0)
    as (st & Hst & Hsh & Hlo & Hseqs & Hfins).
  { apply batched_encoding_output_length. }
  { intros Hatt' e. unfold batched_encoding_output. rewrite Hatt'.
    intros (x & Hin & Hx)%list_elem_of_bind.
    apply elem_of_replicate in Hin as [-> _]. by apply Hatt. }
  { intros Hrl. destruct (Ht Hrl) as [Hl Hrows]. split; [done|].
    intros j row Hj%elem_of_seq Hrow. destruct (Hrows row Hrow). lia. }
  { done. }
  destruct (fill_unfinished_is_Some self n Hbeam return_loss max_length (length encoded) st
              Hsh Hlo) as [fc Hfc].
  pose proof Hsh as (_ & Hsc & _).
  destruct (fill_unfinished_Some self return_loss max_length _ st fc Hsc Hfc)
    as [Hfl Hfill].
  pose proof (fill_unfinished_members self return_loss _ _ _ _ Hfc) as Hmem.
  assert (Hrow : ∀ l, l ∈ fc →
            l ≠ [] ∧ ∀ f, f ∈ l → indices_below n (final_seq f)).
  { intros l Hl. split.
    - apply list_elem_of_lookup_1 in Hl as [t Hl].
      pose proof (lookup_lt_Some _ _ _ Hl) as Htl.
      assert (Htl' : t < length encoded) by (unfold Final in *; lia).
      destruct (Hfill t Htl') as (old & Hold & Hkeep & Hnew).
      destruct old as [|f old].
      + destruct Hnew as (k & sq & s & loss & _ & _ & _ & _ & _ & Hfct); [done|].
        pose proof (eq_trans (eq_sym Hl) Hfct) as Heq. by injection Heq as ->.
      + pose proof (eq_trans (eq_sym Hl) (Hkeep ltac:(done))) as Heq.
        by injection Heq as ->.
    - intros f Hf. destruct (Hmem l f Hl Hf) as [(l0 & Hl0 & Hf0)|Hsq].
      + by eapply Hfins.
      + by apply Hseqs. }
  assert (Hbest : ∀ l, l ∈ fc →
            ∃ sq s loss, sorted_by score_ltb final_score l !! 0 = Some (sq, s, loss) ∧
                         indices_below n sq).
  { intros l Hl. destruct (Hrow l Hl) as [Hnil Hall].
    destruct (sorted_by score_ltb final_score l) as [|[[sq s] loss] rest] eqn:Hs.
    { apply (f_equal length) in Hs. unfold sorted_by in Hs.
      rewrite sorted_desc_length in Hs. destruct l; done. }
    exists sq, s, loss. split; [done|].
    apply (Hall (sq, s, loss)).
    assert (Hin : (sq, s, loss) ∈ sorted_by score_ltb final_score l)
      by (rewrite Hs; left).
    unfold sorted_by in Hin. by rewrite sorted_desc_perm in Hin by apply _. }
  unfold search_batch. cbv zeta. rewrite Henc. cbn [mbind option_bind].
  rewrite Htarget. cbn [mbind option_bind].
  rewrite Hst0. cbn [mbind option_bind].
  rewrite <- Hlen, Hst. cbn [mbind option_bind].
  rewrite Hfc. cbn [mbind option_bind].
  destruct (mapM _ fc) as [outs|] eqn:Hm.
  - exists outs. split; [done|]. apply mapM_Some in Hm.
    intros o [k Hk]%list_elem_of_lookup_1.
    destruct (Forall2_lookup_r _ _ _ _ _ Hm Hk) as (l & Hl & Ho).
    destruct (Hbest l) as (sq & s & loss & Hs & Hsq); [by eapply list_elem_of_lookup_2|].
    unfold Final in *. rewrite Hs in Ho. simpl in Ho. by injection Ho as <-.
  - exfalso. apply eq_None_not_Some in Hm. apply Hm.
    apply mapM_is_Some, Forall_forall. intros l Hl.
    destruct (Hbest l Hl) as (sq & s & loss & Hs & _).
    unfold Final in *. simpl. rewrite Hs. simpl. eauto.
Qed.

Lemma predict_batch_is_Some (batch : list Sentence) :
  concat batch ≠ [] →
  ∃ r, predict_batch net self label_name return_loss max_length batch = Some r ∧
       Forall2 (with_lemma label_name) batch r.1.1.
Proof.
  intros Hne. unfold predict_batch. cbv zeta.
  set (batch' := (λ sentence : list Token,
                    (λ token, remove_labels token label_name) <$> sentence) <$> batch).
  assert (Hcat : concat batch'
                 = (λ token, remove_labels token label_name) <$> concat batch).
  { unfold batch'. clear. induction batch as [|s b IH]; [done|].
    rewrite fmap_cons. simpl. by rewrite fmap_app, <- IH. }
  destruct (search_batch_is_Some batch') as (outs & Hs & Houts).
  { rewrite Hcat. destruct (concat batch); done. }
  rewrite Hs. cbn [mbind option_bind].
  pose proof (search_batch_length net _ _ _ _ _ Hs) as Hlen.
  destruct (mapM (λ best : list nat * Q, lemma_of self best.1) outs)
    as [lemmas|] eqn:Hl.
  2:{ exfalso. apply eq_None_not_Some in Hl. apply Hl.
      apply mapM_is_Some, Forall_forall. intros o Ho. simpl.
      destruct (lemma_of_below net self n o.1 Hitems (Houts o Ho)) as (item & -> & _).
      eauto. }
  cbn [mbind option_bind]. eexists. split; [reflexivity|]. simpl.
  apply mapM_Some in Hl. pose proof (Forall2_length _ _ _ Hl) as Hll.
  assert (Hlens : length <$> batch' = length <$> batch).
  { unfold batch'. rewrite <- list_fmap_compose. apply list_fmap_ext.
    intros i s _. simpl. by rewrite length_fmap. }
  rewrite Hlens. apply Forall2_reshape.
  rewrite Hcat. apply Forall2_same_length_lookup_2.
  - by rewrite length_imap, length_fmap.
  - intros i tok tok' Hi Hi'.
    rewrite list_lookup_imap, list_lookup_fmap, Hi in Hi'. simpl in Hi'.
    destruct (lemmas !! i) as [lemma|] eqn:Hlem.
    + injection Hi' as <-. exists lemma. split; [|done].
      destruct (Forall2_lookup_r _ _ _ _ _ Hl Hlem) as (o & Ho & Hlo).
      destruct (lemma_of_below net self n o.1 Hitems) as (item & Hitem & Hne').
      { apply Houts. by eapply list_elem_of_lookup_2. }
      rewrite Hitem in Hlo. by injection Hlo as <-.
    + exfalso. apply lookup_ge_None in Hlem. apply lookup_lt_Some in Hi.
      rewrite Hcat, length_fmap in Hlen. lia.
Qed.

Context (Hml : 1 ≤ max_length).

Lemma predict_token_is_Some embedding token :
  ∃ lemma loss,
    predict_token net self label_name return_loss max_length embedding token
      = Some (tagged label_name lemma token, loss) ∧
    lemma ≠ EmptyString.
Proof.
  unfold predict_token.
  destruct (search_token_is_Some net self n Hd Hbeam return_loss Hemb max_length
              embedding (remove_labels token label_name) Hml)
    as (best & loss & -> & Hbest).
  simpl. destruct (lemma_of_below net self n best Hitems Hbest) as (item & -> & Hne).
  simpl. by exists item, loss.
Qed.

Lemma predict_sentence_is_Some (sentence : Sentence) :
  ∃ res, predict_sentence net self label_name return_loss max_length sentence
           = Some res ∧
         with_lemma label_name sentence res.*1.
Proof.
  unfold predict_sentence.
  destruct (mapM _ (imap (λ i token, (i, token)) sentence)) as [res|] eqn:Hm.
  - exists res. split; [done|]. apply mapM_Some in Hm.
    apply Forall2_fmap_r, Forall2_same_length_lookup_2.
    + apply Forall2_length in Hm. by rewrite length_imap in Hm.
    + intros i tok [tok' loss] Hi Hi'.
      assert (Him : imap (λ i token, (i, token)) sentence !! i = Some (i, tok))
        by by rewrite list_lookup_imap, Hi.
      pose proof (Forall2_lookup_lr _ _ _ _ _ _ Hm Him Hi') as Hp. simpl in Hp.
      destruct (predict_token_is_Some (embed net (text <$> sentence) !! i) tok)
        as (lemma & l & Heq & Hne).
      rewrite Heq in Hp. injection Hp as <- _. by exists lemma.
  - exfalso. apply eq_None_not_Some in Hm. apply Hm.
    apply mapM_is_Some, Forall_forall. intros [i tok] _. simpl.
    destruct (predict_token_is_Some (embed net (text <$> sentence) !! i) tok)
      as (lemma & l & -> & _).
    eauto.
Qed.

Lemma predict_batch_tokens_is_Some (batch : list Sentence) :
  ∃ r, predict_batch_tokens net self label_name return_loss max_length batch = Some r ∧
       Forall2 (with_lemma label_name) batch r.1.1.
Proof.
  unfold predict_batch_tokens.
  destruct (mapM _ batch) as [results|] eqn:Hm.
  - simpl. eexists. split; [reflexivity|]. simpl. apply mapM_Some in Hm.
    apply Forall2_fmap_r. eapply Forall2_impl; [exact Hm|].
    intros s r Hs. simpl.
    destruct (predict_sentence_is_Some s) as (res & Heq & Hw).
    pose proof (eq_trans (eq_sym Heq) Hs) as E. by injection E as <-.
  - exfalso. apply eq_None_not_Some in Hm. apply Hm.
    apply mapM_is_Some, Forall_forall. intros s _. simpl.
    destruct (predict_sentence_is_Some s) as (res & -> & _). eauto.
Qed.
End TotalPredict.

Lemma max_length_of_positive (self : Lemmatizer) (sentences : list Sentence) :
  (dependent_on_input self = false → 1 ≤ max_sequence_length self) →
  concat sentences ≠ [] →
  ∃ max_length, max_length_of self sentences = Some max_length ∧ 1 ≤ max_length.
Proof.
  intros Hfixed Hne. unfold max_length_of.
  destruct (dependent_on_input self).
  - destruct (py_max_is_Some
                ((λ token, String.length (text token) + 1) <$> concat sentences))
      as [m Hm]; [by destruct (concat sentences)|].
    exists m. split; [done|].
    apply py_max_spec in Hm as [(tok & -> & _)%list_elem_of_fmap _]. lia.
  - eexists. split; [done|]. by apply Hfixed.
Qed.


